(** * xsplice-build: the ELF object differencing engine (create-diff-object.c)

    A shallow embedding of the passes of [create-diff-object.c] and the
    properties of them that the specification states.  C strings are
    [string]s read through [peek] (the terminating NUL is what [peek]
    returns at the end), C integers are [Z], pointers to sections and
    symbols are addresses ([nat]) into a store, [NULL] is [None]. *)

From Stdlib Require Import ZArith List String Ascii Bool Lia Arith.
From Stdlib.Strings Require Import Byte.
From Stdlib Require Import Permutation.
Import ListNotations.

Local Open Scope string_scope.
Local Open Scope Z_scope.

(** ** C strings *)

Module CString.

(** [*s]: the character under the pointer, NUL at the end of the string. *)
Definition peek (s : string) : ascii :=
  match s with
  | EmptyString => Ascii.zero
  | String c _ => c
  end.

(** [s + 1].  The code never steps over the terminating NUL. *)
Definition advance (s : string) : string :=
  match s with
  | EmptyString => EmptyString
  | String _ t => t
  end.

(** [isdigit(c)] in the C locale. *)
Definition isdigit (c : ascii) : bool :=
  ((48 <=? nat_of_ascii c) && (nat_of_ascii c <=? 57))%nat.

Definition is_nul (c : ascii) : bool := Ascii.eqb c Ascii.zero.

(** The pointer left by [while (isdigit( *s)) s++;]. *)
Fixpoint skip_digits (s : string) : string :=
  match s with
  | EmptyString => EmptyString
  | String c t => if isdigit c then skip_digits t else s
  end.

(** [strcmp(a, b) == 0] *)
Definition streq (a b : string) : bool := String.eqb a b.

(** [strncmp(s, p, strlen(p)) == 0] *)
Definition has_prefix (p s : string) : bool := String.prefix p s.

(** [strstr(s, p) != NULL] *)
Fixpoint strstr (s p : string) : bool :=
  String.prefix p s ||
  match s with
  | EmptyString => false
  | String _ t => strstr t p
  end.

(** [strchr(s, c) != NULL], for a [c] that is not NUL. *)
Fixpoint strchr (s : string) (c : ascii) : bool :=
  match s with
  | EmptyString => false
  | String d t => Ascii.eqb d c || strchr t c
  end.

End CString.

Import CString.

(** ** Mangled symbol names *)

(** The loop of [xsplice_mangled_strcmp]; one unit of [fuel] per iteration
    of [while ( *s1 == *s2)]. *)
Fixpoint mangled_strcmp_loop (fuel : nat) (s1 s2 : string) : option Z :=
  match fuel with
  | O => None
  | S fuel' =>
      if Ascii.eqb (peek s1) (peek s2) then
        if is_nul (peek s1) then Some 0
        else if Ascii.eqb (peek s1) "." && isdigit (peek (advance s1)) then
          if negb (isdigit (peek (advance s2))) then Some 1
          else mangled_strcmp_loop fuel'
                 (skip_digits (advance s1)) (skip_digits (advance s2))
        else mangled_strcmp_loop fuel' (advance s1) (advance s2)
      else Some 1
  end.

(** Every iteration moves [s1] forward, so [strlen(s1) + 1] iterations are
    enough; [mangled_strcmp_loop_total] shows the default is never used. *)
Definition xsplice_mangled_strcmp (s1 s2 : string) : Z :=
  match mangled_strcmp_loop (S (String.length s1)) s1 s2 with
  | Some r => r
  | None => 1
  end.

(** ** The object model

    [struct symbol], [struct section] and [struct rela] are declared in
    [common.h]; the records below hold the fields that
    [create-diff-object.c] reads and writes.  A pointer to a section or a
    symbol is an address into the [store]; the lists of an [xsplice_elf]
    are lists of addresses, in list order. *)

(** [enum status] *)
Inductive status : Type := NEW | CHANGED | SAME.

Definition status_eqb (a b : status) : bool :=
  match a, b with
  | NEW, NEW | CHANGED, CHANGED | SAME, SAME => true
  | _, _ => false
  end.

Lemma status_eqb_spec a b : reflect (a = b) (status_eqb a b).
Proof. destruct a, b; constructor; congruence. Qed.

(** Constants of [<elf.h>]. *)
Definition STT_NOTYPE : Z := 0.
Definition STT_OBJECT : Z := 1.
Definition STT_FUNC : Z := 2.
Definition STT_SECTION : Z := 3.
Definition STT_FILE : Z := 4.
Definition STB_LOCAL : Z := 0.
Definition STB_GLOBAL : Z := 1.
Definition STB_WEAK : Z := 2.
Definition SHT_PROGBITS : Z := 1.
Definition SHT_RELA : Z := 4.
Definition SHT_NOBITS : Z := 8.
Definition SHT_GROUP : Z := 17.
Definition SHF_ALLOC : Z := 2.
Definition SHF_EXECINSTR : Z := 4.
Definition SHN_UNDEF : Z := 0.
Definition SHN_ABS : Z := 65521.
Definition R_X86_64_64 : Z := 1.
Definition R_X86_64_PC32 : Z := 2.
Definition R_X86_64_32S : Z := 11.

Record rela : Type := mkRela {
  rela_type : Z;
  rela_offset : Z;
  rela_addend : Z;
  rela_sym : nat;                 (* struct symbol *sym, never NULL *)
  rela_string : option string
}.

Record symbol : Type := mkSymbol {
  sym_name : string;
  sym_type : Z;
  sym_bind : Z;
  sym_sec : option nat;           (* struct section *sec *)
  sym_twin : option nat;          (* struct symbol *twin *)
  sym_include : bool;
  sym_status : status;
  st_info : Z;
  st_other : Z;
  st_value : Z;
  st_size : Z;
  st_shndx : Z;
  sym_index : Z
}.

Record section : Type := mkSection {
  sec_name : string;
  sh_type : Z;
  sh_flags : Z;
  sh_addr : Z;
  sh_addralign : Z;
  sh_entsize : Z;
  sh_size : Z;
  d_buf : list byte;              (* data->d_buf, data->d_size bytes long *)
  sec_base : option nat;          (* struct section *base *)
  sec_rela : option nat;          (* struct section *rela *)
  sec_secsym : option nat;        (* struct symbol *secsym *)
  sec_sym : option nat;           (* struct symbol *sym, the bundled symbol *)
  sec_relas : list rela;          (* struct list_head relas *)
  sec_twin : option nat;          (* struct section *twin *)
  sec_include : bool;
  sec_status : status;
  sec_grouped : bool;
  sec_ignore : bool;
  sec_index : Z
}.

(** [data->d_size] *)
Definition d_size (s : section) : Z := Z.of_nat (List.length (d_buf s)).

Definition set_rela_offset (v : Z) (r : rela) : rela :=
  {| rela_type := rela_type r; rela_offset := v;
     rela_addend := rela_addend r; rela_sym := rela_sym r;
     rela_string := rela_string r |}.

Definition set_rela_addend (v : Z) (r : rela) : rela :=
  {| rela_type := rela_type r; rela_offset := rela_offset r;
     rela_addend := v; rela_sym := rela_sym r;
     rela_string := rela_string r |}.

Definition set_rela_sym (v : nat) (r : rela) : rela :=
  {| rela_type := rela_type r; rela_offset := rela_offset r;
     rela_addend := rela_addend r; rela_sym := v;
     rela_string := rela_string r |}.

Definition set_sym_name (v : string) (s : symbol) : symbol :=
  {| sym_name := v; sym_type := sym_type s; sym_bind := sym_bind s;
     sym_sec := sym_sec s; sym_twin := sym_twin s;
     sym_include := sym_include s; sym_status := sym_status s;
     st_info := st_info s; st_other := st_other s; st_value := st_value s;
     st_size := st_size s; st_shndx := st_shndx s;
     sym_index := sym_index s |}.

Definition set_sym_sec (v : option nat) (s : symbol) : symbol :=
  {| sym_name := sym_name s; sym_type := sym_type s; sym_bind := sym_bind s;
     sym_sec := v; sym_twin := sym_twin s; sym_include := sym_include s;
     sym_status := sym_status s; st_info := st_info s;
     st_other := st_other s; st_value := st_value s; st_size := st_size s;
     st_shndx := st_shndx s; sym_index := sym_index s |}.

Definition set_sym_twin (v : option nat) (s : symbol) : symbol :=
  {| sym_name := sym_name s; sym_type := sym_type s; sym_bind := sym_bind s;
     sym_sec := sym_sec s; sym_twin := v; sym_include := sym_include s;
     sym_status := sym_status s; st_info := st_info s;
     st_other := st_other s; st_value := st_value s; st_size := st_size s;
     st_shndx := st_shndx s; sym_index := sym_index s |}.

Definition set_sym_include (v : bool) (s : symbol) : symbol :=
  {| sym_name := sym_name s; sym_type := sym_type s; sym_bind := sym_bind s;
     sym_sec := sym_sec s; sym_twin := sym_twin s; sym_include := v;
     sym_status := sym_status s; st_info := st_info s;
     st_other := st_other s; st_value := st_value s; st_size := st_size s;
     st_shndx := st_shndx s; sym_index := sym_index s |}.

Definition set_sym_status (v : status) (s : symbol) : symbol :=
  {| sym_name := sym_name s; sym_type := sym_type s; sym_bind := sym_bind s;
     sym_sec := sym_sec s; sym_twin := sym_twin s;
     sym_include := sym_include s; sym_status := v; st_info := st_info s;
     st_other := st_other s; st_value := st_value s; st_size := st_size s;
     st_shndx := st_shndx s; sym_index := sym_index s |}.

Definition set_st_shndx (v : Z) (s : symbol) : symbol :=
  {| sym_name := sym_name s; sym_type := sym_type s; sym_bind := sym_bind s;
     sym_sec := sym_sec s; sym_twin := sym_twin s;
     sym_include := sym_include s; sym_status := sym_status s;
     st_info := st_info s; st_other := st_other s; st_value := st_value s;
     st_size := st_size s; st_shndx := v; sym_index := sym_index s |}.

Definition set_sym_index (v : Z) (s : symbol) : symbol :=
  {| sym_name := sym_name s; sym_type := sym_type s; sym_bind := sym_bind s;
     sym_sec := sym_sec s; sym_twin := sym_twin s;
     sym_include := sym_include s; sym_status := sym_status s;
     st_info := st_info s; st_other := st_other s; st_value := st_value s;
     st_size := st_size s; st_shndx := st_shndx s; sym_index := v |}.

Definition set_sec_name (v : string) (s : section) : section :=
  {| sec_name := v; sh_type := sh_type s; sh_flags := sh_flags s;
     sh_addr := sh_addr s; sh_addralign := sh_addralign s;
     sh_entsize := sh_entsize s; sh_size := sh_size s; d_buf := d_buf s;
     sec_base := sec_base s; sec_rela := sec_rela s;
     sec_secsym := sec_secsym s; sec_sym := sec_sym s;
     sec_relas := sec_relas s; sec_twin := sec_twin s;
     sec_include := sec_include s; sec_status := sec_status s;
     sec_grouped := sec_grouped s; sec_ignore := sec_ignore s;
     sec_index := sec_index s |}.

Definition set_d_buf (v : list byte) (s : section) : section :=
  {| sec_name := sec_name s; sh_type := sh_type s; sh_flags := sh_flags s;
     sh_addr := sh_addr s; sh_addralign := sh_addralign s;
     sh_entsize := sh_entsize s; sh_size := sh_size s; d_buf := v;
     sec_base := sec_base s; sec_rela := sec_rela s;
     sec_secsym := sec_secsym s; sec_sym := sec_sym s;
     sec_relas := sec_relas s; sec_twin := sec_twin s;
     sec_include := sec_include s; sec_status := sec_status s;
     sec_grouped := sec_grouped s; sec_ignore := sec_ignore s;
     sec_index := sec_index s |}.

Definition set_sec_secsym (v : option nat) (s : section) : section :=
  {| sec_name := sec_name s; sh_type := sh_type s; sh_flags := sh_flags s;
     sh_addr := sh_addr s; sh_addralign := sh_addralign s;
     sh_entsize := sh_entsize s; sh_size := sh_size s; d_buf := d_buf s;
     sec_base := sec_base s; sec_rela := sec_rela s; sec_secsym := v;
     sec_sym := sec_sym s; sec_relas := sec_relas s; sec_twin := sec_twin s;
     sec_include := sec_include s; sec_status := sec_status s;
     sec_grouped := sec_grouped s; sec_ignore := sec_ignore s;
     sec_index := sec_index s |}.

Definition set_sec_sym (v : option nat) (s : section) : section :=
  {| sec_name := sec_name s; sh_type := sh_type s; sh_flags := sh_flags s;
     sh_addr := sh_addr s; sh_addralign := sh_addralign s;
     sh_entsize := sh_entsize s; sh_size := sh_size s; d_buf := d_buf s;
     sec_base := sec_base s; sec_rela := sec_rela s;
     sec_secsym := sec_secsym s; sec_sym := v; sec_relas := sec_relas s;
     sec_twin := sec_twin s; sec_include := sec_include s;
     sec_status := sec_status s; sec_grouped := sec_grouped s;
     sec_ignore := sec_ignore s; sec_index := sec_index s |}.

Definition set_sec_relas (v : list rela) (s : section) : section :=
  {| sec_name := sec_name s; sh_type := sh_type s; sh_flags := sh_flags s;
     sh_addr := sh_addr s; sh_addralign := sh_addralign s;
     sh_entsize := sh_entsize s; sh_size := sh_size s; d_buf := d_buf s;
     sec_base := sec_base s; sec_rela := sec_rela s;
     sec_secsym := sec_secsym s; sec_sym := sec_sym s; sec_relas := v;
     sec_twin := sec_twin s; sec_include := sec_include s;
     sec_status := sec_status s; sec_grouped := sec_grouped s;
     sec_ignore := sec_ignore s; sec_index := sec_index s |}.

Definition set_sec_twin (v : option nat) (s : section) : section :=
  {| sec_name := sec_name s; sh_type := sh_type s; sh_flags := sh_flags s;
     sh_addr := sh_addr s; sh_addralign := sh_addralign s;
     sh_entsize := sh_entsize s; sh_size := sh_size s; d_buf := d_buf s;
     sec_base := sec_base s; sec_rela := sec_rela s;
     sec_secsym := sec_secsym s; sec_sym := sec_sym s;
     sec_relas := sec_relas s; sec_twin := v; sec_include := sec_include s;
     sec_status := sec_status s; sec_grouped := sec_grouped s;
     sec_ignore := sec_ignore s; sec_index := sec_index s |}.

Definition set_sec_include (v : bool) (s : section) : section :=
  {| sec_name := sec_name s; sh_type := sh_type s; sh_flags := sh_flags s;
     sh_addr := sh_addr s; sh_addralign := sh_addralign s;
     sh_entsize := sh_entsize s; sh_size := sh_size s; d_buf := d_buf s;
     sec_base := sec_base s; sec_rela := sec_rela s;
     sec_secsym := sec_secsym s; sec_sym := sec_sym s;
     sec_relas := sec_relas s; sec_twin := sec_twin s; sec_include := v;
     sec_status := sec_status s; sec_grouped := sec_grouped s;
     sec_ignore := sec_ignore s; sec_index := sec_index s |}.

Definition set_sec_status (v : status) (s : section) : section :=
  {| sec_name := sec_name s; sh_type := sh_type s; sh_flags := sh_flags s;
     sh_addr := sh_addr s; sh_addralign := sh_addralign s;
     sh_entsize := sh_entsize s; sh_size := sh_size s; d_buf := d_buf s;
     sec_base := sec_base s; sec_rela := sec_rela s;
     sec_secsym := sec_secsym s; sec_sym := sec_sym s;
     sec_relas := sec_relas s; sec_twin := sec_twin s;
     sec_include := sec_include s; sec_status := v;
     sec_grouped := sec_grouped s; sec_ignore := sec_ignore s;
     sec_index := sec_index s |}.

Definition set_sec_ignore (v : bool) (s : section) : section :=
  {| sec_name := sec_name s; sh_type := sh_type s; sh_flags := sh_flags s;
     sh_addr := sh_addr s; sh_addralign := sh_addralign s;
     sh_entsize := sh_entsize s; sh_size := sh_size s; d_buf := d_buf s;
     sec_base := sec_base s; sec_rela := sec_rela s;
     sec_secsym := sec_secsym s; sec_sym := sec_sym s;
     sec_relas := sec_relas s; sec_twin := sec_twin s;
     sec_include := sec_include s; sec_status := sec_status s;
     sec_grouped := sec_grouped s; sec_ignore := v;
     sec_index := sec_index s |}.

Definition set_sec_index (v : Z) (s : section) : section :=
  {| sec_name := sec_name s; sh_type := sh_type s; sh_flags := sh_flags s;
     sh_addr := sh_addr s; sh_addralign := sh_addralign s;
     sh_entsize := sh_entsize s; sh_size := sh_size s; d_buf := d_buf s;
     sec_base := sec_base s; sec_rela := sec_rela s;
     sec_secsym := sec_secsym s; sec_sym := sec_sym s;
     sec_relas := sec_relas s; sec_twin := sec_twin s;
     sec_include := sec_include s; sec_status := sec_status s;
     sec_grouped := sec_grouped s; sec_ignore := sec_ignore s;
     sec_index := v |}.

Record store : Type := mkStore {
  syms : nat -> symbol;
  secs : nat -> section
}.

Record xsplice_elf : Type := mkElf {
  sections : list nat;
  symbols : list nat;
  strings : list string
}.

Definition upd_sym (st : store) (p : nat) (f : symbol -> symbol) : store :=
  {| syms := fun q => if Nat.eqb q p then f (syms st q) else syms st q;
     secs := secs st |}.

Definition upd_sec (st : store) (p : nat) (f : section -> section) : store :=
  {| syms := syms st;
     secs := fun q => if Nat.eqb q p then f (secs st q) else secs st q |}.

Lemma syms_upd_sym_eq st p f : syms (upd_sym st p f) p = f (syms st p).
Proof. simpl. now rewrite Nat.eqb_refl. Qed.

Lemma syms_upd_sym_neq st p q f : q <> p -> syms (upd_sym st p f) q = syms st q.
Proof. intros H. simpl. now destruct (Nat.eqb_spec q p). Qed.

Lemma secs_upd_sec_eq st p f : secs (upd_sec st p f) p = f (secs st p).
Proof. simpl. now rewrite Nat.eqb_refl. Qed.

Lemma secs_upd_sec_neq st p q f : q <> p -> secs (upd_sec st p f) q = secs st q.
Proof. intros H. simpl. now destruct (Nat.eqb_spec q p). Qed.

(** ** Outcomes

    A pass either runs to its end or leaves the program: [ERROR()] exits
    with status 1, [DIFF_FATAL()] with status 2; a dereference of [NULL]
    or of a list head, or an access outside a buffer, is [FAULT]; a loop
    that was cut short by its fuel is [OUT_OF_FUEL]. *)
Inductive failure : Type := EXIT_ERROR | EXIT_DIFF_FATAL | FAULT | OUT_OF_FUEL.

Inductive result (A : Type) : Type :=
| Ok (a : A)
| Fail (e : failure).

Arguments Ok {A} a.
Arguments Fail {A} e.

Definition bind {A B : Type} (m : result A) (k : A -> result B) : result B :=
  match m with
  | Ok a => k a
  | Fail e => Fail e
  end.

Notation "x <- m ;; k" := (bind m (fun x => k))
  (at level 61, m at next level, right associativity).

(** Dereference of a pointer that may be [NULL]. *)
Definition deref {A : Type} (p : option A) : result A :=
  match p with
  | Some a => Ok a
  | None => Fail FAULT
  end.

(** A loop over a list that threads a state and stops at the first failure. *)
Fixpoint foreach {A S : Type} (l : list A) (body : S -> A -> result S) (s : S)
  : result S :=
  match l with
  | [] => Ok s
  | a :: l' => s' <- body s a ;; foreach l' body s'
  end.

(** ** Helpers of [common.h] *)

(** Modelled from the spec: [is_rela_section] is defined outside
    [create-diff-object.c]; a relocation section is a section of type
    [SHT_RELA]. *)
Definition is_rela_section (s : section) : bool := sh_type s =? SHT_RELA.

(** Modelled from the spec: [is_text_section] is defined outside
    [create-diff-object.c]; a text section holds executable program bits. *)
Definition is_text_section (s : section) : bool :=
  (sh_type s =? SHT_PROGBITS) &&
  negb (Z.land (sh_flags s) SHF_EXECINSTR =? 0).

(** Modelled from the spec: [is_debug_section] is defined outside
    [create-diff-object.c]; the debug sections are the [.debug_*] sections
    and their relocation sections [.rela.debug_*]. *)
Definition is_debug_section (s : section) : bool :=
  has_prefix ".debug_" (sec_name s) || has_prefix ".rela.debug_" (sec_name s).

(** Modelled from the spec: [is_local_sym] is defined outside
    [create-diff-object.c]; a local symbol has binding [STB_LOCAL]. *)
Definition is_local_sym (s : symbol) : bool := sym_bind s =? STB_LOCAL.

(** Modelled from the spec: [find_section_by_name] is defined outside
    [create-diff-object.c]; the first section of the list with that name,
    [NULL] when there is none. *)
Definition find_section_by_name (st : store) (l : list nat) (name : string)
  : option nat :=
  List.find (fun p => streq (sec_name (secs st p)) name) l.

(** Modelled from the spec: [find_symbol_by_name] is defined outside
    [create-diff-object.c]; the first symbol of the list with that name. *)
Definition find_symbol_by_name (st : store) (l : list nat) (name : string)
  : option nat :=
  List.find (fun p => streq (sym_name (syms st p)) name) l.

(** ** Special statics and constant labels *)

Definition special_static_prefixes : list string :=
  ["__key."; "__warned."; "descriptor."; "__func__."; "_rs."].

(** The tail of [is_special_static], from
    [if (sym->type != STT_OBJECT || sym->bind != STB_LOCAL)] on. *)
Definition is_special_static_object (s : symbol) : bool :=
  if negb (sym_type s =? STT_OBJECT) || negb (sym_bind s =? STB_LOCAL)
  then false
  else existsb (fun p => has_prefix p (sym_name s)) special_static_prefixes.

Definition is_special_static (st : store) (sym : option nat) : result bool :=
  match sym with
  | None => Ok false
  | Some p =>
      let s := syms st p in
      if sym_type s =? STT_SECTION then
        if streq (sym_name s) "__verbose" then Ok true
        else
          sec <- deref (sym_sec s) ;;
          match sec_sym (secs st sec) with
          | None => Ok false
          | Some b => Ok (is_special_static_object (syms st b))
          end
      else Ok (is_special_static_object s)
  end.

(** The [do ... while ( *++str)] loop of [is_constant_label], entered at
    [str]: every character up to the NUL is a digit, and the first one is
    tested even when it is the NUL. *)
Fixpoint all_digits_do_while (str : string) : bool :=
  match str with
  | EmptyString => false
  | String c t =>
      isdigit c &&
      match t with
      | EmptyString => true
      | String _ _ => all_digits_do_while t
      end
  end.

Definition is_constant_label (s : symbol) : bool :=
  if negb (sym_bind s =? STB_LOCAL) then false
  else if negb (has_prefix ".LC" (sym_name s)) then false
  else all_digits_do_while (advance (advance (advance (sym_name s)))).

(** ** Stores written out as lists, for concrete objects *)

Definition blank_symbol : symbol :=
  mkSymbol "" STT_NOTYPE STB_LOCAL None None false NEW 0 0 0 0 0 0.

Definition blank_section : section :=
  mkSection "" 0 0 0 0 0 0 [] None None None None [] None
            false NEW false false 0.

Definition store_of (ss : list symbol) (cs : list section) : store :=
  {| syms := fun p => nth p ss blank_symbol;
     secs := fun p => nth p cs blank_section |}.

(** ** Comparator: relocation equality *)

Definition rela_equal (st : store) (rela1 rela2 : rela) : result bool :=
  if negb (rela_type rela1 =? rela_type rela2) ||
     negb (rela_offset rela1 =? rela_offset rela2)
  then Ok false
  else
    match rela_string rela1 with
    | Some s1 =>
        Ok (match rela_string rela2 with
            | Some s2 => streq s1 s2
            | None => false
            end)
    | None =>
        if negb (rela_addend rela1 =? rela_addend rela2) then Ok false
        else if is_constant_label (syms st (rela_sym rela1)) &&
                is_constant_label (syms st (rela_sym rela2))
        then Ok true
        else
          special <- is_special_static st (Some (rela_sym rela1)) ;;
          if special
          then Ok (xsplice_mangled_strcmp
                     (sym_name (syms st (rela_sym rela1)))
                     (sym_name (syms st (rela_sym rela2))) =? 0)
          else Ok (streq (sym_name (syms st (rela_sym rela1)))
                         (sym_name (syms st (rela_sym rela2))))
    end.

(** [is_special_static] as a plain predicate on a symbol address. *)
Definition special_static (st : store) (p : nat) : bool :=
  match is_special_static st (Some p) with
  | Ok b => b
  | Fail _ => false
  end.

(** Relocation equality in the words of the specification: the four
    conditions hold together, and the mangled comparison of the target
    names is used when either target is a special static. *)
Definition targets_equal_claimed (st : store) (p1 p2 : nat) : bool :=
  if is_constant_label (syms st p1) && is_constant_label (syms st p2) then true
  else if special_static st p1 || special_static st p2
  then xsplice_mangled_strcmp (sym_name (syms st p1)) (sym_name (syms st p2)) =? 0
  else streq (sym_name (syms st p1)) (sym_name (syms st p2)).

Definition rela_equal_claimed (st : store) (rela1 rela2 : rela) : bool :=
  (rela_type rela1 =? rela_type rela2) &&
  (rela_offset rela1 =? rela_offset rela2) &&
  match rela_string rela1 with
  | Some s1 =>
      match rela_string rela2 with
      | Some s2 => streq s1 s2
      | None => false
      end
  | None => rela_addend rela1 =? rela_addend rela2
  end &&
  targets_equal_claimed st (rela_sym rela1) (rela_sym rela2).

(** The loop of [xsplice_compare_correlated_rela_section].  [cursor] is the
    position of [rela2] in the twin's list; at [length relas2] it is the
    list head, which holds no relocation.  The result carries the final
    position of the cursor. *)
Fixpoint compare_relas (st : store) (relas1 relas2 : list rela) (cursor : nat)
  : result (status * nat) :=
  match relas1 with
  | [] => Ok (SAME, cursor)
  | rela1 :: rest =>
      rela2 <- deref (nth_error relas2 cursor) ;;
      eq <- rela_equal st rela1 rela2 ;;
      if eq then compare_relas st rest relas2 (S cursor)
      else Ok (CHANGED, cursor)
  end.

Definition xsplice_compare_correlated_rela_section (st : store) (sec : nat)
  : result store :=
  twin <- deref (sec_twin (secs st sec)) ;;
  r <- compare_relas st (sec_relas (secs st sec)) (sec_relas (secs st twin)) 0 ;;
  Ok (upd_sec st sec (set_sec_status (fst r))).

(** [memcmp(a, b, n) == 0] on two buffers of [n] bytes. *)
Fixpoint bytes_eqb (a b : list byte) : bool :=
  match a, b with
  | [], [] => true
  | x :: a', y :: b' => Byte.eqb x y && bytes_eqb a' b'
  | _, _ => false
  end.

Definition xsplice_compare_correlated_nonrela_section (st : store) (sec : nat)
  : result store :=
  twin <- deref (sec_twin (secs st sec)) ;;
  let sec1 := secs st sec in
  let sec2 := secs st twin in
  if negb (sh_type sec1 =? SHT_NOBITS) &&
     negb (bytes_eqb (d_buf sec1) (firstn (List.length (d_buf sec1)) (d_buf sec2)))
  then Ok (upd_sec st sec (set_sec_status CHANGED))
  else Ok (upd_sec st sec (set_sec_status SAME)).

(** The branch that [xsplice_compare_correlated_section] takes. *)
Inductive compare_branch : Type :=
| HEADERS_DIFFER      (* DIFF_FATAL *)
| SIZES_DIFFER        (* sec->status = CHANGED; goto out *)
| COMPARE_RELAS       (* xsplice_compare_correlated_rela_section *)
| COMPARE_DATA.       (* xsplice_compare_correlated_nonrela_section *)

Definition compare_branch_of (sec1 sec2 : section) : compare_branch :=
  if negb (sh_type sec1 =? sh_type sec2) ||
     negb (sh_flags sec1 =? sh_flags sec2) ||
     negb (sh_addr sec1 =? sh_addr sec2) ||
     negb (sh_addralign sec1 =? sh_addralign sec2) ||
     negb (sh_entsize sec1 =? sh_entsize sec2)
  then HEADERS_DIFFER
  else if negb (sh_size sec1 =? sh_size sec2) ||
          negb (d_size sec1 =? d_size sec2)
  then SIZES_DIFFER
  else if is_rela_section sec1 then COMPARE_RELAS
  else COMPARE_DATA.

Definition xsplice_compare_correlated_section (st : store) (sec : nat)
  : result store :=
  twin <- deref (sec_twin (secs st sec)) ;;
  match compare_branch_of (secs st sec) (secs st twin) with
  | HEADERS_DIFFER => Fail EXIT_DIFF_FATAL
  | SIZES_DIFFER => Ok (upd_sec st sec (set_sec_status CHANGED))
  | COMPARE_RELAS => xsplice_compare_correlated_rela_section st sec
  | COMPARE_DATA => xsplice_compare_correlated_nonrela_section st sec
  end.

(** What [rela_equal] decides, as a proposition. *)
Definition rela_equal_holds (st : store) (rela1 rela2 : rela) : Prop :=
  rela_type rela1 = rela_type rela2 /\
  rela_offset rela1 = rela_offset rela2 /\
  match rela_string rela1 with
  | Some s1 => rela_string rela2 = Some s1
  | None =>
      rela_addend rela1 = rela_addend rela2 /\
      let n1 := sym_name (syms st (rela_sym rela1)) in
      let n2 := sym_name (syms st (rela_sym rela2)) in
      if is_constant_label (syms st (rela_sym rela1)) &&
         is_constant_label (syms st (rela_sym rela2))
      then True
      else if special_static st (rela_sym rela1)
      then xsplice_mangled_strcmp n1 n2 = 0
      else n1 = n2
  end.

(** The loader builds the relocation list of a relocation section from its
    header and data: the number of entries is a function [rela_nr] of
    [sh_size], [sh_entsize] and [d_size]. *)
Definition rela_list_loaded (rela_nr : Z -> Z -> Z -> nat) (s : section) : Prop :=
  List.length (sec_relas s) = rela_nr (sh_size s) (sh_entsize s) (d_size s).

(** Every [STT_SECTION] symbol that a relocation of the list targets has
    its section pointer set. *)
Definition section_targets_placed (st : store) (l : list rela) : Prop :=
  Forall (fun r => sym_type (syms st (rela_sym r)) = STT_SECTION ->
                   sym_sec (syms st (rela_sym r)) <> None) l.

(** *** Example objects for the comparator *)

Module CompareExamples.

(** A patched relocation against the global object [descriptor.1] and its
    twin against the static local [descriptor.2]. *)
Definition st_special : store :=
  store_of
    [ mkSymbol "descriptor.1" STT_OBJECT STB_GLOBAL None None false NEW 0 0 0 8 0 0;
      mkSymbol "descriptor.2" STT_OBJECT STB_LOCAL None None false NEW 0 0 0 8 0 0 ]
    [].

Definition rela_patched : rela := mkRela R_X86_64_64 16 0 0%nat None.
Definition rela_base : rela := mkRela R_X86_64_64 16 0 1%nat None.

(** Two relocations that carry the same inlined string and target
    differently named symbols. *)
Definition st_strings : store :=
  store_of
    [ mkSymbol ".rodata.str1.1" STT_SECTION STB_LOCAL (Some 0%nat) None false NEW 0 0 0 0 0 0;
      mkSymbol ".rodata.str1.8" STT_SECTION STB_LOCAL (Some 1%nat) None false NEW 0 0 0 0 0 0 ]
    [ set_sec_name ".rodata.str1.1" blank_section;
      set_sec_name ".rodata.str1.8" blank_section ].

Definition rela_str_patched : rela := mkRela R_X86_64_32S 4 0 0%nat (Some "hello").
Definition rela_str_base : rela := mkRela R_X86_64_32S 4 8 1%nat (Some "hello").

(** [.rela.text.f] in the patched object (section 0) and in the base
    object (section 1): one call to [g] each. *)
Definition rela_text (twin : nat) (relas : list rela) : section :=
  mkSection ".rela.text.f" SHT_RELA 0 0 8 24 24 (repeat x00 24)
            None None None None relas (Some twin) false SAME false false 0.

Definition st_lock_step : store :=
  store_of
    [ mkSymbol "g" STT_FUNC STB_GLOBAL None None false SAME 0 0 0 0 0 0;
      mkSymbol "g" STT_FUNC STB_GLOBAL None None false SAME 0 0 0 0 0 0 ]
    [ rela_text 1 [mkRela R_X86_64_PC32 5 (-4) 0%nat None];
      rela_text 0 [mkRela R_X86_64_PC32 5 (-4) 1%nat None] ].

(** The entry count as the loader of kpatch computes it. *)
Definition rela_nr (size entsize dsize : Z) : nat := Z.to_nat (size / entsize).

End CompareExamples.

(** ** Migrator and reorderer *)

(** The loop of [xsplice_migrate_symbols]: every symbol of [src] that
    [select] accepts ([select == NULL] accepts all) is unlinked from [src]
    and added at the tail of [dst].  [left] holds, in order, the symbols
    already passed over. *)
Fixpoint migrate_symbols_loop (st : store) (select : option (symbol -> bool))
  (src left dst : list nat) : list nat * list nat :=
  match src with
  | [] => (left, dst)
  | sym :: rest =>
      let skip :=
        match select with
        | Some f => negb (f (syms st sym))
        | None => false
        end in
      if skip
      then migrate_symbols_loop st select rest (left ++ [sym])%list dst
      else migrate_symbols_loop st select rest left (dst ++ [sym])%list
  end.

(** Returns the new [src] and the new [dst]. *)
Definition xsplice_migrate_symbols (st : store) (src dst : list nat)
  (select : option (symbol -> bool)) : list nat * list nat :=
  migrate_symbols_loop st select src [] dst.

Definition is_null_sym (s : symbol) : bool :=
  (String.length (sym_name s) =? 0)%nat.

Definition is_file_sym (s : symbol) : bool := sym_type s =? STT_FILE.

Definition is_local_func_sym (s : symbol) : bool :=
  (sym_bind s =? STB_LOCAL) && (sym_type s =? STT_FUNC).

Definition xsplice_reorder_symbols (st : store) (kelf : xsplice_elf) : xsplice_elf :=
  let symbols0 : list nat := [] in
  (* migrate NULL sym *)
  let '(src1, symbols1) :=
    xsplice_migrate_symbols st (symbols kelf) symbols0 (Some is_null_sym) in
  (* migrate LOCAL FILE sym *)
  let '(src2, symbols2) :=
    xsplice_migrate_symbols st src1 symbols1 (Some is_file_sym) in
  (* migrate LOCAL FUNC syms *)
  let '(src3, symbols3) :=
    xsplice_migrate_symbols st src2 symbols2 (Some is_local_func_sym) in
  (* migrate all other LOCAL syms *)
  let '(src4, symbols4) :=
    xsplice_migrate_symbols st src3 symbols3 (Some is_local_sym) in
  (* migrate all other (GLOBAL) syms *)
  let '(_, symbols5) :=
    xsplice_migrate_symbols st src4 symbols4 None in
  {| sections := sections kelf; symbols := symbols5; strings := strings kelf |}.

(** The bucket of a symbol in the link order: 0 the null symbol, 1 the
    [STT_FILE] symbols, 2 the local functions, 3 the other local symbols,
    4 the rest (the global symbols). *)
Definition bucket (s : symbol) : nat :=
  if is_null_sym s then 0%nat
  else if is_file_sym s then 1%nat
  else if is_local_func_sym s then 2%nat
  else if is_local_sym s then 3%nat
  else 4%nat.

(** The symbols of [l] that fall in bucket [b], in the order of [l]. *)
Definition in_bucket (st : store) (b : nat) (l : list nat) : list nat :=
  filter (fun p => Nat.eqb (bucket (syms st p)) b) l.

(** *** An output model to reorder *)

Module ReorderExamples.

Definition sym (name : string) (type bind : Z) : symbol :=
  mkSymbol name type bind None None true SAME 0 0 0 0 0 0.

Definition st : store :=
  store_of
    [ sym "main" STT_FUNC STB_GLOBAL;
      sym "counter" STT_OBJECT STB_LOCAL;
      sym "" STT_NOTYPE STB_LOCAL;
      sym "helper" STT_FUNC STB_LOCAL;
      sym "a.c" STT_FILE STB_LOCAL;
      sym ".text" STT_SECTION STB_LOCAL;
      sym "init" STT_FUNC STB_LOCAL;
      sym "printk" STT_NOTYPE STB_GLOBAL ]
    [].

Definition kelf : xsplice_elf :=
  {| sections := []; symbols := seq 0 8; strings := [] |}.

End ReorderExamples.

(** ** Correlator: mangled function names *)

(** [p == q] for a pointer [p] that may be [NULL]. *)
Definition ptr_is (p : option nat) (q : nat) : bool :=
  match p with
  | Some a => Nat.eqb a q
  | None => false
  end.

(** [p == q] for two pointers that may be [NULL]. *)
Definition ptr_eqb (p q : option nat) : bool :=
  match p, q with
  | Some a, Some b => Nat.eqb a b
  | None, None => true
  | _, _ => false
  end.

Definition has_mangled_marker (name : string) : bool :=
  strstr name ".isra." || strstr name ".constprop." || strstr name ".part.".

(** The inner loop of [xsplice_rename_mangled_functions]: the first symbol
    of the base list whose name matches [name] under mangled equality. *)
Definition find_mangled_base (st : store) (base : xsplice_elf) (name : string)
  : option nat :=
  List.find (fun b => xsplice_mangled_strcmp (sym_name (syms st b)) name =? 0)
            (symbols base).

(** [sprintf(name, ".rodata.%s", s)] into [char name[256]]. *)
Definition sprintf_rodata (s : string) : result string :=
  let name := ".rodata." ++ s in
  if (String.length name <? 256)%nat then Ok name else Fail FAULT.

(** The part of the loop body that follows [sym->name = strdup(...)], for a
    symbol [sym] that is the bundled symbol of its section [sec]. *)
Definition rename_bundled_sections (base patched : xsplice_elf) (st : store)
  (sec basesym : nat) (origname : string) : result store :=
  basesec <- deref (sym_sec (syms st basesym)) ;;
  let st := upd_sec st sec (set_sec_name (sec_name (secs st basesec))) in
  st <- match sec_rela (secs st sec) with
        | Some r =>
            baserela <- deref (sec_rela (secs st basesec)) ;;
            Ok (upd_sec st r (set_sec_name (sec_name (secs st baserela))))
        | None => Ok st
        end ;;
  name <- sprintf_rodata origname ;;
  match find_section_by_name st (sections patched) name with
  | None => Ok st
  | Some rosec =>
      name <- sprintf_rodata (sym_name (syms st basesym)) ;;
      match find_section_by_name st (sections base) name with
      | None => Ok st
      | Some basero =>
          let st := upd_sec st rosec (set_sec_name (sec_name (secs st basero))) in
          rosym <- deref (sec_secsym (secs st rosec)) ;;
          let st := upd_sym st rosym (set_sym_name (sec_name (secs st rosec))) in
          match sec_rela (secs st rosec) with
          | Some r =>
              baserela <- deref (sec_rela (secs st basero)) ;;
              Ok (upd_sec st r (set_sec_name (sec_name (secs st baserela))))
          | None => Ok st
          end
      end
  end.

(** The body of the loop over the patched symbols. *)
Definition rename_mangled_function (base patched : xsplice_elf) (st : store)
  (sym : nat) : result store :=
  if negb (sym_type (syms st sym) =? STT_FUNC) then Ok st
  else if negb (has_mangled_marker (sym_name (syms st sym))) then Ok st
  else
    match find_mangled_base st base (sym_name (syms st sym)) with
    | None => Ok st
    | Some basesym =>
        if streq (sym_name (syms st sym)) (sym_name (syms st basesym)) then Ok st
        else
          let origname := sym_name (syms st sym) in
          let st := upd_sym st sym (set_sym_name (sym_name (syms st basesym))) in
          sec <- deref (sym_sec (syms st sym)) ;;
          if negb (ptr_is (sec_sym (secs st sec)) sym) then Ok st
          else rename_bundled_sections base patched st sec basesym origname
    end.

Definition xsplice_rename_mangled_functions (base patched : xsplice_elf)
  (st : store) : result store :=
  foreach (symbols patched) (rename_mangled_function base patched) st.

(** The name a patched function carries after the pass: the name of the
    first base symbol that matches it under mangled equality, when its own
    name has one of the three markers and such a base symbol exists. *)
Definition mangled_base_name (st : store) (base : xsplice_elf) (sym : nat)
  : string :=
  if has_mangled_marker (sym_name (syms st sym)) then
    match find_mangled_base st base (sym_name (syms st sym)) with
    | Some basesym => sym_name (syms st basesym)
    | None => sym_name (syms st sym)
    end
  else sym_name (syms st sym).

(** *** Example objects for the renaming *)

Module RenameExamples.

Definition func (name : string) (sec : nat) : symbol :=
  mkSymbol name STT_FUNC STB_LOCAL (Some sec) None false NEW 0 0 0 16 0 0.

Definition secsym (name : string) (sec : nat) : symbol :=
  mkSymbol name STT_SECTION STB_LOCAL (Some sec) None false NEW 0 0 0 0 0 0.

Definition text (name : string) (rela secsym sym : option nat) : section :=
  mkSection name SHT_PROGBITS (SHF_ALLOC + SHF_EXECINSTR) 0 16 0 16 []
            None rela secsym sym [] None false NEW false false 0.

Definition rodata (name : string) (rela secsym : option nat) : section :=
  mkSection name SHT_PROGBITS SHF_ALLOC 0 8 0 8 []
            None rela secsym None [] None false NEW false false 0.

Definition relasec (name : string) (base : nat) : section :=
  mkSection name SHT_RELA 0 0 8 24 0 []
            (Some base) None None None [] None false NEW false false 0.

(** The base object has two clones of [walk]; the patched object has one,
    numbered differently. *)
Definition st_two_clones : store :=
  store_of
    [ func "walk.isra.1" 0; func "walk.isra.2" 1; func "walk.isra.3" 2 ]
    [ text ".text.walk.isra.1" None None (Some 0%nat);
      text ".text.walk.isra.2" None None (Some 1%nat);
      text ".text.walk.isra.3" None None (Some 2%nat) ].

Definition base_two_clones : xsplice_elf :=
  {| sections := [0; 1]%nat; symbols := [0; 1]%nat; strings := [] |}.

Definition patched_two_clones : xsplice_elf :=
  {| sections := [2]%nat; symbols := [2]%nat; strings := [] |}.

(** The base object has [scan.isra.2] with its text, rodata and relocation
    sections (symbols 0-2, sections 0-3); the patched object has the same
    function as [scan.isra.5] (symbols 3-5, sections 4-7). *)
Definition st_bundle : store :=
  store_of
    [ func "scan.isra.2" 0;
      secsym ".text.scan.isra.2" 0;
      secsym ".rodata.scan.isra.2" 2;
      func "scan.isra.5" 4;
      secsym ".text.scan.isra.5" 4;
      secsym ".rodata.scan.isra.5" 6 ]
    [ text ".text.scan.isra.2" (Some 1%nat) (Some 1%nat) (Some 0%nat);
      relasec ".rela.text.scan.isra.2" 0;
      rodata ".rodata.scan.isra.2" (Some 3%nat) (Some 2%nat);
      relasec ".rela.rodata.scan.isra.2" 2;
      text ".text.scan.isra.5" (Some 5%nat) (Some 4%nat) (Some 3%nat);
      relasec ".rela.text.scan.isra.5" 4;
      rodata ".rodata.scan.isra.5" (Some 7%nat) (Some 5%nat);
      relasec ".rela.rodata.scan.isra.5" 6 ].

Definition base_bundle : xsplice_elf :=
  {| sections := [0; 1; 2; 3]%nat; symbols := [0; 1; 2]%nat; strings := [] |}.

Definition patched_bundle : xsplice_elf :=
  {| sections := [4; 5; 6; 7]%nat; symbols := [3; 4; 5]%nat; strings := [] |}.

(** The names of the listed symbols and sections in a store. *)
Definition sym_names (st : store) (l : list nat) : list string :=
  map (fun p => sym_name (syms st p)) l.

Definition sec_names (st : store) (l : list nat) : list string :=
  map (fun p => sec_name (secs st p)) l.

Definition names_after (r : result store) (kelf : xsplice_elf)
  : option (list string * list string) :=
  match r with
  | Ok st => Some (sym_names st (symbols kelf), sec_names st (sections kelf))
  | Fail _ => None
  end.

End RenameExamples.

(** [st'] differs from [st] in names of symbols and sections only. *)
Definition names_only (st st' : store) : Prop :=
  (forall p, syms st' p = set_sym_name (sym_name (syms st' p)) (syms st p)) /\
  (forall s, secs st' s = set_sec_name (sec_name (secs st' s)) (secs st s)).

(** The symbols that are section symbols of a listed section. *)
Definition is_secsym_of (st : store) (l : list nat) (p : nat) : Prop :=
  exists s, In s l /\ sec_secsym (secs st s) = Some p.

(** The base functions that match [name] under mangled equality. *)
Definition mangled_function_matches (st : store) (base : xsplice_elf)
  (name : string) : list nat :=
  filter (fun b => (sym_type (syms st b) =? STT_FUNC) &&
                   (xsplice_mangled_strcmp (sym_name (syms st b)) name =? 0))
         (symbols base).

Definition olist {A : Type} (o : option A) : list A :=
  match o with
  | Some a => [a]
  | None => []
  end.

(** The sections whose names the loop body writes for the bundled symbol
    of [sec] with old name [origname], and the base sections it reads the
    new names from. *)
Definition rodata_sibling (st : store) (kelf : xsplice_elf) (name : string)
  : option nat :=
  find_section_by_name st (sections kelf) (".rodata." ++ name).

Definition bundle_written (st : store) (patched : xsplice_elf) (sec : nat)
  (origname : string) : list nat :=
  (sec :: olist (sec_rela (secs st sec)) ++
   match rodata_sibling st patched origname with
   | Some ro => ro :: olist (sec_rela (secs st ro))
   | None => []
   end)%list.

Definition bundle_read (st : store) (base : xsplice_elf) (basesec : nat)
  (basename : string) : list nat :=
  (basesec :: olist (sec_rela (secs st basesec)) ++
   match rodata_sibling st base basename with
   | Some ro => ro :: olist (sec_rela (secs st ro))
   | None => []
   end)%list.

(** The sections written are distinct from each other, from the sections
    read and from the sections of the base list, and the renaming of [sec]
    and of its relocation section neither hides nor creates a section
    named [.rodata.<origname>]. *)
Definition bundle_separate (st : store) (base patched : xsplice_elf)
  (sec basesec : nat) (origname basename : string) : Prop :=
  NoDup (bundle_written st patched sec origname) /\
  (forall w, In w (bundle_written st patched sec origname) ->
             ~ In w (bundle_read st base basesec basename) /\
             ~ In w (sections base)) /\
  (forall s, In s (sec :: olist (sec_rela (secs st sec))) ->
             sec_name (secs st s) <> ".rodata." ++ origname) /\
  (forall s, In s (basesec :: olist (sec_rela (secs st basesec))) ->
             sec_name (secs st s) <> ".rodata." ++ origname).

(** The store left by the pass on an example ([st] itself if it fails). *)
Definition store_after (r : result store) (st : store) : store :=
  match r with
  | Ok st' => st'
  | Fail _ => st
  end.

(** ** Correlator: sections, symbols and static locals *)

Definition is_some {A : Type} (o : option A) : bool :=
  match o with
  | Some _ => true
  | None => false
  end.

(** [sec1->twin = sec2; sec2->twin = sec1;
     sec1->status = sec2->status = SAME;] *)
Definition twin_sections (st : store) (sec1 sec2 : nat) : store :=
  let st := upd_sec st sec1 (set_sec_twin (Some sec2)) in
  let st := upd_sec st sec2 (set_sec_twin (Some sec1)) in
  let st := upd_sec st sec2 (set_sec_status SAME) in
  upd_sec st sec1 (set_sec_status SAME).

(** [sym1->twin = sym2; sym2->twin = sym1;
     sym1->status = sym2->status = SAME;] *)
Definition twin_symbols (st : store) (sym1 sym2 : nat) : store :=
  let st := upd_sym st sym1 (set_sym_twin (Some sym2)) in
  let st := upd_sym st sym2 (set_sym_twin (Some sym1)) in
  let st := upd_sym st sym2 (set_sym_status SAME) in
  upd_sym st sym1 (set_sym_status SAME).

(** The tests of the inner loop of [xsplice_correlate_sections]: [true]
    when [sec2] is taken as the twin of [sec1], [false] on [continue]. *)
Definition sections_correlate (st : store) (sec1 sec2 : nat) : result bool :=
  let s1 := secs st sec1 in
  let s2 := secs st sec2 in
  if negb (streq (sec_name s1) (sec_name s2)) then Ok false
  else
    secsym <- (if is_rela_section s1
               then base <- deref (sec_base s1) ;; Ok (sec_secsym (secs st base))
               else Ok (sec_secsym s1)) ;;
    special <- is_special_static st secsym ;;
    if special then Ok false
    else if sh_type s1 =? SHT_GROUP then
      if negb (d_size s1 =? d_size s2) then Ok false
      else if negb (bytes_eqb (d_buf s1) (d_buf s2)) then Ok false
      else Ok true
    else Ok true.

Fixpoint correlate_section (st : store) (sec1 : nat) (seclist2 : list nat)
  : result store :=
  match seclist2 with
  | [] => Ok st
  | sec2 :: rest =>
      found <- sections_correlate st sec1 sec2 ;;
      if found then Ok (twin_sections st sec1 sec2)
      else correlate_section st sec1 rest
  end.

Definition xsplice_correlate_sections (st : store) (seclist1 seclist2 : list nat)
  : result store :=
  foreach seclist1 (fun st sec1 => correlate_section st sec1 seclist2) st.

(** The tests of the inner loop of [xsplice_correlate_symbols]. *)
Definition symbols_correlate (st : store) (sym1 sym2 : nat) : result bool :=
  let s1 := syms st sym1 in
  let s2 := syms st sym2 in
  if negb (streq (sym_name s1) (sym_name s2)) ||
     negb (sym_type s1 =? sym_type s2)
  then Ok false
  else
    special <- is_special_static st (Some sym1) ;;
    if special then Ok false
    else if is_constant_label s1 then Ok false
    else
      match sym_sec s1 with
      | Some sec1 =>
          if (sh_type (secs st sec1) =? SHT_GROUP) &&
             negb (ptr_eqb (sec_twin (secs st sec1)) (sym_sec s2))
          then Ok false
          else Ok true
      | None => Ok true
      end.

Fixpoint correlate_symbol (st : store) (sym1 : nat) (symlist2 : list nat)
  : result store :=
  match symlist2 with
  | [] => Ok st
  | sym2 :: rest =>
      found <- symbols_correlate st sym1 sym2 ;;
      if found then Ok (twin_symbols st sym1 sym2)
      else correlate_symbol st sym1 rest
  end.

Definition xsplice_correlate_symbols (st : store) (symlist1 symlist2 : list nat)
  : result store :=
  foreach symlist1 (fun st sym1 => correlate_symbol st sym1 symlist2) st.

Definition xsplice_correlate_elfs (st : store) (kelf1 kelf2 : xsplice_elf)
  : result store :=
  st <- xsplice_correlate_sections st (sections kelf1) (sections kelf2) ;;
  xsplice_correlate_symbols st (symbols kelf1) (symbols kelf2).

(** The first loop of [xsplice_find_static_twin]: another orphaned static
    local of the same mangled name in the patched function is an error. *)
Definition no_other_static (st : store) (sec sym : nat) : result unit :=
  foreach (sec_relas (secs st sec))
    (fun _ rela =>
       if Nat.eqb (rela_sym rela) sym ||
          is_some (sym_twin (syms st (rela_sym rela)))
       then Ok tt
       else if xsplice_mangled_strcmp (sym_name (syms st (rela_sym rela)))
                 (sym_name (syms st sym)) =? 0
       then Fail EXIT_ERROR
       else Ok tt)
    tt.

(** The second loop: the base object's corresponding variable. *)
Definition base_static (st : store) (twin sym : nat) : result (option nat) :=
  foreach (sec_relas (secs st twin))
    (fun basesym rela =>
       if is_some (sym_twin (syms st (rela_sym rela))) then Ok basesym
       else if negb (xsplice_mangled_strcmp (sym_name (syms st (rela_sym rela)))
                       (sym_name (syms st sym)) =? 0)
       then Ok basesym
       else if match basesym with
               | Some b => negb (Nat.eqb b (rela_sym rela))
               | None => false
               end
       then Fail EXIT_ERROR
       else Ok (Some (rela_sym rela)))
    None.

Definition xsplice_find_static_twin (st : store) (sec sym : nat)
  : result (option nat) :=
  match sec_twin (secs st sec) with
  | None => Ok None
  | Some twin =>
      _ <- no_other_static st sec sym ;;
      base_static st twin sym
  end.

(** The loop over the relocations of [tmpsec]: does it reach a relocation
    against [sym]? *)
Fixpoint uses_symbol (relas : list rela) (sym : nat) : bool :=
  match relas with
  | [] => false
  | rela :: rest =>
      if negb (Nat.eqb (rela_sym rela) sym) then uses_symbol rest sym
      else true
  end.

(** The loop over the sections of the patched object; the state is the
    pair of [sec] and [basesym]. *)
Definition static_local_uses (st : store) (patched : xsplice_elf) (sym : nat)
  : result (option nat * option nat) :=
  foreach (sections patched)
    (fun '(sec, basesym) tmpsec =>
       skip <- (if negb (is_rela_section (secs st tmpsec)) then Ok true
                else
                  base <- deref (sec_base (secs st tmpsec)) ;;
                  Ok (negb (is_text_section (secs st base)) ||
                      is_debug_section (secs st tmpsec))) ;;
       if skip then Ok (sec, basesym)
       else if uses_symbol (sec_relas (secs st tmpsec)) sym then
         tmpsym <- xsplice_find_static_twin st tmpsec sym ;;
         match basesym, tmpsym with
         | Some b, Some t =>
             if negb (Nat.eqb b t) then Fail EXIT_ERROR
             else Ok (Some tmpsec, basesym)
         | None, Some t => Ok (Some tmpsec, Some t)
         | _, None => Ok (Some tmpsec, basesym)
         end
       else Ok (sec, basesym))
    (None, None).

(** The body of the loop of [xsplice_correlate_static_local_variables]. *)
Definition correlate_static_local (base patched : xsplice_elf) (st : store)
  (sym : nat) : result store :=
  let s := syms st sym in
  if negb (sym_type s =? STT_OBJECT) || negb (sym_bind s =? STB_LOCAL) ||
     is_some (sym_twin s)
  then Ok st
  else
    special <- is_special_static st (Some sym) ;;
    if special then Ok st
    else if negb (strchr (sym_name s) ".") then Ok st
    else
      found <- static_local_uses st patched sym ;;
      match found with
      | (None, _) => Fail EXIT_ERROR
      | (Some _, None) => Ok st          (* WARNING, assuming variable is new *)
      | (Some _, Some basesym) =>
          symsec <- deref (sym_sec s) ;;
          basesec <- deref (sym_sec (syms st basesym)) ;;
          let bundled := ptr_is (sec_sym (secs st symsec)) sym in
          let basebundled := ptr_is (sec_sym (secs st basesec)) basesym in
          if negb (Bool.eqb bundled basebundled) then Fail EXIT_ERROR
          else if negb bundled &&
                  negb (ptr_is (sec_twin (secs st symsec)) basesec)
          then Fail EXIT_ERROR
          else
            let st := upd_sym st sym
                        (set_sym_name (sym_name (syms st basesym))) in
            let st := twin_symbols st sym basesym in
            if bundled then
              let st := upd_sec st symsec (set_sec_twin (Some basesec)) in
              Ok (upd_sec st basesec (set_sec_twin (Some symsec)))
            else Ok st
      end.

Definition xsplice_correlate_static_local_variables (base patched : xsplice_elf)
  (st : store) : result store :=
  foreach (symbols patched) (correlate_static_local base patched) st.

(** The three correlation passes, as [main] runs them. *)
Definition correlate_all (base patched : xsplice_elf) (st : store)
  : result store :=
  st <- xsplice_correlate_elfs st base patched ;;
  xsplice_correlate_static_local_variables base patched st.

(** *** Twin symmetry *)

Definition sym_twins_symmetric (st : store) : Prop :=
  forall a b, sym_twin (syms st a) = Some b ->
              sym_twin (syms st b) = Some a /\ a <> b.

Definition sec_twins_symmetric (st : store) : Prop :=
  forall a b, sec_twin (secs st a) = Some b ->
              sec_twin (secs st b) = Some a /\ a <> b.

(** No element of a freshly loaded object has a twin. *)
Definition untwinned (st : store) : Prop :=
  (forall a, sym_twin (syms st a) = None) /\
  (forall a, sec_twin (secs st a) = None).

(** The lists of the two objects are linked lists of distinct elements,
    and no element is on a list of both objects. *)
Definition separate_objects (base patched : xsplice_elf) : Prop :=
  NoDup (sections base) /\ NoDup (symbols base) /\
  (forall s, In s (sections base) -> ~ In s (sections patched)) /\
  (forall p, In p (symbols base) -> ~ In p (symbols patched)).

(** The pointers of an object stay inside the object. *)
Definition closed_object (st : store) (kelf : xsplice_elf) : Prop :=
  (forall p s, In p (symbols kelf) -> sym_sec (syms st p) = Some s ->
               In s (sections kelf)) /\
  (forall s r, In s (sections kelf) -> In r (sec_relas (secs st s)) ->
               In (rela_sym r) (symbols kelf)).

(** No two sections of the list share a name, no two symbols a name and a
    type. *)
Definition unique_names (st : store) (kelf : xsplice_elf) : Prop :=
  (forall a b, In a (sections kelf) -> In b (sections kelf) ->
               sec_name (secs st a) = sec_name (secs st b) -> a = b) /\
  (forall a b, In a (symbols kelf) -> In b (symbols kelf) ->
               sym_name (syms st a) = sym_name (syms st b) ->
               sym_type (syms st a) = sym_type (syms st b) -> a = b).

(** A twinned section that has a bundled symbol has it twinned. *)
Definition bundles_follow (st : store) : Prop :=
  forall s q, sec_twin (secs st s) <> None ->
              sec_sym (secs st s) = Some q ->
              sym_twin (syms st q) <> None.

(** Twin pointers as a map from addresses to addresses. *)
Definition twin_map : Type := nat -> option nat.

Definition sym_twins (st : store) : twin_map := fun a => sym_twin (syms st a).
Definition sec_twins (st : store) : twin_map := fun a => sec_twin (secs st a).

(** The map after [a->twin = b; b->twin = a;]. *)
Definition link (tw : twin_map) (a b : nat) : twin_map :=
  fun x => if Nat.eqb x b then Some a
           else if Nat.eqb x a then Some b
           else tw x.

Definition symmetric (tw : twin_map) : Prop :=
  forall a b, tw a = Some b -> tw b = Some a.

(** Every twin pair has one element on the list [A] and one on [B]. *)
Definition crossing (A B : list nat) (tw : twin_map) : Prop :=
  forall a b, tw a = Some b -> (In a A /\ In b B) \/ (In a B /\ In b A).

(** [st'] differs from [st] in twins, statuses and symbol names only. *)
Definition links_only (st st' : store) : Prop :=
  (forall p, exists n t u,
      syms st' p = set_sym_name n (set_sym_twin t (set_sym_status u (syms st p)))) /\
  (forall s, exists t u,
      secs st' s = set_sec_twin t (set_sec_status u (secs st s))).

(** The invariant of the outer correlation loops: [rest] is what is left
    of the first list [A], [B] is the second list, and [key] is what the
    inner loop compares (the name of a section, the name and type of a
    symbol). *)
Definition paired (A B : list nat) (K : Type) (key : nat -> K)
  (tw : twin_map) (rest : list nat) : Prop :=
  symmetric tw /\ crossing A B tw /\
  (forall s, In s rest -> tw s = None) /\
  (forall a b, tw a = Some b -> key a = key b).

(** [b] is an untwinned target of a relocation of the twin of a patched
    section: what [xsplice_find_static_twin] can return. *)
Definition base_candidate (st : store) (patched : xsplice_elf) (b : nat) : Prop :=
  exists tmpsec twin r,
    In tmpsec (sections patched) /\
    sec_twin (secs st tmpsec) = Some twin /\
    In r (sec_relas (secs st twin)) /\
    rela_sym r = b /\
    sym_twin (syms st b) = None.

(** The store after the assignments at the end of the loop body of
    [xsplice_correlate_static_local_variables]. *)
Definition static_local_linked (st : store) (sym basesym : nat) : store :=
  twin_symbols (upd_sym st sym (set_sym_name (sym_name (syms st basesym))))
               sym basesym.

Definition static_local_bundled (st : store) (sym basesym symsec basesec : nat)
  : store :=
  upd_sec (upd_sec (static_local_linked st sym basesym)
                   symsec (set_sec_twin (Some basesec)))
          basesec (set_sec_twin (Some symsec)).

(** What holds of the twins throughout the static-local pass, for a store
    [st] reached from [st0]. *)
Definition twins_cross (base patched : xsplice_elf) (st0 st : store) : Prop :=
  links_only st0 st /\
  symmetric (sym_twins st) /\
  crossing (symbols base) (symbols patched) (sym_twins st) /\
  crossing (sections base) (sections patched) (sec_twins st).

Definition bundles_paired (st : store) : Prop :=
  bundles_follow st /\ symmetric (sec_twins st).

(** *** Example objects for the correlation *)

Module CorrelateExamples.

Definition func (name : string) (sec : nat) : symbol :=
  mkSymbol name STT_FUNC STB_GLOBAL (Some sec) None false NEW 18 0 0 32 0 0.

Definition static_local (name : string) (sec : nat) : symbol :=
  mkSymbol name STT_OBJECT STB_LOCAL (Some sec) None false NEW 1 0 0 4 0 0.

Definition text (name : string) (rela sym : nat) : section :=
  mkSection name SHT_PROGBITS (SHF_ALLOC + SHF_EXECINSTR) 0 16 0 32 []
            None (Some rela) None (Some sym) [] None false NEW false false 0.

Definition rela_text (name : string) (base target : nat) : section :=
  mkSection name SHT_RELA 0 0 8 24 24 []
            (Some base) None None None [mkRela R_X86_64_PC32 6 (-4) target None]
            None false NEW false false 0.

Definition bss (name : string) (sym : nat) : section :=
  mkSection name SHT_NOBITS (SHF_ALLOC + 1) 0 4 0 4 []
            None None None (Some sym) [] None false NEW false false 0.

(** [tick] uses the static local [counter], which gcc numbered 7 in the
    base object (symbols 0-1, sections 0-2) and 9 in the patched object
    (symbols 2-3, sections 3-5). *)
Definition st_tick : store :=
  store_of
    [ func "tick" 0; static_local "counter.7" 2;
      func "tick" 3; static_local "counter.9" 5 ]
    [ text ".text.tick" 1 0; rela_text ".rela.text.tick" 0 1;
      bss ".bss.counter.7" 1;
      text ".text.tick" 4 2; rela_text ".rela.text.tick" 3 3;
      bss ".bss.counter.9" 3 ].

Definition base_tick : xsplice_elf :=
  {| sections := [0; 1; 2]%nat; symbols := [0; 1]%nat; strings := [] |}.

Definition patched_tick : xsplice_elf :=
  {| sections := [3; 4; 5]%nat; symbols := [2; 3]%nat; strings := [] |}.

(** A base object with two sections of one name (sections 0 and 1) and a
    patched object with one (section 2). *)
Definition rodata (name : string) : section :=
  mkSection name SHT_PROGBITS SHF_ALLOC 0 8 0 8 []
            None None None None [] None false NEW false false 0.

Definition st_same_name : store :=
  store_of [] [ rodata ".rodata"; rodata ".rodata"; rodata ".rodata" ].

Definition base_same_name : xsplice_elf :=
  {| sections := [0; 1]%nat; symbols := []; strings := [] |}.

Definition patched_same_name : xsplice_elf :=
  {| sections := [2]%nat; symbols := []; strings := [] |}.

End CorrelateExamples.

(** Did the pass run to its end? *)
Definition is_ok {A : Type} (r : result A) : bool :=
  match r with
  | Ok _ => true
  | Fail _ => false
  end.

(** ** Inclusion engine *)

(** [xsplice_include_symbol]; one unit of [fuel] per level of recursion. *)
Fixpoint xsplice_include_symbol (fuel : nat) (st : store) (sym : nat)
  : result store :=
  match fuel with
  | O => Fail OUT_OF_FUEL
  | S fuel' =>
      let st := upd_sym st sym (set_sym_include true) in
      match sym_sec (syms st sym) with
      | None => Ok st
      | Some sec =>
          if sec_include (secs st sec) ||
             (negb (sym_type (syms st sym) =? STT_SECTION) &&
              status_eqb (sym_status (syms st sym)) SAME)
          then Ok st
          else
            let st := upd_sec st sec (set_sec_include true) in
            let st :=
              match sec_secsym (secs st sec) with
              | Some secsym =>
                  if negb (Nat.eqb secsym sym)
                  then upd_sym st secsym (set_sym_include true)
                  else st
              | None => st
              end in
            match sec_rela (secs st sec) with
            | None => Ok st
            | Some rela =>
                let st := upd_sec st rela (set_sec_include true) in
                foreach (sec_relas (secs st rela))
                  (fun st r => xsplice_include_symbol fuel' st (rela_sym r)) st
            end
      end
  end.

(** The number of sections of the list that are not included: the depth
    of the recursion never exceeds it. *)
Definition not_included (st : store) (l : list nat) : nat :=
  List.length (filter (fun s => negb (sec_include (secs st s))) l).

(** The call of [xsplice_include_symbol] from a pass over [kelf]. *)
Definition include_symbol (kelf : xsplice_elf) (st : store) (sym : nat)
  : result store :=
  xsplice_include_symbol (S (not_included st (sections kelf))) st sym.

Definition is_standard_section (name : string) : bool :=
  streq name ".shstrtab" || streq name ".strtab" || streq name ".symtab" ||
  has_prefix ".rodata.str1." name.

Definition xsplice_include_standard_elements (kelf : xsplice_elf) (st : store)
  : result store :=
  st <- foreach (sections kelf)
          (fun st sec =>
             if is_standard_section (sec_name (secs st sec)) then
               let st := upd_sec st sec (set_sec_include true) in
               match sec_secsym (secs st sec) with
               | Some secsym => Ok (upd_sym st secsym (set_sym_include true))
               | None => Ok st
               end
             else Ok st) st ;;
  (* include the NULL symbol *)
  first <- deref (hd_error (symbols kelf)) ;;
  Ok (upd_sym st first (set_sym_include true)).

(** Returns the store and [changed_nr]. *)
Definition xsplice_include_changed_functions (kelf : xsplice_elf) (st : store)
  : result (store * Z) :=
  foreach (symbols kelf)
    (fun '(st, changed_nr) sym =>
       r <- (if status_eqb (sym_status (syms st sym)) CHANGED &&
                (sym_type (syms st sym) =? STT_FUNC)
             then st' <- include_symbol kelf st sym ;; Ok (st', changed_nr + 1)
             else Ok (st, changed_nr)) ;;
       let '(st, changed_nr) := r in
       if sym_type (syms st sym) =? STT_FILE
       then Ok (upd_sym st sym (set_sym_include true), changed_nr)
       else Ok (st, changed_nr))
    (st, 0).

(** The relocations of a [.rela.debug_*] section that survive the second
    loop of [xsplice_include_debug_sections]. *)
Fixpoint strip_debug_relas (st : store) (relas : list rela)
  : result (list rela) :=
  match relas with
  | [] => Ok []
  | r :: rest =>
      sec <- deref (sym_sec (syms st (rela_sym r))) ;;
      rest' <- strip_debug_relas st rest ;;
      if negb (sec_include (secs st sec)) then Ok rest'
      else Ok (r :: rest')
  end.

Definition xsplice_include_debug_sections (kelf : xsplice_elf) (st : store)
  : result store :=
  (* include all .debug_* sections *)
  st <- foreach (sections kelf)
          (fun st sec =>
             if is_debug_section (secs st sec) then
               let st := upd_sec st sec (set_sec_include true) in
               if negb (is_rela_section (secs st sec)) then
                 secsym <- deref (sec_secsym (secs st sec)) ;;
                 Ok (upd_sym st secsym (set_sym_include true))
               else Ok st
             else Ok st) st ;;
  (* strip the entries of .rela.debug_* that reference unchanged symbols *)
  foreach (sections kelf)
    (fun st sec =>
       if negb (is_rela_section (secs st sec)) ||
          negb (is_debug_section (secs st sec))
       then Ok st
       else
         relas <- strip_debug_relas st (sec_relas (secs st sec)) ;;
         Ok (upd_sec st sec (set_sec_relas relas))) st.

Definition is_hook_section (name : string) : bool :=
  streq name ".xsplice.hooks.load" || streq name ".xsplice.hooks.unload" ||
  streq name ".rela.xsplice.hooks.load" ||
  streq name ".rela.xsplice.hooks.unload".

(** The store keeps [rela->sym] as an address, so the hook relocation can
    only be redirected to a section symbol that exists: a hook function in
    a section without section symbol is a [FAULT] here, where the C code
    stores [NULL] and fails at the next use of the relocation. *)
Definition xsplice_include_hook_elements (kelf : xsplice_elf) (st : store)
  : result store :=
  st <- foreach (sections kelf)
          (fun st sec =>
             if is_hook_section (sec_name (secs st sec)) then
               let st := upd_sec st sec (set_sec_include true) in
               if is_rela_section (secs st sec) then
                 (* include hook dependencies *)
                 rela <- deref (hd_error (sec_relas (secs st sec))) ;;
                 let sym := rela_sym rela in
                 st <- include_symbol kelf st sym ;;
                 (* strip the hook symbol *)
                 let st := upd_sym st sym (set_sym_include false) in
                 symsec <- deref (sym_sec (syms st sym)) ;;
                 let st := upd_sec st symsec (set_sec_sym None) in
                 (* use section symbol instead *)
                 secsym <- deref (sec_secsym (secs st symsec)) ;;
                 Ok (upd_sec st sec
                       (fun s => set_sec_relas
                                   (set_rela_sym secsym rela :: tl (sec_relas s)) s))
               else
                 secsym <- deref (sec_secsym (secs st sec)) ;;
                 Ok (upd_sym st secsym (set_sym_include true))
             else Ok st) st ;;
  (* strip the temporary load/unload function pointer objects *)
  foreach (symbols kelf)
    (fun st sym =>
       if streq (sym_name (syms st sym)) "xsplice_load_data" ||
          streq (sym_name (syms st sym)) "xsplice_unload_data"
       then Ok (upd_sym st sym (set_sym_include false))
       else Ok st) st.

(** Returns the store and [nr]. *)
Definition xsplice_include_new_globals (kelf : xsplice_elf) (st : store)
  : result (store * Z) :=
  foreach (symbols kelf)
    (fun '(st, nr) sym =>
       if (sym_bind (syms st sym) =? STB_GLOBAL) &&
          is_some (sym_sec (syms st sym)) &&
          status_eqb (sym_status (syms st sym)) NEW
       then st' <- include_symbol kelf st sym ;; Ok (st', nr + 1)
       else Ok (st, nr))
    (st, 0).

(** The inclusion passes of [main], in its order, and the test that
    follows them. *)
Inductive main_step : Type :=
| EXIT_NO_CHANGES             (* return 3 *)
| PROCESS_SPECIAL_SECTIONS.   (* main goes on *)

Definition main_include (kelf : xsplice_elf) (st : store)
  : result (store * Z * Z) :=
  st <- xsplice_include_standard_elements kelf st ;;
  r <- xsplice_include_changed_functions kelf st ;;
  let '(st, num_changed) := r in
  st <- xsplice_include_debug_sections kelf st ;;
  st <- xsplice_include_hook_elements kelf st ;;
  r <- xsplice_include_new_globals kelf st ;;
  let '(st, new_globals_exist) := r in
  Ok (st, num_changed, new_globals_exist).

Definition main_after_include (num_changed new_globals_exist : Z) : main_step :=
  if (num_changed =? 0) && (new_globals_exist =? 0)
  then EXIT_NO_CHANGES
  else PROCESS_SPECIAL_SECTIONS.

(** *** Inclusion closure *)

(** Every target of every relocation of every included relocation section
    is included. *)
Definition inclusion_closed (st : store) : Prop :=
  forall sec r,
    sec_include (secs st sec) = true ->
    is_rela_section (secs st sec) = true ->
    In r (sec_relas (secs st sec)) ->
    sym_include (syms st (rela_sym r)) = true.

(** Symbols are defined in sections that are not relocation sections. *)
Definition symbols_placed (st : store) : Prop :=
  forall p sec, sym_sec (syms st p) = Some sec ->
                is_rela_section (secs st sec) = false.

(** [st'] differs from [st] in include flags only, and no flag was
    cleared. *)
Definition flags_only (st st' : store) : Prop :=
  (forall p, exists b, syms st' p = set_sym_include b (syms st p)) /\
  (forall s, exists b, secs st' s = set_sec_include b (secs st s)).

Definition include_grows (st st' : store) : Prop :=
  (forall p, sym_include (syms st p) = true -> sym_include (syms st' p) = true) /\
  (forall s, sec_include (secs st s) = true -> sec_include (secs st' s) = true).

Definition grows (st st' : store) : Prop :=
  flags_only st st' /\ include_grows st st'.

(** Closure up to the symbols of [P], which a caller is about to include. *)
Definition closed_modulo (P : nat -> Prop) (st : store) : Prop :=
  forall sec r,
    sec_include (secs st sec) = true ->
    is_rela_section (secs st sec) = true ->
    In r (sec_relas (secs st sec)) ->
    sym_include (syms st (rela_sym r)) = true \/ P (rela_sym r).

(** Every symbol's section is on the list. *)
Definition sections_listed (st : store) (l : list nat) : Prop :=
  forall p s, sym_sec (syms st p) = Some s -> In s l.

(** The sections that [xsplice_include_standard_elements] includes by name
    are not relocation sections. *)
Definition standard_sections_plain (st : store) (kelf : xsplice_elf) : Prop :=
  forall s, In s (sections kelf) ->
            is_standard_section (sec_name (secs st s)) = true ->
            is_rela_section (secs st s) = false.

(** ** Comparator: sections and symbols *)

Definition xsplice_compare_sections (st : store) (seclist : list nat)
  : result store :=
  (* compare all sections *)
  st <- foreach seclist
          (fun st sec =>
             if is_some (sec_twin (secs st sec))
             then xsplice_compare_correlated_section st sec
             else Ok (upd_sec st sec (set_sec_status NEW))) st ;;
  (* sync symbol status *)
  foreach seclist
    (fun st sec =>
       owner <- (if is_rela_section (secs st sec)
                 then base <- deref (sec_base (secs st sec)) ;;
                      Ok (sec_sym (secs st base))
                 else Ok (sec_sym (secs st sec))) ;;
       match owner with
       | Some sym =>
           if negb (status_eqb (sym_status (syms st sym)) CHANGED)
           then Ok (upd_sym st sym (set_sym_status (sec_status (secs st sec))))
           else Ok st
       | None => Ok st
       end) st.

Definition xsplice_compare_correlated_symbol (st : store) (sym : nat)
  : result store :=
  twin <- deref (sym_twin (syms st sym)) ;;
  let sym1 := syms st sym in
  let sym2 := syms st twin in
  if negb (st_info sym1 =? st_info sym2) ||
     negb (st_other sym1 =? st_other sym2) ||
     (is_some (sym_sec sym1) && negb (is_some (sym_sec sym2))) ||
     (is_some (sym_sec sym2) && negb (is_some (sym_sec sym1)))
  then Fail EXIT_DIFF_FATAL
  else
    (* a symbol may change sections only out of an ignored section *)
    st <- match sym_sec sym1, sym_sec sym2 with
          | Some sec1, Some sec2 =>
              if negb (ptr_is (sec_twin (secs st sec1)) sec2) then
                match sec_twin (secs st sec2) with
                | Some t =>
                    if sec_ignore (secs st t)
                    then Ok (upd_sym st sym (set_sym_status CHANGED))
                    else Fail EXIT_DIFF_FATAL
                | None => Fail EXIT_DIFF_FATAL
                end
              else Ok st
          | _, _ => Ok st
          end ;;
    if (sym_type sym1 =? STT_OBJECT) && negb (st_size sym1 =? st_size sym2)
    then Fail EXIT_DIFF_FATAL
    else if (st_shndx sym1 =? SHN_UNDEF) || (st_shndx sym1 =? SHN_ABS)
    then Ok (upd_sym st sym (set_sym_status SAME))
    else Ok st.

Definition xsplice_compare_symbols (st : store) (symlist : list nat)
  : result store :=
  foreach symlist
    (fun st sym =>
       if is_some (sym_twin (syms st sym))
       then xsplice_compare_correlated_symbol st sym
       else Ok (upd_sym st sym (set_sym_status NEW))) st.

Definition xsplice_compare_correlated_elements (kelf : xsplice_elf) (st : store)
  : result store :=
  st <- xsplice_compare_sections st (sections kelf) ;;
  xsplice_compare_symbols st (symbols kelf).

(** ** Ignore directives *)

Definition xsplice_mark_ignored_functions_same (kelf : xsplice_elf) (st : store)
  : result store :=
  match find_section_by_name st (sections kelf) ".xsplice.ignore.functions" with
  | None => Ok st
  | Some sec =>
      relasec <- deref (sec_rela (secs st sec)) ;;
      foreach (sec_relas (secs st relasec))
        (fun st rela =>
           let sym := rela_sym rela in
           match sym_sec (syms st sym) with
           | None => Fail EXIT_ERROR            (* expected bundled symbol *)
           | Some symsec =>
               if negb (sym_type (syms st sym) =? STT_FUNC)
               then Fail EXIT_ERROR             (* expected function symbol *)
               else
                 let st := upd_sym st sym (set_sym_status SAME) in
                 let st := upd_sec st symsec (set_sec_status SAME) in
                 let st := match sec_secsym (secs st symsec) with
                           | Some q => upd_sym st q (set_sym_status SAME)
                           | None => st
                           end in
                 match sec_rela (secs st symsec) with
                 | Some r => Ok (upd_sec st r (set_sec_status SAME))
                 | None => Ok st
                 end
           end) st
  end.

Definition xsplice_mark_ignored_sections_same (kelf : xsplice_elf) (st : store)
  : result store :=
  foreach (sections kelf)
    (fun st sec =>
       if negb (sec_ignore (secs st sec)) then Ok st
       else
         let st := upd_sec st sec (set_sec_status SAME) in
         let st := match sec_secsym (secs st sec) with
                   | Some q => upd_sym st q (set_sym_status SAME)
                   | None => st
                   end in
         let st := match sec_rela (secs st sec) with
                   | Some r => upd_sec st r (set_sec_status SAME)
                   | None => st
                   end in
         foreach (symbols kelf)
           (fun st sym =>
              if negb (ptr_is (sym_sec (syms st sym)) sec) then Ok st
              else Ok (upd_sym st sym (set_sym_status SAME))) st) st.

Definition xsplice_mark_constant_labels_same (kelf : xsplice_elf) (st : store)
  : store :=
  fold_left
    (fun st sym =>
       if is_constant_label (syms st sym)
       then upd_sym st sym (set_sym_status SAME)
       else st)
    (symbols kelf) st.

(** The passes of [main] from the comparison to the test after the
    inclusion, for an object without [.xsplice.ignore.sections]. *)
Definition main_compare_and_include (patched : xsplice_elf) (st : store)
  : result (store * main_step) :=
  st <- xsplice_compare_correlated_elements patched st ;;
  st <- xsplice_mark_ignored_functions_same patched st ;;
  st <- xsplice_mark_ignored_sections_same patched st ;;
  let st := xsplice_mark_constant_labels_same patched st in
  r <- main_include patched st ;;
  let '(st, num_changed, new_globals_exist) := r in
  Ok (st, main_after_include num_changed new_globals_exist).

(** *** What [main] counts *)

Definition is_changed_function (s : symbol) : bool :=
  status_eqb (sym_status s) CHANGED && (sym_type s =? STT_FUNC).

Definition is_new_global (s : symbol) : bool :=
  (sym_bind s =? STB_GLOBAL) && is_some (sym_sec s) &&
  status_eqb (sym_status s) NEW.

(** [st'] has the symbols of [st] up to their include flags. *)
Definition sym_flags_only (st st' : store) : Prop :=
  forall p, exists b, syms st' p = set_sym_include b (syms st p).

(** The condition of the claim: no changed function, and no untwinned
    global symbol that has a section. *)
Definition nothing_changed_claimed (st : store) (kelf : xsplice_elf) : Prop :=
  forall p, In p (symbols kelf) ->
    is_changed_function (syms st p) = false /\
    ~ (sym_twin (syms st p) = None /\
       sym_bind (syms st p) = STB_GLOBAL /\
       sym_sec (syms st p) <> None).

(** *** Example objects for the inclusion *)

Module IncludeExamples.

Definition sym (name : string) (type bind : Z) (sec : option nat) (st : status)
  : symbol :=
  mkSymbol name type bind sec None false st 0 0 0 16 0 0.

Definition sec (name : string) (type : Z) (base relasec secsym bundled : option nat)
  (relas : list rela) (st : status) : section :=
  mkSection name type 0 0 8 0 16 [] base relasec secsym bundled relas None
            false st false false 0.

Definition call (target : nat) : rela := mkRela R_X86_64_PC32 5 (-4) target None.

(** The changed function [f] calls the new function [g], which calls [f]
    and the undefined [printk]. *)
Definition st_calls : store :=
  store_of
    [ sym "" STT_NOTYPE STB_LOCAL None SAME;
      sym "a.c" STT_FILE STB_LOCAL None SAME;
      sym "f" STT_FUNC STB_GLOBAL (Some 0%nat) CHANGED;
      sym "g" STT_FUNC STB_LOCAL (Some 2%nat) NEW;
      sym "printk" STT_NOTYPE STB_GLOBAL None SAME;
      sym ".text.f" STT_SECTION STB_LOCAL (Some 0%nat) CHANGED;
      sym ".text.g" STT_SECTION STB_LOCAL (Some 2%nat) NEW ]
    [ sec ".text.f" SHT_PROGBITS None (Some 1%nat) (Some 5%nat) (Some 2%nat) [] CHANGED;
      sec ".rela.text.f" SHT_RELA (Some 0%nat) None None None [call 3] CHANGED;
      sec ".text.g" SHT_PROGBITS None (Some 3%nat) (Some 6%nat) (Some 3%nat) [] NEW;
      sec ".rela.text.g" SHT_RELA (Some 2%nat) None None None [call 2; call 4] NEW ].

Definition kelf_calls : xsplice_elf :=
  {| sections := seq 0 4; symbols := seq 0 7; strings := [] |}.

(** [f] (changed) and [g] (unchanged) share the section [.text]; the debug
    information has a relocation against the section symbol of [.text] and
    one against [g]. *)
Definition st_debug : store :=
  store_of
    [ sym "" STT_NOTYPE STB_LOCAL None SAME;
      sym "a.c" STT_FILE STB_LOCAL None SAME;
      sym ".text" STT_SECTION STB_LOCAL (Some 0%nat) CHANGED;
      sym "f" STT_FUNC STB_GLOBAL (Some 0%nat) CHANGED;
      sym "g" STT_FUNC STB_GLOBAL (Some 0%nat) SAME;
      sym ".debug_info" STT_SECTION STB_LOCAL (Some 1%nat) CHANGED ]
    [ sec ".text" SHT_PROGBITS None None (Some 2%nat) None [] CHANGED;
      sec ".debug_info" SHT_PROGBITS None (Some 2%nat) (Some 5%nat) None [] CHANGED;
      sec ".rela.debug_info" SHT_RELA (Some 1%nat) None None None
          [mkRela R_X86_64_64 8 0 2%nat None; mkRela R_X86_64_64 24 0 4%nat None]
          CHANGED ].

Definition kelf_debug : xsplice_elf :=
  {| sections := seq 0 3; symbols := seq 0 6; strings := [] |}.

(** The base object has [.text.foo] without relocations (symbols 0-2,
    sections 0); the patched object has the same bytes and one relocation
    (symbols 3-7, sections 1-2). *)
Definition text_foo (relasec : option nat) (secsym bundled : nat) : section :=
  mkSection ".text.foo" SHT_PROGBITS (SHF_ALLOC + SHF_EXECINSTR) 0 16 0 6
            [xb8; x00; x00; x00; x00; xc3]
            None relasec (Some secsym) (Some bundled) [] None
            false NEW false false 0.

Definition global (name : string) (type : Z) (sec : option nat) (shndx : Z)
  : symbol :=
  mkSymbol name type STB_GLOBAL sec None false NEW 18 0 0 6 shndx 0.

Definition st_gains_rela : store :=
  store_of
    [ mkSymbol "" STT_NOTYPE STB_LOCAL None None false NEW 0 0 0 0 0 0;
      mkSymbol ".text.foo" STT_SECTION STB_LOCAL (Some 0%nat) None false NEW 3 0 0 0 1 0;
      global "foo" STT_FUNC (Some 0%nat) 1;
      mkSymbol "" STT_NOTYPE STB_LOCAL None None false NEW 0 0 0 0 0 0;
      mkSymbol "a.c" STT_FILE STB_LOCAL None None false NEW 4 0 0 0 SHN_ABS 0;
      mkSymbol ".text.foo" STT_SECTION STB_LOCAL (Some 1%nat) None false NEW 3 0 0 0 1 0;
      global "foo" STT_FUNC (Some 1%nat) 1;
      mkSymbol "limit" STT_NOTYPE STB_GLOBAL None None false NEW 16 0 0 0 SHN_UNDEF 0 ]
    [ text_foo None 1 2;
      text_foo (Some 2%nat) 5 6;
      mkSection ".rela.text.foo" SHT_RELA 0 0 8 24 24 (repeat x00 24)
                (Some 1%nat) None None None [mkRela R_X86_64_32S 1 0 7%nat None]
                None false NEW false false 0 ].

Definition base_gains_rela : xsplice_elf :=
  {| sections := [0]%nat; symbols := [0; 1; 2]%nat; strings := [] |}.

Definition patched_gains_rela : xsplice_elf :=
  {| sections := [1; 2]%nat; symbols := [3; 4; 5; 6; 7]%nat; strings := [] |}.

(** The passes from the correlation to the test after the inclusion. *)
Definition main_until_test (base patched : xsplice_elf) (st : store)
  : result (store * main_step) :=
  st <- correlate_all base patched st ;;
  main_compare_and_include patched st.

End IncludeExamples.

(** A run that does not stop for lack of fuel: it returns, or fails the
    way the program does. *)
Definition in_fuel {A : Type} (r : result A) : Prop := r <> Fail OUT_OF_FUEL.

(** What the test of [main] after the inclusion looks at. *)
Definition nothing_to_patch (st : store) (kelf : xsplice_elf) : Prop :=
  forall p, In p (symbols kelf) ->
    is_changed_function (syms st p) = false /\
    is_new_global (syms st p) = false.

(** The number of symbols of the list that [f] holds of. *)
Definition counted (f : symbol -> bool) (st : store) (l : list nat) : Z :=
  Z.of_nat (List.length (filter (fun p => f (syms st p)) l)).

Definition SHT_SYMTAB : Z := 2.
Definition SHT_STRTAB : Z := 3.

Module UnchangedExample.

(** A patched object after a comparison that found no difference: [f]
    calls the undefined [printk]. *)
Definition st_unchanged : store :=
  store_of
    [ IncludeExamples.sym "" STT_NOTYPE STB_LOCAL None SAME;
      IncludeExamples.sym "a.c" STT_FILE STB_LOCAL None SAME;
      IncludeExamples.sym ".text.f" STT_SECTION STB_LOCAL (Some 0%nat) SAME;
      IncludeExamples.sym "f" STT_FUNC STB_GLOBAL (Some 0%nat) SAME;
      IncludeExamples.sym "printk" STT_NOTYPE STB_GLOBAL None SAME ]
    [ IncludeExamples.sec ".text.f" SHT_PROGBITS None (Some 1%nat) (Some 2%nat)
        (Some 3%nat) [] SAME;
      IncludeExamples.sec ".rela.text.f" SHT_RELA (Some 0%nat) None None None
        [IncludeExamples.call 4] SAME;
      IncludeExamples.sec ".symtab" SHT_SYMTAB None None None None [] SAME;
      IncludeExamples.sec ".strtab" SHT_STRTAB None None None None [] SAME;
      IncludeExamples.sec ".shstrtab" SHT_STRTAB None None None None [] SAME ].

Definition kelf_unchanged : xsplice_elf :=
  {| sections := seq 0 5; symbols := seq 0 5; strings := [] |}.

End UnchangedExample.

(** ** Special sections *)

(** Conversions of C: to [int], and to the 64-bit unsigned type of
    [sh_size].  The offsets of this part are [int] variables; they are
    kept as integers, and signed overflow, which is undefined in C, is not
    modelled. *)
Definition wrap_int (z : Z) : Z := (z + 2 ^ 31) mod 2 ^ 32 - 2 ^ 31.
Definition to_u64 (z : Z) : Z := z mod 2 ^ 64.

(** [rela->offset >= start && rela->offset < start + size] *)
Definition in_group (start size : Z) (r : rela) : bool :=
  (start <=? rela_offset r) && (rela_offset r <? start + size).

Definition should_keep_rela_group (st : store) (sec : nat) (start size : Z)
  : result bool :=
  foreach (sec_relas (secs st sec))
    (fun found rela =>
       if in_group start size rela &&
          (sym_type (syms st (rela_sym rela)) =? STT_FUNC)
       then
         symsec <- deref (sym_sec (syms st (rela_sym rela))) ;;
         if sec_include (secs st symsec) then Ok true else Ok found
       else Ok found)
    false.

Definition bug_frames_0_group_size (kelf : xsplice_elf) (st : store)
  (offset : Z) : result Z := Ok 8.
Definition bug_frames_1_group_size (kelf : xsplice_elf) (st : store)
  (offset : Z) : result Z := Ok 8.
Definition bug_frames_2_group_size (kelf : xsplice_elf) (st : store)
  (offset : Z) : result Z := Ok 8.
Definition bug_frames_3_group_size (kelf : xsplice_elf) (st : store)
  (offset : Z) : result Z := Ok 16.
Definition ex_table_group_size (kelf : xsplice_elf) (st : store)
  (offset : Z) : result Z := Ok 8.
Definition altinstructions_group_size (kelf : xsplice_elf) (st : store)
  (offset : Z) : result Z := Ok 12.

(** The relocations after the first one that [f] holds of: where
    [list_for_each_entry_continue] goes on after a [break]. *)
Fixpoint after_first {A : Type} (f : A -> bool) (l : list A)
  : option (list A) :=
  match l with
  | [] => None
  | a :: l' => if f a then Some l' else after_first f l'
  end.

Definition fixup_group_size (kelf : xsplice_elf) (st : store) (offset : Z)
  : result Z :=
  match find_section_by_name st (sections kelf) ".rela.ex_table" with
  | None => Fail EXIT_ERROR             (* missing .rela.ex_table section *)
  | Some sec =>
      let is_fixup r := streq (sym_name (syms st (rela_sym r))) ".fixup" in
      (* find beginning of this group *)
      match after_first (fun r => is_fixup r && (rela_addend r =? offset))
                        (sec_relas (secs st sec)) with
      | None => Fail EXIT_ERROR         (* can't find .fixup rela group *)
      | Some rest =>
          (* find beginning of next group *)
          match List.find (fun r => is_fixup r && (rela_addend r >? offset))
                          rest with
          | Some rela => Ok (rela_addend rela - offset)
          | None =>
              (* last group *)
              fixupsec <- deref (find_section_by_name st (sections kelf)
                                   ".fixup") ;;
              Ok (wrap_int (to_u64 (sh_size (secs st fixupsec)
                                    - to_u64 offset)))
          end
      end
  end.

Record special_section : Type := mkSpecial {
  special_name : string;
  special_group_size : xsplice_elf -> store -> Z -> result Z
}.

Definition special_sections : list special_section :=
  [ mkSpecial ".bug_frames.0" bug_frames_0_group_size;
    mkSpecial ".bug_frames.1" bug_frames_1_group_size;
    mkSpecial ".bug_frames.2" bug_frames_2_group_size;
    mkSpecial ".bug_frames.3" bug_frames_3_group_size;
    mkSpecial ".fixup" fixup_group_size;
    mkSpecial ".ex_table" ex_table_group_size;
    mkSpecial ".altinstructions" altinstructions_group_size ].

(** The inner loop of [xsplice_regenerate_special_section]: the
    relocations of the group leave [sec->relas] for the tail of
    [newrelas], rebased, and their symbols are included.  Returns the
    store, what stays on [sec->relas], and [newrelas]. *)
Fixpoint move_group_relas (st : store) (relas : list rela)
  (src_offset group_size dest_offset : Z) (newrelas : list rela)
  : store * list rela * list rela :=
  match relas with
  | [] => (st, [], newrelas)
  | rela :: rest =>
      if in_group src_offset group_size rela then
        (* copy rela entry *)
        let rela' :=
          set_rela_offset (rela_offset rela - (src_offset - dest_offset)) rela in
        let st := upd_sym st (rela_sym rela) (set_sym_include true) in
        move_group_relas st rest src_offset group_size dest_offset
                         (newrelas ++ [rela'])%list
      else
        let '(st, stay, newrelas) :=
          move_group_relas st rest src_offset group_size dest_offset newrelas in
        (st, rela :: stay, newrelas)
  end.

(** [memcpy(dest + dest_offset, src + src_offset, group_size)]: the bytes
    read, when they lie inside the source buffer and fit the [capacity]
    bytes allocated for [dest]. *)
Definition memcpy_group (src : list byte) (capacity : Z)
  (src_offset dest_offset group_size : Z) : result (list byte) :=
  if (0 <=? src_offset) && (0 <=? group_size) &&
     (src_offset + group_size <=? Z.of_nat (List.length src)) &&
     (0 <=? dest_offset) && (dest_offset + group_size <=? capacity)
  then Ok (firstn (Z.to_nat group_size) (skipn (Z.to_nat src_offset) src))
  else Fail FAULT.

(** The [for] loop of [xsplice_regenerate_special_section].  The state is
    the store, [newrelas], the bytes written to [dest] so far, [src_offset]
    and [dest_offset]. *)
Fixpoint regenerate_groups (fuel : nat)
  (group_size : store -> Z -> result Z) (sec base : nat) (src : list byte)
  (st : store) (newrelas : list rela) (dest : list byte)
  (src_offset dest_offset : Z)
  : result (store * list rela * list byte * Z * Z) :=
  match fuel with
  | O => Fail OUT_OF_FUEL
  | S fuel' =>
      if negb (to_u64 src_offset <? sh_size (secs st base))
      then Ok (st, newrelas, dest, src_offset, dest_offset)
      else
        size <- group_size st src_offset ;;
        include <- should_keep_rela_group st sec src_offset size ;;
        if negb include
        then regenerate_groups fuel' group_size sec base src st newrelas dest
                               (src_offset + size) dest_offset
        else
          let '(st', stay, newrelas) :=
            move_group_relas st (sec_relas (secs st sec)) src_offset size
                             dest_offset newrelas in
          let st := upd_sec st' sec (set_sec_relas stay) in
          (* copy base section group *)
          bytes <- memcpy_group src (sh_size (secs st base))
                     src_offset dest_offset size ;;
          regenerate_groups fuel' group_size sec base src st newrelas
                            (dest ++ bytes)%list
                            (src_offset + size) (dest_offset + size)
  end.

Definition xsplice_regenerate_special_section (fuel : nat)
  (group_size : store -> Z -> result Z) (st : store) (sec : nat)
  : result store :=
  base <- deref (sec_base (secs st sec)) ;;
  let src := d_buf (secs st base) in
  r <- regenerate_groups fuel group_size sec base src st [] [] 0 0 ;;
  let '(st, newrelas, dest, src_offset, dest_offset) := r in
  (* verify that group_size is a divisor of aligned section size *)
  let align := wrap_int (sh_addralign (secs st base)) in
  if to_u64 align =? 0 then Fail FAULT   (* division by zero *)
  else
    let aligned_size :=
      wrap_int (to_u64 (to_u64 (sh_size (secs st base) + to_u64 align - 1)
                        / to_u64 align * to_u64 align)) in
    if negb (src_offset =? aligned_size)
    then Fail EXIT_ERROR                 (* group size mismatch *)
    else if dest_offset =? 0 then
      (* no changed or global functions referenced *)
      let st := upd_sec st base (set_sec_status SAME) in
      let st := upd_sec st sec (set_sec_status SAME) in
      let st := upd_sec st base (set_sec_include false) in
      Ok (upd_sec st sec (set_sec_include false))
    else
      (* overwrite with new relas list *)
      let st := upd_sec st sec (set_sec_relas newrelas) in
      (* include both rela and base sections *)
      let st := upd_sec st sec (set_sec_include true) in
      let st := upd_sec st base (set_sec_include true) in
      (* update text section data buf and size *)
      Ok (upd_sec st base (set_d_buf dest)).

(** *** What the regeneration computes *)

(** The decision of [should_keep_rela_group] on a list of relocations. *)
Definition keeps (st : store) (start size : Z) (r : rela) : bool :=
  in_group start size r &&
  (sym_type (syms st (rela_sym r)) =? STT_FUNC) &&
  match sym_sec (syms st (rela_sym r)) with
  | Some s => sec_include (secs st s)
  | None => false
  end.

Definition group_kept (st : store) (relas : list rela) (g : Z * Z) : bool :=
  existsb (keeps st (fst g) (snd g)) relas.

(** The groups the loop walks: each starts where the one before ends, the
    first at [start], while the offset is below [size]. *)
Fixpoint walked (group_size : Z -> result Z) (size start : Z)
  (groups : list (Z * Z)) : Prop :=
  match groups with
  | [] => ~ to_u64 start < size
  | g :: rest =>
      fst g = start /\ to_u64 start < size /\ group_size start = Ok (snd g) /\
      walked group_size size (start + snd g) rest
  end.

Definition group_bytes (src : list byte) (g : Z * Z) : list byte :=
  firstn (Z.to_nat (snd g)) (skipn (Z.to_nat (fst g)) src).

Definition sizes (groups : list (Z * Z)) : Z :=
  fold_right (fun g n => snd g + n) 0 groups.

(** The relocations of the kept groups, group after group, each rebased by
    the distance between where its group was and where it is. *)
Fixpoint rebased (relas : list rela) (kept : list (Z * Z)) (dest_offset : Z)
  : list rela :=
  match kept with
  | [] => []
  | g :: rest =>
      (map (fun r => set_rela_offset
                       (rela_offset r + (dest_offset - fst g)) r)
           (filter (in_group (fst g) (snd g)) relas)
       ++ rebased relas rest (dest_offset + snd g))%list
  end.

(** [p] is the target of a relocation of one of the groups. *)
Definition targeted (relas : list rela) (groups : list (Z * Z)) (p : nat)
  : bool :=
  existsb (fun g => existsb (fun r => in_group (fst g) (snd g) r &&
                                      Nat.eqb (rela_sym r) p) relas) groups.

(** What the loop changes in the store: include flags of symbols and the
    relocation list of [sec]. *)
Definition regen_frame (sec : nat) (st st' : store) : Prop :=
  sym_flags_only st st' /\
  (forall s, s <> sec -> secs st' s = secs st s) /\
  (exists l, secs st' sec = set_sec_relas l (secs st sec)).

(** Group sizes as the loop needs them: a positive [int], or a failure of
    the program itself. *)
Definition group_sized (r : result Z) : Prop :=
  match r with
  | Ok z => 0 < z < 2 ^ 31
  | Fail e => e <> OUT_OF_FUEL
  end.

Module SpecialExample.

(** [.altinstructions] with three entries of 12 bytes: the first and the
    third refer to the included function [f], the second to [g] only,
    whose section is not included. *)
Definition st_alt : store :=
  store_of
    [ IncludeExamples.sym "" STT_NOTYPE STB_LOCAL None SAME;
      IncludeExamples.sym "f" STT_FUNC STB_GLOBAL (Some 0%nat) CHANGED;
      IncludeExamples.sym "g" STT_FUNC STB_GLOBAL (Some 1%nat) SAME ]
    [ set_sec_include true
        (IncludeExamples.sec ".text.f" SHT_PROGBITS None None None (Some 1%nat)
           [] CHANGED);
      IncludeExamples.sec ".text.g" SHT_PROGBITS None None None (Some 2%nat)
        [] SAME;
      mkSection ".altinstructions" SHT_PROGBITS SHF_ALLOC 0 4 0 36
        (repeat x01 12 ++ repeat x02 12 ++ repeat x03 12)
        None (Some 3%nat) None None [] None false CHANGED false false 0;
      mkSection ".rela.altinstructions" SHT_RELA 0 0 8 24 120 (repeat x00 120)
        (Some 2%nat) None None None
        [ mkRela R_X86_64_PC32 0 0 1%nat None;
          mkRela R_X86_64_PC32 4 0 2%nat None;
          mkRela R_X86_64_PC32 12 0 2%nat None;
          mkRela R_X86_64_PC32 24 8 1%nat None;
          mkRela R_X86_64_PC32 28 0 2%nat None ]
        None false CHANGED false false 0 ].

Definition kelf_alt : xsplice_elf :=
  {| sections := seq 0 4; symbols := seq 0 3; strings := [] |}.

End SpecialExample.

(** ** Patch table *)

(** [strlen(s)] *)
Definition strlen (s : string) : Z := Z.of_nat (String.length s).

(** Modelled from the spec: [offset_of_string] is defined outside
    [create-diff-object.c].  The string pool is laid out as the
    NUL-terminated strings of the list in insertion order; the offset of a
    name is where the first entry equal to it starts, and a name that is
    not in the pool is added at its end. *)
Fixpoint offset_of_string_loop (l : list string) (name : string) (index : Z)
  : list string * Z :=
  match l with
  | [] => ([name], index)               (* allocate a new string *)
  | s :: rest =>
      if streq s name then (l, index)
      else
        let '(rest', i) :=
          offset_of_string_loop rest name (index + (strlen s + 1)) in
        (s :: rest', i)
  end.

Definition offset_of_string (l : list string) (name : string)
  : list string * Z :=
  offset_of_string_loop l name 0.

(** Where [name] starts in the laid-out pool. *)
Fixpoint string_offset (l : list string) (name : string) : option Z :=
  match l with
  | [] => None
  | s :: rest =>
      if streq s name then Some 0
      else option_map (Z.add (strlen s + 1)) (string_offset rest name)
  end.

(** filename + # + symbolname *)
Definition mangle_local_symbol (filename symname : string) : string :=
  (filename ++ "#" ++ symname)%string.

(** Modelled from the spec: [struct xsplice_patch_func] is declared
    outside [create-diff-object.c].  The record holds the fields that the
    emitter assigns, with the values assigned; [name] is never assigned,
    a relocation fills it. *)
Record xsplice_patch_func : Type := mkPatchFunc {
  old_addr : Z;
  old_size : Z;
  new_addr : Z;
  new_size : Z;
  pad : list byte
}.

(** [a[i] = v] on an array of [length a] elements. *)
Definition write_at {A : Type} (a : list A) (i : Z) (v : A)
  : result (list A) :=
  if (0 <=? i) && (i <? Z.of_nat (List.length a))
  then Ok (firstn (Z.to_nat i) a ++ v :: skipn (S (Z.to_nat i)) a)%list
  else Fail FAULT.

(** [create_section_pair].  [sec] and [relasec] are the addresses that
    the two [ALLOC_LINK]s return; the data buffer of [sec] is allocated
    and not written. *)
Definition create_section_pair (kelf : xsplice_elf) (st : store)
  (name : string) (entsize nr : Z) (sec relasec : nat)
  : store * xsplice_elf :=
  let size := entsize * nr in
  let relaname := (".rela" ++ name)%string in
  (* allocate text section resources, set data and section header *)
  let st := upd_sec st sec
              (fun _ => mkSection name SHT_PROGBITS SHF_ALLOC 0 8 entsize size
                          (repeat x00 (Z.to_nat size))
                          None None None None [] None
                          false NEW false false 0) in
  let kelf := {| sections := (sections kelf ++ [sec])%list;
                 symbols := symbols kelf; strings := strings kelf |} in
  (* allocate rela section resources and set section header;
     sizeof(GElf_Rela) is 24 *)
  let st := upd_sec st relasec
              (fun _ => mkSection relaname SHT_RELA 0 0 8 24 0 []
                          (Some sec) None None None [] None
                          false NEW false false 0) in
  let kelf := {| sections := (sections kelf ++ [relasec])%list;
                 symbols := symbols kelf; strings := strings kelf |} in
  (* set text rela section pointer *)
  let st := upd_sec st sec
              (fun s => mkSection (sec_name s) (sh_type s) (sh_flags s)
                          (sh_addr s) (sh_addralign s) (sh_entsize s)
                          (sh_size s) (d_buf s) (sec_base s) (Some relasec)
                          (sec_secsym s) (sec_sym s) (sec_relas s)
                          (sec_twin s) (sec_include s) (sec_status s)
                          (sec_grouped s) (sec_ignore s) (sec_index s)) in
  (st, kelf).

Section PatchTable.

(** [sizeof(struct xsplice_patch_func)], [offsetof(struct
    xsplice_patch_func, name)], [sizeof funcs[index].pad] and
    [PATCH_INSN_SIZE], of the headers. *)
Variables sizeof_funcs offsetof_name : Z.
Variable sizeof_pad : nat.
Variable PATCH_INSN_SIZE : Z.

(** Modelled from the spec: the lookup table of [lookup.h], opened on the
    running image.  [lookup_local_symbol name hint] and
    [lookup_global_symbol name] give the address and the size of the
    symbol, or nothing when it is not found. *)
Variable lookup_local_symbol : string -> string -> option (Z * Z).
Variable lookup_global_symbol : string -> option (Z * Z).

(** The state of the second loop of [xsplice_create_patches_sections]:
    the store, [kelf->strings], the array [funcs] ([None] where nothing
    was written yet) and [index]. *)
Definition populate_state : Type :=
  store * list string * list (option xsplice_patch_func) * Z.

Definition populate_entry (hint : string) (resolve : bool)
  (relasec strsym : nat) (s : populate_state) (sym : nat)
  : result populate_state :=
  let '(st, strs, funcs, index) := s in
  if (sym_type (syms st sym) =? STT_FUNC) &&
     status_eqb (sym_status (syms st sym)) CHANGED
  then
    r <- (if sym_bind (syms st sym) =? STB_LOCAL then
            match lookup_local_symbol (sym_name (syms st sym)) hint with
            | None => Fail EXIT_ERROR        (* lookup_local_symbol *)
            | Some result =>
                Ok (mangle_local_symbol hint (sym_name (syms st sym)), result)
            end
          else
            match lookup_global_symbol (sym_name (syms st sym)) with
            | None => Fail EXIT_ERROR        (* lookup_global_symbol *)
            | Some result => Ok (sym_name (syms st sym), result)
            end) ;;
    let '(funcname, (value, size)) := r in
    if size <? PATCH_INSN_SIZE then Fail EXIT_ERROR   (* too small to patch *)
    else
      (* add entry in text section *)
      funcs <- write_at funcs index
                 (Some {| old_addr := if resolve then value else 0;
                          old_size := size;
                          new_addr := 0;
                          new_size := st_size (syms st sym);
                          pad := repeat x00 sizeof_pad |}) ;;
      (* the relocation that populates funcs[index].new_addr *)
      let rela1 := mkRela R_X86_64_64 (index * sizeof_funcs) 0 sym None in
      (* the relocation that populates funcs[index].name *)
      let '(strs, addend) := offset_of_string strs funcname in
      let rela2 := mkRela R_X86_64_64 (index * sizeof_funcs + offsetof_name)
                          addend strsym None in
      let st := upd_sec st relasec
                  (fun s => set_sec_relas (sec_relas s ++ [rela1; rela2])%list s) in
      Ok (st, strs, funcs, index + 1)
  else Ok s.

(** Returns the store, the object and the array [funcs] that aliases the
    data buffer of [.xsplice.funcs]: the object representation of the
    entries depends on the declaration of the struct, so the array is kept
    beside the store. *)
Definition xsplice_create_patches_sections (kelf : xsplice_elf) (st : store)
  (hint : string) (resolve : bool) (sec relasec : nat)
  : result (store * xsplice_elf * list (option xsplice_patch_func)) :=
  (* count patched functions *)
  let nr :=
    fold_left (fun nr sym =>
                 if (sym_type (syms st sym) =? STT_FUNC) &&
                    status_eqb (sym_status (syms st sym)) CHANGED
                 then nr + 1 else nr) (symbols kelf) 0 in
  (* create text/rela section pair *)
  let '(st, kelf) :=
    create_section_pair kelf st ".xsplice.funcs" sizeof_funcs nr sec relasec in
  relasec <- deref (sec_rela (secs st sec)) ;;
  let funcs := repeat None (Z.to_nat nr) in
  (* lookup strings symbol *)
  match find_symbol_by_name st (symbols kelf) ".xsplice.strings" with
  | None => Fail EXIT_ERROR             (* can't find .xsplice.strings symbol *)
  | Some strsym =>
      (* populate sections *)
      r <- foreach (symbols kelf) (populate_entry hint resolve relasec strsym)
             (st, strings kelf, funcs, 0) ;;
      let '(st, strs, funcs, index) := r in
      (* sanity check, index should equal nr *)
      if negb (index =? nr) then Fail EXIT_ERROR
      else Ok (st, {| sections := sections kelf; symbols := symbols kelf;
                      strings := strs |}, funcs)
  end.

(** *** What the emitter writes *)

Definition lookup_of (st : store) (hint : string) (p : nat) : option (Z * Z) :=
  if sym_bind (syms st p) =? STB_LOCAL
  then lookup_local_symbol (sym_name (syms st p)) hint
  else lookup_global_symbol (sym_name (syms st p)).

Definition funcname_of (st : store) (hint : string) (p : nat) : string :=
  if sym_bind (syms st p) =? STB_LOCAL
  then mangle_local_symbol hint (sym_name (syms st p))
  else sym_name (syms st p).

(** The entry for the function [p]. *)
Definition patch_entry (st : store) (hint : string) (resolve : bool) (p : nat)
  : xsplice_patch_func :=
  let result := match lookup_of st hint p with
                | Some r => r
                | None => (0, 0)
                end in
  {| old_addr := if resolve then fst result else 0;
     old_size := snd result;
     new_addr := 0;
     new_size := st_size (syms st p);
     pad := repeat x00 sizeof_pad |}.

(** The two relocations for each function of the list, the first entry
    having the index [index]; the addends are offsets into the pool
    [strs]. *)
Fixpoint patch_relas (st : store) (hint : string) (strsym : nat)
  (strs : list string) (index : Z) (l : list nat) : list rela :=
  match l with
  | [] => []
  | p :: l' =>
      mkRela R_X86_64_64 (index * sizeof_funcs) 0 p None ::
      mkRela R_X86_64_64 (index * sizeof_funcs + offsetof_name)
             (match string_offset strs (funcname_of st hint p) with
              | Some a => a
              | None => 0
              end) strsym None ::
      patch_relas st hint strsym strs (index + 1) l'
  end.

(** The lookup finds the function and the function is large enough. *)
Definition patchable (st : store) (hint : string) (p : nat) : Prop :=
  exists value size,
    lookup_of st hint p = Some (value, size) /\ PATCH_INSN_SIZE <= size.

End PatchTable.

Module PatchExample.

(** The output object of a patch that changes the global [f] and the
    local [g]; the running image has [f] at 4096 and [g] of [a.c] at
    8192. *)
Definition st_out : store :=
  store_of
    [ IncludeExamples.sym "" STT_NOTYPE STB_LOCAL None SAME;
      IncludeExamples.sym "a.c" STT_FILE STB_LOCAL None SAME;
      IncludeExamples.sym "f" STT_FUNC STB_GLOBAL (Some 0%nat) CHANGED;
      IncludeExamples.sym "g" STT_FUNC STB_LOCAL (Some 1%nat) CHANGED;
      IncludeExamples.sym "h" STT_FUNC STB_GLOBAL None SAME;
      IncludeExamples.sym ".xsplice.strings" STT_SECTION STB_LOCAL
        (Some 2%nat) NEW ]
    [ IncludeExamples.sec ".text.f" SHT_PROGBITS None None None (Some 2%nat)
        [] CHANGED;
      IncludeExamples.sec ".text.g" SHT_PROGBITS None None None (Some 3%nat)
        [] CHANGED;
      IncludeExamples.sec ".xsplice.strings" SHT_PROGBITS None None None None
        [] NEW ].

Definition kelf_out : xsplice_elf :=
  {| sections := seq 0 3; symbols := seq 0 6; strings := [] |}.

Definition lookup_local (name hint : string) : option (Z * Z) :=
  if streq name "g" && streq hint "a.c" then Some (8192, 64) else None.

Definition lookup_global (name : string) : option (Z * Z) :=
  if streq name "f" then Some (4096, 32) else None.

End PatchExample.

(** The relocation lists of [s'] are sublists of those of [s]; nothing
    else differs. *)
Definition relas_shrink (s s' : store) : Prop :=
  syms s' = syms s /\
  forall x, exists l, secs s' x = set_sec_relas l (secs s x) /\
                      incl l (sec_relas (secs s x)).


(** ** Patchability *)

(** The four tests of [xsplice_verify_patchability] on one section, each
    of which counts one error. *)
Definition changed_not_included (s : section) : bool :=
  status_eqb (sec_status s) CHANGED && negb (sec_include s).

Definition changed_in_group (s : section) : bool :=
  negb (status_eqb (sec_status s) SAME) && sec_grouped s.

Definition new_group_section (s : section) : bool :=
  (sh_type s =? SHT_GROUP) && status_eqb (sec_status s) NEW.

Definition data_section_included (s : section) : bool :=
  sec_include s && negb (status_eqb (sec_status s) NEW) &&
  (has_prefix ".data" (sec_name s) || has_prefix ".bss" (sec_name s)) &&
  negb (streq (sec_name s) ".data.unlikely").

Definition xsplice_verify_patchability (kelf : xsplice_elf) (st : store)
  : result unit :=
  let errs :=
    fold_left
      (fun errs sec =>
         let errs := if changed_not_included (secs st sec)
                     then errs + 1 else errs in
         let errs := if changed_in_group (secs st sec)
                     then errs + 1 else errs in
         let errs := if new_group_section (secs st sec)
                     then errs + 1 else errs in
         if data_section_included (secs st sec) then errs + 1 else errs)
      (sections kelf) 0 in
  if negb (errs =? 0) then Fail EXIT_DIFF_FATAL else Ok tt.

(** ** Migration to the output object *)

(** Returns the store, what is left of [kelf], and the output object. *)
Definition xsplice_migrate_included_elements (kelf : xsplice_elf) (st : store)
  : store * xsplice_elf * xsplice_elf :=
  (* migrate included sections from kelf to out *)
  let '(st, left_secs, out_secs) :=
    fold_left
      (fun '(st, rest, out) sec =>
         if negb (sec_include (secs st sec)) then (st, rest ++ [sec], out)%list
         else
           let st := upd_sec st sec (set_sec_index 0) in
           let st :=
             match sec_secsym (secs st sec) with
             | Some secsym =>
                 if negb (is_rela_section (secs st sec)) &&
                    negb (sym_include (syms st secsym))
                 then
                   (* break link to non-included section symbol *)
                   upd_sec st sec (set_sec_secsym None)
                 else st
             | None => st
             end in
           (st, rest, out ++ [sec])%list)
      (sections kelf) (st, [], []) in
  (* migrate included symbols from kelf to out *)
  let '(st, left_syms, out_syms) :=
    fold_left
      (fun '(st, rest, out) sym =>
         if negb (sym_include (syms st sym)) then (st, rest ++ [sym], out)%list
         else
           let st := upd_sym st sym (set_sym_index 0) in
           let st :=
             match sym_sec (syms st sym) with
             | Some sec =>
                 if negb (sec_include (secs st sec))
                 then
                   (* break link to non-included section *)
                   upd_sym st sym (set_sym_sec None)
                 else st
             | None => st
             end in
           (st, rest, out ++ [sym])%list)
      (symbols kelf) (st, [], []) in
  (st,
   {| sections := left_secs; symbols := left_syms; strings := strings kelf |},
   {| sections := out_secs; symbols := out_syms; strings := [] |}).

(** ** Indices *)

(** [st_shndx] is a 16-bit field. *)
Definition to_half (z : Z) : Z := z mod 2 ^ 16.

Definition xsplice_reindex_elements (kelf : xsplice_elf) (st : store) : store :=
  (* elf write function handles NULL section 0 *)
  let '(st, _) :=
    fold_left
      (fun '(st, index) sec => (upd_sec st sec (set_sec_index index), index + 1))
      (sections kelf) (st, 1) in
  let '(st, _) :=
    fold_left
      (fun '(st, index) sym =>
         let st := upd_sym st sym (set_sym_index index) in
         let st :=
           match sym_sec (syms st sym) with
           | Some sec =>
               upd_sym st sym (set_st_shndx (to_half (sec_index (secs st sec))))
           | None =>
               if negb (st_shndx (syms st sym) =? SHN_ABS)
               then upd_sym st sym (set_st_shndx SHN_UNDEF)
               else st
           end in
         (st, index + 1))
      (symbols kelf) (st, 0) in
  st.

(** ** The string section *)

Definition xsplice_create_strings_elements (kelf : xsplice_elf) (st : store)
  (sec sym : nat) : store * xsplice_elf :=
  (* create .xsplice.strings: allocate section resources, set data and
     section header *)
  let st := upd_sec st sec
              (fun _ => mkSection ".xsplice.strings" SHT_PROGBITS SHF_ALLOC
                          0 1 1 0 [] None None None None [] None
                          false NEW false false 0) in
  (* create .xsplice.strings section symbol;
     GELF_ST_INFO(STB_LOCAL, STT_SECTION) is 3 *)
  let st := upd_sym st sym
              (fun _ => mkSymbol ".xsplice.strings" STT_SECTION STB_LOCAL
                          (Some sec) None false NEW 3 0 0 0 0 0) in
  (st, {| sections := (sections kelf ++ [sec])%list;
          symbols := (symbols kelf ++ [sym])%list;
          strings := strings kelf |}).

(** [strcpy(strtab, name)]: the bytes of the name and the NUL. *)
Definition c_string (s : string) : list byte :=
  (list_byte_of_string s ++ [x00])%list.

(** [size] as the first loop of [xsplice_build_strings_section_data]
    determines it. *)
Definition strings_size (l : list string) : Z :=
  fold_left (fun size s => size + (strlen s + 1)) l 0.

(** The buffer has [strings_size] bytes and the second loop fills it from
    its start; the store keeps the buffer, and [d_size] is its length. *)
Definition xsplice_build_strings_section_data (kelf : xsplice_elf)
  (st : store) : result store :=
  match find_section_by_name st (sections kelf) ".xsplice.strings" with
  | None => Fail EXIT_ERROR             (* can't find .xsplice.strings *)
  | Some sec =>
      (* populate strings section data *)
      let strtab :=
        fold_left (fun strtab s => (strtab ++ c_string s)%list)
                  (strings kelf) [] in
      Ok (upd_sec st sec (set_d_buf strtab))
  end.

(** ** Local symbol names *)

Definition xsplice_rename_local_symbols (kelf : xsplice_elf) (st : store)
  (hint : string) : store :=
  fold_left
    (fun st sym =>
       (* ignore NULL symbol *)
       if strlen (sym_name (syms st sym)) =? 0 then st
       else if negb (sym_type (syms st sym) =? STT_FUNC) &&
               negb (sym_type (syms st sym) =? STT_OBJECT) then st
       else if negb (sym_bind (syms st sym) =? STB_LOCAL) then st
       else upd_sym st sym
              (set_sym_name (mangle_local_symbol hint (sym_name (syms st sym)))))
    (symbols kelf) st.

(** The symbols that [xsplice_rename_local_symbols] renames. *)
Definition is_renamed_local (s : symbol) : bool :=
  negb (strlen (sym_name s) =? 0) &&
  ((sym_type s =? STT_FUNC) || (sym_type s =? STT_OBJECT)) &&
  (sym_bind s =? STB_LOCAL).

(** A section that [xsplice_verify_patchability] does not accept. *)
Definition unsupported_change (s : section) : bool :=
  changed_not_included s || changed_in_group s || new_group_section s ||
  data_section_included s.

(** What the second loop of [xsplice_reindex_elements] stores in
    [st_shndx]. *)
Definition shndx_of (st : store) (s : symbol) : Z :=
  match sym_sec s with
  | Some sec => to_half (sec_index (secs st sec))
  | None => if st_shndx s =? SHN_ABS then SHN_ABS else SHN_UNDEF
  end.


(** ** Names up to mangling *)

(** A C string: no NUL before the end. *)
Fixpoint no_nul (s : string) : bool :=
  match s with
  | EmptyString => true
  | String c t => negb (is_nul c) && no_nul t
  end.

(** The name with every run of digits that follows a ['.'] replaced by a
    single [0]; [skipping] is set inside such a run. *)
Fixpoint canonical_from (skipping : bool) (s : string) : string :=
  match s with
  | EmptyString => EmptyString
  | String c t =>
      if skipping && isdigit c then canonical_from true t
      else if Ascii.eqb c "." && isdigit (peek t)
      then String "." (String "0" (canonical_from true t))
      else String c (canonical_from false t)
  end.

Definition canonical (s : string) : string := canonical_from false s.

(** *** What the section comparison decides *)

(** The five header fields that must agree. *)
Definition headers_agree (sec1 sec2 : section) : bool :=
  (sh_type sec1 =? sh_type sec2) && (sh_flags sec1 =? sh_flags sec2) &&
  (sh_addr sec1 =? sh_addr sec2) &&
  (sh_addralign sec1 =? sh_addralign sec2) &&
  (sh_entsize sec1 =? sh_entsize sec2).

(** The contents of two sections that are not relocation sections agree:
    same sizes and, unless the section is [SHT_NOBITS], same bytes. *)
Definition contents_agree (sec1 sec2 : section) : Prop :=
  sh_size sec1 = sh_size sec2 /\
  (sh_type sec1 = SHT_NOBITS /\ d_size sec1 = d_size sec2 \/
   d_buf sec1 = d_buf sec2).

Module VerdictExample.

(** [.data.x] of the patched object (section 0) and of the base object
    (section 1), twins with different bytes. *)
Definition data_x (twin : nat) (bytes : list byte) : section :=
  mkSection ".data.x" SHT_PROGBITS SHF_ALLOC 0 4 0 4 bytes
            None None None None [] (Some twin) false SAME false false 0.

Definition st_data : store :=
  store_of [] [ data_x 1 [x01; x00; x00; x00]; data_x 0 [x02; x00; x00; x00] ].

End VerdictExample.

(** The section [x] of [s] is the section of [st] with a status set by the
    comparison: [NEW] exactly when it has no twin. *)
Definition compared (st s : store) (x : nat) : Prop :=
  exists v, secs s x = set_sec_status v (secs st x) /\
            (v = NEW <-> sec_twin (secs st x) = None).

(** The names of the temporary objects of the [xsplice_load] and
    [xsplice_unload] macros. *)
Definition is_hook_data (name : string) : bool :=
  streq name "xsplice_load_data" || streq name "xsplice_unload_data".

(** Sections keep their names and no section is excluded. *)
Definition sections_kept (s s' : store) : Prop :=
  forall x, sec_name (secs s' x) = sec_name (secs s x) /\
            (sec_include (secs s x) = true -> sec_include (secs s' x) = true).

Module HookExample.

(** A patch with a load hook: [.xsplice.hooks.load] holds the pointer
    object [xsplice_load_data], relocated against the hook function
    [do_load]. *)
Definition st_hook : store :=
  store_of
    [ IncludeExamples.sym "" STT_NOTYPE STB_LOCAL None SAME;
      IncludeExamples.sym "do_load" STT_FUNC STB_GLOBAL (Some 0%nat) NEW;
      IncludeExamples.sym ".text.do_load" STT_SECTION STB_LOCAL (Some 0%nat) NEW;
      set_sym_include true
        (IncludeExamples.sym "xsplice_load_data" STT_OBJECT STB_GLOBAL
           (Some 1%nat) NEW);
      IncludeExamples.sym ".xsplice.hooks.load" STT_SECTION STB_LOCAL
        (Some 1%nat) NEW ]
    [ IncludeExamples.sec ".text.do_load" SHT_PROGBITS None None (Some 2%nat)
        (Some 1%nat) [] NEW;
      IncludeExamples.sec ".xsplice.hooks.load" SHT_PROGBITS None (Some 2%nat)
        (Some 4%nat) (Some 3%nat) [] NEW;
      IncludeExamples.sec ".rela.xsplice.hooks.load" SHT_RELA (Some 1%nat)
        None None None [mkRela R_X86_64_64 0 0 1%nat None] NEW ].

Definition kelf_hook : xsplice_elf :=
  {| sections := seq 0 3; symbols := seq 0 5; strings := [] |}.

End HookExample.

(** Statuses only change, and only to [SAME]. *)
Definition marked_same (s s' : store) : Prop :=
  (forall p, syms s' p = syms s p \/
             syms s' p = set_sym_status SAME (syms s p)) /\
  (forall x, secs s' x = secs s x \/
             secs s' x = set_sec_status SAME (secs s x)).

(** What [xsplice_mark_ignored_functions_same] expects of a relocation of
    [.xsplice.ignore.functions]: a function symbol with a section. *)
Definition ignorable (st : store) (r : rela) : bool :=
  is_some (sym_sec (syms st (rela_sym r))) &&
  (sym_type (syms st (rela_sym r)) =? STT_FUNC).

Module IgnoreExample.

(** The changed section [.data.foo] is ignored, and the changed function
    [f] is named in [.xsplice.ignore.functions]. *)
Definition st_ignore : store :=
  store_of
    [ IncludeExamples.sym "" STT_NOTYPE STB_LOCAL None SAME;
      IncludeExamples.sym "foo" STT_OBJECT STB_GLOBAL (Some 0%nat) CHANGED;
      IncludeExamples.sym ".data.foo" STT_SECTION STB_LOCAL (Some 0%nat) CHANGED;
      IncludeExamples.sym "f" STT_FUNC STB_GLOBAL (Some 2%nat) CHANGED ]
    [ set_sec_ignore true
        (IncludeExamples.sec ".data.foo" SHT_PROGBITS None (Some 1%nat)
           (Some 2%nat) None [] CHANGED);
      IncludeExamples.sec ".rela.data.foo" SHT_RELA (Some 0%nat) None None None
        [mkRela R_X86_64_64 0 0 3%nat None] CHANGED;
      IncludeExamples.sec ".text.f" SHT_PROGBITS None None None (Some 3%nat)
        [] CHANGED;
      IncludeExamples.sec ".xsplice.ignore.functions" SHT_PROGBITS None
        (Some 4%nat) None None [] NEW;
      IncludeExamples.sec ".rela.xsplice.ignore.functions" SHT_RELA
        (Some 3%nat) None None None [mkRela R_X86_64_64 0 0 3%nat None] NEW ].

Definition kelf_ignore : xsplice_elf :=
  {| sections := seq 0 5; symbols := seq 0 4; strings := [] |}.

End IgnoreExample.

(** ** Special sections of the patched object *)

Definition xsplice_process_special_sections (fuel : nat) (kelf : xsplice_elf)
  (st : store) : result store :=
  st <- foreach special_sections
          (fun st special =>
             match find_section_by_name st (sections kelf)
                                        (special_name special) with
             | None => Ok st
             | Some sec =>
                 match sec_rela (secs st sec) with
                 | None => Ok st
                 | Some sec =>
                     xsplice_regenerate_special_section fuel
                       (special_group_size special kelf) st sec
                 end
             end) st ;;
  (* sections without relas to non-included symbols: include them whole *)
  foreach (sections kelf)
    (fun st sec =>
       if negb (streq (sec_name (secs st sec)) ".altinstr_replacement")
       then Ok st
       else
         (* include base section *)
         let st := upd_sec st sec (set_sec_include true) in
         (* include all symbols in the section *)
         st <- foreach (symbols kelf)
                 (fun st sym =>
                    if ptr_is (sym_sec (syms st sym)) sec
                    then Ok (upd_sym st sym (set_sym_include true))
                    else Ok st) st ;;
         (* include rela section *)
         match sec_rela (secs st sec) with
         | Some r =>
             let st := upd_sec st r (set_sec_include true) in
             (* include all symbols referenced by relas *)
             foreach (sec_relas (secs st r))
               (fun st rela =>
                  Ok (upd_sym st (rela_sym rela) (set_sym_include true))) st
         | None => Ok st
         end) st.

(** Symbols differ in include flags only; sections keep their names and
    their relocation sections. *)
Definition layout_kept (st st' : store) : Prop :=
  sym_flags_only st st' /\
  forall x, sec_name (secs st' x) = sec_name (secs st x) /\
            sec_rela (secs st' x) = sec_rela (secs st x).

Module ReplacementExample.

(** [SpecialExample.st_alt] with the replacement code of the
    alternatives: [.altinstr_replacement], which is not included and whose
    relocation section refers to [g]. *)
Definition st_repl : store :=
  store_of
    [ IncludeExamples.sym "" STT_NOTYPE STB_LOCAL None SAME;
      IncludeExamples.sym "f" STT_FUNC STB_GLOBAL (Some 0%nat) CHANGED;
      IncludeExamples.sym "g" STT_FUNC STB_GLOBAL (Some 1%nat) SAME;
      IncludeExamples.sym ".altinstr_replacement" STT_SECTION STB_LOCAL
        (Some 4%nat) SAME ]
    [ set_sec_include true
        (IncludeExamples.sec ".text.f" SHT_PROGBITS None None None (Some 1%nat)
           [] CHANGED);
      IncludeExamples.sec ".text.g" SHT_PROGBITS None None None (Some 2%nat)
        [] SAME;
      mkSection ".altinstructions" SHT_PROGBITS SHF_ALLOC 0 4 0 36
        (repeat x01 12 ++ repeat x02 12 ++ repeat x03 12)
        None (Some 3%nat) None None [] None false CHANGED false false 0;
      mkSection ".rela.altinstructions" SHT_RELA 0 0 8 24 120 (repeat x00 120)
        (Some 2%nat) None None None
        [ mkRela R_X86_64_PC32 0 0 1%nat None;
          mkRela R_X86_64_PC32 4 0 2%nat None;
          mkRela R_X86_64_PC32 12 0 2%nat None;
          mkRela R_X86_64_PC32 24 8 1%nat None;
          mkRela R_X86_64_PC32 28 0 2%nat None ]
        None false CHANGED false false 0;
      IncludeExamples.sec ".altinstr_replacement" SHT_PROGBITS None
        (Some 5%nat) (Some 3%nat) None [] SAME;
      IncludeExamples.sec ".rela.altinstr_replacement" SHT_RELA (Some 4%nat)
        None None None [IncludeExamples.call 2] SAME ].

Definition kelf_repl : xsplice_elf :=
  {| sections := seq 0 6; symbols := seq 0 4; strings := [] |}.

End ReplacementExample.

(** ** What the symbol comparison decides *)

(** The symbol has moved: it and its twin have sections that are not
    twins. *)
Definition symbol_moved (st : store) (sym1 sym2 : symbol) : bool :=
  match sym_sec sym1, sym_sec sym2 with
  | Some sec1, Some sec2 => negb (ptr_is (sec_twin (secs st sec1)) sec2)
  | _, _ => false
  end.

(** The twin's section has a twin, which is ignored. *)
Definition out_of_ignored (st : store) (sym2 : symbol) : bool :=
  match sym_sec sym2 with
  | Some sec2 =>
      match sec_twin (secs st sec2) with
      | Some t => sec_ignore (secs st t)
      | None => false
      end
  | None => false
  end.

(** The differences between a symbol and its twin that the comparison
    does not accept. *)
Definition symbol_mismatch (st : store) (sym : nat) : bool :=
  match sym_twin (syms st sym) with
  | None => false
  | Some twin =>
      let sym1 := syms st sym in
      let sym2 := syms st twin in
      negb (st_info sym1 =? st_info sym2) ||
      negb (st_other sym1 =? st_other sym2) ||
      negb (Bool.eqb (is_some (sym_sec sym1)) (is_some (sym_sec sym2))) ||
      (symbol_moved st sym1 sym2 && negb (out_of_ignored st sym2)) ||
      ((sym_type sym1 =? STT_OBJECT) && negb (st_size sym1 =? st_size sym2))
  end.

(** The status of a symbol after the comparison. *)
Definition compared_status (st : store) (sym : nat) : status :=
  match sym_twin (syms st sym) with
  | None => NEW
  | Some twin =>
      let sym1 := syms st sym in
      if (st_shndx sym1 =? SHN_UNDEF) || (st_shndx sym1 =? SHN_ABS) then SAME
      else if symbol_moved st sym1 (syms st twin) then CHANGED
      else sym_status sym1
  end.

(** The stores of the loop of [xsplice_compare_symbols]: sections as in
    [st], each symbol as in [st] or with its final status. *)
Definition visited (st s : store) : Prop :=
  (forall x, secs s x = secs st x) /\
  forall p, syms s p = syms st p \/
            syms s p = set_sym_status (compared_status st p) (syms st p).

(** * Properties *)

(** ** C strings *)

Lemma skip_digits_length s : (String.length (skip_digits s) <= String.length s)%nat.
Proof.
  induction s as [|c t IH]; simpl; [lia|].
  destruct (isdigit c); simpl; lia.
Qed.

Lemma advance_length s : (String.length (advance s) <= String.length s)%nat.
Proof. destruct s; simpl; lia. Qed.

Lemma advance_length_lt s :
  is_nul (peek s) = false -> (String.length (advance s) < String.length s)%nat.
Proof. destruct s; simpl; [discriminate | lia]. Qed.

Lemma isdigit_not_nul c : isdigit c = true -> is_nul c = false.
Proof.
  unfold isdigit, is_nul. intros H.
  destruct (Ascii.eqb_spec c Ascii.zero) as [->|]; [|reflexivity].
  simpl in H. discriminate.
Qed.

(** ** Mangled symbol names *)

Lemma mangled_strcmp_loop_S fuel s1 s2 :
  mangled_strcmp_loop (S fuel) s1 s2 =
  if Ascii.eqb (peek s1) (peek s2) then
    if is_nul (peek s1) then Some 0
    else if Ascii.eqb (peek s1) "." && isdigit (peek (advance s1)) then
      if negb (isdigit (peek (advance s2))) then Some 1
      else mangled_strcmp_loop fuel
             (skip_digits (advance s1)) (skip_digits (advance s2))
    else mangled_strcmp_loop fuel (advance s1) (advance s2)
  else Some 1.
Proof. reflexivity. Qed.

Lemma mangled_strcmp_loop_total fuel s1 s2 :
  (String.length s1 < fuel)%nat ->
  exists r, mangled_strcmp_loop fuel s1 s2 = Some r.
Proof.
  revert s1 s2. induction fuel as [|fuel IH]; intros s1 s2 Hlen; [lia|].
  simpl.
  destruct (Ascii.eqb (peek s1) (peek s2)); [|eauto].
  destruct (is_nul (peek s1)) eqn:Hnul; [eauto|].
  pose proof (advance_length_lt s1 Hnul) as Hadv.
  destruct (Ascii.eqb (peek s1) "." && isdigit (peek (advance s1))).
  - destruct (negb (isdigit (peek (advance s2)))); [eauto|].
    apply IH. pose proof (skip_digits_length (advance s1)). lia.
  - apply IH. lia.
Qed.

Lemma mangled_strcmp_loop_mono fuel fuel' s1 s2 r :
  (fuel <= fuel')%nat ->
  mangled_strcmp_loop fuel s1 s2 = Some r ->
  mangled_strcmp_loop fuel' s1 s2 = Some r.
Proof.
  revert fuel' s1 s2. induction fuel as [|fuel IH]; intros fuel' s1 s2 Hle H.
  - discriminate.
  - destruct fuel' as [|fuel']; [lia|].
    simpl in *.
    destruct (Ascii.eqb (peek s1) (peek s2)); [|exact H].
    destruct (is_nul (peek s1)); [exact H|].
    destruct (Ascii.eqb (peek s1) "." && isdigit (peek (advance s1))).
    + destruct (negb (isdigit (peek (advance s2)))); [exact H|].
      apply IH; [lia | exact H].
    + apply IH; [lia | exact H].
Qed.

Lemma mangled_strcmp_loop_spec fuel s1 s2 r :
  mangled_strcmp_loop fuel s1 s2 = Some r -> xsplice_mangled_strcmp s1 s2 = r.
Proof.
  intros H. unfold xsplice_mangled_strcmp.
  destruct (mangled_strcmp_loop_total (S (String.length s1)) s1 s2) as [r' Hr'];
    [lia|].
  rewrite Hr'.
  pose proof (mangled_strcmp_loop_mono _ (Nat.max fuel (S (String.length s1)))
                _ _ _ (Nat.le_max_l _ _) H) as H1.
  pose proof (mangled_strcmp_loop_mono _ (Nat.max fuel (S (String.length s1)))
                _ _ _ (Nat.le_max_r _ _) Hr') as H2.
  congruence.
Qed.

(** The body of the C function, one iteration unrolled. *)
Lemma xsplice_mangled_strcmp_unfold s1 s2 :
  xsplice_mangled_strcmp s1 s2 =
  if Ascii.eqb (peek s1) (peek s2) then
    if is_nul (peek s1) then 0
    else if Ascii.eqb (peek s1) "." && isdigit (peek (advance s1)) then
      if negb (isdigit (peek (advance s2))) then 1
      else xsplice_mangled_strcmp
             (skip_digits (advance s1)) (skip_digits (advance s2))
    else xsplice_mangled_strcmp (advance s1) (advance s2)
  else 1.
Proof.
  destruct (mangled_strcmp_loop_total (S (S (String.length s1))) s1 s2)
    as [r Hr]; [lia|].
  rewrite (mangled_strcmp_loop_spec _ _ _ _ Hr).
  rewrite mangled_strcmp_loop_S in Hr.
  destruct (Ascii.eqb (peek s1) (peek s2)); [|congruence].
  destruct (is_nul (peek s1)); [congruence|].
  destruct (Ascii.eqb (peek s1) "." && isdigit (peek (advance s1))).
  - destruct (negb (isdigit (peek (advance s2)))); [congruence|].
    symmetry. eapply mangled_strcmp_loop_spec; exact Hr.
  - symmetry. eapply mangled_strcmp_loop_spec; exact Hr.
Qed.

Lemma mangled_strcmp_loop_range fuel s1 s2 r :
  mangled_strcmp_loop fuel s1 s2 = Some r -> r = 0 \/ r = 1.
Proof.
  revert s1 s2. induction fuel as [|fuel IH]; intros s1 s2 H; [discriminate|].
  simpl in H.
  destruct (Ascii.eqb (peek s1) (peek s2)); [|inversion H; auto].
  destruct (is_nul (peek s1)); [inversion H; auto|].
  destruct (Ascii.eqb (peek s1) "." && isdigit (peek (advance s1))).
  - destruct (negb (isdigit (peek (advance s2)))); [inversion H; auto|].
    eapply IH; exact H.
  - eapply IH; exact H.
Qed.

Lemma mangled_strcmp_loop_refl fuel s :
  (String.length s < fuel)%nat -> mangled_strcmp_loop fuel s s = Some 0.
Proof.
  revert s. induction fuel as [|fuel IH]; intros s Hlen; [lia|].
  simpl. rewrite Ascii.eqb_refl.
  destruct (is_nul (peek s)) eqn:Hnul; [reflexivity|].
  pose proof (advance_length_lt s Hnul) as Hadv.
  destruct (Ascii.eqb (peek s) "." && isdigit (peek (advance s))) eqn:Hdot.
  - apply andb_prop in Hdot. destruct Hdot as [_ Hd]. rewrite Hd. simpl.
    apply IH. pose proof (skip_digits_length (advance s)). lia.
  - apply IH. lia.
Qed.

Lemma peek_advance_neq_digit s1 s2 :
  isdigit (peek s1) = true -> isdigit (peek s2) = false ->
  Ascii.eqb (peek s2) (peek s1) = false.
Proof.
  intros H1 H2. destruct (Ascii.eqb_spec (peek s2) (peek s1)) as [E|]; [|reflexivity].
  rewrite E in H2. congruence.
Qed.

Lemma mangled_strcmp_loop_sym fuel s1 s2 :
  mangled_strcmp_loop fuel s1 s2 = Some 0 ->
  mangled_strcmp_loop fuel s2 s1 = Some 0.
Proof.
  revert s1 s2. induction fuel as [|fuel IH]; intros s1 s2 H; [discriminate|].
  simpl in H. simpl.
  destruct (Ascii.eqb_spec (peek s1) (peek s2)) as [E|]; [|discriminate].
  rewrite <- E, Ascii.eqb_refl.
  destruct (is_nul (peek s1)); [reflexivity|].
  destruct (Ascii.eqb (peek s1) ".") eqn:Hdot; simpl in *.
  - destruct (isdigit (peek (advance s1))) eqn:Hd1;
      destruct (isdigit (peek (advance s2))) eqn:Hd2; simpl in *.
    + apply IH; exact H.
    + discriminate.
    + (* only [s2] has a digit after the dot: the next characters differ *)
      destruct fuel as [|fuel]; [discriminate|].
      rewrite mangled_strcmp_loop_S in H.
      rewrite (peek_advance_neq_digit _ _ Hd2 Hd1) in H. discriminate.
    + apply IH; exact H.
  - apply IH; exact H.
Qed.

(** C9.  [xsplice_mangled_strcmp] is a boolean predicate: on every pair of
    strings it returns 0 or 1 (so never -1), it returns 0 on two identical
    strings, and it returns 0 on [(s1, s2)] iff it returns 0 on [(s2, s1)]. *)
Theorem xsplice_mangled_strcmp_boolean (s1 s2 : string) :
  (xsplice_mangled_strcmp s1 s2 = 0 \/ xsplice_mangled_strcmp s1 s2 = 1) /\
  xsplice_mangled_strcmp s1 s2 <> -1 /\
  xsplice_mangled_strcmp s1 s1 = 0 /\
  (xsplice_mangled_strcmp s1 s2 = 0 <-> xsplice_mangled_strcmp s2 s1 = 0).
Proof.
  assert (Hrange : forall a b,
             xsplice_mangled_strcmp a b = 0 \/ xsplice_mangled_strcmp a b = 1).
  { intros a b.
    destruct (mangled_strcmp_loop_total (S (String.length a)) a b) as [r Hr];
      [lia|].
    rewrite (mangled_strcmp_loop_spec _ _ _ _ Hr).
    eapply mangled_strcmp_loop_range; exact Hr. }
  assert (Hsym : forall a b,
             xsplice_mangled_strcmp a b = 0 -> xsplice_mangled_strcmp b a = 0).
  { intros a b H.
    destruct (mangled_strcmp_loop_total (S (String.length a)) a b) as [r Hr];
      [lia|].
    rewrite (mangled_strcmp_loop_spec _ _ _ _ Hr) in H. subst r.
    eapply mangled_strcmp_loop_spec. apply mangled_strcmp_loop_sym. exact Hr. }
  split; [apply Hrange|].
  split; [destruct (Hrange s1 s2) as [E|E]; rewrite E; lia|].
  split.
  - eapply mangled_strcmp_loop_spec.
    apply (mangled_strcmp_loop_refl (S (String.length s1))). lia.
  - split; apply Hsym.
Qed.

(** ** Comparator *)

Lemma special_static_Ok st p b :
  is_special_static st (Some p) = Ok b -> special_static st p = b.
Proof. unfold special_static. now intros ->. Qed.

Lemma streq_eq a b : streq a b = true <-> a = b.
Proof. unfold streq. apply String.eqb_eq. Qed.

(** C3 (as the code has it).  [rela_equal] returns 1 exactly when the two
    relocations have the same type and offset and, if the patched
    relocation carries an inlined string, the twin carries an equal string
    (nothing else is compared then); otherwise the addends are equal and the
    targets are both constant labels, or else the names are equal under
    mangled equality when the patched relocation's target is a special
    static, and literally equal when it is not. *)
Theorem rela_equal_iff (st : store) (rela1 rela2 : rela) (b : bool) :
  rela_equal st rela1 rela2 = Ok b ->
  (b = true <-> rela_equal_holds st rela1 rela2).
Proof.
  unfold rela_equal, rela_equal_holds.
  destruct (Z.eqb_spec (rela_type rela1) (rela_type rela2)) as [Ht|Ht]; cbn [negb orb].
  2:{ intros [= <-]. split; [discriminate | tauto]. }
  destruct (Z.eqb_spec (rela_offset rela1) (rela_offset rela2)) as [Ho|Ho]; cbn [negb orb].
  2:{ intros [= <-]. split; [discriminate | tauto]. }
  destruct (rela_string rela1) as [s1|].
  - intros [= <-]. destruct (rela_string rela2) as [s2|].
    + rewrite streq_eq. split.
      * intros ->. auto.
      * intros (_ & _ & [= ->]). reflexivity.
    + split; [discriminate | intros (_ & _ & ?); discriminate].
  - destruct (Z.eqb_spec (rela_addend rela1) (rela_addend rela2)) as [Ha|Ha]; cbn [negb orb].
    2:{ intros [= <-]. split; [discriminate | tauto]. }
    destruct (is_constant_label (syms st (rela_sym rela1)) &&
              is_constant_label (syms st (rela_sym rela2))).
    + intros [= <-]. tauto.
    + destruct (is_special_static st (Some (rela_sym rela1))) as [sp|e] eqn:Hsp;
        cbn [bind]; [|intros H; discriminate H].
      rewrite (special_static_Ok _ _ _ Hsp).
      destruct sp; intros [= <-].
      * rewrite Z.eqb_eq. tauto.
      * rewrite streq_eq. tauto.
Qed.

Lemma rela_equal_iff_witness :
  rela_equal CompareExamples.st_special
    CompareExamples.rela_patched CompareExamples.rela_base = Ok false /\
  (false = true <->
   rela_equal_holds CompareExamples.st_special
     CompareExamples.rela_patched CompareExamples.rela_base).
Proof.
  split; [reflexivity|].
  apply (rela_equal_iff CompareExamples.st_special). reflexivity.
Defined.

(** C3 (as stated) fails: the twin's target is a special static, the
    patched relocation's target is not, the names agree under mangled
    equality only; the code compares them literally and reports a
    mismatch, where the stated rule accepts the pair. *)
Lemma rela_equal_claimed_counterexample :
  rela_equal CompareExamples.st_special
    CompareExamples.rela_patched CompareExamples.rela_base = Ok false /\
  rela_equal_claimed CompareExamples.st_special
    CompareExamples.rela_patched CompareExamples.rela_base = true.
Proof. split; reflexivity. Qed.

(** With an inlined string on the patched side the code compares the
    strings only: the addends and the targets are not looked at. *)
Example rela_equal_strings_only :
  rela_equal CompareExamples.st_strings
    CompareExamples.rela_str_patched CompareExamples.rela_str_base = Ok true /\
  rela_equal_claimed CompareExamples.st_strings
    CompareExamples.rela_str_patched CompareExamples.rela_str_base = false.
Proof. split; reflexivity. Qed.

Lemma rela_equal_total st rela1 rela2 :
  (sym_type (syms st (rela_sym rela1)) = STT_SECTION ->
   sym_sec (syms st (rela_sym rela1)) <> None) ->
  exists b, rela_equal st rela1 rela2 = Ok b.
Proof.
  intros Hsec. unfold rela_equal.
  destruct (negb _ || negb _); [eauto|].
  destruct (rela_string rela1); [eauto|].
  destruct (negb _); [eauto|].
  destruct (_ && _); [eauto|].
  unfold is_special_static.
  destruct (Z.eqb_spec (sym_type (syms st (rela_sym rela1))) STT_SECTION) as [E|E].
  - destruct (streq _ "__verbose"); cbn [bind]; [destruct (_ =? 0); eauto|].
    destruct (sym_sec (syms st (rela_sym rela1))) as [sec|] eqn:Hs;
      [|now elim (Hsec E)].
    cbn [deref bind].
    destruct (sec_sym (secs st sec)); cbn [bind];
      repeat match goal with |- context [if ?c then _ else _] => destruct c end;
      eauto.
  - cbn [bind]. destruct (is_special_static_object _); eauto.
Qed.

(** The walk over the patched list with the cursor at [cursor]: as long as
    the twin's list has an entry left for every entry of the patched list,
    the cursor is never read at the list head and never moves beyond it. *)
Lemma compare_relas_in_bounds st relas1 relas2 cursor :
  section_targets_placed st relas1 ->
  (cursor + List.length relas1 <= List.length relas2)%nat ->
  exists s final,
    compare_relas st relas1 relas2 cursor = Ok (s, final) /\
    (s = SAME \/ s = CHANGED) /\
    (cursor <= final <= List.length relas2)%nat.
Proof.
  revert cursor. induction relas1 as [|rela1 rest IH]; intros cursor Hsec Hlen.
  - exists SAME, cursor. simpl in *. repeat split; auto; lia.
  - simpl in Hlen. cbn [compare_relas].
    destruct (nth_error relas2 cursor) as [rela2|] eqn:Hnth.
    2:{ apply nth_error_None in Hnth. lia. }
    cbn [deref bind].
    inversion Hsec as [|? ? Hhd Htl]; subst.
    destruct (rela_equal_total st rela1 rela2 Hhd) as [b Hb].
    rewrite Hb. cbn [bind]. destruct b.
    + destruct (IH (S cursor) Htl) as (s & final & Hrun & Hs & Hfin); [lia|].
      exists s, final. repeat split; auto; lia.
    + exists CHANGED, cursor. repeat split; auto; lia.
Qed.

(** C10.  [xsplice_compare_correlated_section] reaches the lock-step
    comparison of the relocation lists only when the two sections have the
    same header size, entry size and data size, hence equally long
    relocation lists; the walk then reads the twin's cursor inside the
    twin's list only, leaves it at most at the list head, and ends with the
    status of the section set to SAME or CHANGED. *)
Theorem compare_relas_lock_step
  (rela_nr : Z -> Z -> Z -> nat) (st : store) (sec twin : nat) :
  sec_twin (secs st sec) = Some twin ->
  rela_list_loaded rela_nr (secs st sec) ->
  rela_list_loaded rela_nr (secs st twin) ->
  section_targets_placed st (sec_relas (secs st sec)) ->
  compare_branch_of (secs st sec) (secs st twin) = COMPARE_RELAS ->
  d_size (secs st sec) = d_size (secs st twin) /\
  List.length (sec_relas (secs st sec)) = List.length (sec_relas (secs st twin)) /\
  exists s final st',
    compare_relas st (sec_relas (secs st sec)) (sec_relas (secs st twin)) 0
      = Ok (s, final) /\
    (final <= List.length (sec_relas (secs st twin)))%nat /\
    (s = SAME \/ s = CHANGED) /\
    xsplice_compare_correlated_section st sec = Ok st' /\
    sec_status (secs st' sec) = s.
Proof.
  intros Htwin Hl1 Hl2 Hsec Hbr.
  assert (Hsizes : sh_entsize (secs st sec) = sh_entsize (secs st twin) /\
                   sh_size (secs st sec) = sh_size (secs st twin) /\
                   d_size (secs st sec) = d_size (secs st twin)).
  { unfold compare_branch_of in Hbr.
    destruct (Z.eqb_spec (sh_entsize (secs st sec)) (sh_entsize (secs st twin)));
      [|rewrite !orb_true_r in Hbr; discriminate].
    destruct (negb _ || negb _ || negb _ || negb _ || negb _); [discriminate|].
    destruct (Z.eqb_spec (sh_size (secs st sec)) (sh_size (secs st twin)));
      [|discriminate].
    destruct (Z.eqb_spec (d_size (secs st sec)) (d_size (secs st twin)));
      [|discriminate].
    auto. }
  destruct Hsizes as (Hent & Hsize & Hdata).
  assert (Hlen : List.length (sec_relas (secs st sec)) =
                 List.length (sec_relas (secs st twin))).
  { unfold rela_list_loaded in *. congruence. }
  split; [exact Hdata|]. split; [exact Hlen|].
  destruct (compare_relas_in_bounds st _ (sec_relas (secs st twin)) 0%nat Hsec)
    as (s & final & Hrun & Hs & Hfin); [lia|].
  exists s, final, (upd_sec st sec (set_sec_status s)).
  repeat split; auto; try lia.
  - unfold xsplice_compare_correlated_section,
      xsplice_compare_correlated_rela_section.
    rewrite Htwin. cbn [deref bind]. rewrite Hbr, Hrun. reflexivity.
  - rewrite secs_upd_sec_eq. reflexivity.
Qed.

Lemma compare_relas_lock_step_witness :
  d_size (secs CompareExamples.st_lock_step 0) =
  d_size (secs CompareExamples.st_lock_step 1) /\
  List.length (sec_relas (secs CompareExamples.st_lock_step 0)) =
  List.length (sec_relas (secs CompareExamples.st_lock_step 1)) /\
  exists s final st',
    compare_relas CompareExamples.st_lock_step
      (sec_relas (secs CompareExamples.st_lock_step 0))
      (sec_relas (secs CompareExamples.st_lock_step 1)) 0 = Ok (s, final) /\
    (final <= List.length (sec_relas (secs CompareExamples.st_lock_step 1)))%nat /\
    (s = SAME \/ s = CHANGED) /\
    xsplice_compare_correlated_section CompareExamples.st_lock_step 0 = Ok st' /\
    sec_status (secs st' 0) = s.
Proof.
  apply (compare_relas_lock_step CompareExamples.rela_nr
           CompareExamples.st_lock_step 0%nat 1%nat).
  - reflexivity.
  - reflexivity.
  - reflexivity.
  - repeat constructor; simpl; discriminate.
  - reflexivity.
Defined.

(** On the example the walk ends with SAME and the cursor at the list head. *)
Example compare_relas_lock_step_run :
  compare_relas CompareExamples.st_lock_step
    (sec_relas (secs CompareExamples.st_lock_step 0))
    (sec_relas (secs CompareExamples.st_lock_step 1)) 0 = Ok (SAME, 1%nat).
Proof. reflexivity. Qed.

(** ** Reorderer *)

Section Migrate.

Variable st : store.

Let sel (select : option (symbol -> bool)) (p : nat) : bool :=
  match select with
  | Some f => f (syms st p)
  | None => true
  end.

Lemma migrate_symbols_loop_filter select src left dst :
  migrate_symbols_loop st select src left dst =
  ((left ++ filter (fun p => negb (sel select p)) src)%list,
   (dst ++ filter (sel select) src)%list).
Proof.
  revert left dst. induction src as [|sym rest IH]; intros left dst.
  - simpl. now rewrite !app_nil_r.
  - cbn [migrate_symbols_loop filter].
    assert (E : match select with
                | Some f => negb (f (syms st sym))
                | None => false
                end = negb (sel select sym))
      by (unfold sel; destruct select; reflexivity).
    rewrite E. destruct (sel select sym); cbn [negb].
    + rewrite IH, <- app_assoc. reflexivity.
    + rewrite IH, <- app_assoc. reflexivity.
Qed.

Lemma xsplice_migrate_symbols_Some f src dst :
  xsplice_migrate_symbols st src dst (Some f) =
  (filter (fun p => negb (f (syms st p))) src,
   (dst ++ filter (fun p => f (syms st p)) src)%list).
Proof.
  unfold xsplice_migrate_symbols. rewrite migrate_symbols_loop_filter.
  reflexivity.
Qed.

Lemma xsplice_migrate_symbols_None src dst :
  xsplice_migrate_symbols st src dst None = ([], (dst ++ src)%list).
Proof.
  unfold xsplice_migrate_symbols. rewrite migrate_symbols_loop_filter.
  simpl. f_equal.
  - induction src; simpl; auto.
  - f_equal. induction src; simpl; congruence.
Qed.

Lemma filter_filter {A} (f g : A -> bool) l :
  filter f (filter g l) = filter (fun x => g x && f x) l.
Proof.
  induction l as [|a l IH]; simpl; auto.
  destruct (g a); simpl; [destruct (f a)|]; rewrite ?IH; reflexivity.
Qed.

Lemma filter_true {A} (f : A -> bool) l :
  (forall x, In x l -> f x = true) -> filter f l = l.
Proof.
  induction l as [|a l IH]; simpl; intros H; auto.
  rewrite (H a), IH by auto. reflexivity.
Qed.

Lemma xsplice_reorder_symbols_buckets kelf :
  symbols (xsplice_reorder_symbols st kelf) =
  (in_bucket st 0 (symbols kelf) ++ in_bucket st 1 (symbols kelf) ++
   in_bucket st 2 (symbols kelf) ++ in_bucket st 3 (symbols kelf) ++
   in_bucket st 4 (symbols kelf))%list.
Proof.
  unfold xsplice_reorder_symbols.
  rewrite !xsplice_migrate_symbols_Some.
  rewrite xsplice_migrate_symbols_None. cbn [symbols].
  rewrite !filter_filter. cbn [app]. rewrite <- !app_assoc.
  unfold in_bucket.
  repeat (f_equal; [apply filter_ext; intros p; unfold bucket;
                    destruct (is_null_sym (syms st p)),
                             (is_file_sym (syms st p)),
                             (is_local_func_sym (syms st p)),
                             (is_local_sym (syms st p)); reflexivity|]).
  apply filter_ext; intros p; unfold bucket.
  destruct (is_null_sym (syms st p)), (is_file_sym (syms st p)),
    (is_local_func_sym (syms st p)), (is_local_sym (syms st p)); reflexivity.
Qed.

Lemma bucket_le_4 s : (bucket s <= 4)%nat.
Proof.
  unfold bucket.
  repeat match goal with |- context [if ?c then _ else _] => destruct c end; lia.
Qed.

Lemma in_bucket_split_perm (l : list nat) (n : nat) :
  Permutation
    (filter (fun p => (n <=? bucket (syms st p))%nat) l)
    (in_bucket st n l ++ filter (fun p => (S n <=? bucket (syms st p))%nat) l).
Proof.
  unfold in_bucket.
  induction l as [|a l IH]; [constructor|].
  cbn [filter].
  destruct (Nat.leb_spec n (bucket (syms st a)));
    destruct (Nat.eqb_spec (bucket (syms st a)) n);
    destruct (Nat.leb_spec (S n) (bucket (syms st a))); try lia; cbn [app].
  - apply perm_skip. exact IH.
  - etransitivity; [apply perm_skip; exact IH | apply Permutation_middle].
  - exact IH.
Qed.

End Migrate.

Lemma Permutation_buckets st (l : list nat) :
  Permutation l
    (in_bucket st 0 l ++ in_bucket st 1 l ++ in_bucket st 2 l ++
     in_bucket st 3 l ++ in_bucket st 4 l).
Proof.
  assert (H5 : filter (fun p => (5 <=? bucket (syms st p))%nat) l = []).
  { induction l as [|a l IH]; [reflexivity|].
    cbn [filter].
    pose proof (bucket_le_4 (syms st a)).
    destruct (Nat.leb_spec 5 (bucket (syms st a))); [lia | exact IH]. }
  assert (H0 : filter (fun p => (0 <=? bucket (syms st p))%nat) l = l)
    by (apply filter_true; intros; reflexivity).
  rewrite <- H0 at 1.
  etransitivity; [apply in_bucket_split_perm|]. apply Permutation_app_head.
  etransitivity; [apply in_bucket_split_perm|]. apply Permutation_app_head.
  etransitivity; [apply in_bucket_split_perm|]. apply Permutation_app_head.
  etransitivity; [apply in_bucket_split_perm|]. apply Permutation_app_head.
  etransitivity; [apply in_bucket_split_perm|].
  rewrite H5, app_nil_r. reflexivity.
Qed.

(** What the five buckets hold. *)
Lemma bucket_meaning s :
  (bucket s = 0%nat <-> sym_name s = "") /\
  (bucket s = 1%nat <-> sym_name s <> "" /\ sym_type s = STT_FILE) /\
  (bucket s = 2%nat <->
     sym_name s <> "" /\ sym_type s <> STT_FILE /\
     sym_bind s = STB_LOCAL /\ sym_type s = STT_FUNC) /\
  (bucket s = 3%nat <->
     sym_name s <> "" /\ sym_type s <> STT_FILE /\
     sym_bind s = STB_LOCAL /\ sym_type s <> STT_FUNC) /\
  (bucket s = 4%nat <->
     sym_name s <> "" /\ sym_type s <> STT_FILE /\ sym_bind s <> STB_LOCAL).
Proof.
  unfold bucket, is_null_sym, is_file_sym, is_local_func_sym, is_local_sym.
  assert (Hn : (String.length (sym_name s) =? 0)%nat = true <-> sym_name s = "").
  { rewrite Nat.eqb_eq. destruct (sym_name s); simpl; split; congruence. }
  destruct ((String.length (sym_name s) =? 0)%nat).
  - assert (sym_name s = "") by now apply Hn.
    repeat split; intros; try tauto; try discriminate;
      repeat match goal with H : _ /\ _ |- _ => destruct H end; congruence.
  - assert (sym_name s <> "") by (intros E; apply Hn in E; discriminate).
    destruct (Z.eqb_spec (sym_type s) STT_FILE) as [Ef|Ef].
    + repeat split; intros; try tauto; try discriminate;
        repeat match goal with H : _ /\ _ |- _ => destruct H end; congruence.
    + destruct (Z.eqb_spec (sym_bind s) STB_LOCAL) as [El|El];
        destruct (Z.eqb_spec (sym_type s) STT_FUNC) as [Eu|Eu]; cbn [andb];
        repeat split; intros; try tauto; try discriminate;
        repeat match goal with H : _ /\ _ |- _ => destruct H end; congruence.
Qed.


Example xsplice_reorder_symbols_run :
  symbols (xsplice_reorder_symbols ReorderExamples.st ReorderExamples.kelf) =
  [2; 4; 3; 6; 1; 5; 0; 7]%nat.
Proof. reflexivity. Qed.

(** ** Mangled function renaming *)

Example rename_two_clones_run :
  RenameExamples.names_after
    (xsplice_rename_mangled_functions RenameExamples.base_two_clones
       RenameExamples.patched_two_clones RenameExamples.st_two_clones)
    RenameExamples.patched_two_clones
  = Some (["walk.isra.1"], [".text.walk.isra.1"]).
Proof. vm_compute. reflexivity. Qed.

Example rename_bundle_run :
  RenameExamples.names_after
    (xsplice_rename_mangled_functions RenameExamples.base_bundle
       RenameExamples.patched_bundle RenameExamples.st_bundle)
    RenameExamples.patched_bundle
  = Some (["scan.isra.2"; ".text.scan.isra.5"; ".rodata.scan.isra.2"],
          [".text.scan.isra.2"; ".rela.text.scan.isra.2";
           ".rodata.scan.isra.2"; ".rela.rodata.scan.isra.2"]).
Proof. vm_compute. reflexivity. Qed.

Lemma set_sym_name_twice a b s : set_sym_name a (set_sym_name b s) = set_sym_name a s.
Proof. reflexivity. Qed.

Lemma set_sec_name_twice a b s : set_sec_name a (set_sec_name b s) = set_sec_name a s.
Proof. reflexivity. Qed.

Lemma set_sym_name_same s : set_sym_name (sym_name s) s = s.
Proof. now destruct s. Qed.

Lemma set_sec_name_same s : set_sec_name (sec_name s) s = s.
Proof. now destruct s. Qed.

Lemma names_only_refl st : names_only st st.
Proof.
  split; intros; [now rewrite set_sym_name_same | now rewrite set_sec_name_same].
Qed.

Lemma names_only_upd_sym st st' p n :
  names_only st st' -> names_only st (upd_sym st' p (set_sym_name n)).
Proof.
  intros [Hs Hc]. split; [|exact Hc].
  intros q. simpl. destruct (Nat.eqb_spec q p) as [->|_]; [|apply Hs].
  rewrite (Hs p). reflexivity.
Qed.

Lemma names_only_upd_sec st st' s n :
  names_only st st' -> names_only st (upd_sec st' s (set_sec_name n)).
Proof.
  intros [Hs Hc]. split; [exact Hs|].
  intros q. simpl. destruct (Nat.eqb_spec q s) as [->|_]; [|apply Hc].
  rewrite (Hc s). reflexivity.
Qed.

Lemma names_only_sym_fields st st' p :
  names_only st st' ->
  sym_type (syms st' p) = sym_type (syms st p) /\
  sym_sec (syms st' p) = sym_sec (syms st p) /\
  sym_bind (syms st' p) = sym_bind (syms st p).
Proof. intros [Hs _]. rewrite (Hs p). auto. Qed.

Lemma names_only_sec_fields st st' s :
  names_only st st' ->
  sec_secsym (secs st' s) = sec_secsym (secs st s) /\
  sec_rela (secs st' s) = sec_rela (secs st s) /\
  sec_sym (secs st' s) = sec_sym (secs st s).
Proof. intros [_ Hc]. rewrite (Hc s). auto. Qed.

Lemma find_section_by_name_In st l name s :
  find_section_by_name st l name = Some s -> In s l.
Proof. intros H. apply find_some in H. tauto. Qed.

(** The tail of the loop body changes names only, and among the symbols
    only the name of a section symbol of a patched section. *)
Lemma rename_bundled_sections_frame base patched st0 st sec basesym orig st' :
  names_only st0 st ->
  rename_bundled_sections base patched st sec basesym orig = Ok st' ->
  names_only st0 st' /\
  (forall p, ~ is_secsym_of st0 (sections patched) p -> syms st' p = syms st p).
Proof.
  intros Hn. unfold rename_bundled_sections.
  destruct (sym_sec (syms st basesym)) as [basesec|]; cbn [deref bind];
    [|discriminate].
  set (st1 := upd_sec st sec _).
  assert (Hn1 : names_only st0 st1) by now apply names_only_upd_sec.
  assert (Hs1 : syms st1 = syms st) by reflexivity.
  clearbody st1.
  destruct (match sec_rela (secs st1 sec) with
            | Some r => _
            | None => Ok st1
            end) as [st2|] eqn:E2; cbn [bind]; [|discriminate].
  assert (Hn2 : names_only st0 st2 /\ syms st2 = syms st1).
  { destruct (sec_rela (secs st1 sec)) as [r|]; [|inversion E2; subst; auto].
    destruct (sec_rela (secs st1 basesec)); cbn [deref bind] in E2;
      [|discriminate].
    inversion E2; subst. split; [now apply names_only_upd_sec | reflexivity]. }
  destruct Hn2 as [Hn2 Hs2]. clear E2.
  destruct (sprintf_rodata orig) as [name|]; cbn [bind]; [|discriminate].
  destruct (find_section_by_name st2 (sections patched) name) as [rosec|] eqn:Ero.
  2:{ intros [= <-]. split; [exact Hn2 | intros; congruence]. }
  destruct (sprintf_rodata (sym_name (syms st2 basesym))) as [bname|];
    cbn [bind]; [|discriminate].
  destruct (find_section_by_name st2 (sections base) bname) as [basero|].
  2:{ intros [= <-]. split; [exact Hn2 | intros; congruence]. }
  set (st3 := upd_sec st2 rosec _).
  assert (Hn3 : names_only st0 st3) by now apply names_only_upd_sec.
  assert (Hs3 : syms st3 = syms st2) by reflexivity.
  clearbody st3.
  destruct (sec_secsym (secs st3 rosec)) as [rosym|] eqn:Eq;
    cbn [deref bind]; [|discriminate].
  set (st4 := upd_sym st3 rosym _).
  assert (Hn4 : names_only st0 st4) by now apply names_only_upd_sym.
  assert (Hs4 : forall p, ~ is_secsym_of st0 (sections patched) p ->
                          syms st4 p = syms st p).
  { intros p Hp. unfold st4. rewrite syms_upd_sym_neq; [congruence|].
    intros ->. apply Hp. exists rosec. split.
    - eapply find_section_by_name_In; exact Ero.
    - destruct (names_only_sec_fields _ _ rosec Hn3) as (<- & _). exact Eq. }
  clearbody st4.
  destruct (sec_rela (secs st4 rosec)) as [r|].
  - destruct (sec_rela (secs st4 basero)); cbn [deref bind]; [|discriminate].
    intros [= <-]. split; [now apply names_only_upd_sec | exact Hs4].
  - intros [= <-]. split; [exact Hn4 | exact Hs4].
Qed.

Lemma find_mangled_base_ext st st' base name :
  (forall b, In b (symbols base) -> sym_name (syms st' b) = sym_name (syms st b)) ->
  find_mangled_base st' base name = find_mangled_base st base name.
Proof.
  intros H. unfold find_mangled_base.
  induction (symbols base) as [|b l IH]; [reflexivity|].
  cbn [find]. rewrite (H b) by now left.
  destruct (_ =? 0); [reflexivity|]. apply IH. intros; apply H; now right.
Qed.

Lemma find_mangled_base_In st base name b :
  find_mangled_base st base name = Some b ->
  In b (symbols base) /\
  xsplice_mangled_strcmp (sym_name (syms st b)) name = 0.
Proof.
  intros H. apply find_some in H. destruct H as [Hin H].
  split; [exact Hin | now apply Z.eqb_eq].
Qed.

(** One iteration of the loop: names only, and the expected name for the
    symbol of the iteration. *)
Lemma rename_mangled_function_frame base patched st0 st sym st' :
  names_only st0 st ->
  rename_mangled_function base patched st sym = Ok st' ->
  names_only st0 st' /\
  (forall p, p <> sym -> ~ is_secsym_of st0 (sections patched) p ->
             syms st' p = syms st p) /\
  (~ is_secsym_of st0 (sections patched) sym ->
   sym_name (syms st' sym) =
   if sym_type (syms st sym) =? STT_FUNC then mangled_base_name st base sym
   else sym_name (syms st sym)).
Proof.
  intros Hn. unfold rename_mangled_function, mangled_base_name.
  destruct (sym_type (syms st sym) =? STT_FUNC); cbn [negb].
  2:{ intros [= <-]. auto. }
  destruct (has_mangled_marker (sym_name (syms st sym))); cbn [negb].
  2:{ intros [= <-]. auto. }
  destruct (find_mangled_base st base (sym_name (syms st sym))) as [b|].
  2:{ intros [= <-]. auto. }
  destruct (streq (sym_name (syms st sym)) (sym_name (syms st b))) eqn:Eeq.
  { intros [= <-]. apply streq_eq in Eeq. auto. }
  set (st1 := upd_sym st sym _).
  assert (Hn1 : names_only st0 st1) by now apply names_only_upd_sym.
  assert (Hs1 : forall p, p <> sym -> syms st1 p = syms st p)
    by (intros; now apply syms_upd_sym_neq).
  assert (Hsym : sym_name (syms st1 sym) = sym_name (syms st b))
    by (unfold st1; now rewrite syms_upd_sym_eq).
  clearbody st1.
  destruct (sym_sec (syms st1 sym)) as [sec|]; cbn [deref bind]; [|discriminate].
  destruct (ptr_is (sec_sym (secs st1 sec)) sym); cbn [negb].
  2:{ intros [= <-]. auto. }
  intros H.
  destruct (rename_bundled_sections_frame _ _ _ _ _ _ _ _ Hn1 H) as [Hn' Hs'].
  split; [exact Hn'|]. split.
  - intros p Hp Hq. rewrite Hs' by exact Hq. now apply Hs1.
  - intros Hq. rewrite Hs' by exact Hq. exact Hsym.
Qed.

Lemma mangled_base_name_ext st st' base sym :
  (forall b, In b (symbols base) -> sym_name (syms st' b) = sym_name (syms st b)) ->
  sym_name (syms st' sym) = sym_name (syms st sym) ->
  mangled_base_name st' base sym = mangled_base_name st base sym.
Proof.
  intros Hb Hs. unfold mangled_base_name. rewrite Hs.
  rewrite (find_mangled_base_ext st st' base _ Hb).
  destruct (has_mangled_marker _); [|reflexivity].
  destruct (find_mangled_base st base (sym_name (syms st sym))) as [b|] eqn:E;
    [|reflexivity].
  apply Hb. now apply find_mangled_base_In in E.
Qed.

Section RenamePass.

Variables (base patched : xsplice_elf) (st0 : store).

Hypothesis base_apart :
  forall b, In b (symbols base) ->
            ~ In b (symbols patched) /\
            ~ is_secsym_of st0 (sections patched) b.

Hypothesis secsym_typed :
  forall p, is_secsym_of st0 (sections patched) p ->
            sym_type (syms st0 p) = STT_SECTION.

Lemma func_not_secsym p :
  sym_type (syms st0 p) = STT_FUNC -> ~ is_secsym_of st0 (sections patched) p.
Proof. intros Hf Hq. apply secsym_typed in Hq. rewrite Hq in Hf. discriminate. Qed.

Lemma rename_pass_names l : forall st st',
  NoDup l ->
  (forall p, In p l -> In p (symbols patched)) ->
  names_only st0 st ->
  (forall b, In b (symbols base) -> sym_name (syms st b) = sym_name (syms st0 b)) ->
  (forall p, In p l -> sym_type (syms st0 p) = STT_FUNC ->
             sym_name (syms st p) = sym_name (syms st0 p)) ->
  foreach l (rename_mangled_function base patched) st = Ok st' ->
  names_only st0 st' /\
  (forall b, In b (symbols base) -> sym_name (syms st' b) = sym_name (syms st0 b)) /\
  (forall p, In p l -> sym_type (syms st0 p) = STT_FUNC ->
             sym_name (syms st' p) = mangled_base_name st0 base p) /\
  (forall p, ~ In p l -> ~ is_secsym_of st0 (sections patched) p ->
             syms st' p = syms st p).
Proof.
  induction l as [|sym l IH]; intros st st' Hnd Hin Hn Hb Hu Hrun.
  - inversion Hrun; subst.
    split; [exact Hn|]. split; [exact Hb|]. split; [intros p []|reflexivity].
  - cbn [foreach] in Hrun.
    destruct (rename_mangled_function base patched st sym) as [st1|] eqn:Hstep;
      cbn [bind] in Hrun; [|discriminate].
    destruct (rename_mangled_function_frame _ _ _ _ _ _ Hn Hstep)
      as (Hn1 & Hframe & Hname).
    inversion Hnd as [|? ? Hnotin Hnd']; subst.
    assert (Hb1 : forall b, In b (symbols base) ->
                            sym_name (syms st1 b) = sym_name (syms st0 b)).
    { intros b Hbin. destruct (base_apart b Hbin) as [Hnp Hnq].
      rewrite Hframe; [now apply Hb | | exact Hnq].
      intros ->. apply Hnp. apply Hin. now left. }
    assert (Hu1 : forall p, In p l -> sym_type (syms st0 p) = STT_FUNC ->
                            sym_name (syms st1 p) = sym_name (syms st0 p)).
    { intros p Hp Hf. rewrite Hframe.
      - apply Hu; [now right | exact Hf].
      - intros ->. contradiction.
      - now apply func_not_secsym. }
    destruct (IH st1 st' Hnd' (fun p H => Hin p (or_intror H)) Hn1 Hb1 Hu1 Hrun)
      as (Hn' & Hb' & Hl' & Hf').
    split; [exact Hn'|]. split; [exact Hb'|]. split.
    + intros p [<-|Hp] Hf.
      * pose proof (func_not_secsym _ Hf) as Hq.
        rewrite (Hf' sym Hnotin Hq), (Hname Hq).
        destruct (names_only_sym_fields _ _ sym Hn) as (-> & _).
        rewrite Hf. cbn [Z.eqb Pos.eqb STT_FUNC].
        apply mangled_base_name_ext; [exact Hb|].
        apply Hu; [now left | exact Hf].
      * now apply Hl'.
    + intros p Hp Hq.
      rewrite (Hf' p); [|intros H; apply Hp; now right | exact Hq].
      apply Hframe; [|exact Hq]. intros ->. apply Hp. now left.
Qed.

End RenamePass.

Lemma find_section_by_name_ext st st' l name :
  (forall s, In s l ->
     streq (sec_name (secs st' s)) name = streq (sec_name (secs st s)) name) ->
  find_section_by_name st' l name = find_section_by_name st l name.
Proof.
  intros H. unfold find_section_by_name.
  induction l as [|s l IH]; [reflexivity|].
  cbn [find]. rewrite (H s) by now left.
  destruct (streq _ _); [reflexivity|]. apply IH. intros; apply H; now right.
Qed.

Lemma streq_neq a b : a <> b -> streq a b = false.
Proof. intros H. unfold streq. now apply String.eqb_neq. Qed.


Lemma rename_pair_spec st stx s bs st2 :
  secs stx = secs (upd_sec st s (set_sec_name (sec_name (secs st bs)))) ->
  s <> bs ->
  (forall r, sec_rela (secs st s) = Some r -> r <> s) ->
  (forall br, sec_rela (secs st bs) = Some br -> br <> s) ->
  match sec_rela (secs stx s) with
  | Some r =>
      baserela <- deref (sec_rela (secs stx bs)) ;;
      Ok (upd_sec stx r (set_sec_name (sec_name (secs stx baserela))))
  | None => Ok stx
  end = Ok st2 ->
  syms st2 = syms stx /\
  sec_name (secs st2 s) = sec_name (secs st bs) /\
  (forall r, sec_rela (secs st s) = Some r ->
     exists br, sec_rela (secs st bs) = Some br /\
                sec_name (secs st2 r) = sec_name (secs st br)) /\
  (forall x, x <> s -> ~ In x (olist (sec_rela (secs st s))) ->
             secs st2 x = secs st x) /\
  (forall x, secs st2 x = set_sec_name (sec_name (secs st2 x)) (secs st x)).
Proof.
  intros Hx Hsb Hr Hbr.
  assert (Xs : secs stx s = set_sec_name (sec_name (secs st bs)) (secs st s))
    by (rewrite Hx; apply secs_upd_sec_eq).
  assert (Xo : forall x, x <> s -> secs stx x = secs st x)
    by (intros; rewrite Hx; now apply secs_upd_sec_neq).
  rewrite Xs. cbn [sec_rela set_sec_name].
  destruct (sec_rela (secs st s)) as [r|] eqn:Er.
  - rewrite (Xo bs) by congruence.
    destruct (sec_rela (secs st bs)) as [br|] eqn:Ebr; cbn [deref bind];
      [|discriminate].
    rewrite (Xo br) by (apply Hbr; reflexivity).
    intros [= <-].
    assert (Hrs : r <> s) by (apply Hr; reflexivity).
    split; [reflexivity|]. split.
    { rewrite secs_upd_sec_neq by congruence. now rewrite Xs. }
    split.
    { intros r' [= <-]. exists br. split; [reflexivity|].
      now rewrite secs_upd_sec_eq. }
    split.
    { intros x Hxs Hxr. cbn [olist In] in Hxr.
      rewrite secs_upd_sec_neq by (intros ->; apply Hxr; now left).
      now apply Xo. }
    intros x. cbn [upd_sec secs].
    destruct (Nat.eqb_spec x r) as [->|_].
    + rewrite (Xo r) by exact Hrs. reflexivity.
    + destruct (Nat.eq_dec x s) as [->|Hn].
      * rewrite Xs. reflexivity.
      * rewrite (Xo x) by exact Hn. now rewrite set_sec_name_same.
  - intros [= <-].
    split; [reflexivity|]. split; [now rewrite Xs|].
    split; [discriminate|]. split; [intros; now apply Xo|].
    intros x. destruct (Nat.eq_dec x s) as [->|Hn].
    + rewrite Xs. reflexivity.
    + rewrite (Xo x) by exact Hn. now rewrite set_sec_name_same.
Qed.

Lemma In_olist {A} (o : option A) a : o = Some a -> In a (olist o).
Proof. intros ->. now left. Qed.

Lemma sprintf_rodata_Ok s name :
  sprintf_rodata s = Ok name -> name = ".rodata." ++ s.
Proof.
  unfold sprintf_rodata. destruct (_ <? _)%nat; [|discriminate].
  now intros [= <-].
Qed.

Lemma rename_bundled_sections_names base patched st sec basesym basesec orig st' :
  sym_sec (syms st basesym) = Some basesec ->
  bundle_separate st base patched sec basesec orig (sym_name (syms st basesym)) ->
  rename_bundled_sections base patched st sec basesym orig = Ok st' ->
  sec_name (secs st' sec) = sec_name (secs st basesec) /\
  (forall r, sec_rela (secs st sec) = Some r ->
     exists br, sec_rela (secs st basesec) = Some br /\
                sec_name (secs st' r) = sec_name (secs st br)) /\
  (forall ro bro,
     rodata_sibling st patched orig = Some ro ->
     rodata_sibling st base (sym_name (syms st basesym)) = Some bro ->
     sec_name (secs st' ro) = sec_name (secs st bro) /\
     (exists q, sec_secsym (secs st ro) = Some q /\
                sym_name (syms st' q) = sec_name (secs st bro)) /\
     (forall rr, sec_rela (secs st ro) = Some rr ->
        exists brr, sec_rela (secs st bro) = Some brr /\
                    sec_name (secs st' rr) = sec_name (secs st brr))).
Proof.
  intros Hbs (Hnd & Hsep & Hold & Hnew).
  unfold rename_bundled_sections. rewrite Hbs. cbn [deref bind].
  unfold bundle_written, bundle_read in *.
  set (bname := sym_name (syms st basesym)) in *.
  match goal with
  | |- context [upd_sec st sec ?f] => set (st1 := upd_sec st sec f)
  end.
  match goal with
  | |- bind ?m _ = _ -> _ => destruct m as [st2|] eqn:E2
  end; cbn [bind]; [|discriminate].
  assert (Hsec_w : forall l, In sec (sec :: l)) by (intros; now left).
  destruct (Hsep sec (Hsec_w _)) as [Hsec_read Hsec_base].
  apply (rename_pair_spec st st1 sec basesec st2 eq_refl) in E2.
  2:{ intros ->. apply Hsec_read. now left. }
  2:{ intros r Er ->. inversion Hnd as [|? ? Hni _]; subst. apply Hni.
      apply in_or_app. left. now apply In_olist. }
  2:{ intros br Ebr ->. apply Hsec_read. right.
      apply in_or_app. left. now apply In_olist. }
  destruct E2 as (S2 & N2 & R2 & F2 & NO2).
  assert (Hsyms2 : syms st2 = syms st) by (rewrite S2; reflexivity).
  clearbody st1. clear st1 S2.
  destruct (sprintf_rodata orig) as [name|] eqn:Esp; cbn [bind]; [|discriminate].
  apply sprintf_rodata_Ok in Esp. subst name.
  assert (Hfp : find_section_by_name st2 (sections patched) (".rodata." ++ orig)
                = rodata_sibling st patched orig).
  { apply find_section_by_name_ext. intros s _.
    destruct (Nat.eq_dec s sec) as [->|Hs].
    - rewrite N2. rewrite !streq_neq; [reflexivity | |].
      + apply Hold. now left.
      + apply Hnew. now left.
    - destruct (sec_rela (secs st sec)) as [r|] eqn:Er.
      + destruct (Nat.eq_dec s r) as [->|Hsr].
        * destruct (R2 r eq_refl) as (br & Ebr & ->).
          rewrite !streq_neq; [reflexivity | |].
          -- apply Hold. right. now left.
          -- apply Hnew. right. now apply In_olist.
        * rewrite F2; [reflexivity | exact Hs |]. intros [->|[]]. now apply Hsr.
      + rewrite F2; [reflexivity | exact Hs | intros []]. }
  assert (Hfb : find_section_by_name st2 (sections base) (".rodata." ++ bname)
                = rodata_sibling st base bname).
  { apply find_section_by_name_ext. intros s Hs.
    rewrite F2; [reflexivity | |].
    - intros ->. now apply Hsec_base.
    - intros Hr. destruct (Hsep s) as [_ Hx]; [|now apply Hx].
      right. apply in_or_app. now left. }
  rewrite Hfp. rewrite Hsyms2. fold bname.
  destruct (rodata_sibling st patched orig) as [ro|] eqn:Ero.
  2:{ intros [= <-]. split; [exact N2|]. split; [exact R2|]. discriminate. }
  destruct (sprintf_rodata bname) as [name|] eqn:Esp; cbn [bind]; [|discriminate].
  apply sprintf_rodata_Ok in Esp. subst name. rewrite Hfb.
  destruct (rodata_sibling st base bname) as [bro|] eqn:Ebro.
  2:{ intros [= <-]. split; [exact N2|]. split; [exact R2|]. discriminate. }
  (* the written sections are pairwise distinct, the read ones are not written *)
  assert (Hro_w : In ro (sec :: olist (sec_rela (secs st sec)) ++
                         ro :: olist (sec_rela (secs st ro))))
    by (right; apply in_or_app; right; now left).
  assert (Hro_sec : ro <> sec).
  { intros ->. inversion Hnd as [|? ? Hni _]; subst. apply Hni.
    apply in_or_app. right. now left. }
  assert (Hro_r : ~ In ro (olist (sec_rela (secs st sec)))).
  { inversion Hnd as [|? ? _ Hnd']; subst. apply NoDup_app_remove_l in Hnd' as Hx.
    intros Hin. clear Hx.
    destruct (sec_rela (secs st sec)) as [r|]; [|exact Hin].
    destruct Hin as [->|[]]. cbn [olist app] in Hnd'.
    inversion Hnd' as [|? ? Hni _]; subst. apply Hni. now left. }
  assert (Hbro : secs st2 bro = secs st bro).
  { apply F2.
    - intros ->. apply Hsec_read.
      right. apply in_or_app. right. now left.
    - intros Hin. destruct (Hsep bro) as [Hx _].
      + right. apply in_or_app. now left.
      + apply Hx. right. apply in_or_app. right. now left. }
  rewrite Hbro.
  match goal with
  | |- context [upd_sec st2 ro ?f] => set (st3 := upd_sec st2 ro f)
  end.
  assert (Q3 : sec_secsym (secs st3 ro) = sec_secsym (secs st ro)).
  { unfold st3. rewrite secs_upd_sec_eq. cbn [sec_secsym set_sec_name].
    rewrite (NO2 ro). reflexivity. }
  rewrite Q3.
  destruct (sec_secsym (secs st ro)) as [q|] eqn:Eq; cbn [deref bind];
    [|discriminate].
  assert (N3 : sec_name (secs st3 ro) = sec_name (secs st bro))
    by (unfold st3; now rewrite secs_upd_sec_eq).
  rewrite N3.
  match goal with
  | |- context [upd_sym st3 q ?f] => set (st4 := upd_sym st3 q f)
  end.
  intros E5.
  assert (Hx4 : secs st4 =
                secs (upd_sec st2 ro (set_sec_name (sec_name (secs st2 bro)))))
    by (rewrite Hbro; reflexivity).
  apply (rename_pair_spec st2 st4 ro bro st' Hx4) in E5.
  - destruct E5 as (S5 & N5 & R5 & F5 & NO5).
    assert (Hro2 : secs st2 ro = secs st ro) by (now apply F2).
    rewrite Hro2 in R5, F5. rewrite Hbro in N5, R5.
    split.
    { rewrite F5; [exact N2 | congruence |].
      intros Hin. inversion Hnd as [|? ? Hni _]; subst. apply Hni.
      apply in_or_app. right. now right. }
    split.
    { intros r Er. destruct (R2 r Er) as (br & Ebr & Hn). exists br.
      split; [exact Ebr|].
      rewrite F5; [exact Hn | |].
      - intros ->. apply Hro_r. now apply In_olist.
      - intros Hin. inversion Hnd as [|? ? _ Hnd']; subst.
        rewrite Er in Hnd'. cbn [olist app] in Hnd'.
        inversion Hnd' as [|? ? Hni _]; subst. apply Hni. now right. }
    intros ro' bro' [= <-] [= <-].
    split; [exact N5|]. split.
    { exists q. split; [first [exact Eq | reflexivity]|]. rewrite S5. unfold st4.
      now rewrite syms_upd_sym_eq. }
    intros rr Err. destruct (R5 rr Err) as (brr & Ebrr & Hn).
    exists brr. split; [exact Ebrr|]. rewrite Hn.
    f_equal. apply F2.
    + intros ->. apply Hsec_read.
      right. apply in_or_app. right. right. now apply In_olist.
    + intros Hin. destruct (Hsep brr) as [Hx _].
      * right. apply in_or_app. now left.
      * apply Hx. right. apply in_or_app. right. right. now apply In_olist.
  - intros ->. destruct (Hsep bro Hro_w) as [Hx _]. apply Hx.
    right. apply in_or_app. right. now left.
  - intros rr Err ->. rewrite F2 in Err by assumption.
    inversion Hnd as [|? ? _ Hnd']; subst. apply NoDup_app_remove_l in Hnd'.
    inversion Hnd' as [|? ? Hni _]; subst. apply Hni. now apply In_olist.
  - intros brr Ebrr ->. rewrite Hbro in Ebrr.
    destruct (Hsep ro Hro_w) as [Hx _]. apply Hx.
    right. apply in_or_app. right. right. now apply In_olist.
Qed.

Lemma rename_mangled_function_bundled base patched stk sym basesym sec stk' :
  sym_type (syms stk sym) = STT_FUNC ->
  has_mangled_marker (sym_name (syms stk sym)) = true ->
  find_mangled_base stk base (sym_name (syms stk sym)) = Some basesym ->
  sym_name (syms stk sym) <> sym_name (syms stk basesym) ->
  sym_sec (syms stk sym) = Some sec ->
  sec_sym (secs stk sec) = Some sym ->
  rename_mangled_function base patched stk sym = Ok stk' ->
  rename_bundled_sections base patched
    (upd_sym stk sym (set_sym_name (sym_name (syms stk basesym))))
    sec basesym (sym_name (syms stk sym)) = Ok stk'.
Proof.
  intros Hf Hm Hb Hne Hsec Hbun. unfold rename_mangled_function.
  rewrite Hf, Hm, Hb. cbn [negb Z.eqb Pos.eqb STT_FUNC].
  rewrite (streq_neq _ _ Hne).
  rewrite syms_upd_sym_eq. cbn [sym_sec set_sym_name]. rewrite Hsec.
  cbn [deref bind upd_sym secs]. rewrite Hbun. cbn [ptr_is].
  rewrite Nat.eqb_refl. cbn [negb]. auto.
Qed.


Lemma is_ok_Ok {A} (r : result A) : is_ok r = true -> exists a, r = Ok a.
Proof. destruct r; [eauto | discriminate]. Qed.

Lemma store_after_Ok r st st' : r = Ok st' -> st' = store_after r st.
Proof. now intros ->. Qed.

Lemma is_ok_store_after (r : result store) (st : store) :
  is_ok r = true -> r = Ok (store_after r st).
Proof. destruct r; [reflexivity | discriminate]. Qed.



(** ** Correlator: twin symmetry *)

Lemma symmetric_link tw a b :
  symmetric tw -> tw a = None -> tw b = None -> a <> b ->
  symmetric (link tw a b).
Proof.
  intros Hs Ha Hb Hab x y. unfold link.
  destruct (Nat.eqb_spec x b) as [->|Hxb].
  - intros [= <-]. destruct (Nat.eqb_spec a b); [contradiction|].
    now rewrite Nat.eqb_refl.
  - destruct (Nat.eqb_spec x a) as [->|Hxa].
    + intros [= <-]. now rewrite Nat.eqb_refl.
    + intros Hxy. pose proof (Hs _ _ Hxy) as Hyx.
      destruct (Nat.eqb_spec y b) as [->|_]; [congruence|].
      destruct (Nat.eqb_spec y a) as [->|_]; [congruence|].
      exact Hyx.
Qed.

Lemma crossing_link A B tw a b :
  crossing A B tw -> In a A -> In b B -> crossing A B (link tw a b).
Proof.
  intros Hc Ha Hb x y. unfold link.
  destruct (Nat.eqb_spec x b) as [->|_]; [intros [= <-]; auto|].
  destruct (Nat.eqb_spec x a) as [->|_]; [intros [= <-]; auto|].
  apply Hc.
Qed.

Lemma crossing_sym A B tw : crossing A B tw -> crossing B A tw.
Proof. intros H a b Hab. destruct (H a b Hab); auto. Qed.

Lemma crossing_neq A B tw a b :
  crossing A B tw -> (forall x, In x A -> ~ In x B) -> tw a = Some b -> a <> b.
Proof.
  intros Hc Hd Hab ->. destruct (Hc _ _ Hab) as [[H1 H2]|[H1 H2]];
    now apply (Hd b).
Qed.

Lemma crossing_right A B tw a b :
  crossing A B tw -> (forall x, In x A -> ~ In x B) ->
  In a B -> tw a = Some b -> In b A.
Proof.
  intros Hc Hd Ha Hab. destruct (Hc _ _ Hab) as [[H1 H2]|[H1 H2]]; [|exact H2].
  now elim (Hd a).
Qed.

Lemma sec_twins_twin_sections st a b x :
  sec_twins (twin_sections st a b) x = link (sec_twins st) a b x.
Proof.
  unfold sec_twins, twin_sections, link. cbn [upd_sec secs].
  destruct (Nat.eqb_spec x a), (Nat.eqb_spec x b); reflexivity.
Qed.

Lemma sym_twins_twin_symbols st a b x :
  sym_twins (twin_symbols st a b) x = link (sym_twins st) a b x.
Proof.
  unfold sym_twins, twin_symbols, link. cbn [upd_sym syms].
  destruct (Nat.eqb_spec x a), (Nat.eqb_spec x b); reflexivity.
Qed.

Lemma symmetric_ext tw tw' :
  (forall x, tw' x = tw x) -> symmetric tw -> symmetric tw'.
Proof. intros E H a b. rewrite !E. apply H. Qed.

Lemma crossing_ext A B tw tw' :
  (forall x, tw' x = tw x) -> crossing A B tw -> crossing A B tw'.
Proof. intros E H a b. rewrite !E. apply H. Qed.

(** The inner loop of the section correlation links [sec1] to a section of
    the second list that has its name, or leaves the store alone. *)
Lemma correlate_section_cases st sec1 l st' :
  correlate_section st sec1 l = Ok st' ->
  st' = st \/
  exists sec2, In sec2 l /\
               sec_name (secs st sec1) = sec_name (secs st sec2) /\
               st' = twin_sections st sec1 sec2.
Proof.
  induction l as [|sec2 l IH]; cbn [correlate_section].
  - intros [= <-]. now left.
  - destruct (sections_correlate st sec1 sec2) as [[|]|] eqn:E; cbn [bind].
    + intros [= <-]. right. exists sec2. split; [now left|]. split; [|reflexivity].
      unfold sections_correlate in E.
      destruct (streq (sec_name (secs st sec1)) (sec_name (secs st sec2))) eqn:En;
        [|discriminate].
      now apply streq_eq.
    + intros H. destruct (IH H) as [->|(s & Hs & Hn & ->)]; [now left|].
      right. exists s. split; [now right|]. auto.
    + discriminate.
Qed.

Lemma correlate_symbol_cases st sym1 l st' :
  correlate_symbol st sym1 l = Ok st' ->
  st' = st \/
  exists sym2, In sym2 l /\
               sym_name (syms st sym1) = sym_name (syms st sym2) /\
               sym_type (syms st sym1) = sym_type (syms st sym2) /\
               st' = twin_symbols st sym1 sym2.
Proof.
  induction l as [|sym2 l IH]; cbn [correlate_symbol].
  - intros [= <-]. now left.
  - destruct (symbols_correlate st sym1 sym2) as [[|]|] eqn:E; cbn [bind].
    + intros [= <-]. right. exists sym2. split; [now left|].
      unfold symbols_correlate in E.
      destruct (streq (sym_name (syms st sym1)) (sym_name (syms st sym2))) eqn:En;
        [|discriminate].
      destruct (Z.eqb_spec (sym_type (syms st sym1)) (sym_type (syms st sym2)));
        [|discriminate].
      apply streq_eq in En. auto.
    + intros H. destruct (IH H) as [->|(s & Hs & Hn & Ht & ->)]; [now left|].
      right. exists s. split; [now right|]. auto.
    + discriminate.
Qed.

Lemma links_only_refl st : links_only st st.
Proof.
  split; intros x.
  - exists (sym_name (syms st x)), (sym_twin (syms st x)), (sym_status (syms st x)).
    now destruct (syms st x).
  - exists (sec_twin (secs st x)), (sec_status (secs st x)).
    now destruct (secs st x).
Qed.

Lemma links_only_trans st1 st2 st3 :
  links_only st1 st2 -> links_only st2 st3 -> links_only st1 st3.
Proof.
  intros [Hs Hc] [Hs' Hc']. split; intros x.
  - destruct (Hs x) as (n & t & u & E), (Hs' x) as (n' & t' & u' & E').
    exists n', t', u'. rewrite E', E. reflexivity.
  - destruct (Hc x) as (t & u & E), (Hc' x) as (t' & u' & E').
    exists t', u'. rewrite E', E. reflexivity.
Qed.

Lemma links_only_upd_sym st p f :
  (forall s, exists n t u,
      f s = set_sym_name n (set_sym_twin t (set_sym_status u s))) ->
  links_only st (upd_sym st p f).
Proof.
  intros Hf. split; intros x; cbn [upd_sym syms secs].
  - destruct (Nat.eqb_spec x p) as [->|_]; [apply Hf|].
    apply (links_only_refl st).
  - apply (links_only_refl st).
Qed.

Lemma links_only_upd_sec st p f :
  (forall s, exists t u, f s = set_sec_twin t (set_sec_status u s)) ->
  links_only st (upd_sec st p f).
Proof.
  intros Hf. split; intros x; cbn [upd_sec syms secs].
  - apply (links_only_refl st).
  - destruct (Nat.eqb_spec x p) as [->|_]; [apply Hf|].
    apply (links_only_refl st).
Qed.

Lemma set_sec_twin_links t s :
  exists t' u, set_sec_twin t s = set_sec_twin t' (set_sec_status u s).
Proof. exists t, (sec_status s). now destruct s. Qed.

Lemma set_sec_status_links v s :
  exists t' u, set_sec_status v s = set_sec_twin t' (set_sec_status u s).
Proof. exists (sec_twin s), v. now destruct s. Qed.

Lemma set_sym_twin_links t s :
  exists n t' u,
    set_sym_twin t s = set_sym_name n (set_sym_twin t' (set_sym_status u s)).
Proof. exists (sym_name s), t, (sym_status s). now destruct s. Qed.

Lemma set_sym_status_links v s :
  exists n t' u,
    set_sym_status v s = set_sym_name n (set_sym_twin t' (set_sym_status u s)).
Proof. exists (sym_name s), (sym_twin s), v. now destruct s. Qed.

Lemma set_sym_name_links v s :
  exists n t' u,
    set_sym_name v s = set_sym_name n (set_sym_twin t' (set_sym_status u s)).
Proof. exists v, (sym_twin s), (sym_status s). now destruct s. Qed.

Lemma links_only_twin_sections st a b : links_only st (twin_sections st a b).
Proof.
  unfold twin_sections.
  repeat (eapply links_only_trans;
          [|apply links_only_upd_sec;
            first [apply set_sec_twin_links | apply set_sec_status_links]]).
  apply links_only_refl.
Qed.

Lemma links_only_twin_symbols st a b : links_only st (twin_symbols st a b).
Proof.
  unfold twin_symbols.
  repeat (eapply links_only_trans;
          [|apply links_only_upd_sym;
            first [apply set_sym_twin_links | apply set_sym_status_links]]).
  apply links_only_refl.
Qed.

Lemma links_only_sec_fields st st' s :
  links_only st st' ->
  sec_name (secs st' s) = sec_name (secs st s) /\
  sec_sym (secs st' s) = sec_sym (secs st s) /\
  sec_relas (secs st' s) = sec_relas (secs st s).
Proof. intros [_ H]. destruct (H s) as (t & u & ->). auto. Qed.

Lemma links_only_sym_fields st st' p :
  links_only st st' ->
  sym_type (syms st' p) = sym_type (syms st p) /\
  sym_sec (syms st' p) = sym_sec (syms st p).
Proof. intros [H _]. destruct (H p) as (n & t & u & ->). auto. Qed.

Section Pairing.

Variables (A B : list nat) (K : Type) (key : nat -> K).
Hypothesis apart : forall x, In x A -> ~ In x B.
Hypothesis key_inj : forall a b, In a A -> In b A -> key a = key b -> a = b.

Lemma paired_skip tw a rest :
  paired A B K key tw (a :: rest) -> paired A B K key tw rest.
Proof.
  intros (Hs & Hc & Hr & Hk). repeat split; auto. intros; apply Hr; now right.
Qed.

Lemma paired_link tw a rest b :
  NoDup (a :: rest) -> (forall s, In s (a :: rest) -> In s A) ->
  paired A B K key tw (a :: rest) -> In b B -> key a = key b ->
  paired A B K key (link tw a b) rest.
Proof.
  intros Hnd Hsub (Hs & Hc & Hr & Hk) Hb Hab.
  assert (HaA : In a A) by (apply Hsub; now left).
  assert (Hne : a <> b) by (intros ->; now apply (apart b)).
  assert (Hbn : tw b = None).
  { destruct (tw b) as [x|] eqn:Ex; [|reflexivity].
    pose proof (crossing_right _ _ _ _ _ Hc apart Hb Ex) as HxA.
    pose proof (Hs _ _ Ex) as Hxb.
    assert (x = a).
    { apply key_inj; auto. rewrite (Hk _ _ Hxb). now symmetry. }
    subst x. rewrite (Hr a) in Hxb by now left. discriminate. }
  split; [apply symmetric_link; auto; apply Hr; now left|].
  split; [now apply crossing_link|]. split.
  - intros s Hsr. unfold link.
    inversion Hnd as [|? ? Hni _]; subst.
    destruct (Nat.eqb_spec s b) as [->|_].
    { elim (apart b); [apply Hsub; now right | exact Hb]. }
    destruct (Nat.eqb_spec s a) as [->|_]; [contradiction|].
    apply Hr. now right.
  - intros x y. unfold link.
    destruct (Nat.eqb_spec x b) as [->|_]; [intros [= <-]; now symmetry|].
    destruct (Nat.eqb_spec x a) as [->|_]; [intros [= <-]; exact Hab|].
    apply Hk.
Qed.

End Pairing.

Lemma paired_ext A B K (key : nat -> K) tw tw' rest :
  (forall x, tw' x = tw x) -> paired A B K key tw rest -> paired A B K key tw' rest.
Proof.
  intros E (Hs & Hc & Hr & Hk). split; [now apply (symmetric_ext tw)|].
  split; [now apply (crossing_ext A B tw)|]. split.
  - intros s Hsr. rewrite E. now apply Hr.
  - intros a b. rewrite E. apply Hk.
Qed.

Section OuterLoops.

Variables (st0 : store) (A B : list nat).
Hypothesis apart : forall x, In x A -> ~ In x B.

Lemma correlate_sections_paired :
  (forall a b, In a A -> In b A ->
               sec_name (secs st0 a) = sec_name (secs st0 b) -> a = b) ->
  forall rest st st',
    NoDup rest -> (forall s, In s rest -> In s A) ->
    links_only st0 st ->
    paired A B _ (fun s => sec_name (secs st0 s)) (sec_twins st) rest ->
    foreach rest (fun st sec1 => correlate_section st sec1 B) st = Ok st' ->
    paired A B _ (fun s => sec_name (secs st0 s)) (sec_twins st') [] /\
    links_only st0 st' /\
    (forall p, syms st' p = syms st p).
Proof.
  intros Hinj. induction rest as [|sec1 rest IH]; intros st st' Hnd Hsub Hl Hp.
  - intros [= <-]. auto.
  - cbn [foreach].
    destruct (correlate_section st sec1 B) as [st1|] eqn:E; cbn [bind];
      [|discriminate].
    intros Hrun.
    inversion Hnd as [|? ? _ Hnd']; subst.
    destruct (correlate_section_cases _ _ _ _ E) as [->|(sec2 & Hin & Hn & ->)].
    + apply (IH st st' Hnd'); auto.
      * intros; apply Hsub; now right.
      * eapply paired_skip; exact Hp.
    + destruct (IH (twin_sections st sec1 sec2) st' Hnd') as (Hp' & Hl' & Hs');
        auto.
      * intros; apply Hsub; now right.
      * eapply links_only_trans; [exact Hl | apply links_only_twin_sections].
      * eapply paired_ext; [apply sec_twins_twin_sections|].
        apply paired_link; auto.
        destruct (links_only_sec_fields _ _ sec1 Hl) as (<- & _).
        destruct (links_only_sec_fields _ _ sec2 Hl) as (<- & _).
        exact Hn.
Qed.

Lemma correlate_symbols_paired :
  let key := fun p => (sym_name (syms st0 p), sym_type (syms st0 p)) in
  (forall a b, In a A -> In b A -> key a = key b -> a = b) ->
  forall rest st st',
    NoDup rest -> (forall s, In s rest -> In s A) ->
    (forall p, sym_name (syms st p) = sym_name (syms st0 p) /\
               sym_type (syms st p) = sym_type (syms st0 p)) ->
    paired A B _ key (sym_twins st) rest ->
    foreach rest (fun st sym1 => correlate_symbol st sym1 B) st = Ok st' ->
    paired A B _ key (sym_twins st') [] /\
    links_only st st' /\
    (forall s, secs st' s = secs st s).
Proof.
  intros key Hinj. induction rest as [|sym1 rest IH]; intros st st' Hnd Hsub Hk Hp.
  - intros [= <-]. split; [exact Hp|]. split; [apply links_only_refl | auto].
  - cbn [foreach].
    destruct (correlate_symbol st sym1 B) as [st1|] eqn:E; cbn [bind];
      [|discriminate].
    intros Hrun.
    inversion Hnd as [|? ? _ Hnd']; subst.
    destruct (correlate_symbol_cases _ _ _ _ E)
      as [->|(sym2 & Hin & Hn & Ht & ->)].
    + apply (IH st st' Hnd'); auto.
      * intros; apply Hsub; now right.
      * eapply paired_skip; exact Hp.
    + destruct (IH (twin_symbols st sym1 sym2) st' Hnd') as (Hp' & Hl' & Hs');
        auto.
      * intros; apply Hsub; now right.
      * intros p. destruct (Hk p) as [<- <-].
        unfold twin_symbols. cbn [upd_sym syms].
        destruct (Nat.eqb_spec p sym1), (Nat.eqb_spec p sym2); auto.
      * eapply paired_ext; [apply sym_twins_twin_symbols|].
        apply paired_link; auto.
        unfold key. destruct (Hk sym1) as [<- <-], (Hk sym2) as [<- <-].
        congruence.
      * split; [exact Hp'|]. split; [|exact Hs'].
        eapply links_only_trans; [apply links_only_twin_symbols | exact Hl'].
Qed.

End OuterLoops.

Lemma base_static_some st sym l : forall acc res,
  foreach l
    (fun basesym rela =>
       if is_some (sym_twin (syms st (rela_sym rela))) then Ok basesym
       else if negb (xsplice_mangled_strcmp (sym_name (syms st (rela_sym rela)))
                       (sym_name (syms st sym)) =? 0)
       then Ok basesym
       else if match basesym with
               | Some b => negb (Nat.eqb b (rela_sym rela))
               | None => false
               end
       then Fail EXIT_ERROR
       else Ok (Some (rela_sym rela)))
    acc = Ok res ->
  res = acc \/
  exists r, In r l /\ res = Some (rela_sym r) /\
            sym_twin (syms st (rela_sym r)) = None.
Proof.
  induction l as [|rela l IH]; intros acc res; cbn [foreach].
  - intros [= <-]. now left.
  - destruct (sym_twin (syms st (rela_sym rela))) as [t|] eqn:Et; cbn [is_some bind].
    { intros H. destruct (IH _ _ H) as [->|(r & Hr & E)]; [now left|].
      right. exists r. split; [now right | exact E]. }
    destruct (negb _).
    { cbn [bind]. intros H. destruct (IH _ _ H) as [->|(r & Hr & E)]; [now left|].
      right. exists r. split; [now right | exact E]. }
    destruct (match acc with Some b => _ | None => false end); cbn [bind];
      [discriminate|].
    intros H. destruct (IH _ _ H) as [->|(r & Hr & E)].
    + right. exists rela. split; [now left | auto].
    + right. exists r. split; [now right | exact E].
Qed.

Lemma xsplice_find_static_twin_some st sec sym b :
  xsplice_find_static_twin st sec sym = Ok (Some b) ->
  exists twin r,
    sec_twin (secs st sec) = Some twin /\
    In r (sec_relas (secs st twin)) /\ rela_sym r = b /\
    sym_twin (syms st b) = None.
Proof.
  unfold xsplice_find_static_twin.
  destruct (sec_twin (secs st sec)) as [twin|]; [|discriminate].
  destruct (no_other_static st sec sym); cbn [bind]; [|discriminate].
  intros H. unfold base_static in H. apply base_static_some in H.
  destruct H as [H|(r & Hr & [= ->] & Ht)]; [discriminate|].
  exists twin, r. auto.
Qed.

Lemma static_local_uses_some st patched sym sec b :
  static_local_uses st patched sym = Ok (sec, Some b) ->
  base_candidate st patched b.
Proof.
  unfold static_local_uses.
  assert (G : forall l acc sec,
             (forall s, In s l -> In s (sections patched)) ->
             foreach l
               (fun '(sec, basesym) tmpsec =>
                  skip <- (if negb (is_rela_section (secs st tmpsec)) then Ok true
                           else
                             base <- deref (sec_base (secs st tmpsec)) ;;
                             Ok (negb (is_text_section (secs st base)) ||
                                 is_debug_section (secs st tmpsec))) ;;
                  if skip then Ok (sec, basesym)
                  else if uses_symbol (sec_relas (secs st tmpsec)) sym then
                    tmpsym <- xsplice_find_static_twin st tmpsec sym ;;
                    match basesym, tmpsym with
                    | Some b, Some t =>
                        if negb (Nat.eqb b t) then Fail EXIT_ERROR
                        else Ok (Some tmpsec, basesym)
                    | None, Some t => Ok (Some tmpsec, Some t)
                    | _, None => Ok (Some tmpsec, basesym)
                    end
                  else Ok (sec, basesym))
               acc = Ok (sec, Some b) ->
             snd acc = Some b \/ base_candidate st patched b).
  { induction l as [|tmpsec l IH]; intros [sec0 bs0] sec1 Hsub; cbn [foreach].
    - intros [= _ ->]. now left.
    - match goal with
      | |- bind (bind ?m _) _ = _ -> _ => destruct m as [[|]|]
      end; cbn [bind]; try discriminate.
      { intros H. apply IH in H; [exact H | intros; apply Hsub; now right]. }
      destruct (uses_symbol _ sym).
      2:{ cbn [bind]. intros H. apply IH in H; [exact H|].
          intros; apply Hsub; now right. }
      destruct (xsplice_find_static_twin st tmpsec sym) as [[t|]|] eqn:Ef;
        cbn [bind]; try discriminate.
      + destruct bs0 as [b0|].
        * destruct (negb (Nat.eqb b0 t)); cbn [bind]; [discriminate|].
          intros H. apply IH in H; [exact H | intros; apply Hsub; now right].
        * cbn [bind]. intros H.
          apply IH in H; [|intros; apply Hsub; now right].
          destruct H as [[= ->]|H]; [|now right]. right.
          apply xsplice_find_static_twin_some in Ef.
          destruct Ef as (twin & r & Ht & Hr & Hb & Hn).
          exists tmpsec, twin, r. repeat split; auto. apply Hsub. now left.
      + destruct bs0; cbn [bind]; intros H;
          (apply IH in H; [exact H | intros; apply Hsub; now right]).
  }
  intros H. apply G in H; [|auto]. destruct H as [H|H]; [discriminate H | exact H].
Qed.

Lemma ptr_is_true p q : ptr_is p q = true -> p = Some q.
Proof.
  destruct p as [a|]; cbn [ptr_is]; [|discriminate].
  intros H. apply Nat.eqb_eq in H. now subst.
Qed.

(** The loop body of the static-local correlation either leaves the store
    alone or links the untwinned [sym] to an untwinned base candidate, and
    their sections when both are bundled. *)
Lemma correlate_static_local_cases base patched st sym st' :
  correlate_static_local base patched st sym = Ok st' ->
  st' = st \/
  exists basesym symsec basesec,
    sym_twin (syms st sym) = None /\
    base_candidate st patched basesym /\
    sym_sec (syms st sym) = Some symsec /\
    sym_sec (syms st basesym) = Some basesec /\
    (st' = static_local_linked st sym basesym \/
     (sec_sym (secs st symsec) = Some sym /\
      sec_sym (secs st basesec) = Some basesym /\
      st' = static_local_bundled st sym basesym symsec basesec)).
Proof.
  unfold correlate_static_local.
  destruct (negb (sym_type (syms st sym) =? STT_OBJECT) ||
            negb (sym_bind (syms st sym) =? STB_LOCAL)).
  { intros [= <-]. now left. }
  cbn [orb].
  destruct (sym_twin (syms st sym)) as [t|] eqn:Et; cbn [is_some].
  { intros [= <-]. now left. }
  destruct (is_special_static st (Some sym)) as [[|]|]; cbn [bind];
    try discriminate.
  { intros [= <-]. now left. }
  destruct (negb (strchr (sym_name (syms st sym)) ".")).
  { intros [= <-]. now left. }
  destruct (static_local_uses st patched sym) as [[[sec|] [basesym|]]|] eqn:Eu;
    cbn [bind]; try discriminate.
  2:{ intros [= <-]. now left. }
  apply static_local_uses_some in Eu.
  destruct (sym_sec (syms st sym)) as [symsec|]; cbn [deref bind];
    [|discriminate].
  destruct (sym_sec (syms st basesym)) as [basesec|] eqn:Ebs; cbn [deref bind];
    [|discriminate].
  destruct (ptr_is (sec_sym (secs st symsec)) sym) eqn:Eb;
    destruct (ptr_is (sec_sym (secs st basesec)) basesym) eqn:Ebb;
    cbn [Bool.eqb negb andb]; try discriminate.
  - intros [= <-]. right. exists basesym, symsec, basesec.
    split; [reflexivity|]. split; [exact Eu|].
    split; [reflexivity|]. split; [exact Ebs|]. right.
    split; [now apply ptr_is_true|]. split; [now apply ptr_is_true|].
    reflexivity.
  - destruct (negb (ptr_is (sec_twin (secs st symsec)) basesec)); [discriminate|].
    intros [= <-]. right. exists basesym, symsec, basesec.
    split; [reflexivity|]. split; [exact Eu|].
    split; [reflexivity|]. split; [exact Ebs|]. now left.
Qed.

Lemma links_only_static_local_linked st sym b :
  links_only st (static_local_linked st sym b).
Proof.
  unfold static_local_linked.
  eapply links_only_trans; [|apply links_only_twin_symbols].
  apply links_only_upd_sym. apply set_sym_name_links.
Qed.

Lemma links_only_static_local_bundled st sym b s1 s2 :
  links_only st (static_local_bundled st sym b s1 s2).
Proof.
  unfold static_local_bundled.
  repeat (eapply links_only_trans;
          [|apply links_only_upd_sec; apply set_sec_twin_links]).
  apply links_only_static_local_linked.
Qed.

Lemma sym_twins_static_local_linked st sym b x :
  sym_twins (static_local_linked st sym b) x = link (sym_twins st) sym b x.
Proof.
  unfold static_local_linked. rewrite sym_twins_twin_symbols.
  unfold link, sym_twins. cbn [upd_sym syms].
  destruct (Nat.eqb_spec x b); [reflexivity|].
  destruct (Nat.eqb_spec x sym); reflexivity.
Qed.

Lemma sec_twins_static_local_bundled st sym b s1 s2 x :
  sec_twins (static_local_bundled st sym b s1 s2) x = link (sec_twins st) s1 s2 x.
Proof.
  unfold static_local_bundled, static_local_linked, twin_symbols, sec_twins, link.
  cbn [upd_sec upd_sym secs].
  destruct (Nat.eqb_spec x s2); [reflexivity|].
  destruct (Nat.eqb_spec x s1); reflexivity.
Qed.

Lemma link_some tw a b x : tw x <> None -> link tw a b x <> None.
Proof.
  unfold link. destruct (Nat.eqb x b); [discriminate|].
  destruct (Nat.eqb x a); [discriminate | auto].
Qed.

Section StaticLocals.

Variables (base patched : xsplice_elf) (st0 : store).

Hypothesis sections_apart :
  forall s, In s (sections base) -> ~ In s (sections patched).
Hypothesis symbols_apart :
  forall p, In p (symbols base) -> ~ In p (symbols patched).
Hypothesis base_closed : closed_object st0 base.
Hypothesis patched_closed : closed_object st0 patched.

Lemma base_candidate_in_base st b :
  twins_cross base patched st0 st -> base_candidate st patched b -> In b (symbols base).
Proof.
  intros (Hl & _ & _ & Hc) (tmpsec & twin & r & Hin & Ht & Hr & <- & _).
  assert (In twin (sections base))
    by (eapply crossing_right; [exact Hc | exact sections_apart | exact Hin | exact Ht]).
  destruct (links_only_sec_fields _ _ twin Hl) as (_ & _ & E). rewrite E in Hr.
  destruct base_closed as [_ Hrel]. eapply Hrel; eauto.
Qed.

Lemma correlate_static_local_twins st sym st' :
  In sym (symbols patched) ->
  twins_cross base patched st0 st ->
  correlate_static_local base patched st sym = Ok st' ->
  twins_cross base patched st0 st' /\ (bundles_paired st -> bundles_paired st').
Proof.
  intros Hsym Hinv Hstep.
  destruct (correlate_static_local_cases _ _ _ _ _ Hstep)
    as [->|(b & symsec & basesec & Hun & Hcand & Hss & Hbs & Hcase)];
    [now split|].
  pose proof (base_candidate_in_base _ _ Hinv Hcand) as HbB.
  assert (Hbun : sym_twins st b = None)
    by (destruct Hcand as (? & ? & ? & _ & _ & _ & _ & H); exact H).
  destruct Hinv as (Hl & Hs & Hc & Hcs).
  assert (Hne : sym <> b) by (intros ->; now apply (symbols_apart b)).
  assert (Hsym' : symmetric (link (sym_twins st) sym b))
    by (apply symmetric_link; auto).
  assert (Hc' : crossing (symbols base) (symbols patched)
                  (link (sym_twins st) sym b))
    by (apply crossing_sym, crossing_link; auto; now apply crossing_sym).
  destruct Hcase as [->|(Hb1 & Hb2 & ->)].
  - split.
    + split; [eapply links_only_trans;
              [exact Hl | apply links_only_static_local_linked]|].
      split; [eapply symmetric_ext;
              [apply sym_twins_static_local_linked | exact Hsym']|].
      split; [eapply crossing_ext;
              [apply sym_twins_static_local_linked | exact Hc']|].
      exact Hcs.
    + intros [Hbf Hss']. split; [|exact Hss'].
      intros s q Ht Hq.
      change (sym_twins (static_local_linked st sym b) q <> None).
      rewrite sym_twins_static_local_linked. apply link_some.
      now apply (Hbf s q).
  - assert (HsP : In symsec (sections patched)).
    { destruct patched_closed as [Hcl _]. apply (Hcl sym symsec Hsym).
      destruct (links_only_sym_fields _ _ sym Hl) as (_ & <-). exact Hss. }
    assert (HsB : In basesec (sections base)).
    { destruct base_closed as [Hcl _]. apply (Hcl b basesec HbB).
      destruct (links_only_sym_fields _ _ b Hl) as (_ & <-). exact Hbs. }
    split.
    + split; [eapply links_only_trans;
              [exact Hl | apply links_only_static_local_bundled]|].
      split; [eapply symmetric_ext;
              [apply sym_twins_static_local_linked | exact Hsym']|].
      split; [eapply crossing_ext;
              [apply sym_twins_static_local_linked | exact Hc']|].
      eapply crossing_ext; [apply sec_twins_static_local_bundled|].
      apply crossing_sym, crossing_link; auto. now apply crossing_sym.
    + intros [Hbf Hss']. split.
      * intros s q Ht Hq.
        change (sym_twins (static_local_linked st sym b) q <> None).
        rewrite sym_twins_static_local_linked.
        change (sec_twins (static_local_bundled st sym b symsec basesec) s
                <> None) in Ht.
        rewrite sec_twins_static_local_bundled in Ht.
        destruct (links_only_sec_fields _ _ s
                    (links_only_static_local_bundled st sym b symsec basesec))
          as (_ & E & _).
        rewrite E in Hq. clear E.
        unfold link in Ht |- *.
        destruct (Nat.eqb_spec s basesec) as [->|_].
        { rewrite Hb2 in Hq. inversion Hq; subst.
          now rewrite Nat.eqb_refl. }
        destruct (Nat.eqb_spec s symsec) as [->|_].
        { rewrite Hb1 in Hq. inversion Hq; subst.
          rewrite Nat.eqb_refl. destruct (Nat.eqb q b); discriminate. }
        apply (link_some _ sym b). now apply (Hbf s q).
      * eapply symmetric_ext; [apply sec_twins_static_local_bundled|].
        apply symmetric_link; auto.
        -- destruct (sec_twins st symsec) eqn:E; [|reflexivity].
           elim (Hbf symsec sym); [unfold sec_twins in E; congruence | exact Hb1 | exact Hun].
        -- destruct (sec_twins st basesec) eqn:E; [|reflexivity].
           elim (Hbf basesec b); [unfold sec_twins in E; congruence | exact Hb2 | exact Hbun].
        -- intros ->. now apply (sections_apart basesec).
Qed.

Lemma static_local_pass_twins l : forall st st',
  (forall p, In p l -> In p (symbols patched)) ->
  twins_cross base patched st0 st ->
  foreach l (correlate_static_local base patched) st = Ok st' ->
  twins_cross base patched st0 st' /\ (bundles_paired st -> bundles_paired st').
Proof.
  induction l as [|sym l IH]; intros st st' Hsub Hinv; cbn [foreach].
  - intros [= <-]. now split.
  - destruct (correlate_static_local base patched st sym) as [st1|] eqn:E;
      cbn [bind]; [|discriminate].
    intros Hrun.
    destruct (correlate_static_local_twins st sym st1) as [Hinv1 Hb1]; auto.
    { apply Hsub. now left. }
    destruct (IH st1 st') as [Hinv' Hb']; auto.
    intros; apply Hsub; now right.
Qed.

End StaticLocals.

Lemma twins_symmetric_of_crossing A B tw :
  (forall x, In x A -> ~ In x B) ->
  symmetric tw -> crossing A B tw ->
  forall a b, tw a = Some b -> tw b = Some a /\ a <> b.
Proof.
  intros Hd Hs Hc a b Hab. split; [now apply Hs|].
  eapply crossing_neq; eauto.
Qed.

(** C6 (as the code has it).  Starting from two freshly loaded objects
    that share no element, whose pointers stay inside each object and whose
    base lists hold no two sections of one name and no two symbols of one
    name and type: after section and symbol correlation every twin of a
    section or of a symbol points back and no element is its own twin;
    after static-local correlation this still holds of the symbols, and of
    the sections as well when, before that pass, every twinned section
    that has a bundled symbol has it twinned. *)
Theorem correlate_all_twins_symmetric
  (base patched : xsplice_elf) (st st2 st3 : store) :
  untwinned st ->
  separate_objects base patched ->
  closed_object st base ->
  closed_object st patched ->
  unique_names st base ->
  xsplice_correlate_elfs st base patched = Ok st2 ->
  xsplice_correlate_static_local_variables base patched st2 = Ok st3 ->
  sym_twins_symmetric st2 /\ sec_twins_symmetric st2 /\
  sym_twins_symmetric st3 /\
  (bundles_follow st2 -> sec_twins_symmetric st3).
Proof.
  intros [Hus Huc] (Hnds & Hndp & Has & Hap) Hcb Hcp [Hnu Hsu] Helfs Hstatic.
  unfold xsplice_correlate_elfs, xsplice_correlate_sections,
    xsplice_correlate_symbols in Helfs.
  destruct (foreach (sections base) _ st) as [st1|] eqn:E1; cbn [bind] in Helfs;
    [|discriminate].
  destruct (correlate_sections_paired st (sections base) (sections patched)
              Has Hnu (sections base) st st1 Hnds (fun s H => H)
              (links_only_refl st))
    as ((Hs1 & Hc1 & _ & _) & Hl1 & Hsame1); [|exact E1|].
  { split; [intros a b; unfold sec_twins; now rewrite Huc|].
    split; [intros a b; unfold sec_twins; now rewrite Huc|].
    split; [intros; apply Huc|].
    intros a b. unfold sec_twins. now rewrite Huc. }
  destruct (correlate_symbols_paired st (symbols base) (symbols patched) Hap)
    with (rest := symbols base) (st := st1) (st' := st2)
    as ((Hs2 & Hc2 & _ & _) & Hl2 & Hsame2); auto.
  { intros a b Ha Hb [= Hn Ht]. now apply Hsu. }
  { intros p. now rewrite Hsame1. }
  { assert (Hno : forall x, sym_twins st1 x = None)
      by (intros x; unfold sym_twins; rewrite Hsame1; apply Hus).
    split; [intros a b; now rewrite Hno|].
    split; [intros a b; now rewrite Hno|].
    split; [intros; apply Hno|].
    intros a b. now rewrite Hno. }
  assert (Hsec2 : forall x, sec_twins st2 x = sec_twins st1 x)
    by (intros x; unfold sec_twins; now rewrite Hsame2).
  assert (Hs2' : symmetric (sec_twins st2)) by (now apply (symmetric_ext (sec_twins st1))).
  assert (Hc2' : crossing (sections base) (sections patched) (sec_twins st2))
    by (now apply (crossing_ext _ _ (sec_twins st1))).
  assert (Hl : links_only st st2) by (eapply links_only_trans; eauto).
  assert (Hinv2 : twins_cross base patched st st2).
  { split; [exact Hl|]. split; [exact Hs2|]. split; [exact Hc2 | exact Hc2']. }
  destruct (static_local_pass_twins base patched st Has Hap Hcb Hcp
              (symbols patched) st2 st3 (fun p H => H) Hinv2 Hstatic)
    as ((_ & Hs3 & Hc3 & Hcs3) & Hb3).
  split; [exact (twins_symmetric_of_crossing _ _ _ Hap Hs2 Hc2)|].
  split; [exact (twins_symmetric_of_crossing _ _ _ Has Hs2' Hc2')|].
  split; [exact (twins_symmetric_of_crossing _ _ _ Hap Hs3 Hc3)|].
  intros Hbf. destruct (Hb3 (conj Hbf Hs2')) as [_ Hss3].
  exact (twins_symmetric_of_crossing _ _ _ Has Hss3 Hcs3).
Qed.

(** The example objects meet the assumptions on freshly loaded objects. *)
Example tick_untwinned : untwinned CorrelateExamples.st_tick.
Proof.
  split; intros a; do 7 (destruct a as [|a]; [reflexivity|]); reflexivity.
Qed.

Example tick_separate :
  separate_objects CorrelateExamples.base_tick CorrelateExamples.patched_tick.
Proof.
  split; [repeat constructor; simpl; intuition discriminate|].
  split; [repeat constructor; simpl; intuition discriminate|].
  split; intros x Hx; simpl in Hx |- *; intuition (subst; discriminate).
Qed.

Example tick_base_closed :
  closed_object CorrelateExamples.st_tick CorrelateExamples.base_tick.
Proof.
  split.
  - intros p s Hp. simpl in Hp. destruct Hp as [<-|[<-|[]]];
      intros [= <-]; simpl; tauto.
  - intros s r Hs. simpl in Hs. destruct Hs as [<-|[<-|[<-|[]]]];
      simpl; intros Hr; try contradiction.
    destruct Hr as [<-|[]]. simpl. tauto.
Qed.

Example tick_patched_closed :
  closed_object CorrelateExamples.st_tick CorrelateExamples.patched_tick.
Proof.
  split.
  - intros p s Hp. simpl in Hp. destruct Hp as [<-|[<-|[]]];
      intros [= <-]; simpl; tauto.
  - intros s r Hs. simpl in Hs. destruct Hs as [<-|[<-|[<-|[]]]];
      simpl; intros Hr; try contradiction.
    destruct Hr as [<-|[]]. simpl. tauto.
Qed.

Example tick_unique_names :
  unique_names CorrelateExamples.st_tick CorrelateExamples.base_tick.
Proof.
  split.
  - intros a b Ha Hb. simpl in Ha, Hb.
    destruct Ha as [<-|[<-|[<-|[]]]]; destruct Hb as [<-|[<-|[<-|[]]]];
      simpl; intros E; first [reflexivity | discriminate E].
  - intros a b Ha Hb. simpl in Ha, Hb.
    destruct Ha as [<-|[<-|[]]]; destruct Hb as [<-|[<-|[]]];
      simpl; intros E; first [reflexivity | discriminate E].
Qed.

Example tick_bundles_follow :
  bundles_follow
    (store_after
       (xsplice_correlate_elfs CorrelateExamples.st_tick
          CorrelateExamples.base_tick CorrelateExamples.patched_tick)
       CorrelateExamples.st_tick).
Proof.
  intros s q.
  do 7 (destruct s as [|s];
        [intros Ht Hq; vm_compute in Ht; vm_compute in Hq;
         first [elim Ht; reflexivity
               | injection Hq as <-; vm_compute; intros H; discriminate H
               | discriminate Hq]|]).
  intros Ht. vm_compute in Ht. elim Ht. reflexivity.
Qed.

Lemma correlate_all_twins_symmetric_witness :
  exists st3,
    correlate_all CorrelateExamples.base_tick CorrelateExamples.patched_tick
      CorrelateExamples.st_tick = Ok st3 /\
    sym_twins_symmetric st3 /\ sec_twins_symmetric st3 /\
    sym_twin (syms st3 3) = Some 1%nat /\ sec_twin (secs st3 5) = Some 2%nat.
Proof.
  unfold correlate_all.
  assert (E2 : is_ok (xsplice_correlate_elfs CorrelateExamples.st_tick
                        CorrelateExamples.base_tick
                        CorrelateExamples.patched_tick) = true)
    by (vm_compute; reflexivity).
  apply is_ok_Ok in E2. destruct E2 as [st2 E2].
  rewrite E2. cbn [bind].
  pose proof (store_after_Ok _ CorrelateExamples.st_tick _ E2) as Hst2.
  assert (E3 : is_ok (xsplice_correlate_static_local_variables
                        CorrelateExamples.base_tick
                        CorrelateExamples.patched_tick st2) = true)
    by (rewrite Hst2; vm_compute; reflexivity).
  apply is_ok_Ok in E3. destruct E3 as [st3 E3].
  pose proof (store_after_Ok _ st2 _ E3) as Hst3.
  exists st3. split; [exact E3|].
  destruct (correlate_all_twins_symmetric
              CorrelateExamples.base_tick CorrelateExamples.patched_tick
              CorrelateExamples.st_tick st2 st3
              tick_untwinned tick_separate tick_base_closed
              tick_patched_closed tick_unique_names E2 E3)
    as (_ & _ & H3 & H4).
  split; [exact H3|]. split.
  - apply H4. rewrite Hst2. exact tick_bundles_follow.
  - clear H3 H4 E3. rewrite Hst3. clear Hst3. rewrite Hst2. clear Hst2 E2.
    split; vm_compute; reflexivity.
Defined.

(** C6 (as stated) fails: the base object has two sections of one name.
    The first is twinned with the patched section of that name, then the
    second takes the same patched section as its twin: the first base
    section still points at the patched section, which points at the
    second. *)
Lemma twins_not_symmetric_counterexample :
  exists st3,
    correlate_all CorrelateExamples.base_same_name
      CorrelateExamples.patched_same_name CorrelateExamples.st_same_name
    = Ok st3 /\
    sec_twin (secs st3 0) = Some 2%nat /\
    sec_twin (secs st3 2) = Some 1%nat /\
    ~ sec_twins_symmetric st3.
Proof.
  assert (E : is_ok (correlate_all CorrelateExamples.base_same_name
                       CorrelateExamples.patched_same_name
                       CorrelateExamples.st_same_name) = true)
    by (vm_compute; reflexivity).
  apply is_ok_Ok in E. destruct E as [st3 E].
  pose proof (store_after_Ok _ CorrelateExamples.st_same_name _ E) as Hst3.
  exists st3. split; [exact E|]. clear E.
  assert (H0 : sec_twin (secs st3 0) = Some 2%nat)
    by (rewrite Hst3; vm_compute; reflexivity).
  assert (H2 : sec_twin (secs st3 2) = Some 1%nat)
    by (rewrite Hst3; vm_compute; reflexivity).
  clear Hst3.
  split; [exact H0|]. split; [exact H2|].
  intros H. destruct (H 0%nat 2%nat H0) as [E _].
  rewrite H2 in E. discriminate E.
Qed.

(** ** Inclusion engine *)

Lemma grows_refl st : grows st st.
Proof.
  split; split; auto; intros x.
  - exists (sym_include (syms st x)). now destruct (syms st x).
  - exists (sec_include (secs st x)). now destruct (secs st x).
Qed.

Lemma grows_trans st1 st2 st3 : grows st1 st2 -> grows st2 st3 -> grows st1 st3.
Proof.
  intros [[Fs Fc] [Gs Gc]] [[Fs' Fc'] [Gs' Gc']]. split; split; auto.
  - intros p. destruct (Fs p) as [b E], (Fs' p) as [b' E'].
    exists b'. rewrite E', E. reflexivity.
  - intros s. destruct (Fc s) as [b E], (Fc' s) as [b' E'].
    exists b'. rewrite E', E. reflexivity.
Qed.

Lemma grows_include_sym st p : grows st (upd_sym st p (set_sym_include true)).
Proof.
  split; split; cbn [upd_sym syms secs]; intros x.
  - destruct (Nat.eqb_spec x p) as [->|_]; [now exists true|].
    exists (sym_include (syms st x)). now destruct (syms st x).
  - exists (sec_include (secs st x)). now destruct (secs st x).
  - destruct (Nat.eqb_spec x p); auto.
  - auto.
Qed.

Lemma grows_include_sec st s : grows st (upd_sec st s (set_sec_include true)).
Proof.
  split; split; cbn [upd_sec syms secs]; intros x.
  - exists (sym_include (syms st x)). now destruct (syms st x).
  - destruct (Nat.eqb_spec x s) as [->|_]; [now exists true|].
    exists (sec_include (secs st x)). now destruct (secs st x).
  - auto.
  - destruct (Nat.eqb_spec x s); auto.
Qed.

Lemma flags_only_sym_fields st st' p :
  flags_only st st' ->
  sym_sec (syms st' p) = sym_sec (syms st p) /\
  sym_type (syms st' p) = sym_type (syms st p) /\
  sym_status (syms st' p) = sym_status (syms st p) /\
  sym_bind (syms st' p) = sym_bind (syms st p) /\
  sym_name (syms st' p) = sym_name (syms st p).
Proof. intros [H _]. destruct (H p) as [b ->]. repeat split. Qed.

Lemma flags_only_sec_fields st st' s :
  flags_only st st' ->
  sec_relas (secs st' s) = sec_relas (secs st s) /\
  is_rela_section (secs st' s) = is_rela_section (secs st s) /\
  sec_rela (secs st' s) = sec_rela (secs st s) /\
  sec_secsym (secs st' s) = sec_secsym (secs st s) /\
  sec_name (secs st' s) = sec_name (secs st s).
Proof. intros [_ H]. destruct (H s) as [b ->]. repeat split. Qed.

Lemma symbols_placed_flags st st' :
  flags_only st st' -> symbols_placed st -> symbols_placed st'.
Proof.
  intros F H p sec Hp.
  destruct (flags_only_sym_fields _ _ p F) as (E & _). rewrite E in Hp.
  destruct (flags_only_sec_fields _ _ sec F) as (_ & -> & _). eauto.
Qed.

Lemma closed_modulo_grows (P : nat -> Prop) st st' :
  grows st st' ->
  (forall s, sec_include (secs st' s) = true ->
             is_rela_section (secs st s) = true ->
             sec_include (secs st s) = true \/
             forall r, In r (sec_relas (secs st s)) ->
                       sym_include (syms st' (rela_sym r)) = true \/ P (rela_sym r)) ->
  closed_modulo P st -> closed_modulo P st'.
Proof.
  intros [F [Gs _]] Hnew Hc sec r Hi Hr Hin.
  destruct (flags_only_sec_fields _ _ sec F) as (Er & Et & _).
  rewrite Er in Hin. rewrite Et in Hr.
  destruct (Hnew sec Hi Hr) as [Hold|Hall]; [|now apply Hall].
  destruct (Hc sec r Hold Hr Hin) as [H|H]; [left; now apply Gs | now right].
Qed.

Lemma closed_modulo_weaken (P Q : nat -> Prop) st :
  (forall x, P x -> Q x) -> closed_modulo P st -> closed_modulo Q st.
Proof. intros H Hc sec r Hi Hr Hin. destruct (Hc sec r Hi Hr Hin); auto. Qed.

Section IncludeSymbol.

Variable fuel : nat.
Hypothesis IH : forall (P : nat -> Prop) st sym st',
  symbols_placed st -> closed_modulo P st ->
  xsplice_include_symbol fuel st sym = Ok st' ->
  closed_modulo P st' /\ sym_include (syms st' sym) = true /\ grows st st'.

Lemma include_relas_closed_modulo (P : nat -> Prop) l : forall st st',
  symbols_placed st -> closed_modulo P st ->
  foreach l (fun st r => xsplice_include_symbol fuel st (rela_sym r)) st = Ok st' ->
  closed_modulo P st' /\
  (forall r, In r l -> sym_include (syms st' (rela_sym r)) = true) /\
  grows st st'.
Proof.
  induction l as [|r l IHl]; intros st st' Hp Hc; cbn [foreach].
  - intros [= <-]. split; [exact Hc|]. split; [intros r []|apply grows_refl].
  - destruct (xsplice_include_symbol fuel st (rela_sym r)) as [st1|] eqn:E;
      cbn [bind]; [|discriminate].
    intros Hrun.
    destruct (IH P st (rela_sym r) st1 Hp Hc E) as (Hc1 & Hi1 & G1).
    destruct (IHl st1 st' (symbols_placed_flags _ _ (proj1 G1) Hp) Hc1 Hrun)
      as (Hc' & Hall & G').
    split; [exact Hc'|]. split; [|eapply grows_trans; eauto].
    intros x [<-|Hx]; [|now apply Hall].
    destruct G' as [_ [Gs _]]. now apply Gs.
Qed.

End IncludeSymbol.

(** [xsplice_include_symbol] includes [sym], sets include flags only and
    keeps the closure, up to what its caller still has to include. *)
Lemma xsplice_include_symbol_closed_modulo fuel :
  forall (P : nat -> Prop) st sym st',
    symbols_placed st -> closed_modulo P st ->
    xsplice_include_symbol fuel st sym = Ok st' ->
    closed_modulo P st' /\ sym_include (syms st' sym) = true /\ grows st st'.
Proof.
  induction fuel as [|fuel IH]; intros P st sym st' Hp Hc; [discriminate|].
  cbn [xsplice_include_symbol].
  set (st1 := upd_sym st sym (set_sym_include true)).
  assert (G1 : grows st st1) by apply grows_include_sym.
  assert (I1 : sym_include (syms st1 sym) = true)
    by (unfold st1; now rewrite syms_upd_sym_eq).
  assert (C1 : closed_modulo P st1).
  { apply (closed_modulo_grows P st st1 G1); [|exact Hc]. intros s Hs _. now left. }
  assert (base : forall st2, st2 = st1 ->
            closed_modulo P st2 /\ sym_include (syms st2 sym) = true /\ grows st st2)
    by (intros ? ->; auto).
  destruct (sym_sec (syms st1 sym)) as [sec|] eqn:Esec.
  2:{ intros [= <-]. now apply base. }
  destruct (sec_include (secs st1 sec) ||
            negb (sym_type (syms st1 sym) =? STT_SECTION) &&
            status_eqb (sym_status (syms st1 sym)) SAME).
  { intros [= <-]. now apply base. }
  clear base.
  assert (Hnr : is_rela_section (secs st sec) = false).
  { apply (Hp sym sec).
    destruct (flags_only_sym_fields _ _ sym (proj1 G1)) as (<- & _). exact Esec. }
  set (st2 := upd_sec st1 sec (set_sec_include true)).
  assert (G2 : grows st st2)
    by (eapply grows_trans; [exact G1 | apply grows_include_sec]).
  set (st3 := match sec_secsym (secs st2 sec) with
              | Some secsym =>
                  if negb (Nat.eqb secsym sym)
                  then upd_sym st2 secsym (set_sym_include true)
                  else st2
              | None => st2
              end).
  assert (G23 : grows st2 st3).
  { unfold st3. destruct (sec_secsym (secs st2 sec)) as [q|]; [|apply grows_refl].
    destruct (negb (Nat.eqb q sym)); [apply grows_include_sym | apply grows_refl]. }
  assert (G3 : grows st st3) by (eapply grows_trans; eauto).
  assert (I3 : sym_include (syms st3 sym) = true).
  { destruct G23 as [_ [Gs _]]. apply Gs. unfold st2. exact I1. }
  assert (Hinc3 : forall s, sec_include (secs st3 s) = true ->
                            sec_include (secs st s) = true \/ s = sec).
  { intros s. destruct (proj1 G23) as [_ F]. destruct (F s) as [b E].
    assert (E' : sec_include (secs st3 s) = sec_include (secs st2 s)).
    { unfold st3. destruct (sec_secsym (secs st2 sec)) as [q|]; [|reflexivity].
      destruct (negb (Nat.eqb q sym)); reflexivity. }
    rewrite E'. unfold st2, st1. cbn [upd_sec upd_sym secs].
    destruct (Nat.eqb_spec s sec); auto. }
  assert (C3 : closed_modulo P st3).
  { apply (closed_modulo_grows P st st3 G3); [|exact Hc].
    intros s Hs Hr. destruct (Hinc3 s Hs) as [H| ->]; [now left|].
    rewrite Hnr in Hr. discriminate. }
  clearbody st3. clear st2 G2 G23 Hinc3.
  destruct (sec_rela (secs st3 sec)) as [rela|] eqn:Erela.
  2:{ intros [= <-]. auto. }
  set (st4 := upd_sec st3 rela (set_sec_include true)).
  assert (G34 : grows st3 st4) by apply grows_include_sec.
  assert (G4 : grows st st4) by (eapply grows_trans; eauto).
  set (Q := fun x => P x \/ exists r, In r (sec_relas (secs st4 rela)) /\
                                     rela_sym r = x).
  assert (C4 : closed_modulo Q st4).
  { apply (closed_modulo_grows Q st3 st4 G34).
    - intros s Hs Hr. unfold st4 in Hs. cbn [upd_sec secs] in Hs.
      destruct (Nat.eqb_spec s rela) as [E|_]; [|now left].
      right. intros r Hin. right. right. exists r. split; [|reflexivity].
      destruct (flags_only_sec_fields _ _ rela (proj1 G34)) as (Er & _).
      rewrite Er, <- E. exact Hin.
    - eapply closed_modulo_weaken; [|exact C3]. intros x Hx. now left. }
  intros Hrun.
  destruct (include_relas_closed_modulo fuel IH Q _ st4 st'
              (symbols_placed_flags _ _ (proj1 G4) Hp) C4 Hrun)
    as (C' & Hall & G').
  split; [|split].
  - intros s r Hi Hr Hin. destruct (C' s r Hi Hr Hin) as [H|[H|(r' & Hr' & E)]];
      auto.
    left. rewrite <- E. now apply Hall.
  - destruct G' as [_ [Gs _]]. apply Gs. destruct G34 as [_ [Gs' _]]. now apply Gs'.
  - eapply grows_trans; eauto.
Qed.

Lemma inclusion_closed_modulo st :
  inclusion_closed st <-> closed_modulo (fun _ => False) st.
Proof.
  split; intros H sec r Hi Hr Hin.
  - left. now apply (H sec r).
  - destruct (H sec r Hi Hr Hin) as [E|[]]. exact E.
Qed.

Lemma not_included_le st st' l :
  include_grows st st' -> (not_included st' l <= not_included st l)%nat.
Proof.
  intros [_ G]. unfold not_included. induction l as [|s l IH]; [reflexivity|].
  cbn [filter].
  destruct (sec_include (secs st s)) eqn:E.
  - rewrite (G s E). exact IH.
  - cbn [negb List.length]. destruct (sec_include (secs st' s)); cbn [negb List.length]; lia.
Qed.

Lemma not_included_lt st st' l s :
  include_grows st st' -> In s l ->
  sec_include (secs st s) = false -> sec_include (secs st' s) = true ->
  (not_included st' l < not_included st l)%nat.
Proof.
  intros G Hin Hf Ht. induction l as [|a l IH]; [destruct Hin|].
  unfold not_included in *. cbn [filter].
  destruct Hin as [->|Hin].
  - rewrite Hf, Ht. cbn [negb List.length].
    pose proof (not_included_le st st' l G) as Hle. unfold not_included in Hle. lia.
  - specialize (IH Hin). destruct G as [Gs Gc].
    destruct (sec_include (secs st a)) eqn:E.
    + rewrite (Gc a E). exact IH.
    + cbn [negb List.length].
      destruct (sec_include (secs st' a)); cbn [negb List.length]; lia.
Qed.

Lemma sections_listed_flags st st' l :
  flags_only st st' -> sections_listed st l -> sections_listed st' l.
Proof.
  intros F H p s Hp. destruct (flags_only_sym_fields _ _ p F) as (E & _).
  rewrite E in Hp. eauto.
Qed.

(** With one unit of fuel more than there are sections left to include,
    the recursion of [xsplice_include_symbol] does not run out of fuel. *)
Lemma xsplice_include_symbol_total l fuel : forall st sym,
  sections_listed st l ->
  (not_included st l < fuel)%nat ->
  exists st', xsplice_include_symbol fuel st sym = Ok st' /\ grows st st'.
Proof.
  induction fuel as [|fuel IH]; intros st sym Hl Hlt; [lia|].
  cbn [xsplice_include_symbol].
  set (st1 := upd_sym st sym (set_sym_include true)).
  assert (G1 : grows st st1) by apply grows_include_sym.
  destruct (sym_sec (syms st1 sym)) as [sec|] eqn:Esec; [|eauto].
  destruct (sec_include (secs st1 sec)) eqn:Einc; cbn [orb]; [eauto|].
  destruct (negb (sym_type (syms st1 sym) =? STT_SECTION) &&
            status_eqb (sym_status (syms st1 sym)) SAME); [eauto|].
  set (st2 := upd_sec st1 sec (set_sec_include true)).
  set (st3 := match sec_secsym (secs st2 sec) with
              | Some secsym =>
                  if negb (Nat.eqb secsym sym)
                  then upd_sym st2 secsym (set_sym_include true)
                  else st2
              | None => st2
              end).
  assert (G12 : grows st1 st2) by apply grows_include_sec.
  assert (G23 : grows st2 st3).
  { unfold st3. destruct (sec_secsym (secs st2 sec)) as [q|]; [|apply grows_refl].
    destruct (negb (Nat.eqb q sym)); [apply grows_include_sym | apply grows_refl]. }
  assert (G3 : grows st st3)
    by (eapply grows_trans; [exact G1 | eapply grows_trans; eauto]).
  assert (Hin : In sec l).
  { apply (Hl sym sec).
    destruct (flags_only_sym_fields _ _ sym (proj1 G1)) as (<- & _). exact Esec. }
  assert (Hlt3 : (not_included st3 l < not_included st l)%nat).
  { apply (not_included_lt st st3 l sec (proj2 G3) Hin).
    - exact Einc.
    - destruct G23 as [_ [_ Gc]]. apply Gc. unfold st2. now rewrite secs_upd_sec_eq. }
  clearbody st3. clear st2 G12 G23.
  destruct (sec_rela (secs st3 sec)) as [rela|]; [|eauto].
  set (st4 := upd_sec st3 rela (set_sec_include true)).
  assert (G34 : grows st3 st4) by apply grows_include_sec.
  assert (G4 : grows st st4) by (eapply grows_trans; eauto).
  assert (Hlt4 : (not_included st4 l < fuel)%nat).
  { pose proof (not_included_le st3 st4 l (proj2 G34)). lia. }
  assert (Hl4 : sections_listed st4 l)
    by (eapply sections_listed_flags; [exact (proj1 G4) | exact Hl]).
  clearbody st4.
  assert (Hloop : forall relas st5,
             sections_listed st5 l -> (not_included st5 l < fuel)%nat ->
             exists st',
               foreach relas
                 (fun st r => xsplice_include_symbol fuel st (rela_sym r)) st5
               = Ok st' /\ grows st5 st').
  { induction relas as [|r relas IHr]; intros st5 Hl5 Hlt5; cbn [foreach].
    - exists st5. split; [reflexivity | apply grows_refl].
    - destruct (IH st5 (rela_sym r) Hl5 Hlt5) as (st6 & E6 & G6).
      rewrite E6. cbn [bind].
      destruct (IHr st6) as (st' & E' & G').
      + eapply sections_listed_flags; [exact (proj1 G6) | exact Hl5].
      + pose proof (not_included_le st5 st6 l (proj2 G6)). lia.
      + exists st'. split; [exact E' | eapply grows_trans; eauto]. }
  destruct (Hloop (sec_relas (secs st4 rela)) st4 Hl4 Hlt4) as (st' & E' & G').
  exists st'. split; [exact E' | eapply grows_trans; eauto].
Qed.

Lemma include_symbol_total kelf st sym :
  sections_listed st (sections kelf) ->
  exists st', include_symbol kelf st sym = Ok st' /\ grows st st'.
Proof.
  intros Hl. unfold include_symbol.
  apply (xsplice_include_symbol_total (sections kelf)); [exact Hl | lia].
Qed.

Lemma include_symbol_closed kelf st sym st' :
  symbols_placed st -> inclusion_closed st ->
  include_symbol kelf st sym = Ok st' ->
  inclusion_closed st' /\ sym_include (syms st' sym) = true /\ grows st st'.
Proof.
  intros Hp Hc Hrun. unfold include_symbol in Hrun.
  apply inclusion_closed_modulo in Hc.
  destruct (xsplice_include_symbol_closed_modulo _ _ _ _ _ Hp Hc Hrun)
    as (Hc' & Hi & G).
  split; [now apply inclusion_closed_modulo | auto].
Qed.

Lemma inclusion_closed_include_sym st p :
  inclusion_closed st -> inclusion_closed (upd_sym st p (set_sym_include true)).
Proof.
  intros Hc. apply inclusion_closed_modulo.
  apply (closed_modulo_grows _ st _ (grows_include_sym st p)).
  - intros s Hs _. now left.
  - now apply inclusion_closed_modulo.
Qed.

(** A loop keeps what each of its iterations keeps. *)
Lemma foreach_preserves {A S : Type} (I : S -> Prop) (R : S -> S -> Prop)
  (body : S -> A -> result S) (l : list A) :
  (forall s, R s s) ->
  (forall s1 s2 s3, R s1 s2 -> R s2 s3 -> R s1 s3) ->
  (forall s a s', In a l -> I s -> body s a = Ok s' -> I s' /\ R s s') ->
  forall s s', I s -> foreach l body s = Ok s' -> I s' /\ R s s'.
Proof.
  intros Hrefl Htrans. induction l as [|a l IH]; intros Hbody s s' Hi;
    cbn [foreach].
  - intros [= <-]. auto.
  - destruct (body s a) as [s1|] eqn:E; cbn [bind]; [|discriminate].
    intros Hrun. destruct (Hbody s a s1 (or_introl eq_refl) Hi E) as [Hi1 R1].
    destruct (IH (fun s a s' H => Hbody s a s' (or_intror H)) s1 s' Hi1 Hrun)
      as [Hi' R'].
    split; [exact Hi' | eapply Htrans; eauto].
Qed.

Lemma xsplice_include_changed_functions_closed kelf st st' n :
  symbols_placed st -> inclusion_closed st ->
  xsplice_include_changed_functions kelf st = Ok (st', n) ->
  inclusion_closed st' /\ grows st st'.
Proof.
  intros Hp Hc Hrun. unfold xsplice_include_changed_functions in Hrun.
  apply (foreach_preserves
           (fun s => symbols_placed (fst s) /\ inclusion_closed (fst s))
           (fun s s' => grows (fst s) (fst s'))) in Hrun.
  - destruct Hrun as [[_ H] G]. auto.
  - intros s. apply grows_refl.
  - intros s1 s2 s3. apply grows_trans.
  - intros [s k] sym [s' k'] _ [Hp1 Hc1]. cbn [fst] in *.
    assert (Hfile : forall s1 k1,
               symbols_placed s1 -> inclusion_closed s1 -> grows s s1 ->
               (if sym_type (syms s1 sym) =? STT_FILE
                then Ok (upd_sym s1 sym (set_sym_include true), k1)
                else Ok (s1, k1)) = Ok (s', k') ->
               (symbols_placed s' /\ inclusion_closed s') /\ grows s s').
    { intros s1 k1 Hp2 Hc2 G2.
      destruct (sym_type (syms s1 sym) =? STT_FILE); intros [= <- _]; auto.
      split; [split|].
      - eapply symbols_placed_flags; [|exact Hp2].
        exact (proj1 (grows_include_sym s1 sym)).
      - now apply inclusion_closed_include_sym.
      - eapply grows_trans; [exact G2 | apply grows_include_sym]. }
    destruct (status_eqb (sym_status (syms s sym)) CHANGED &&
              (sym_type (syms s sym) =? STT_FUNC)).
    + destruct (include_symbol kelf s sym) as [s1|] eqn:E; cbn [bind];
        [|discriminate].
      destruct (include_symbol_closed _ _ _ _ Hp1 Hc1 E) as (Hc2 & _ & G2).
      apply Hfile; auto.
      eapply symbols_placed_flags; [exact (proj1 G2) | exact Hp1].
    + cbn [bind]. apply Hfile; auto. apply grows_refl.
  - cbn [fst]. auto.
Qed.

Lemma xsplice_include_new_globals_closed kelf st st' n :
  symbols_placed st -> inclusion_closed st ->
  xsplice_include_new_globals kelf st = Ok (st', n) ->
  inclusion_closed st' /\ grows st st'.
Proof.
  intros Hp Hc Hrun. unfold xsplice_include_new_globals in Hrun.
  apply (foreach_preserves
           (fun s => symbols_placed (fst s) /\ inclusion_closed (fst s))
           (fun s s' => grows (fst s) (fst s'))) in Hrun.
  - destruct Hrun as [[_ H] G]. auto.
  - intros s. apply grows_refl.
  - intros s1 s2 s3. apply grows_trans.
  - intros [s k] sym [s' k'] _ [Hp1 Hc1]. cbn [fst] in *.
    destruct ((sym_bind (syms s sym) =? STB_GLOBAL) &&
              is_some (sym_sec (syms s sym)) &&
              status_eqb (sym_status (syms s sym)) NEW).
    + destruct (include_symbol kelf s sym) as [s1|] eqn:E; cbn [bind];
        [|discriminate].
      destruct (include_symbol_closed _ _ _ _ Hp1 Hc1 E) as (Hc2 & _ & G2).
      intros [= <- _]. split; [split|]; auto.
      eapply symbols_placed_flags; [exact (proj1 G2) | exact Hp1].
    + intros [= <- _]. split; [auto | apply grows_refl].
  - cbn [fst]. auto.
Qed.

Lemma xsplice_include_standard_elements_closed kelf st st' :
  standard_sections_plain st kelf -> inclusion_closed st ->
  xsplice_include_standard_elements kelf st = Ok st' ->
  inclusion_closed st' /\ grows st st'.
Proof.
  intros Hplain Hc. unfold xsplice_include_standard_elements.
  destruct (foreach (sections kelf) _ st) as [st1|] eqn:E; cbn [bind];
    [|discriminate].
  apply (foreach_preserves
           (fun s => inclusion_closed s /\ grows st s) grows) in E.
  - destruct E as [[Hc1 G1] _].
    destruct (hd_error (symbols kelf)) as [first|]; cbn [deref bind];
      [|discriminate].
    intros [= <-]. split; [now apply inclusion_closed_include_sym|].
    eapply grows_trans; [exact G1 | apply grows_include_sym].
  - apply grows_refl.
  - apply grows_trans.
  - intros s sec s' Hin [Hc1 G1].
    destruct (is_standard_section (sec_name (secs s sec))) eqn:Estd.
    2:{ intros [= <-]. split; [auto | apply grows_refl]. }
    set (s1 := upd_sec s sec (set_sec_include true)).
    assert (Gs1 : grows s s1) by apply grows_include_sec.
    assert (Hc2 : inclusion_closed s1).
    { apply inclusion_closed_modulo.
      apply (closed_modulo_grows _ s s1 Gs1);
        [|now apply inclusion_closed_modulo].
      intros x Hx Hr. unfold s1 in Hx. cbn [upd_sec secs] in Hx.
      destruct (Nat.eqb_spec x sec) as [Ex|_]; [|now left]. subst x.
      destruct (flags_only_sec_fields _ _ sec (proj1 G1)) as (_ & Et & _ & _ & En).
      rewrite Et in Hr. rewrite En in Estd.
      rewrite (Hplain sec Hin Estd) in Hr. discriminate. }
    destruct (sec_secsym (secs s1 sec)) as [q|]; intros [= <-].
    + split; [split|].
      * now apply inclusion_closed_include_sym.
      * eapply grows_trans; [exact G1|].
        eapply grows_trans; [exact Gs1 | apply grows_include_sym].
      * eapply grows_trans; [exact Gs1 | apply grows_include_sym].
    + split; [split|]; auto. eapply grows_trans; eauto.
  - split; [exact Hc | apply grows_refl].
Qed.


Example calls_symbols_placed : symbols_placed IncludeExamples.st_calls.
Proof.
  intros p sec.
  do 8 (destruct p as [|p]; [intros [= <-] || intros [=]; reflexivity|]).
  intros [=].
Qed.

Example calls_not_included : inclusion_closed IncludeExamples.st_calls.
Proof.
  intros sec r.
  do 5 (destruct sec as [|sec]; [intros [=]|]). intros [=].
Qed.



(** ** The test after the inclusion *)

Lemma sym_flags_only_refl st : sym_flags_only st st.
Proof. intros p. exists (sym_include (syms st p)). now destruct (syms st p). Qed.

Lemma sym_flags_only_trans st1 st2 st3 :
  sym_flags_only st1 st2 -> sym_flags_only st2 st3 -> sym_flags_only st1 st3.
Proof.
  intros H1 H2 p. destruct (H1 p) as [b1 E1], (H2 p) as [b2 E2].
  exists b2. rewrite E2, E1. reflexivity.
Qed.

Lemma sym_flags_only_upd_sym st p b :
  sym_flags_only st (upd_sym st p (set_sym_include b)).
Proof.
  intros q. cbn [upd_sym syms]. destruct (Nat.eqb q p) eqn:E.
  - apply Nat.eqb_eq in E. subst q. now exists b.
  - apply sym_flags_only_refl.
Qed.

Lemma sym_flags_only_upd_sec st s f : sym_flags_only st (upd_sec st s f).
Proof. intros q. cbn [upd_sec syms]. apply sym_flags_only_refl. Qed.

Lemma sym_flags_only_counted st st' p :
  sym_flags_only st st' ->
  is_changed_function (syms st' p) = is_changed_function (syms st p) /\
  is_new_global (syms st' p) = is_new_global (syms st p) /\
  sym_sec (syms st' p) = sym_sec (syms st p).
Proof. intros H. destruct (H p) as [b ->]. repeat split. Qed.

Lemma sections_listed_sym_flags st st' l :
  sym_flags_only st st' -> sections_listed st l -> sections_listed st' l.
Proof.
  intros H Hl p s. destruct (sym_flags_only_counted _ _ p H) as (_ & _ & ->).
  apply Hl.
Qed.

Lemma include_symbol_sym_flags kelf st sym :
  sections_listed st (sections kelf) ->
  in_fuel (include_symbol kelf st sym) /\
  forall st', include_symbol kelf st sym = Ok st' -> sym_flags_only st st'.
Proof.
  intros Hl. destruct (include_symbol_total kelf st sym Hl) as (st1 & E & G).
  rewrite E. split; [discriminate|]. intros st' [= <-]. exact (proj1 (proj1 G)).
Qed.

Lemma in_fuel_bind {A B} (m : result A) (k : A -> result B) :
  in_fuel m -> (forall a, m = Ok a -> in_fuel (k a)) -> in_fuel (bind m k).
Proof.
  intros Hm Hk. destruct m as [a|e]; cbn [bind]; [now apply Hk|].
  intros [= ->]. now apply Hm.
Qed.

Lemma in_fuel_deref {A} (p : option A) : in_fuel (deref p).
Proof. destruct p; discriminate. Qed.

Lemma in_fuel_Ok {A} (a : A) : in_fuel (Ok a).
Proof. discriminate. Qed.

Lemma foreach_in_fuel {A S : Type} (I : S -> Prop)
  (body : S -> A -> result S) (l : list A) :
  (forall s a, In a l -> I s ->
     in_fuel (body s a) /\ forall s', body s a = Ok s' -> I s') ->
  forall s, I s ->
    in_fuel (foreach l body s) /\ forall s', foreach l body s = Ok s' -> I s'.
Proof.
  induction l as [|a l IH]; intros Hbody s Hi; cbn [foreach].
  - split; [discriminate|]. now intros s' [= <-].
  - destruct (Hbody s a (or_introl eq_refl) Hi) as [Hf Hs].
    destruct (body s a) as [s1|e] eqn:E; cbn [bind].
    + apply IH; [|now apply Hs].
      intros s2 b Hb. apply Hbody. now right.
    + split; [exact Hf | discriminate].
Qed.

Lemma counted_cons f st a l :
  counted f st (a :: l) = (if f (syms st a) then 1 else 0) + counted f st l.
Proof.
  unfold counted. cbn [filter]. destruct (f (syms st a)); cbn [List.length]; lia.
Qed.

Lemma counted_zero f st l :
  counted f st l = 0 <-> forall p, In p l -> f (syms st p) = false.
Proof.
  induction l as [|a l IH].
  - split; [intros _ p [] | reflexivity].
  - rewrite counted_cons. 
    assert (0 <= counted f st l) by (unfold counted; lia).
    split.
    + intros E p [<-|Hp].
      * destruct (f (syms st a)); [lia | reflexivity].
      * apply IH; [|exact Hp]. destruct (f (syms st a)); lia.
    + intros Hall. rewrite (Hall a (or_introl eq_refl)).
      apply IH. intros p Hp. apply Hall. now right.
Qed.

Lemma xsplice_include_standard_elements_sym_flags kelf st :
  in_fuel (xsplice_include_standard_elements kelf st) /\
  forall st', xsplice_include_standard_elements kelf st = Ok st' ->
              sym_flags_only st st'.
Proof.
  unfold xsplice_include_standard_elements.
  match goal with |- context [foreach ?l ?b st] =>
    destruct (foreach_in_fuel (sym_flags_only st) b l) with (s := st)
      as [Hf Hs] end.
  - intros s sec _ Hi.
    destruct (is_standard_section (sec_name (secs s sec)));
      [|split; [apply in_fuel_Ok | now intros s' [= <-]]].
    destruct (sec_secsym (secs (upd_sec s sec (set_sec_include true)) sec));
      (split; [apply in_fuel_Ok | intros s' [= <-]]).
    + eapply sym_flags_only_trans; [exact Hi|].
      eapply sym_flags_only_trans;
        [apply sym_flags_only_upd_sec | apply sym_flags_only_upd_sym].
    + eapply sym_flags_only_trans; [exact Hi | apply sym_flags_only_upd_sec].
  - apply sym_flags_only_refl.
  - split.
    + apply in_fuel_bind; [exact Hf|]. intros s _.
      apply in_fuel_bind; [apply in_fuel_deref|]. intros; apply in_fuel_Ok.
    + intros st'. destruct (foreach _ _ st) as [s|]; cbn [bind]; [|discriminate].
      destruct (hd_error (symbols kelf)); cbn [deref bind]; [|discriminate].
      intros [= <-]. eapply sym_flags_only_trans;
        [now apply Hs | apply sym_flags_only_upd_sym].
Qed.

Lemma changed_functions_loop kelf st0 :
  sections_listed st0 (sections kelf) ->
  forall l st n, sym_flags_only st0 st ->
    in_fuel (foreach l
      (fun '(st, changed_nr) sym =>
       r <- (if status_eqb (sym_status (syms st sym)) CHANGED &&
                (sym_type (syms st sym) =? STT_FUNC)
             then st' <- include_symbol kelf st sym ;; Ok (st', changed_nr + 1)
             else Ok (st, changed_nr)) ;;
       let '(st, changed_nr) := r in
       if sym_type (syms st sym) =? STT_FILE
       then Ok (upd_sym st sym (set_sym_include true), changed_nr)
       else Ok (st, changed_nr)) (st, n)) /\
    forall st' n',
      foreach l
      (fun '(st, changed_nr) sym =>
       r <- (if status_eqb (sym_status (syms st sym)) CHANGED &&
                (sym_type (syms st sym) =? STT_FUNC)
             then st' <- include_symbol kelf st sym ;; Ok (st', changed_nr + 1)
             else Ok (st, changed_nr)) ;;
       let '(st, changed_nr) := r in
       if sym_type (syms st sym) =? STT_FILE
       then Ok (upd_sym st sym (set_sym_include true), changed_nr)
       else Ok (st, changed_nr)) (st, n) = Ok (st', n') ->
      sym_flags_only st0 st' /\
      n' = n + counted is_changed_function st0 l.
Proof.
  intros Hl. induction l as [|a l IH]; intros st n Hi; cbn [foreach].
  - split; [discriminate|]. intros st' n' [= <- <-].
    split; [exact Hi | unfold counted; cbn; lia].
  - rewrite counted_cons.
    destruct (sym_flags_only_counted _ _ a Hi) as (Ec & _ & _).
    change (status_eqb (sym_status (syms st a)) CHANGED &&
            (sym_type (syms st a) =? STT_FUNC))
      with (is_changed_function (syms st a)).
    rewrite Ec. destruct (is_changed_function (syms st0 a)).
    + destruct (include_symbol_sym_flags kelf st a
                  (sections_listed_sym_flags _ _ _ Hi Hl)) as [Hf Hs].
      destruct (include_symbol kelf st a) as [s1|e]; cbn [bind].
      2:{ split; [intros [= ->]; now apply Hf | discriminate]. }
      specialize (Hs s1 eq_refl).
      assert (Hi1 : sym_flags_only st0 s1)
        by (eapply sym_flags_only_trans; eauto).
      destruct (sym_type (syms s1 a) =? STT_FILE); cbn [bind].
      * destruct (IH (upd_sym s1 a (set_sym_include true)) (n + 1)) as [F R].
        { eapply sym_flags_only_trans; [exact Hi1 | apply sym_flags_only_upd_sym]. }
        split; [exact F|]. intros st' n' E. destruct (R st' n' E) as [? ->].
        split; [assumption | lia].
      * destruct (IH s1 (n + 1) Hi1) as [F R].
        split; [exact F|]. intros st' n' E. destruct (R st' n' E) as [? ->].
        split; [assumption | lia].
    + cbn [bind]. destruct (sym_type (syms st a) =? STT_FILE); cbn [bind].
      * destruct (IH (upd_sym st a (set_sym_include true)) n) as [F R].
        { eapply sym_flags_only_trans; [exact Hi | apply sym_flags_only_upd_sym]. }
        split; [exact F|]. intros st' n' E. destruct (R st' n' E) as [? ->].
        split; [assumption | lia].
      * destruct (IH st n Hi) as [F R].
        split; [exact F|]. intros st' n' E. destruct (R st' n' E) as [? ->].
        split; [assumption | lia].
Qed.

Lemma new_globals_loop kelf st0 :
  sections_listed st0 (sections kelf) ->
  forall l st n, sym_flags_only st0 st ->
    in_fuel (foreach l
      (fun '(st, nr) sym =>
       if (sym_bind (syms st sym) =? STB_GLOBAL) &&
          is_some (sym_sec (syms st sym)) &&
          status_eqb (sym_status (syms st sym)) NEW
       then st' <- include_symbol kelf st sym ;; Ok (st', nr + 1)
       else Ok (st, nr)) (st, n)) /\
    forall st' n',
      foreach l
      (fun '(st, nr) sym =>
       if (sym_bind (syms st sym) =? STB_GLOBAL) &&
          is_some (sym_sec (syms st sym)) &&
          status_eqb (sym_status (syms st sym)) NEW
       then st' <- include_symbol kelf st sym ;; Ok (st', nr + 1)
       else Ok (st, nr)) (st, n) = Ok (st', n') ->
      sym_flags_only st0 st' /\
      n' = n + counted is_new_global st0 l.
Proof.
  intros Hl. induction l as [|a l IH]; intros st n Hi; cbn [foreach].
  - split; [discriminate|]. intros st' n' [= <- <-].
    split; [exact Hi | unfold counted; cbn; lia].
  - rewrite counted_cons.
    destruct (sym_flags_only_counted _ _ a Hi) as (_ & Ec & _).
    change ((sym_bind (syms st a) =? STB_GLOBAL) &&
            is_some (sym_sec (syms st a)) &&
            status_eqb (sym_status (syms st a)) NEW)
      with (is_new_global (syms st a)).
    rewrite Ec. destruct (is_new_global (syms st0 a)).
    + destruct (include_symbol_sym_flags kelf st a
                  (sections_listed_sym_flags _ _ _ Hi Hl)) as [Hf Hs].
      destruct (include_symbol kelf st a) as [s1|e]; cbn [bind].
      2:{ split; [intros [= ->]; now apply Hf | discriminate]. }
      specialize (Hs s1 eq_refl).
      destruct (IH s1 (n + 1)) as [F R];
        [eapply sym_flags_only_trans; eauto|].
      split; [exact F|]. intros st' n' E. destruct (R st' n' E) as [? ->].
      split; [assumption | lia].
    + cbn [bind]. destruct (IH st n Hi) as [F R].
      split; [exact F|]. intros st' n' E. destruct (R st' n' E) as [? ->].
      split; [assumption | lia].
Qed.

Lemma strip_debug_relas_in_fuel st relas : in_fuel (strip_debug_relas st relas).
Proof.
  induction relas as [|r rest IH]; cbn [strip_debug_relas]; [apply in_fuel_Ok|].
  apply in_fuel_bind; [apply in_fuel_deref|]. intros sec _.
  apply in_fuel_bind; [exact IH|]. intros rest' _.
  destruct (negb _); apply in_fuel_Ok.
Qed.

Lemma xsplice_include_debug_sections_sym_flags kelf st :
  in_fuel (xsplice_include_debug_sections kelf st) /\
  forall st', xsplice_include_debug_sections kelf st = Ok st' ->
              sym_flags_only st st'.
Proof.
  unfold xsplice_include_debug_sections.
  match goal with |- context [bind (foreach ?l ?b st) _] =>
    destruct (foreach_in_fuel (sym_flags_only st) b l) with (s := st)
      as [Hf Hs] end.
  - intros s sec _ Hi.
    destruct (is_debug_section (secs s sec));
      [|split; [apply in_fuel_Ok | now intros s' [= <-]]].
    destruct (negb (is_rela_section
                      (secs (upd_sec s sec (set_sec_include true)) sec))).
    + split.
      * apply in_fuel_bind; [apply in_fuel_deref | intros; apply in_fuel_Ok].
      * intros s'. destruct (sec_secsym _); cbn [deref bind]; [|discriminate].
        intros [= <-]. eapply sym_flags_only_trans; [exact Hi|].
        eapply sym_flags_only_trans;
          [apply sym_flags_only_upd_sec | apply sym_flags_only_upd_sym].
    + split; [apply in_fuel_Ok | intros s' [= <-]].
      eapply sym_flags_only_trans; [exact Hi | apply sym_flags_only_upd_sec].
  - apply sym_flags_only_refl.
  - destruct (foreach _ _ st) as [s1|e]; cbn [bind];
      [|split; [exact Hf | discriminate]].
    specialize (Hs s1 eq_refl).
    apply (foreach_in_fuel (sym_flags_only st)); [|exact Hs].
    intros s sec _ Hi.
    destruct (negb (is_rela_section (secs s sec)) ||
              negb (is_debug_section (secs s sec)));
      [split; [apply in_fuel_Ok | now intros s' [= <-]]|].
    split.
    + apply in_fuel_bind; [apply strip_debug_relas_in_fuel|].
      intros; apply in_fuel_Ok.
    + intros s'. destruct (strip_debug_relas _ _); cbn [bind]; [|discriminate].
      intros [= <-].
      eapply sym_flags_only_trans; [exact Hi | apply sym_flags_only_upd_sec].
Qed.

Lemma xsplice_include_hook_elements_sym_flags kelf st :
  sections_listed st (sections kelf) ->
  in_fuel (xsplice_include_hook_elements kelf st) /\
  forall st', xsplice_include_hook_elements kelf st = Ok st' ->
              sym_flags_only st st'.
Proof.
  intros Hl. unfold xsplice_include_hook_elements.
  match goal with |- context [bind (foreach ?l ?b st) _] =>
    destruct (foreach_in_fuel (sym_flags_only st) b l) with (s := st)
      as [Hf Hs] end.
  - intros s sec _ Hi.
    destruct (is_hook_section (sec_name (secs s sec)));
      [|split; [apply in_fuel_Ok | now intros s' [= <-]]].
    set (s1 := upd_sec s sec (set_sec_include true)).
    assert (Hi1 : sym_flags_only st s1)
      by (eapply sym_flags_only_trans; [exact Hi | apply sym_flags_only_upd_sec]).
    destruct (is_rela_section (secs s1 sec)).
    + destruct (hd_error (sec_relas (secs s1 sec))) as [rela|]; cbn [deref bind];
        [|split; discriminate].
      destruct (include_symbol_sym_flags kelf s1 (rela_sym rela)
                  (sections_listed_sym_flags _ _ _ Hi1 Hl)) as [Hf Hs].
      destruct (include_symbol kelf s1 (rela_sym rela)) as [s2|e]; cbn [bind];
        [|split; [exact Hf | discriminate]].
      specialize (Hs s2 eq_refl).
      set (s3 := upd_sym s2 (rela_sym rela) (set_sym_include false)).
      assert (Hi3 : sym_flags_only st s3).
      { eapply sym_flags_only_trans; [exact Hi1|].
        eapply sym_flags_only_trans; [exact Hs | apply sym_flags_only_upd_sym]. }
      destruct (sym_sec (syms s3 (rela_sym rela))) as [symsec|];
        cbn [deref bind]; [|split; discriminate].
      destruct (sec_secsym _) as [secsym|]; cbn [deref bind];
        [|split; discriminate].
      split; [apply in_fuel_Ok | intros s' [= <-]].
      eapply sym_flags_only_trans; [exact Hi3|].
      eapply sym_flags_only_trans; apply sym_flags_only_upd_sec.
    + destruct (sec_secsym (secs s1 sec)) as [secsym|]; cbn [deref bind];
        [|split; discriminate].
      split; [apply in_fuel_Ok | intros s' [= <-]].
      eapply sym_flags_only_trans; [exact Hi1 | apply sym_flags_only_upd_sym].
  - apply sym_flags_only_refl.
  - destruct (foreach _ _ st) as [s1|e]; cbn [bind];
      [|split; [exact Hf | discriminate]].
    specialize (Hs s1 eq_refl).
    apply (foreach_in_fuel (sym_flags_only st)); [|exact Hs].
    intros s sym _ Hi.
    destruct (_ || _); (split; [apply in_fuel_Ok | intros s' [= <-]]);
      [|exact Hi].
    eapply sym_flags_only_trans; [exact Hi | apply sym_flags_only_upd_sym].
Qed.



Example unchanged_sections_listed :
  sections_listed UnchangedExample.st_unchanged
    (sections UnchangedExample.kelf_unchanged).
Proof.
  intros p s.
  do 5 (destruct p as [|p]; [intros [= <-]; vm_compute; auto 10|]).
  destruct p; intros [=].
Qed.

Example unchanged_nothing_to_patch :
  nothing_to_patch UnchangedExample.st_unchanged UnchangedExample.kelf_unchanged.
Proof.
  intros p Hp. cbn in Hp.
  repeat (destruct Hp as [<-|Hp]; [split; reflexivity|]). destruct Hp.
Qed.



(** ** Special-section regeneration *)

Lemma should_keep_loop st l start size : forall found b,
  foreach l
    (fun found rela =>
       if in_group start size rela &&
          (sym_type (syms st (rela_sym rela)) =? STT_FUNC)
       then
         symsec <- deref (sym_sec (syms st (rela_sym rela))) ;;
         if sec_include (secs st symsec) then Ok true else Ok found
       else Ok found) found = Ok b ->
  b = found || existsb (keeps st start size) l.
Proof.
  induction l as [|r l IH]; intros found b; cbn [foreach existsb].
  - intros [= <-]. now rewrite orb_false_r.
  - unfold keeps at 1.
    destruct (in_group start size r &&
              (sym_type (syms st (rela_sym r)) =? STT_FUNC)); cbn [bind andb].
    + destruct (sym_sec (syms st (rela_sym r))) as [s|]; cbn [deref bind];
        [|discriminate].
      destruct (sec_include (secs st s)); intros H; apply IH in H; subst b.
      * now rewrite orb_true_r.
      * reflexivity.
    + intros H. now apply IH in H.
Qed.

Lemma should_keep_rela_group_keeps st sec start size b :
  should_keep_rela_group st sec start size = Ok b ->
  b = existsb (keeps st start size) (sec_relas (secs st sec)).
Proof. intros H. now apply should_keep_loop in H. Qed.

Lemma should_keep_rela_group_in_fuel st sec start size :
  in_fuel (should_keep_rela_group st sec start size).
Proof.
  unfold should_keep_rela_group.
  apply (foreach_in_fuel (fun _ => True)); [|exact I].
  intros found r _ _. split; [|trivial].
  destruct (_ && _); [|apply in_fuel_Ok].
  apply in_fuel_bind; [apply in_fuel_deref|]. intros s _.
  destruct (sec_include _); apply in_fuel_Ok.
Qed.

Lemma existsb_filter {A} (f g : A -> bool) (l : list A) :
  (forall a, f a = true -> g a = true) ->
  existsb f (filter g l) = existsb f l.
Proof.
  intros H. induction l as [|a l IH]; [reflexivity|]. cbn [filter existsb].
  destruct (g a) eqn:Eg; cbn [existsb]; rewrite IH; [reflexivity|].
  destruct (f a) eqn:Ef; [|reflexivity]. apply H in Ef. congruence.
Qed.

Lemma existsb_eq {A} (f g : A -> bool) (l : list A) :
  (forall a, f a = g a) -> existsb f l = existsb g l.
Proof.
  intros H. induction l as [|a l IH]; [reflexivity|]. cbn [existsb].
  now rewrite H, IH.
Qed.

Lemma filter_filter_imp {A} (f g : A -> bool) (l : list A) :
  (forall a, f a = true -> g a = true) ->
  filter f (filter g l) = filter f l.
Proof.
  intros H. induction l as [|a l IH]; [reflexivity|]. cbn [filter].
  destruct (g a) eqn:Eg; cbn [filter]; rewrite IH; [reflexivity|].
  destruct (f a) eqn:Ef; [|reflexivity]. apply H in Ef. congruence.
Qed.

Lemma filter_filter_comm {A} (f g : A -> bool) (l : list A) :
  filter f (filter g l) = filter g (filter f l).
Proof.
  induction l as [|a l IH]; [reflexivity|]. cbn [filter].
  destruct (g a) eqn:Eg, (f a) eqn:Ef; cbn [filter];
    rewrite ?Eg, ?Ef, IH; reflexivity.
Qed.

Lemma move_group_relas_spec relas s z d : forall st newrelas st' stay new',
  move_group_relas st relas s z d newrelas = (st', stay, new') ->
  stay = filter (fun r => negb (in_group s z r)) relas /\
  new' = (newrelas ++
          map (fun r => set_rela_offset (rela_offset r + (d - s)) r)
              (filter (in_group s z) relas))%list /\
  secs st' = secs st /\
  forall p, syms st' p =
            if existsb (fun r => in_group s z r && Nat.eqb (rela_sym r) p) relas
            then set_sym_include true (syms st p) else syms st p.
Proof.
  induction relas as [|r rest IH]; intros st newrelas st' stay new';
    cbn [move_group_relas filter existsb map].
  - intros [= <- <- <-]. rewrite app_nil_r. auto.
  - destruct (in_group s z r) eqn:Eg; cbn [negb andb map].
    + intros H. apply IH in H. destruct H as (-> & -> & Hs & Hp).
      split; [reflexivity|]. split.
      { rewrite <- app_assoc. cbn [app].
        replace (rela_offset r - (s - d)) with (rela_offset r + (d - s)) by lia.
        reflexivity. }
      split; [exact Hs|].
      intros p. rewrite Hp. cbn [upd_sym syms].
      destruct (Nat.eqb (rela_sym r) p) eqn:E.
      * apply Nat.eqb_eq in E. subst p. rewrite Nat.eqb_refl. cbn [orb].
        destruct (existsb _ rest); [|reflexivity].
        now destruct (syms st (rela_sym r)).
      * rewrite Nat.eqb_sym, E. reflexivity.
    + destruct (move_group_relas st rest s z d newrelas) as [[st1 stay1] new1]
        eqn:E1.
      intros [= <- <- <-]. apply IH in E1. destruct E1 as (-> & -> & Hs & Hp).
      auto.
Qed.

Lemma memcpy_group_spec src cap s d z bytes :
  memcpy_group src cap s d z = Ok bytes ->
  bytes = group_bytes src (s, z) /\ Z.of_nat (List.length bytes) = z.
Proof.
  unfold memcpy_group, group_bytes.
  destruct (_ && _) eqn:E; [|discriminate]. intros [= <-].
  split; [reflexivity|].
  rewrite !andb_true_iff, !Z.leb_le in E.
  destruct E as ((((H1 & H2) & H3) & H4) & H5).
  rewrite length_firstn, length_skipn.
  assert (Hle : (Z.to_nat z <= List.length src - Z.to_nat s)%nat) by lia.
  rewrite (Nat.min_l _ _ Hle). lia.
Qed.

Lemma sizes_cons g l : sizes (g :: l) = snd g + sizes l.
Proof. reflexivity. Qed.

Lemma keeps_in_group st s z r : keeps st s z r = true -> in_group s z r = true.
Proof.
  unfold keeps. intros H. apply andb_prop in H. destruct H as [H _].
  apply andb_prop in H. tauto.
Qed.

Lemma in_group_from s z r :
  in_group s z r = true -> (s <=? rela_offset r) = true.
Proof. unfold in_group. intros H. apply andb_prop in H. tauto. Qed.

Section Regenerate.

Variable group_size : store -> Z -> result Z.
Variables sec base : nat.
Variable src : list byte.
Variable st0 : store.

Let relas0 := sec_relas (secs st0 sec).

Hypothesis Hne : sec <> base.
Hypothesis Hsized : forall off, group_sized (group_size st0 off).
Hypothesis Hstable : forall st off,
  regen_frame sec st0 st -> group_size st off = group_size st0 off.

Lemma group_size_positive off z : group_size st0 off = Ok z -> 0 < z < 2 ^ 31.
Proof. intros E. generalize (Hsized off). now rewrite E. Qed.

Lemma regen_frame_keeps st s z r :
  regen_frame sec st0 st -> keeps st s z r = keeps st0 s z r.
Proof.
  intros (Hsym & Hsec & l & Hl). unfold keeps.
  destruct (Hsym (rela_sym r)) as [b ->]. cbn [sym_type sym_sec set_sym_include].
  destruct (sym_sec (syms st0 (rela_sym r))) as [q|]; [|reflexivity].
  destruct (Nat.eq_dec q sec) as [->|Hq].
  - rewrite Hl. reflexivity.
  - now rewrite (Hsec q Hq).
Qed.

Lemma regen_frame_base st :
  regen_frame sec st0 st -> sh_size (secs st base) = sh_size (secs st0 base).
Proof. intros (_ & Hsec & _). rewrite Hsec; auto. Qed.

Lemma regen_frame_move st st1 stay (f : nat -> bool) :
  regen_frame sec st0 st ->
  secs st1 = secs st ->
  (forall p, syms st1 p =
             if f p then set_sym_include true (syms st p) else syms st p) ->
  regen_frame sec st0 (upd_sec st1 sec (set_sec_relas stay)).
Proof.
  intros (Hsym & Hsec & l & Hl) Hs1 Hp1. split; [|split].
  - intros p. cbn [upd_sec syms]. rewrite Hp1.
    destruct (Hsym p) as [b ->].
    destruct (f p); [now exists true | now exists b].
  - intros q Hq. cbn [upd_sec secs].
    destruct (Nat.eqb_spec q sec) as [->|_]; [contradiction|].
    rewrite Hs1. now apply Hsec.
  - cbn [upd_sec secs]. rewrite Nat.eqb_refl, Hs1, Hl.
    eexists. reflexivity.
Qed.

Lemma regen_frame_refl : regen_frame sec st0 st0.
Proof.
  split; [apply sym_flags_only_refl|]. split; [reflexivity|].
  exists (sec_relas (secs st0 sec)). now destruct (secs st0 sec).
Qed.

Lemma regenerate_groups_spec (fuel : nat) :
  forall st newrelas dest s d st' newrelas' dest' s' d',
    regen_frame sec st0 st ->
    filter (fun r => s <=? rela_offset r) (sec_relas (secs st sec))
      = filter (fun r => s <=? rela_offset r) relas0 ->
    regenerate_groups fuel group_size sec base src st newrelas dest s d
      = Ok (st', newrelas', dest', s', d') ->
    exists groups,
      walked (group_size st0) (sh_size (secs st0 base)) s groups /\
      s' = s + sizes groups /\
      d' = d + sizes (filter (group_kept st0 relas0) groups) /\
      dest' = (dest ++ List.concat (map (group_bytes src)
                                (filter (group_kept st0 relas0) groups)))%list /\
      Z.of_nat (List.length dest')
        = Z.of_nat (List.length dest)
          + sizes (filter (group_kept st0 relas0) groups) /\
      newrelas' = (newrelas ++
                   rebased relas0 (filter (group_kept st0 relas0) groups) d)%list /\
      regen_frame sec st0 st' /\
      (forall p, syms st' p =
                 if targeted relas0 (filter (group_kept st0 relas0) groups) p
                 then set_sym_include true (syms st p) else syms st p) /\
      (filter (group_kept st0 relas0) groups = [] -> st' = st).
Proof.
  induction fuel as [|fuel IH];
    intros st newrelas dest s d st' newrelas' dest' s' d' Hf Hcur;
    cbn [regenerate_groups]; [discriminate|].
  rewrite (regen_frame_base st Hf).
  destruct (to_u64 s <? sh_size (secs st0 base)) eqn:Elt; cbn [negb].
  2:{ intros [= <- <- <- <- <-]. exists []. cbn.
      apply Z.ltb_ge in Elt. rewrite !app_nil_r.
      split; [lia|]. split; [lia|]. split; [lia|]. split; [reflexivity|].
      split; [lia|]. split; [reflexivity|]. split; [exact Hf|]. split; auto. }
  apply Z.ltb_lt in Elt. rewrite (Hstable st s Hf).
  destruct (group_size st0 s) as [z|] eqn:Ez; cbn [bind]; [|discriminate].
  pose proof (proj1 (group_size_positive s z Ez)) as Hz.
  destruct (should_keep_rela_group st sec s z) as [inc|] eqn:Ek; cbn [bind];
    [|discriminate].
  apply should_keep_rela_group_keeps in Ek.
  assert (Hgrp : filter (in_group s z) (sec_relas (secs st sec))
                 = filter (in_group s z) relas0).
  { rewrite <- (filter_filter_imp (in_group s z)
                  (fun r => s <=? rela_offset r) (sec_relas (secs st sec)))
      by apply in_group_from.
    rewrite Hcur. apply filter_filter_imp, in_group_from. }
  assert (Hinc : inc = group_kept st0 relas0 (s, z)).
  { subst inc. unfold group_kept. cbn [fst snd].
    rewrite <- (existsb_filter (keeps st s z) (in_group s z))
      by apply keeps_in_group.
    rewrite Hgrp.
    rewrite (existsb_filter (keeps st s z) (in_group s z))
      by apply keeps_in_group.
    apply existsb_eq. intros r. now apply regen_frame_keeps. }
  clear Ek.
  assert (Hnext : forall cur,
            filter (fun r => s <=? rela_offset r) cur
              = filter (fun r => s <=? rela_offset r) relas0 ->
            filter (fun r => s + z <=? rela_offset r) cur
              = filter (fun r => s + z <=? rela_offset r) relas0).
  { intros cur Hc.
    rewrite <- (filter_filter_imp (fun r => s + z <=? rela_offset r)
                  (fun r => s <=? rela_offset r) cur)
      by (intros a Ha; apply Z.leb_le in Ha; apply Z.leb_le; lia).
    rewrite Hc. apply filter_filter_imp.
    intros a Ha; apply Z.leb_le in Ha; apply Z.leb_le; lia. }
  destruct inc; cbn [negb].
  - (* the group is kept *)
    destruct (move_group_relas st (sec_relas (secs st sec)) s z d newrelas)
      as [[st1 stay] new1] eqn:Em.
    apply move_group_relas_spec in Em. destruct Em as (-> & -> & Hs1 & Hp1).
    set (st2 := upd_sec st1 sec (set_sec_relas _)).
    assert (Hf2 : regen_frame sec st0 st2)
      by (apply (regen_frame_move st st1 _ _ Hf Hs1 Hp1)).
    rewrite (regen_frame_base st2 Hf2).
    destruct (memcpy_group src (sh_size (secs st0 base)) s d z) as [bytes|]
      eqn:Ec; cbn [bind]; [|discriminate].
    apply memcpy_group_spec in Ec. destruct Ec as [Eb Elen].
    intros Hrun. apply IH in Hrun; [|exact Hf2|].
    2:{ unfold st2. cbn [upd_sec secs]. rewrite Nat.eqb_refl.
        cbn [set_sec_relas sec_relas].
        rewrite filter_filter_imp with (g := fun r => negb (in_group s z r)).
        - now apply Hnext.
        - intros a Ha. apply Z.leb_le in Ha. unfold in_group.
          apply negb_true_iff, andb_false_iff. right. apply Z.ltb_ge. lia. }
    destruct Hrun as (groups & Hw & -> & -> & -> & Hlen & -> & Hf' & Hp' & _).
    exists ((s, z) :: groups). cbn [walked fst snd filter].
    rewrite <- Hinc, !sizes_cons.
    cbn [map List.concat rebased targeted existsb fst snd].
    split; [repeat split; assumption|]. split; [lia|]. split; [lia|].
    split; [rewrite <- app_assoc, Eb; reflexivity|].
    split; [rewrite Hlen, length_app; lia|].
    split; [rewrite <- app_assoc, Hgrp; reflexivity|].
    split; [exact Hf'|]. split; [|discriminate].
    intros p. rewrite Hp'. unfold st2. cbn [upd_sec syms]. rewrite Hp1.
    rewrite <- (existsb_filter _ (in_group s z) (sec_relas (secs st sec)))
      by (intros a Ha; apply andb_prop in Ha; tauto).
    rewrite Hgrp.
    rewrite (existsb_filter _ (in_group s z) relas0)
      by (intros a Ha; apply andb_prop in Ha; tauto).
    unfold targeted.
    destruct (existsb (fun r => in_group s z r && _) relas0); cbn [orb];
      destruct (existsb _ (filter _ groups)); reflexivity.
  - (* the group is skipped *)
    intros Hrun. apply IH in Hrun; [|exact Hf | now apply Hnext].
    destruct Hrun as (groups & Hw & -> & -> & -> & Hlen & -> & Hf' & Hp' & Hsame).
    exists ((s, z) :: groups). cbn [walked fst snd filter].
    rewrite <- Hinc, sizes_cons. cbn [snd].
    split; [repeat split; assumption|]. split; [lia|].
    repeat (split; [assumption || reflexivity|]). exact Hsame.
Qed.

Hypothesis Hsize : sh_size (secs st0 base) <= 2 ^ 63.

Lemma regenerate_groups_in_fuel (fuel : nat) :
  forall st newrelas dest s d,
    regen_frame sec st0 st ->
    0 <= s < 2 ^ 64 ->
    (Z.to_nat (sh_size (secs st0 base) - s) < fuel)%nat ->
    in_fuel (regenerate_groups fuel group_size sec base src st newrelas dest s d).
Proof.
  induction fuel as [|fuel IH]; intros st newrelas dest s d Hf Hs Hfuel;
    [lia|].
  cbn [regenerate_groups]. rewrite (regen_frame_base st Hf).
  destruct (to_u64 s <? sh_size (secs st0 base)) eqn:Elt; cbn [negb];
    [|apply in_fuel_Ok].
  apply Z.ltb_lt in Elt. unfold to_u64 in Elt.
  rewrite Z.mod_small in Elt by lia.
  rewrite (Hstable st s Hf).
  destruct (group_size st0 s) as [z|e] eqn:Ez; cbn [bind].
  2:{ intros [= ->]. generalize (Hsized s). rewrite Ez. cbn. congruence. }
  pose proof (group_size_positive s z Ez) as Hz.
  apply in_fuel_bind; [apply should_keep_rela_group_in_fuel|].
  intros inc _. destruct inc; cbn [negb].
  - destruct (move_group_relas st (sec_relas (secs st sec)) s z d newrelas)
      as [[st1 stay] new1] eqn:Em.
    apply move_group_relas_spec in Em. destruct Em as (-> & -> & Hs1 & Hp1).
    match goal with |- context [upd_sec st1 sec ?f] =>
      assert (Hf2 : regen_frame sec st0 (upd_sec st1 sec f))
        by (apply (regen_frame_move st st1 _ _ Hf Hs1 Hp1)) end.
    rewrite (regen_frame_base _ Hf2).
    apply in_fuel_bind.
    + unfold memcpy_group. destruct (_ && _); discriminate.
    + intros bytes _. apply IH; [exact Hf2 | lia | lia].
  - apply IH; [exact Hf | lia | lia].
Qed.

End Regenerate.

Lemma walked_sized gs size : forall groups s,
  (forall off, group_sized (gs off)) ->
  walked gs size s groups -> forall g, In g groups -> 0 < snd g.
Proof.
  induction groups as [|g groups IH]; intros s Hsz Hw g' [].
  - subst g'. destruct Hw as (_ & _ & E & _).
    generalize (Hsz s). rewrite E. cbn. lia.
  - destruct Hw as (_ & _ & _ & Hw). eapply IH; eauto.
Qed.

Lemma sizes_positive groups :
  (forall g, In g groups -> 0 < snd g) ->
  groups <> [] -> 0 < sizes groups.
Proof.
  induction groups as [|g groups IH]; intros Hall Hne; [contradiction|].
  rewrite sizes_cons. pose proof (Hall g (or_introl eq_refl)).
  destruct groups as [|g' groups]; [cbn; lia|].
  assert (0 < sizes (g' :: groups)); [|lia].
  apply IH; [|discriminate]. intros x Hx. apply Hall. now right.
Qed.

Lemma group_kept_iff st relas g :
  group_kept st relas g = true <->
  exists r s, In r relas /\ in_group (fst g) (snd g) r = true /\
              sym_type (syms st (rela_sym r)) = STT_FUNC /\
              sym_sec (syms st (rela_sym r)) = Some s /\
              sec_include (secs st s) = true.
Proof.
  unfold group_kept. rewrite existsb_exists. unfold keeps. split.
  - intros (r & Hin & H). apply andb_prop in H. destruct H as [H Hs].
    apply andb_prop in H. destruct H as [Hg Ht]. apply Z.eqb_eq in Ht.
    destruct (sym_sec (syms st (rela_sym r))) as [s|] eqn:Es; [|discriminate].
    exists r, s. auto.
  - intros (r & s & Hin & Hg & Ht & Es & Hi). exists r. split; [exact Hin|].
    rewrite Hg, Ht, Es, Hi. reflexivity.
Qed.

(** C4.  [xsplice_regenerate_special_section] on the relocation section
    [sec] of a special section [base], with group sizes that are positive
    [int]s: with fuel beyond the section size the loop never runs out of
    it, and when the function returns, the groups it walked tile the
    section from offset 0; a group is kept iff one of the relocations in
    it targets an [STT_FUNC] symbol whose section is included; the
    targets of the relocations of the kept groups are included; with no
    kept group both sections are [SAME] and not included; otherwise both
    are included, the data of [base] is the concatenation of the kept
    groups' bytes in their order, as long as the sum of their sizes, and
    the relocations of [sec] are those of the kept groups, rebased by the
    distance each group moved. *)
Theorem xsplice_regenerate_special_section_groups
  (group_size : store -> Z -> result Z) (st : store) (sec base : nat)
  (fuel : nat) :
  sec_base (secs st sec) = Some base ->
  sec <> base ->
  (forall off, group_sized (group_size st off)) ->
  (forall st' off, regen_frame sec st st' ->
                   group_size st' off = group_size st off) ->
  sh_size (secs st base) <= 2 ^ 63 ->
  (Z.to_nat (sh_size (secs st base)) < fuel)%nat ->
  in_fuel (xsplice_regenerate_special_section fuel group_size st sec) /\
  forall st',
    xsplice_regenerate_special_section fuel group_size st sec = Ok st' ->
    exists groups,
      let relas := sec_relas (secs st sec) in
      let kept := filter (group_kept st relas) groups in
      walked (group_size st) (sh_size (secs st base)) 0 groups /\
      (forall g, group_kept st relas g = true <->
                 exists r s, In r relas /\
                   in_group (fst g) (snd g) r = true /\
                   sym_type (syms st (rela_sym r)) = STT_FUNC /\
                   sym_sec (syms st (rela_sym r)) = Some s /\
                   sec_include (secs st s) = true) /\
      (forall p, syms st' p = if targeted relas kept p
                              then set_sym_include true (syms st p)
                              else syms st p) /\
      (forall s, s <> sec -> s <> base -> secs st' s = secs st s) /\
      match kept with
      | [] =>
          secs st' sec
            = set_sec_include false (set_sec_status SAME (secs st sec)) /\
          secs st' base
            = set_sec_include false (set_sec_status SAME (secs st base))
      | _ :: _ =>
          secs st' sec
            = set_sec_include true
                (set_sec_relas (rebased relas kept 0) (secs st sec)) /\
          secs st' base
            = set_d_buf (List.concat
                           (map (group_bytes (d_buf (secs st base))) kept))
                (set_sec_include true (secs st base)) /\
          d_size (secs st' base) = sizes kept
      end.
Proof.
  intros Hbase Hne Hsized Hstable Hsize Hfuel.
  unfold xsplice_regenerate_special_section. rewrite Hbase. cbn [deref bind].
  pose proof (regenerate_groups_in_fuel group_size sec base
                (d_buf (secs st base)) st Hne Hsized Hstable Hsize fuel
                st [] [] 0 0 (regen_frame_refl sec st)) as Hin.
  pose proof (fun st' n' d' s' e' =>
                regenerate_groups_spec group_size sec base
                  (d_buf (secs st base)) st Hne Hsized Hstable fuel
                  st [] [] 0 0 st' n' d' s' e' (regen_frame_refl sec st)
                  eq_refl) as Hspec.
  destruct (regenerate_groups fuel group_size sec base (d_buf (secs st base))
              st [] [] 0 0) as [[[[[st1 newrelas] dest] s'] d']|e]; cbn [bind].
  2:{ split; [|discriminate]. intros [= ->]. apply Hin; [lia | | reflexivity].
      rewrite Z.sub_0_r. exact Hfuel. }
  clear Hin. split.
  { destruct (_ =? 0); [discriminate|]. destruct (negb _); [discriminate|].
    destruct (_ =? 0); discriminate. }
  destruct (Hspec _ _ _ _ _ eq_refl)
    as (groups & Hw & -> & -> & -> & Hlen & -> & Hf & Hp & Hsame).
  clear Hspec. intros st'.
  destruct (to_u64 _ =? 0); [discriminate|].
  destruct (negb _); [discriminate|].
  intros Hrun. exists groups. cbn zeta.
  split; [exact Hw|]. split; [intros g; apply group_kept_iff|].
  pose proof (walked_sized _ _ _ _ Hsized Hw) as Hall.
  destruct (filter (group_kept st (sec_relas (secs st sec))) groups)
    as [|g kept] eqn:Ek.
  - rewrite (Hsame eq_refl) in *. cbn [sizes fold_right Z.add Z.eqb] in Hrun.
    injection Hrun as <-. split; [intros p; reflexivity|].
    cbn [upd_sec secs syms]. rewrite Nat.eqb_refl.
    assert (Hb : Nat.eqb base sec = false) by (apply Nat.eqb_neq; congruence).
    assert (Hb' : Nat.eqb sec base = false) by (now apply Nat.eqb_neq).
    rewrite Hb, Hb', Nat.eqb_refl. split; [|split; reflexivity].
    intros s Hs1 Hs2.
    apply Nat.eqb_neq in Hs1, Hs2. now rewrite Hs1, Hs2.
  - assert (Hd : 0 < sizes (g :: kept)).
    { apply sizes_positive; [|discriminate]. intros x Hx. apply Hall.
      rewrite <- Ek in Hx. now apply filter_In in Hx. }
    replace (0 + sizes (g :: kept) =? 0) with false in Hrun
      by (symmetry; apply Z.eqb_neq; lia).
    injection Hrun as <-. split; [exact Hp|].
    destruct Hf as (_ & Hsec & l & Hl).
    cbn [upd_sec secs syms]. rewrite Nat.eqb_refl.
    assert (Hb : Nat.eqb base sec = false) by (apply Nat.eqb_neq; congruence).
    assert (Hb' : Nat.eqb sec base = false) by (now apply Nat.eqb_neq).
    rewrite ?Hb, ?Hb', ?Nat.eqb_refl. split; [|split; [|split]].
    + intros s Hs1 Hs2. pose proof (Hsec s Hs1) as E.
      apply Nat.eqb_neq in Hs1, Hs2. now rewrite Hs1, Hs2.
    + rewrite Hl. reflexivity.
    + rewrite (Hsec base) by congruence. reflexivity.
    + unfold d_size. cbn [set_d_buf d_buf].
      change (Z.of_nat (List.length
                (List.concat (map (group_bytes (d_buf (secs st base)))
                                  (g :: kept)))) = sizes (g :: kept)).
      cbn [app List.length] in Hlen. rewrite Hlen. reflexivity.
Qed.

Lemma xsplice_regenerate_special_section_groups_witness :
  is_ok (xsplice_regenerate_special_section 37
           (altinstructions_group_size SpecialExample.kelf_alt)
           SpecialExample.st_alt 3) = true /\
  forall st',
    xsplice_regenerate_special_section 37
      (altinstructions_group_size SpecialExample.kelf_alt)
      SpecialExample.st_alt 3 = Ok st' ->
    exists groups,
      let relas := sec_relas (secs SpecialExample.st_alt 3) in
      let kept := filter (group_kept SpecialExample.st_alt relas) groups in
      walked (altinstructions_group_size SpecialExample.kelf_alt
                SpecialExample.st_alt)
             (sh_size (secs SpecialExample.st_alt 2)) 0 groups /\
      (forall p, syms st' p = if targeted relas kept p
                              then set_sym_include true
                                     (syms SpecialExample.st_alt p)
                              else syms SpecialExample.st_alt p) /\
      match kept with
      | [] => False
      | _ :: _ =>
          secs st' 3%nat
            = set_sec_include true
                (set_sec_relas (rebased relas kept 0)
                   (secs SpecialExample.st_alt 3)) /\
          d_size (secs st' 2%nat) = sizes kept
      end.
Proof.
  split; [vm_compute; reflexivity|]. intros st' Hrun.
  destruct (xsplice_regenerate_special_section_groups
              (altinstructions_group_size SpecialExample.kelf_alt)
              SpecialExample.st_alt 3 2 37) as [_ H].
  - reflexivity.
  - discriminate.
  - intros off. cbn. lia.
  - reflexivity.
  - cbn. lia.
  - cbn. lia.
  - destruct (H st' Hrun) as (groups & Hw & _ & Hp & _ & Hk).
    exists groups. cbn zeta. split; [exact Hw|]. split; [exact Hp|].
    destruct groups as [|[s z] groups];
      [exfalso; apply Hw; vm_compute; reflexivity|].
    destruct Hw as (E1 & _ & E2 & _). cbn [fst snd] in E1, E2.
    injection E2 as <-. subst s.
    cbn [filter] in Hk |- *.
    change (group_kept SpecialExample.st_alt
              (sec_relas (secs SpecialExample.st_alt 3)) (0, 12))
      with true in Hk |- *.
    cbn iota in Hk |- *. destruct Hk as (Hs & _ & Hd). auto.
Defined.

(** ** The patch table *)

Lemma offset_of_string_loop_spec name : forall l index l' i,
  offset_of_string_loop l name index = (l', i) ->
  (exists x, l' = (l ++ x)%list) /\ string_offset l' name = Some (i - index).
Proof.
  induction l as [|s rest IH]; intros index l' i; cbn [offset_of_string_loop].
  - intros [= <- <-]. split; [now exists [name]|].
    cbn [string_offset]. rewrite (proj2 (streq_eq name name) eq_refl).
    f_equal. lia.
  - destruct (streq s name) eqn:E.
    + intros [= <- <-]. split; [exists []; now rewrite app_nil_r|].
      cbn [string_offset]. rewrite E. f_equal. lia.
    + destruct (offset_of_string_loop rest name (index + (strlen s + 1)))
        as [rest' j] eqn:Er.
      intros [= <- <-]. apply IH in Er. destruct Er as [[x ->] Ho].
      split; [now exists x|].
      cbn [string_offset]. rewrite E, Ho. cbn [option_map]. f_equal. lia.
Qed.

Lemma offset_of_string_spec l name l' i :
  offset_of_string l name = (l', i) ->
  (exists x, l' = (l ++ x)%list) /\ string_offset l' name = Some i.
Proof.
  intros H. apply offset_of_string_loop_spec in H.
  now rewrite Z.sub_0_r in H.
Qed.

Lemma string_offset_app l x name a :
  string_offset l name = Some a -> string_offset (l ++ x) name = Some a.
Proof.
  revert a. induction l as [|s rest IH]; intros a; cbn [string_offset app];
    [discriminate|].
  destruct (streq s name); [auto|].
  destruct (string_offset rest name) as [b|]; [|discriminate].
  intros [= <-]. now rewrite (IH b eq_refl).
Qed.

Lemma write_at_next {A} (done rest : list A) (i : Z) (v : A) :
  i = Z.of_nat (List.length done) ->
  write_at (done ++ rest) i v =
  match rest with
  | [] => Fail FAULT
  | _ :: rest' => Ok ((done ++ [v]) ++ rest')%list
  end.
Proof.
  intros ->. unfold write_at. rewrite length_app, Nat2Z.id.
  destruct rest as [|r rest'].
  - cbn [List.length]. rewrite Nat.add_0_r.
    replace (_ && _) with false; [reflexivity|].
    symmetry. apply andb_false_iff. right. apply Z.ltb_ge. lia.
  - replace (_ && _) with true.
    2:{ symmetry. apply andb_true_iff. split; [apply Z.leb_le; lia|].
        apply Z.ltb_lt. cbn [List.length]. lia. }
    f_equal. rewrite firstn_app, firstn_all, Nat.sub_diag. cbn [firstn].
    rewrite app_nil_r, <- app_assoc. cbn [app]. do 2 f_equal.
    replace (S (List.length done)) with (List.length (done ++ [r]))
      by (rewrite length_app; cbn; lia).
    replace (done ++ r :: rest')%list with ((done ++ [r]) ++ rest')%list
      by (now rewrite <- app_assoc).
    now rewrite skipn_app, skipn_all, Nat.sub_diag.
Qed.

Lemma count_changed st l : forall n,
  fold_left (fun nr sym =>
               if (sym_type (syms st sym) =? STT_FUNC) &&
                  status_eqb (sym_status (syms st sym)) CHANGED
               then nr + 1 else nr) l n
  = n + counted is_changed_function st l.
Proof.
  induction l as [|p l IH]; intros n; cbn [fold_left].
  - unfold counted. cbn. lia.
  - rewrite IH, counted_cons. unfold is_changed_function.
    rewrite (andb_comm (status_eqb _ _)). destruct (_ && _); lia.
Qed.

Section PatchTableProperties.

Variables sizeof_funcs offsetof_name : Z.
Variable sizeof_pad : nat.
Variable PATCH_INSN_SIZE : Z.
Variable lookup_local_symbol : string -> string -> option (Z * Z).
Variable lookup_global_symbol : string -> option (Z * Z).

Variable st0 : store.
Variable hint : string.
Variable resolve : bool.
Variables relasec strsym : nat.

Let populate :=
  populate_entry sizeof_funcs offsetof_name sizeof_pad PATCH_INSN_SIZE
    lookup_local_symbol lookup_global_symbol hint resolve relasec strsym.
Let entry :=
  patch_entry sizeof_pad lookup_local_symbol lookup_global_symbol st0 hint
    resolve.
Let relas_of := patch_relas sizeof_funcs offsetof_name st0 hint strsym.
Let ready :=
  patchable PATCH_INSN_SIZE lookup_local_symbol lookup_global_symbol st0 hint.
Let changed (l : list nat) : list nat :=
  filter (fun p => is_changed_function (syms st0 p)) l.

Lemma patch_relas_pool strs x index l :
  (forall p, In p l -> string_offset strs (funcname_of st0 hint p) <> None) ->
  relas_of (strs ++ x)%list index l = relas_of strs index l.
Proof.
  revert index. induction l as [|p l IH]; intros index Hall; [reflexivity|].
  unfold relas_of in *. cbn [patch_relas].
  rewrite IH by (intros q Hq; apply Hall; now right).
  destruct (string_offset strs (funcname_of st0 hint p)) as [a|] eqn:E.
  - now rewrite (string_offset_app _ x _ _ E).
  - now destruct (Hall p (or_introl eq_refl)).
Qed.

Lemma populate_loop : forall l st strs done rest st' strs' funcs' i',
  syms st = syms st0 ->
  foreach l populate
    (st, strs, (map Some done ++ rest)%list, Z.of_nat (List.length done))
    = Ok (st', strs', funcs', i') ->
  (List.length (changed l) <= List.length rest)%nat /\
  funcs' = (map Some (done ++ map entry (changed l))
            ++ skipn (List.length (changed l)) rest)%list /\
  i' = Z.of_nat (List.length done) + Z.of_nat (List.length (changed l)) /\
  (exists x, strs' = (strs ++ x)%list) /\
  (forall p, In p (changed l) ->
     ready p /\ string_offset strs' (funcname_of st0 hint p) <> None) /\
  sec_relas (secs st' relasec)
    = (sec_relas (secs st relasec)
       ++ relas_of strs' (Z.of_nat (List.length done)) (changed l))%list /\
  syms st' = syms st0 /\
  (forall s, s <> relasec -> secs st' s = secs st s) /\
  (exists relas, secs st' relasec = set_sec_relas relas (secs st relasec)).
Proof.
  induction l as [|p l IH]; intros st strs done rest st' strs' funcs' i' Hsyms;
    cbn [foreach].
  - intros [= <- <- <- <-]. unfold changed, relas_of.
    cbn [filter List.length map skipn patch_relas]. rewrite !app_nil_r.
    split; [lia|]. split; [reflexivity|]. split; [lia|].
    split; [exists []; now rewrite app_nil_r|].
    split; [intros p []|]. split; [reflexivity|]. split; [exact Hsyms|].
    split; [reflexivity|].
    exists (sec_relas (secs st relasec)). now destruct (secs st relasec).
  - unfold populate at 1, populate_entry. rewrite Hsyms.
    unfold changed. cbn [filter]. fold (changed l).
    unfold is_changed_function at 1 2 3 4 5 6.
    rewrite (andb_comm (status_eqb (sym_status (syms st0 p)) CHANGED)).
    destruct ((sym_type (syms st0 p) =? STT_FUNC) &&
              status_eqb (sym_status (syms st0 p)) CHANGED).
    2:{ cbn [bind]. apply IH. exact Hsyms. }
    assert (Hlook :
      (if sym_bind (syms st0 p) =? STB_LOCAL
       then match lookup_local_symbol (sym_name (syms st0 p)) hint with
            | Some result =>
                Ok (mangle_local_symbol hint (sym_name (syms st0 p)), result)
            | None => Fail EXIT_ERROR
            end
       else match lookup_global_symbol (sym_name (syms st0 p)) with
            | Some result => Ok (sym_name (syms st0 p), result)
            | None => Fail EXIT_ERROR
            end)
      = match lookup_of lookup_local_symbol lookup_global_symbol st0 hint p with
        | Some result => Ok (funcname_of st0 hint p, result)
        | None => Fail EXIT_ERROR
        end).
    { unfold lookup_of, funcname_of.
      now destruct (sym_bind (syms st0 p) =? STB_LOCAL). }
    rewrite Hlook. clear Hlook.
    destruct (lookup_of lookup_local_symbol lookup_global_symbol st0 hint p)
      as [[value size]|] eqn:El; cbn [bind]; [|discriminate].
    destruct (size <? PATCH_INSN_SIZE) eqn:Esz; [discriminate|].
    apply Z.ltb_ge in Esz.
    rewrite write_at_next by (now rewrite length_map).
    destruct rest as [|r rest]; cbn [bind]; [discriminate|].
    destruct (offset_of_string strs (funcname_of st0 hint p)) as [strs1 a]
      eqn:Eo.
    apply offset_of_string_spec in Eo. destruct Eo as [[x1 ->] Ha].
    set (e := {| old_addr := if resolve then value else 0;
                 old_size := size; new_addr := 0;
                 new_size := st_size (syms st0 p);
                 pad := repeat x00 sizeof_pad |}).
    assert (Ee : e = entry p).
    { unfold entry, patch_entry. rewrite El. reflexivity. }
    replace (map Some done ++ [Some e])%list with (map Some (done ++ [e]))
      by (now rewrite map_app).
    replace (Z.of_nat (List.length done) + 1)
      with (Z.of_nat (List.length (done ++ [e])))
      by (rewrite length_app; cbn [List.length]; lia).
    intros Hrun. apply IH in Hrun; [|exact Hsyms].
    destruct Hrun as (Hlen & -> & -> & [x ->] & Hall & Hrel & Hs' & Hsec & Hrs).
    assert (Hp : string_offset ((strs ++ x1) ++ x)
                   (funcname_of st0 hint p) = Some a)
      by (now apply string_offset_app).
    split; [cbn [List.length]; lia|].
    split.
    { cbn [map List.length skipn]. rewrite <- app_assoc, Ee. reflexivity. }
    split; [rewrite length_app; cbn [List.length]; lia|].
    split; [exists (x1 ++ x)%list; now rewrite app_assoc|].
    split.
    { intros q [<-|Hq]; [|now apply Hall].
      split; [now exists value, size | congruence]. }
    split.
    { rewrite Hrel. cbn [upd_sec secs]. rewrite Nat.eqb_refl.
      cbn [set_sec_relas sec_relas]. rewrite <- app_assoc. f_equal.
      unfold relas_of. cbn [patch_relas app]. rewrite Hp.
      rewrite length_app. cbn [List.length].
      replace (Z.of_nat (List.length done + 1))
        with (Z.of_nat (List.length done) + 1) by lia.
      reflexivity. }
    split; [exact Hs'|]. split.
    { intros s Hs. rewrite (Hsec s Hs). cbn [upd_sec secs].
      destruct (Nat.eqb_spec s relasec); [contradiction | reflexivity]. }
    destruct Hrs as [relas ->]. cbn [upd_sec secs]. rewrite Nat.eqb_refl.
    eexists. reflexivity.
Qed.

Lemma populate_loop_total : forall l st strs done rest,
  syms st = syms st0 ->
  (forall p, In p (changed l) -> ready p) ->
  (List.length (changed l) <= List.length rest)%nat ->
  is_ok (foreach l populate
           (st, strs, (map Some done ++ rest)%list,
            Z.of_nat (List.length done))) = true.
Proof.
  induction l as [|p l IH]; intros st strs done rest Hsyms Hall Hlen;
    cbn [foreach]; [reflexivity|].
  unfold populate at 1, populate_entry. rewrite Hsyms.
  revert Hall Hlen. unfold changed. cbn [filter]. fold (changed l).
  unfold is_changed_function at 1 2.
  rewrite (andb_comm (status_eqb (sym_status (syms st0 p)) CHANGED)).
  destruct ((sym_type (syms st0 p) =? STT_FUNC) &&
            status_eqb (sym_status (syms st0 p)) CHANGED); intros Hall Hlen.
  2:{ cbn [bind]. now apply IH. }
  destruct (Hall p (or_introl eq_refl)) as (value & size & El & Hsz).
  unfold lookup_of in El.
  assert (Hlook :
    (if sym_bind (syms st0 p) =? STB_LOCAL
     then match lookup_local_symbol (sym_name (syms st0 p)) hint with
          | Some result =>
              Ok (mangle_local_symbol hint (sym_name (syms st0 p)), result)
          | None => Fail EXIT_ERROR
          end
     else match lookup_global_symbol (sym_name (syms st0 p)) with
          | Some result => Ok (sym_name (syms st0 p), result)
          | None => Fail EXIT_ERROR
          end)
    = Ok (funcname_of st0 hint p, (value, size))).
  { unfold funcname_of.
    destruct (sym_bind (syms st0 p) =? STB_LOCAL); now rewrite El. }
  rewrite Hlook. clear Hlook. cbn [bind].
  replace (size <? PATCH_INSN_SIZE) with false
    by (symmetry; apply Z.ltb_ge; lia).
  rewrite write_at_next by (now rewrite length_map).
  destruct rest as [|r rest]; [cbn [List.length] in Hlen; lia|]. cbn [bind].
  destruct (offset_of_string strs (funcname_of st0 hint p)) as [strs1 a].
  match goal with |- context [Some ?e :: nil] => set (e0 := e) end.
  replace (map Some done ++ [Some e0])%list with (map Some (done ++ [e0]))
    by (now rewrite map_app).
  replace (Z.of_nat (List.length done) + 1)
    with (Z.of_nat (List.length (done ++ [e0])))
    by (rewrite length_app; cbn [List.length]; lia).
  apply IH; [exact Hsyms | |cbn [List.length] in Hlen; lia].
  intros q Hq. apply Hall. now right.
Qed.

End PatchTableProperties.



(** * Further properties of the passes *)

(** ** Inclusion *)

Lemma foreach_establishes {A S : Type} (I : S -> Prop) (R : S -> S -> Prop)
  (P : A -> S -> Prop) (body : S -> A -> result S) (l : list A) :
  (forall s, R s s) ->
  (forall s1 s2 s3, R s1 s2 -> R s2 s3 -> R s1 s3) ->
  (forall s a s', In a l -> I s -> body s a = Ok s' ->
                  I s' /\ R s s' /\ P a s') ->
  (forall a s s', R s s' -> P a s -> P a s') ->
  forall s s', I s -> foreach l body s = Ok s' ->
    I s' /\ R s s' /\ forall a, In a l -> P a s'.
Proof.
  intros Hrefl Htrans. induction l as [|a l IH]; intros Hbody Hkeep s s' Hi;
    cbn [foreach].
  - intros [= <-]. split; [exact Hi|]. split; [apply Hrefl | intros a []].
  - destruct (body s a) as [s1|] eqn:E; cbn [bind]; [|discriminate].
    intros Hrun.
    destruct (Hbody s a s1 (or_introl eq_refl) Hi E) as (I1 & R1 & P1).
    destruct (IH (fun s a s' H => Hbody s a s' (or_intror H)) Hkeep s1 s'
                 I1 Hrun) as (I' & R' & P').
    split; [exact I'|]. split; [eapply Htrans; eauto|].
    intros b [<-|Hb]; [eapply Hkeep; eauto | now apply P'].
Qed.

Lemma grows_sym_include st st' p :
  grows st st' -> sym_include (syms st p) = true ->
  sym_include (syms st' p) = true.
Proof. intros [_ [G _]]. apply G. Qed.

Lemma grows_sec_include st st' s :
  grows st st' -> sec_include (secs st s) = true ->
  sec_include (secs st' s) = true.
Proof. intros [_ [_ G]]. apply G. Qed.

Lemma xsplice_include_symbol_grows fuel : forall st sym st',
  xsplice_include_symbol fuel st sym = Ok st' ->
  grows st st' /\ sym_include (syms st' sym) = true.
Proof.
  induction fuel as [|fuel IH]; intros st sym st'; [discriminate|].
  cbn [xsplice_include_symbol].
  set (st1 := upd_sym st sym (set_sym_include true)).
  assert (G1 : grows st st1) by apply grows_include_sym.
  assert (I1 : sym_include (syms st1 sym) = true).
  { unfold st1. cbn [upd_sym syms]. now rewrite Nat.eqb_refl. }
  assert (Hdone : forall s, grows st1 s ->
            grows st s /\ sym_include (syms s sym) = true).
  { intros s G. split; [eapply grows_trans; eauto|].
    eapply grows_sym_include; eauto. }
  destruct (sym_sec (syms st1 sym)) as [sec|];
    [|intros [= <-]; apply Hdone, grows_refl].
  destruct (_ || _); [intros [= <-]; apply Hdone, grows_refl|].
  set (st2 := upd_sec st1 sec (set_sec_include true)).
  assert (G2 : grows st1 st2) by apply grows_include_sec.
  set (st3 := match sec_secsym (secs st2 sec) with
              | Some secsym =>
                  if negb (Nat.eqb secsym sym)
                  then upd_sym st2 secsym (set_sym_include true)
                  else st2
              | None => st2
              end).
  assert (G3 : grows st1 st3).
  { eapply grows_trans; [exact G2|]. unfold st3.
    destruct (sec_secsym (secs st2 sec)) as [q|]; [|apply grows_refl].
    destruct (negb _); [apply grows_include_sym | apply grows_refl]. }
  destruct (sec_rela (secs st3 sec)) as [rela|];
    [|intros [= <-]; now apply Hdone].
  set (st4 := upd_sec st3 rela (set_sec_include true)).
  assert (G4 : grows st1 st4)
    by (eapply grows_trans; [exact G3 | apply grows_include_sec]).
  intros Hrun.
  apply (foreach_preserves (fun _ => True) grows) in Hrun;
    [|apply grows_refl | apply grows_trans | | exact I].
  - apply Hdone. eapply grows_trans; [exact G4 | apply Hrun].
  - intros s r s' _ _ E. split; [exact I|]. now apply IH in E.
Qed.

(** X1.  [xsplice_include_symbol], called from a pass over [kelf] in
    which every symbol's section is on the section list, returns; the
    store it returns differs from the one it was given in include flags
    only, no flag that was set is cleared, and the flag of the symbol it
    was called for is set. *)
Theorem include_symbol_sets_flags_only (kelf : xsplice_elf) (st : store)
  (sym : nat) :
  sections_listed st (sections kelf) ->
  exists st',
    include_symbol kelf st sym = Ok st' /\
    flags_only st st' /\ include_grows st st' /\
    sym_include (syms st' sym) = true.
Proof.
  intros Hl. destruct (include_symbol_total kelf st sym Hl) as (st' & E & _).
  exists st'. split; [exact E|].
  destruct (xsplice_include_symbol_grows _ _ _ _ E) as [[F G] Hi]. auto.
Qed.

Example calls_sections_listed :
  sections_listed IncludeExamples.st_calls
    (sections IncludeExamples.kelf_calls).
Proof.
  intros p s.
  do 7 (destruct p as [|p]; [intros [= <-]; vm_compute; auto 10|]).
  destruct p; intros [=].
Qed.

Lemma include_symbol_sets_flags_only_witness :
  exists st',
    include_symbol IncludeExamples.kelf_calls IncludeExamples.st_calls 2
      = Ok st' /\
    flags_only IncludeExamples.st_calls st' /\
    include_grows IncludeExamples.st_calls st' /\
    sym_include (syms st' 2) = true.
Proof.
  apply (include_symbol_sets_flags_only IncludeExamples.kelf_calls
           IncludeExamples.st_calls 2 calls_sections_listed).
Defined.

Lemma include_symbol_grows kelf st sym st' :
  include_symbol kelf st sym = Ok st' ->
  grows st st' /\ sym_include (syms st' sym) = true.
Proof. apply xsplice_include_symbol_grows. Qed.

Lemma grows_changed_function st st' p :
  grows st st' ->
  is_changed_function (syms st' p) = is_changed_function (syms st p) /\
  is_new_global (syms st' p) = is_new_global (syms st p) /\
  sym_type (syms st' p) = sym_type (syms st p).
Proof.
  intros [[F _] _]. destruct (F p) as [b ->]. repeat split.
Qed.

(** X2.  When [xsplice_include_changed_functions] returns, every
    [CHANGED] [STT_FUNC] symbol and every [STT_FILE] symbol of the symbol
    list is included, and nothing but include flags has changed, none of
    them cleared. *)
Theorem xsplice_include_changed_functions_includes (kelf : xsplice_elf)
  (st st' : store) (n : Z) :
  xsplice_include_changed_functions kelf st = Ok (st', n) ->
  grows st st' /\
  forall p, In p (symbols kelf) ->
    (is_changed_function (syms st p) = true \/
     sym_type (syms st p) = STT_FILE) ->
    sym_include (syms st' p) = true.
Proof.
  unfold xsplice_include_changed_functions. intros Hrun.
  apply (foreach_establishes
           (fun s => grows st (fst s))
           (fun s s' => grows (fst s) (fst s'))
           (fun p s => (is_changed_function (syms st p) = true \/
                        sym_type (syms st p) = STT_FILE) ->
                       sym_include (syms (fst s) p) = true)) in Hrun.
  - destruct Hrun as (G & _ & Hall). cbn [fst] in *. split; [exact G|].
    intros p Hp Hc. now apply Hall.
  - intros s. apply grows_refl.
  - intros s1 s2 s3. apply grows_trans.
  - intros [s k] p [s' k'] _. cbn [fst]. intros G.
    destruct (grows_changed_function _ _ p G) as (Ec & _ & Et).
    change (status_eqb (sym_status (syms s p)) CHANGED &&
            (sym_type (syms s p) =? STT_FUNC))
      with (is_changed_function (syms s p)).
    destruct (is_changed_function (syms s p)) eqn:Ec'.
    + destruct (include_symbol kelf s p) as [s1|] eqn:Ei; cbn [bind];
        [|discriminate].
      apply include_symbol_grows in Ei. destruct Ei as [G1 I1].
      destruct (sym_type (syms s1 p) =? STT_FILE); intros [= <- <-].
      * assert (G2 : grows s (upd_sym s1 p (set_sym_include true)))
          by (eapply grows_trans; [exact G1 | apply grows_include_sym]).
        split; [eapply grows_trans; eauto|]. split; [exact G2|].
        intros _. cbn [upd_sym syms]. now rewrite Nat.eqb_refl.
      * split; [eapply grows_trans; eauto|]. split; [exact G1|].
        intros _. exact I1.
    + cbn [bind]. destruct (sym_type (syms s p) =? STT_FILE) eqn:Ef;
        intros [= <- <-].
      * split; [eapply grows_trans; [exact G | apply grows_include_sym]|].
        split; [apply grows_include_sym|].
        intros _. cbn [upd_sym syms]. now rewrite Nat.eqb_refl.
      * split; [exact G|]. split; [apply grows_refl|].
        intros [Hc|Hf]; [congruence|].
        apply Z.eqb_neq in Ef. congruence.
  - intros p s s' G H Hc. eapply grows_sym_include; eauto.
  - apply grows_refl.
Qed.

Lemma xsplice_include_changed_functions_includes_witness :
  exists st' n,
    xsplice_include_changed_functions IncludeExamples.kelf_calls
      IncludeExamples.st_calls = Ok (st', n) /\
    sym_include (syms st' 1) = true /\ sym_include (syms st' 2) = true.
Proof.
  assert (E : is_ok (xsplice_include_changed_functions
                       IncludeExamples.kelf_calls IncludeExamples.st_calls)
              = true) by (vm_compute; reflexivity).
  apply is_ok_Ok in E. destruct E as [[st' n] E]. exists st', n.
  split; [exact E|].
  destruct (xsplice_include_changed_functions_includes _ _ _ _ E) as [_ H].
  split; apply H; vm_compute; auto.
Defined.

(** X3.  When [xsplice_include_new_globals] returns, every [STB_GLOBAL]
    symbol of the symbol list that has a section and the status [NEW] is
    included, and nothing but include flags has changed, none of them
    cleared. *)
Theorem xsplice_include_new_globals_includes (kelf : xsplice_elf)
  (st st' : store) (n : Z) :
  xsplice_include_new_globals kelf st = Ok (st', n) ->
  grows st st' /\
  forall p, In p (symbols kelf) ->
    is_new_global (syms st p) = true -> sym_include (syms st' p) = true.
Proof.
  unfold xsplice_include_new_globals. intros Hrun.
  apply (foreach_establishes
           (fun s => grows st (fst s))
           (fun s s' => grows (fst s) (fst s'))
           (fun p s => is_new_global (syms st p) = true ->
                       sym_include (syms (fst s) p) = true)) in Hrun.
  - destruct Hrun as (G & _ & Hall). cbn [fst] in *. split; [exact G|].
    intros p Hp Hc. now apply Hall.
  - intros s. apply grows_refl.
  - intros s1 s2 s3. apply grows_trans.
  - intros [s k] p [s' k'] _. cbn [fst]. intros G.
    destruct (grows_changed_function _ _ p G) as (_ & Ec & _).
    change ((sym_bind (syms s p) =? STB_GLOBAL) &&
            is_some (sym_sec (syms s p)) &&
            status_eqb (sym_status (syms s p)) NEW)
      with (is_new_global (syms s p)).
    destruct (is_new_global (syms s p)) eqn:Ec'.
    + destruct (include_symbol kelf s p) as [s1|] eqn:Ei; cbn [bind];
        [|discriminate].
      apply include_symbol_grows in Ei. destruct Ei as [G1 I1].
      intros [= <- <-].
      split; [eapply grows_trans; eauto|]. split; [exact G1|].
      intros _. exact I1.
    + intros [= <- <-]. split; [exact G|]. split; [apply grows_refl|].
      congruence.
  - intros p s s' G H Hc. eapply grows_sym_include; eauto.
  - apply grows_refl.
Qed.

(** ** The debug pass *)

Lemma strip_debug_relas_spec st relas : forall l,
  strip_debug_relas st relas = Ok l ->
  forall r, In r l ->
    In r relas /\
    exists q, sym_sec (syms st (rela_sym r)) = Some q /\
              sec_include (secs st q) = true.
Proof.
  induction relas as [|a relas IH]; intros l; cbn [strip_debug_relas].
  - intros [= <-] r [].
  - destruct (sym_sec (syms st (rela_sym a))) as [q|] eqn:Eq;
      cbn [deref bind]; [|discriminate].
    destruct (strip_debug_relas st relas) as [rest|]; cbn [bind];
      [|discriminate].
    specialize (IH rest eq_refl).
    destruct (sec_include (secs st q)) eqn:Ei; cbn [negb]; intros [= <-] r Hr.
    + destruct Hr as [<-|Hr].
      * split; [now left | eauto].
      * destruct (IH r Hr) as [Hin H]. split; [now right | exact H].
    + destruct (IH r Hr) as [Hin H]. split; [now right | exact H].
Qed.

Lemma relas_shrink_refl s : relas_shrink s s.
Proof.
  split; [reflexivity|]. intros x. exists (sec_relas (secs s x)).
  split; [now destruct (secs s x) | apply incl_refl].
Qed.

Lemma relas_shrink_trans s1 s2 s3 :
  relas_shrink s1 s2 -> relas_shrink s2 s3 -> relas_shrink s1 s3.
Proof.
  intros [E1 H1] [E2 H2]. split; [congruence|]. intros x.
  destruct (H1 x) as (l1 & X1 & I1), (H2 x) as (l2 & X2 & I2).
  exists l2. rewrite X2, X1. split; [reflexivity|].
  rewrite X1 in I2. cbn [set_sec_relas sec_relas] in I2.
  eapply incl_tran; eauto.
Qed.

Lemma relas_shrink_fields s s' x :
  relas_shrink s s' ->
  sec_include (secs s' x) = sec_include (secs s x) /\
  is_rela_section (secs s' x) = is_rela_section (secs s x) /\
  is_debug_section (secs s' x) = is_debug_section (secs s x) /\
  incl (sec_relas (secs s' x)) (sec_relas (secs s x)).
Proof.
  intros [_ H]. destruct (H x) as (l & -> & Hi). repeat split. exact Hi.
Qed.

(** X4.  When [xsplice_include_debug_sections] returns, every
    [.debug_*] and [.rela.debug_*] section of the section list is
    included, and every relocation that is left in a [.rela.debug_*]
    section was there before and has a target symbol whose section is
    included.  The symbols differ in include flags only. *)
Theorem xsplice_include_debug_sections_strips (kelf : xsplice_elf)
  (st st' : store) :
  xsplice_include_debug_sections kelf st = Ok st' ->
  sym_flags_only st st' /\
  (forall sec, In sec (sections kelf) ->
     is_debug_section (secs st sec) = true ->
     sec_include (secs st' sec) = true) /\
  (forall sec r, In sec (sections kelf) ->
     is_rela_section (secs st sec) = true ->
     is_debug_section (secs st sec) = true ->
     In r (sec_relas (secs st' sec)) ->
     In r (sec_relas (secs st sec)) /\
     exists q, sym_sec (syms st' (rela_sym r)) = Some q /\
               sec_include (secs st' q) = true).
Proof.
  unfold xsplice_include_debug_sections.
  destruct (foreach (sections kelf) _ st) as [st1|] eqn:E1; cbn [bind];
    [|discriminate].
  intros E2.
  (* the first loop *)
  apply (foreach_establishes
           (fun s => grows st s) grows
           (fun sec s => is_debug_section (secs st sec) = true ->
                         sec_include (secs s sec) = true)) in E1.
  2:{ apply grows_refl. }
  2:{ apply grows_trans. }
  2:{ intros s sec s' _ G.
      destruct (flags_only_sec_fields _ _ sec (proj1 G)) as (_ & _ & _ & _ & En).
      assert (Ed : is_debug_section (secs s sec)
                   = is_debug_section (secs st sec)).
      { unfold is_debug_section. now rewrite En. }
      rewrite Ed. destruct (is_debug_section (secs st sec)).
      - set (s1 := upd_sec s sec (set_sec_include true)).
        assert (I1 : sec_include (secs s1 sec) = true).
        { unfold s1. cbn [upd_sec secs]. now rewrite Nat.eqb_refl. }
        assert (G1 : grows s s1) by apply grows_include_sec.
        destruct (negb (is_rela_section (secs s1 sec))).
        + destruct (sec_secsym (secs s1 sec)) as [q|]; cbn [deref bind];
            [|discriminate].
          intros [= <-].
          assert (G2 : grows s (upd_sym s1 q (set_sym_include true)))
            by (eapply grows_trans; [exact G1 | apply grows_include_sym]).
          split; [eapply grows_trans; eauto|]. split; [exact G2|].
          intros _. exact I1.
        + intros [= <-]. split; [eapply grows_trans; eauto|].
          split; [exact G1|]. intros _. exact I1.
      - intros [= <-]. split; [exact G|]. split; [apply grows_refl|].
        discriminate. }
  2:{ intros sec s s' G H Hd. eapply grows_sec_include; eauto. }
  2:{ apply grows_refl. }
  destruct E1 as (G1 & _ & Hinc).
  (* the second loop *)
  apply (foreach_establishes
           (fun s => relas_shrink st1 s) relas_shrink
           (fun sec s =>
              is_rela_section (secs st1 sec) = true ->
              is_debug_section (secs st1 sec) = true ->
              forall r, In r (sec_relas (secs s sec)) ->
                exists q, sym_sec (syms st1 (rela_sym r)) = Some q /\
                          sec_include (secs st1 q) = true)) in E2.
  2:{ apply relas_shrink_refl. }
  2:{ apply relas_shrink_trans. }
  2:{ intros s sec s' _ F.
      destruct (relas_shrink_fields _ _ sec F) as (_ & Er & Ed & _).
      rewrite Er, Ed.
      destruct (is_rela_section (secs st1 sec));
        destruct (is_debug_section (secs st1 sec)); cbn [negb orb];
        try (intros [= <-]; split; [exact F|];
             split; [apply relas_shrink_refl | discriminate]).
      destruct (strip_debug_relas s (sec_relas (secs s sec))) as [l|] eqn:Es;
        cbn [bind]; [|discriminate].
      intros [= <-]. pose proof (strip_debug_relas_spec _ _ _ Es) as Hl.
      assert (F1 : relas_shrink s (upd_sec s sec (set_sec_relas l))).
      { split; [reflexivity|]. intros x. cbn [upd_sec secs].
        destruct (Nat.eqb_spec x sec) as [->|_].
        - exists l. split; [reflexivity|]. intros r Hr. now apply Hl.
        - exists (sec_relas (secs s x)).
          split; [now destruct (secs s x) | apply incl_refl]. }
      split; [eapply relas_shrink_trans; eauto|]. split; [exact F1|].
      intros _ _ r Hr. cbn [upd_sec secs] in Hr. rewrite Nat.eqb_refl in Hr.
      cbn [set_sec_relas sec_relas] in Hr.
      destruct (Hl r Hr) as (_ & q & Hq & Hi). exists q.
      destruct F as [Fs Fc]. rewrite Fs in Hq. split; [exact Hq|].
      destruct (Fc q) as (lq & Eq & _). rewrite Eq in Hi. exact Hi. }
  2:{ intros sec s s' F H Hr Hd r Hin.
      apply (H Hr Hd). now apply (relas_shrink_fields _ _ sec F). }
  2:{ apply relas_shrink_refl. }
  destruct E2 as (F2 & _ & Hstrip).
  split; [|split].
  - intros p. destruct F2 as [-> _]. apply (proj1 G1).
  - intros sec Hin Hd.
    destruct (relas_shrink_fields _ _ sec F2) as (-> & _). now apply Hinc.
  - intros sec r Hin Hr Hd Hr'.
    destruct (flags_only_sec_fields _ _ sec (proj1 G1))
      as (Erel & Er1 & _ & _ & En).
    assert (Ed1 : is_debug_section (secs st1 sec) = true)
      by (unfold is_debug_section in *; now rewrite En).
    rewrite <- Er1 in Hr. split.
    + rewrite <- Erel. now apply (relas_shrink_fields _ _ sec F2).
    + destruct (Hstrip sec Hin Hr Ed1 r Hr') as (q & Hq & Hi).
      exists q. destruct F2 as [Fs Fc]. rewrite Fs. split; [exact Hq|].
      destruct (Fc q) as (lq & -> & _). exact Hi.
Qed.

Lemma xsplice_include_debug_sections_strips_witness :
  exists st',
    xsplice_include_debug_sections IncludeExamples.kelf_debug
      IncludeExamples.st_debug = Ok st' /\
    sec_include (secs st' 1) = true /\ sec_include (secs st' 2) = true.
Proof.
  assert (E : is_ok (xsplice_include_debug_sections IncludeExamples.kelf_debug
                       IncludeExamples.st_debug) = true)
    by (vm_compute; reflexivity).
  apply is_ok_Ok in E. destruct E as [st' E]. exists st'.
  split; [exact E|].
  destruct (xsplice_include_debug_sections_strips _ _ _ E) as (_ & H & _).
  split; apply H; vm_compute; auto.
Defined.

Lemma xsplice_include_new_globals_includes_witness :
  exists st' n,
    xsplice_include_new_globals IncludeExamples.patched_gains_rela
      IncludeExamples.st_gains_rela = Ok (st', n) /\
    sym_include (syms st' 6) = true.
Proof.
  assert (E : is_ok (xsplice_include_new_globals
                       IncludeExamples.patched_gains_rela
                       IncludeExamples.st_gains_rela) = true)
    by (vm_compute; reflexivity).
  apply is_ok_Ok in E. destruct E as [[st' n] E]. exists st', n.
  split; [exact E|].
  destruct (xsplice_include_new_globals_includes _ _ _ _ E) as [_ H].
  apply H; vm_compute; auto.
Defined.

(** X5.  When [xsplice_include_standard_elements] returns, the sections
    of the list named [.shstrtab], [.strtab], [.symtab] or
    [.rodata.str1.*] are included with their section symbols, and so is
    the first symbol of the symbol list, the NULL symbol; nothing but
    include flags has changed, none of them cleared. *)
Theorem xsplice_include_standard_elements_includes (kelf : xsplice_elf)
  (st st' : store) :
  xsplice_include_standard_elements kelf st = Ok st' ->
  grows st st' /\
  (forall sec, In sec (sections kelf) ->
     is_standard_section (sec_name (secs st sec)) = true ->
     sec_include (secs st' sec) = true /\
     forall q, sec_secsym (secs st sec) = Some q ->
               sym_include (syms st' q) = true) /\
  exists first, hd_error (symbols kelf) = Some first /\
                sym_include (syms st' first) = true.
Proof.
  unfold xsplice_include_standard_elements.
  destruct (foreach (sections kelf) _ st) as [st1|] eqn:E1; cbn [bind];
    [|discriminate].
  apply (foreach_establishes
           (fun s => grows st s) grows
           (fun sec s =>
              is_standard_section (sec_name (secs st sec)) = true ->
              sec_include (secs s sec) = true /\
              forall q, sec_secsym (secs st sec) = Some q ->
                        sym_include (syms s q) = true)) in E1.
  2:{ apply grows_refl. }
  2:{ apply grows_trans. }
  2:{ intros s sec s' _ G.
      destruct (flags_only_sec_fields _ _ sec (proj1 G))
        as (_ & _ & _ & Eq & En).
      rewrite En.
      destruct (is_standard_section (sec_name (secs st sec))).
      - set (s1 := upd_sec s sec (set_sec_include true)).
        assert (I1 : sec_include (secs s1 sec) = true).
        { unfold s1. cbn [upd_sec secs]. now rewrite Nat.eqb_refl. }
        assert (G1 : grows s s1) by apply grows_include_sec.
        assert (Eq1 : sec_secsym (secs s1 sec) = sec_secsym (secs st sec)).
        { unfold s1. cbn [upd_sec secs]. now rewrite Nat.eqb_refl. }
        rewrite Eq1.
        destruct (sec_secsym (secs st sec)) as [q|]; intros [= <-].
        + assert (G2 : grows s (upd_sym s1 q (set_sym_include true)))
            by (eapply grows_trans; [exact G1 | apply grows_include_sym]).
          split; [eapply grows_trans; eauto|]. split; [exact G2|].
          intros _. split; [exact I1|].
          intros q' [= <-]. cbn [upd_sym syms]. now rewrite Nat.eqb_refl.
        + split; [eapply grows_trans; eauto|]. split; [exact G1|].
          intros _. split; [exact I1 | discriminate].
      - intros [= <-]. split; [exact G|]. split; [apply grows_refl|].
        discriminate. }
  2:{ intros sec s s' G H Hd. destruct (H Hd) as [Hs Hq].
      split; [eapply grows_sec_include; eauto|].
      intros q Eq. eapply grows_sym_include; eauto. }
  2:{ apply grows_refl. }
  destruct E1 as (G1 & _ & Hinc).
  destruct (hd_error (symbols kelf)) as [first|]; cbn [deref bind];
    [|discriminate].
  intros [= <-].
  assert (G2 : grows st1 (upd_sym st1 first (set_sym_include true)))
    by apply grows_include_sym.
  split; [eapply grows_trans; eauto|]. split.
  - intros sec Hin Hstd. destruct (Hinc sec Hin Hstd) as [Hs Hq].
    split; [eapply grows_sec_include; eauto|].
    intros q Eq. eapply grows_sym_include; eauto.
  - exists first. split; [reflexivity|].
    cbn [upd_sym syms]. now rewrite Nat.eqb_refl.
Qed.

Lemma xsplice_include_standard_elements_includes_witness :
  exists st',
    xsplice_include_standard_elements UnchangedExample.kelf_unchanged
      UnchangedExample.st_unchanged = Ok st' /\
    sec_include (secs st' 2) = true /\ sec_include (secs st' 4) = true.
Proof.
  assert (E : is_ok (xsplice_include_standard_elements
                       UnchangedExample.kelf_unchanged
                       UnchangedExample.st_unchanged) = true)
    by (vm_compute; reflexivity).
  apply is_ok_Ok in E. destruct E as [st' E]. exists st'.
  split; [exact E|].
  destruct (xsplice_include_standard_elements_includes _ _ _ E)
    as (_ & H & _).
  split; apply H; vm_compute; auto 10.
Defined.

(** ** Patchability *)

Lemma verify_patchability_errors st l : forall n,
  0 <= n ->
  let errs :=
    fold_left
      (fun errs sec =>
         let errs := if changed_not_included (secs st sec)
                     then errs + 1 else errs in
         let errs := if changed_in_group (secs st sec)
                     then errs + 1 else errs in
         let errs := if new_group_section (secs st sec)
                     then errs + 1 else errs in
         if data_section_included (secs st sec) then errs + 1 else errs)
      l n in
  n <= errs /\
  (errs = n <-> forall sec, In sec l -> unsupported_change (secs st sec) = false).
Proof.
  induction l as [|sec l IH]; intros n Hn; cbn [fold_left].
  - split; [lia|]. split; [intros _ sec [] | reflexivity].
  - match goal with |- context [fold_left ?f l ?m] =>
      destruct (IH m) as [Hle Hiff]; [|set (e := fold_left f l m) in *] end.
    { destruct (changed_not_included _), (changed_in_group _),
        (new_group_section _), (data_section_included _); lia. }
    cbn zeta in Hle, Hiff. unfold unsupported_change.
    destruct (changed_not_included (secs st sec)) eqn:E1,
             (changed_in_group (secs st sec)) eqn:E2,
             (new_group_section (secs st sec)) eqn:E3,
             (data_section_included (secs st sec)) eqn:E4;
      (split; [lia|]); split;
      try (intros He; exfalso; lia);
      try (intros Hall; specialize (Hall sec (or_introl eq_refl));
           rewrite E1, E2, E3, E4 in Hall; discriminate Hall).
    + intros He sec' [<-|Hin].
      * now rewrite E1, E2, E3, E4.
      * now apply (proj1 Hiff He).
    + intros Hall. apply Hiff. intros sec' Hin. apply Hall. now right.
Qed.


(** ** Migration *)

Lemma migrate_section_step st sec :
  let st1 := upd_sec st sec (set_sec_index 0) in
  let st2 := match sec_secsym (secs st1 sec) with
             | Some secsym =>
                 if negb (is_rela_section (secs st1 sec)) &&
                    negb (sym_include (syms st1 secsym))
                 then upd_sec st1 sec (set_sec_secsym None)
                 else st1
             | None => st1
             end in
  syms st2 = syms st /\
  (forall x, x <> sec -> secs st2 x = secs st x) /\
  sec_include (secs st2 sec) = sec_include (secs st sec) /\
  is_rela_section (secs st2 sec) = is_rela_section (secs st sec) /\
  (is_rela_section (secs st sec) = false ->
   forall q, sec_secsym (secs st2 sec) = Some q ->
             sym_include (syms st q) = true).
Proof.
  intros st1 st2.
  assert (H1 : secs st1 sec = set_sec_index 0 (secs st sec)).
  { unfold st1. cbn [upd_sec secs]. now rewrite Nat.eqb_refl. }
  assert (H1' : forall x, x <> sec -> secs st1 x = secs st x).
  { intros x Hx. unfold st1. cbn [upd_sec secs].
    destruct (Nat.eqb_spec x sec); [contradiction | reflexivity]. }
  assert (Hkeep : st2 = st1 \/
                  (st2 = upd_sec st1 sec (set_sec_secsym None))).
  { unfold st2. destruct (sec_secsym (secs st1 sec)); [|now left].
    destruct (_ && _); [now right | now left]. }
  assert (Hq : is_rela_section (secs st sec) = false ->
               forall q, sec_secsym (secs st2 sec) = Some q ->
                         sym_include (syms st q) = true).
  { intros Hrel q. unfold st2. rewrite H1. cbn [set_sec_index sec_secsym].
    change (is_rela_section (set_sec_index 0 (secs st sec)))
      with (is_rela_section (secs st sec)).
    rewrite Hrel. cbn [negb andb]. change (syms st1) with (syms st).
    destruct (sec_secsym (secs st sec)) as [q'|] eqn:Eq.
    - destruct (sym_include (syms st q')) eqn:Ei; cbn [negb].
      + rewrite H1. cbn [set_sec_index sec_secsym]. rewrite Eq.
        now intros [= <-].
      + cbn [upd_sec secs]. rewrite Nat.eqb_refl. discriminate.
    - rewrite H1. cbn [set_sec_index sec_secsym]. rewrite Eq. discriminate. }
  split; [destruct Hkeep as [->| ->]; reflexivity|].
  split.
  { intros x Hx. destruct Hkeep as [->| ->]; [now apply H1'|].
    cbn [upd_sec secs].
    destruct (Nat.eqb_spec x sec); [contradiction | now apply H1']. }
  split; [|split; [|exact Hq]].
  - destruct Hkeep as [->| ->]; [now rewrite H1|].
    cbn [upd_sec secs]. now rewrite Nat.eqb_refl, H1.
  - destruct Hkeep as [->| ->]; [now rewrite H1|].
    cbn [upd_sec secs]. now rewrite Nat.eqb_refl, H1.
Qed.

Lemma migrate_sections_loop st0 l : forall st rest out,
  syms st = syms st0 ->
  (forall x, sec_include (secs st x) = sec_include (secs st0 x) /\
             is_rela_section (secs st x) = is_rela_section (secs st0 x)) ->
  (forall x, In x out ->
     is_rela_section (secs st x) = false ->
     forall q, sec_secsym (secs st x) = Some q ->
               sym_include (syms st0 q) = true) ->
  let r :=
    fold_left
      (fun '(st, rest, out) sec =>
         if negb (sec_include (secs st sec)) then (st, rest ++ [sec], out)%list
         else
           let st := upd_sec st sec (set_sec_index 0) in
           let st :=
             match sec_secsym (secs st sec) with
             | Some secsym =>
                 if negb (is_rela_section (secs st sec)) &&
                    negb (sym_include (syms st secsym))
                 then upd_sec st sec (set_sec_secsym None)
                 else st
             | None => st
             end in
           (st, rest, out ++ [sec])%list)
      l (st, rest, out) in
  snd r = (out ++ filter (fun s => sec_include (secs st0 s)) l)%list /\
  snd (fst r)
    = (rest ++ filter (fun s => negb (sec_include (secs st0 s))) l)%list /\
  syms (fst (fst r)) = syms st0 /\
  (forall x, sec_include (secs (fst (fst r)) x) = sec_include (secs st0 x) /\
             is_rela_section (secs (fst (fst r)) x)
               = is_rela_section (secs st0 x)) /\
  (forall x, In x (snd r) ->
     is_rela_section (secs (fst (fst r)) x) = false ->
     forall q, sec_secsym (secs (fst (fst r)) x) = Some q ->
               sym_include (syms st0 q) = true).
Proof.
  induction l as [|sec l IH]; intros st rest out Hsym Hfl Hout;
    cbn [fold_left filter].
  - cbn [fst snd]. rewrite !app_nil_r. auto.
  - destruct (Hfl sec) as [Ei Er]. rewrite Ei.
    destruct (sec_include (secs st0 sec)) eqn:Einc; cbn [negb].
    + destruct (migrate_section_step st sec) as (Hs2 & Hother & Hi2 & Hr2 & Hq2).
      cbn zeta in Hs2, Hother, Hi2, Hr2, Hq2.
      match goal with |- context [fold_left _ l (?s, rest, _)] =>
        set (st2 := s) in Hs2, Hother, Hi2, Hr2, Hq2 end.
      assert (P1 : syms st2 = syms st0) by congruence.
      assert (P2 : forall x,
                sec_include (secs st2 x) = sec_include (secs st0 x) /\
                is_rela_section (secs st2 x) = is_rela_section (secs st0 x)).
      { intros x. destruct (Nat.eq_dec x sec) as [->|Hx].
        - rewrite Hi2, Hr2. apply Hfl.
        - rewrite (Hother x Hx). apply Hfl. }
      assert (P3 : forall x, In x (out ++ [sec])%list ->
                is_rela_section (secs st2 x) = false ->
                forall q, sec_secsym (secs st2 x) = Some q ->
                          sym_include (syms st0 q) = true).
      { intros x Hx Hrel q Hq. apply in_app_or in Hx.
        destruct (Nat.eq_dec x sec) as [->|Hne].
        - rewrite <- Hsym. rewrite Hr2 in Hrel. now apply (Hq2 Hrel q).
        - rewrite (Hother x Hne) in Hrel, Hq.
          destruct Hx as [Hx|[Hx|[]]]; [|congruence].
          now apply (Hout x Hx Hrel q). }
      pose proof (IH st2 rest (out ++ [sec])%list P1 P2 P3) as H.
      lazy zeta in H |- *. unfold st2 in H. lazy zeta in H.
      destruct H as (E1 & E2 & E3 & E4 & E5).
      split; [rewrite E1, <- app_assoc; reflexivity|].
      split; [exact E2|]. split; [exact E3|]. split; [exact E4 | exact E5].
    + pose proof (IH st (rest ++ [sec])%list out Hsym Hfl Hout) as H.
      lazy zeta in H |- *. destruct H as (E1 & E2 & E3 & E4 & E5).
      split; [exact E1|].
      split; [rewrite E2, <- app_assoc; reflexivity|].
      split; [exact E3|]. split; [exact E4 | exact E5].
Qed.

Lemma migrate_symbol_step st sym :
  let st1 := upd_sym st sym (set_sym_index 0) in
  let st2 := match sym_sec (syms st1 sym) with
             | Some sec =>
                 if negb (sec_include (secs st1 sec))
                 then upd_sym st1 sym (set_sym_sec None)
                 else st1
             | None => st1
             end in
  secs st2 = secs st /\
  (forall x, x <> sym -> syms st2 x = syms st x) /\
  sym_include (syms st2 sym) = sym_include (syms st sym) /\
  (forall s, sym_sec (syms st2 sym) = Some s ->
             sec_include (secs st s) = true).
Proof.
  intros st1 st2.
  assert (H1 : syms st1 sym = set_sym_index 0 (syms st sym)).
  { unfold st1. cbn [upd_sym syms]. now rewrite Nat.eqb_refl. }
  assert (H1' : forall x, x <> sym -> syms st1 x = syms st x).
  { intros x Hx. unfold st1. cbn [upd_sym syms].
    destruct (Nat.eqb_spec x sym); [contradiction | reflexivity]. }
  assert (Hkeep : st2 = st1 \/ st2 = upd_sym st1 sym (set_sym_sec None)).
  { unfold st2. destruct (sym_sec (syms st1 sym)); [|now left].
    destruct (negb _); [now right | now left]. }
  assert (Hq : forall s, sym_sec (syms st2 sym) = Some s ->
                         sec_include (secs st s) = true).
  { intros s. unfold st2. rewrite H1. cbn [set_sym_index sym_sec].
    change (secs st1) with (secs st).
    destruct (sym_sec (syms st sym)) as [s'|] eqn:Es.
    - destruct (sec_include (secs st s')) eqn:Ei; cbn [negb].
      + rewrite H1. cbn [set_sym_index sym_sec]. rewrite Es.
        now intros [= <-].
      + cbn [upd_sym syms]. rewrite Nat.eqb_refl. discriminate.
    - rewrite H1. cbn [set_sym_index sym_sec]. rewrite Es. discriminate. }
  split; [destruct Hkeep as [->| ->]; reflexivity|].
  split.
  { intros x Hx. destruct Hkeep as [->| ->]; [now apply H1'|].
    cbn [upd_sym syms].
    destruct (Nat.eqb_spec x sym); [contradiction | now apply H1']. }
  split; [|exact Hq].
  destruct Hkeep as [->| ->]; [now rewrite H1|].
  cbn [upd_sym syms]. now rewrite Nat.eqb_refl, H1.
Qed.

Lemma migrate_symbols_pass st0 l : forall st rest out,
  secs st = secs st0 ->
  (forall x, sym_include (syms st x) = sym_include (syms st0 x)) ->
  (forall x, In x out ->
     forall s, sym_sec (syms st x) = Some s ->
               sec_include (secs st0 s) = true) ->
  let r :=
    fold_left
      (fun '(st, rest, out) sym =>
         if negb (sym_include (syms st sym)) then (st, rest ++ [sym], out)%list
         else
           let st := upd_sym st sym (set_sym_index 0) in
           let st :=
             match sym_sec (syms st sym) with
             | Some sec =>
                 if negb (sec_include (secs st sec))
                 then upd_sym st sym (set_sym_sec None)
                 else st
             | None => st
             end in
           (st, rest, out ++ [sym])%list)
      l (st, rest, out) in
  snd r = (out ++ filter (fun p => sym_include (syms st0 p)) l)%list /\
  snd (fst r)
    = (rest ++ filter (fun p => negb (sym_include (syms st0 p))) l)%list /\
  secs (fst (fst r)) = secs st0 /\
  (forall x, sym_include (syms (fst (fst r)) x) = sym_include (syms st0 x)) /\
  (forall x, In x (snd r) ->
     forall s, sym_sec (syms (fst (fst r)) x) = Some s ->
               sec_include (secs st0 s) = true).
Proof.
  induction l as [|sym l IH]; intros st rest out Hsec Hfl Hout;
    cbn [fold_left filter].
  - cbn [fst snd]. rewrite !app_nil_r. auto.
  - rewrite (Hfl sym).
    destruct (sym_include (syms st0 sym)) eqn:Einc; cbn [negb].
    + destruct (migrate_symbol_step st sym) as (Hs2 & Hother & Hi2 & Hq2).
      cbn zeta in Hs2, Hother, Hi2, Hq2.
      match goal with |- context [fold_left _ l (?s, rest, _)] =>
        set (st2 := s) in Hs2, Hother, Hi2, Hq2 end.
      assert (P1 : secs st2 = secs st0) by congruence.
      assert (P2 : forall x,
                sym_include (syms st2 x) = sym_include (syms st0 x)).
      { intros x. destruct (Nat.eq_dec x sym) as [->|Hx].
        - rewrite Hi2. apply Hfl.
        - rewrite (Hother x Hx). apply Hfl. }
      assert (P3 : forall x, In x (out ++ [sym])%list ->
                forall s, sym_sec (syms st2 x) = Some s ->
                          sec_include (secs st0 s) = true).
      { intros x Hx s Hs. apply in_app_or in Hx.
        destruct (Nat.eq_dec x sym) as [->|Hne].
        - rewrite <- Hsec. now apply Hq2.
        - rewrite (Hother x Hne) in Hs.
          destruct Hx as [Hx|[Hx|[]]]; [|congruence].
          now apply (Hout x Hx s). }
      pose proof (IH st2 rest (out ++ [sym])%list P1 P2 P3) as H.
      lazy zeta in H |- *. unfold st2 in H. lazy zeta in H.
      destruct H as (E1 & E2 & E3 & E4 & E5).
      split; [rewrite E1, <- app_assoc; reflexivity|].
      split; [exact E2|]. split; [exact E3|]. split; [exact E4 | exact E5].
    + pose proof (IH st (rest ++ [sym])%list out Hsec Hfl Hout) as H.
      lazy zeta in H |- *. destruct H as (E1 & E2 & E3 & E4 & E5).
      split; [exact E1|].
      split; [rewrite E2, <- app_assoc; reflexivity|].
      split; [exact E3|]. split; [exact E4 | exact E5].
Qed.


(** ** Indices *)

Lemma reindex_sections_loop l : forall st index,
  NoDup l ->
  let r := fold_left
             (fun '(st, index) sec =>
                (upd_sec st sec (set_sec_index index), index + 1))
             l (st, index) in
  syms (fst r) = syms st /\
  (forall k sec, nth_error l k = Some sec ->
                 sec_index (secs (fst r) sec) = index + Z.of_nat k) /\
  (forall x, ~ In x l -> secs (fst r) x = secs st x).
Proof.
  induction l as [|a l IH]; intros st index Hnd; cbn [fold_left].
  - cbn [fst]. split; [reflexivity|]. split; [|reflexivity].
    intros [|k] sec; discriminate.
  - inversion Hnd as [|? ? Ha Hnd']; subst.
    pose proof (IH (upd_sec st a (set_sec_index index)) (index + 1) Hnd') as H.
    lazy zeta in H |- *. destruct H as (E1 & E2 & E3).
    split; [exact E1|]. split.
    + intros [|k] sec; cbn [nth_error].
      * intros [= <-]. rewrite (E3 a Ha). cbn [upd_sec secs].
        rewrite Nat.eqb_refl. cbn. lia.
      * intros Hk. rewrite (E2 k sec Hk). lia.
    + intros x Hx. rewrite E3 by (intros H; apply Hx; now right).
      cbn [upd_sec secs].
      destruct (Nat.eqb_spec x a) as [->|_]; [|reflexivity].
      exfalso. apply Hx. now left.
Qed.

Lemma reindex_symbol_step st sym index :
  let st1 := upd_sym st sym (set_sym_index index) in
  let st2 := match sym_sec (syms st1 sym) with
             | Some sec =>
                 upd_sym st1 sym
                   (set_st_shndx (to_half (sec_index (secs st1 sec))))
             | None =>
                 if negb (st_shndx (syms st1 sym) =? SHN_ABS)
                 then upd_sym st1 sym (set_st_shndx SHN_UNDEF)
                 else st1
             end in
  secs st2 = secs st /\
  (forall x, x <> sym -> syms st2 x = syms st x) /\
  sym_index (syms st2 sym) = index /\
  st_shndx (syms st2 sym) = shndx_of st (syms st sym) /\
  sym_sec (syms st2 sym) = sym_sec (syms st sym).
Proof.
  intros st1 st2.
  assert (H1 : syms st1 sym = set_sym_index index (syms st sym)).
  { unfold st1. cbn [upd_sym syms]. now rewrite Nat.eqb_refl. }
  assert (H1' : forall x, x <> sym -> syms st1 x = syms st x).
  { intros x Hx. unfold st1. cbn [upd_sym syms].
    destruct (Nat.eqb_spec x sym); [contradiction | reflexivity]. }
  unfold st2, shndx_of. rewrite H1. cbn [set_sym_index sym_sec st_shndx].
  change (secs st1) with (secs st).
  destruct (sym_sec (syms st sym)) as [sec|] eqn:Es.
  - split; [reflexivity|]. split.
    { intros x Hx. cbn [upd_sym syms].
      destruct (Nat.eqb_spec x sym); [contradiction | now apply H1']. }
    cbn [upd_sym syms]. rewrite Nat.eqb_refl, H1. cbn. auto.
  - destruct (st_shndx (syms st sym) =? SHN_ABS) eqn:Ea; cbn [negb].
    + split; [reflexivity|]. split; [exact H1'|]. rewrite H1. cbn.
      apply Z.eqb_eq in Ea. auto.
    + split; [reflexivity|]. split.
      { intros x Hx. cbn [upd_sym syms].
        destruct (Nat.eqb_spec x sym); [contradiction | now apply H1']. }
      cbn [upd_sym syms]. rewrite Nat.eqb_refl, H1. cbn. auto.
Qed.

Lemma reindex_symbols_loop st0 l : forall st index,
  NoDup l ->
  secs st = secs st0 ->
  let r := fold_left
             (fun '(st, index) sym =>
                let st := upd_sym st sym (set_sym_index index) in
                let st :=
                  match sym_sec (syms st sym) with
                  | Some sec =>
                      upd_sym st sym
                        (set_st_shndx (to_half (sec_index (secs st sec))))
                  | None =>
                      if negb (st_shndx (syms st sym) =? SHN_ABS)
                      then upd_sym st sym (set_st_shndx SHN_UNDEF)
                      else st
                  end in
                (st, index + 1))
             l (st, index) in
  secs (fst r) = secs st0 /\
  (forall k p, nth_error l k = Some p ->
     sym_index (syms (fst r) p) = index + Z.of_nat k /\
     st_shndx (syms (fst r) p) = shndx_of st0 (syms st p) /\
     sym_sec (syms (fst r) p) = sym_sec (syms st p)) /\
  (forall x, ~ In x l -> syms (fst r) x = syms st x).
Proof.
  induction l as [|a l IH]; intros st index Hnd Hsec; cbn [fold_left].
  - cbn [fst]. split; [exact Hsec|]. split; [|reflexivity].
    intros [|k] p; discriminate.
  - inversion Hnd as [|? ? Ha Hnd']; subst.
    destruct (reindex_symbol_step st a index) as (S1 & S2 & S3 & S4 & S5).
    lazy zeta in S1, S2, S3, S4, S5.
    match goal with |- context [fold_left _ l (?s, _)] =>
      set (st2 := s) in S1, S2, S3, S4, S5 end.
    assert (P : secs st2 = secs st0) by congruence.
    pose proof (IH st2 (index + 1) Hnd' P) as H.
    lazy zeta in H |- *. unfold st2 in H. lazy zeta in H.
    fold st2 in H |- *.
    destruct H as (E1 & E2 & E3).
    split; [exact E1|]. split.
    + intros [|k] p; cbn [nth_error].
      * intros [= <-]. rewrite (E3 a Ha), S3, S4, S5.
        unfold shndx_of. rewrite Hsec. split; [lia | auto].
      * intros Hk. destruct (E2 k p Hk) as (I1 & I2 & I3).
        assert (Hp : p <> a).
        { intros ->. apply Ha. eapply nth_error_In; eauto. }
        rewrite (S2 p Hp) in I2, I3. split; [lia | auto].
    + intros x Hx. rewrite E3 by (intros H; apply Hx; now right).
      apply S2. intros ->. apply Hx. now left.
Qed.

(** X8.  [xsplice_reindex_elements] on lists without repetition: the
    sections are numbered from 1 and the symbols from 0 in list order; a
    symbol with a section gets the index of its section as [st_shndx]
    (truncated to the 16 bits of the field), a symbol without section
    keeps [SHN_ABS] or gets [SHN_UNDEF]. *)
Theorem xsplice_reindex_elements_numbers (kelf : xsplice_elf) (st : store) :
  NoDup (sections kelf) -> NoDup (symbols kelf) ->
  let st' := xsplice_reindex_elements kelf st in
  (forall k sec, nth_error (sections kelf) k = Some sec ->
                 sec_index (secs st' sec) = Z.of_nat k + 1) /\
  (forall k p, nth_error (symbols kelf) k = Some p ->
     sym_index (syms st' p) = Z.of_nat k /\
     st_shndx (syms st' p)
       = match sym_sec (syms st p) with
         | Some sec => to_half (sec_index (secs st' sec))
         | None => if st_shndx (syms st p) =? SHN_ABS
                   then SHN_ABS else SHN_UNDEF
         end).
Proof.
  intros Hs Hp. unfold xsplice_reindex_elements.
  pose proof (reindex_sections_loop (sections kelf) st 1 Hs) as H1.
  lazy zeta in H1 |- *.
  match type of H1 with context [fold_left ?f ?l ?s] =>
    destruct (fold_left f l s) as [st1 i1] end.
  cbn [fst] in H1. destruct H1 as (E1 & E2 & _).
  pose proof (reindex_symbols_loop st1 (symbols kelf) st1 0 Hp eq_refl) as H2.
  lazy zeta in H2.
  match type of H2 with context [fold_left ?f ?l ?s] =>
    destruct (fold_left f l s) as [st2 i2] end.
  cbn [fst] in H2. destruct H2 as (F1 & F2 & _).
  split.
  - intros k sec Hk. rewrite F1, (E2 k sec Hk). lia.
  - intros k p Hk. destruct (F2 k p Hk) as (I1 & I2 & _).
    split; [lia|]. rewrite I2. unfold shndx_of. rewrite E1, F1. reflexivity.
Qed.

Lemma xsplice_reindex_elements_numbers_witness :
  sec_index (secs (xsplice_reindex_elements PatchExample.kelf_out
                     PatchExample.st_out) 2) = 3 /\
  sym_index (syms (xsplice_reindex_elements PatchExample.kelf_out
                     PatchExample.st_out) 3) = 3 /\
  st_shndx (syms (xsplice_reindex_elements PatchExample.kelf_out
                    PatchExample.st_out) 3) = 2.
Proof.
  destruct (xsplice_reindex_elements_numbers PatchExample.kelf_out
              PatchExample.st_out (seq_NoDup 3 0) (seq_NoDup 6 0))
    as [Hsec Hsym].
  cbn zeta. split; [apply (Hsec 2%nat 2%nat eq_refl)|].
  destruct (Hsym 3%nat 3%nat eq_refl) as [Hi Hx].
  split; [exact Hi|]. rewrite Hx.
  change (sym_sec (syms PatchExample.st_out 3)) with (Some 1%nat).
  cbn iota. rewrite (Hsec 1%nat 1%nat eq_refl). reflexivity.
Defined.

(** ** The string section *)

Lemma length_c_string s : Z.of_nat (List.length (c_string s)) = strlen s + 1.
Proof.
  unfold c_string, strlen. rewrite length_app. cbn [List.length].
  assert (H : List.length (list_byte_of_string s) = String.length s).
  { unfold list_byte_of_string. rewrite length_map.
    induction s as [|c s IH]; cbn; congruence. }
  rewrite H. lia.
Qed.

Lemma strings_size_loop l : forall n,
  fold_left (fun size s => size + (strlen s + 1)) l n
  = n + strings_size l.
Proof.
  unfold strings_size. induction l as [|s l IH]; intros n; cbn [fold_left].
  - lia.
  - rewrite IH, (IH (0 + _)). lia.
Qed.

Lemma strtab_loop l : forall buf,
  fold_left (fun strtab s => (strtab ++ c_string s)%list) l buf
  = (buf ++ List.concat (map c_string l))%list.
Proof.
  induction l as [|s l IH]; intros buf; cbn [fold_left map List.concat].
  - now rewrite app_nil_r.
  - now rewrite IH, app_assoc.
Qed.

Lemma length_strtab l :
  Z.of_nat (List.length (List.concat (map c_string l))) = strings_size l.
Proof.
  induction l as [|s l IH]; [reflexivity|].
  cbn [map List.concat]. rewrite length_app, Nat2Z.inj_add, IH, length_c_string.
  unfold strings_size at 2. cbn [fold_left]. rewrite strings_size_loop. lia.
Qed.

Lemma strlen_nonneg s : 0 <= strlen s.
Proof. unfold strlen. lia. Qed.

Lemma string_offset_bytes name : forall l off,
  string_offset l name = Some off ->
  0 <= off /\
  firstn (Z.to_nat (strlen name + 1))
         (skipn (Z.to_nat off) (List.concat (map c_string l)))
    = c_string name.
Proof.
  induction l as [|s l IH]; intros off; cbn [string_offset]; [discriminate|].
  destruct (streq s name) eqn:E.
  - intros [= <-]. apply streq_eq in E. subst s. split; [lia|].
    cbn [map List.concat Z.to_nat skipn].
    rewrite <- length_c_string, Nat2Z.id, firstn_app, Nat.sub_diag.
    cbn [firstn]. now rewrite firstn_all, app_nil_r.
  - destruct (string_offset l name) as [o|]; [|discriminate].
    cbn [option_map]. intros [= <-]. destruct (IH o eq_refl) as [Ho Hb].
    pose proof (strlen_nonneg s). split; [lia|].
    cbn [map List.concat].
    replace (Z.to_nat (strlen s + 1 + o))
      with (List.length (c_string s) + Z.to_nat o)%nat
      by (pose proof (length_c_string s); lia).
    rewrite skipn_app, skipn_all2 by lia.
    replace (List.length (c_string s) + Z.to_nat o
             - List.length (c_string s))%nat with (Z.to_nat o) by lia.
    cbn [app]. exact Hb.
Qed.

(** X9.  When [xsplice_build_strings_section_data] returns, the data of
    the [.xsplice.strings] section has the size that the first loop
    determined, and at the offset of every name of the string list the
    buffer holds the bytes of the name followed by NUL. *)
Theorem xsplice_build_strings_section_data_layout (kelf : xsplice_elf)
  (st st' : store) :
  xsplice_build_strings_section_data kelf st = Ok st' ->
  exists sec,
    find_section_by_name st (sections kelf) ".xsplice.strings" = Some sec /\
    d_size (secs st' sec) = strings_size (strings kelf) /\
    forall name off,
      string_offset (strings kelf) name = Some off ->
      0 <= off /\
      firstn (Z.to_nat (strlen name + 1))
             (skipn (Z.to_nat off) (d_buf (secs st' sec)))
        = c_string name.
Proof.
  unfold xsplice_build_strings_section_data.
  destruct (find_section_by_name st (sections kelf) ".xsplice.strings")
    as [sec|]; [|discriminate].
  intros [= <-]. exists sec. split; [reflexivity|].
  cbn [upd_sec secs]. rewrite Nat.eqb_refl. unfold d_size.
  cbn [set_d_buf d_buf]. rewrite strtab_loop. cbn [app].
  split; [apply length_strtab|].
  intros name off. apply string_offset_bytes.
Qed.

Lemma xsplice_build_strings_section_data_layout_witness :
  exists st',
    xsplice_build_strings_section_data
      {| sections := seq 0 3; symbols := seq 0 6;
         strings := ["f"; "a.c#g"] |} PatchExample.st_out = Ok st' /\
    d_size (secs st' 2) = 8 /\
    firstn 6 (skipn 2 (d_buf (secs st' 2))) = c_string "a.c#g".
Proof.
  assert (E : is_ok (xsplice_build_strings_section_data
                       {| sections := seq 0 3; symbols := seq 0 6;
                          strings := ["f"; "a.c#g"] |} PatchExample.st_out)
              = true) by (vm_compute; reflexivity).
  apply is_ok_Ok in E. destruct E as [st' E]. exists st'.
  split; [exact E|].
  destruct (xsplice_build_strings_section_data_layout _ _ _ E)
    as (sec & Hf & Hsize & Hoff).
  vm_compute in Hf. injection Hf as <-.
  split; [exact Hsize|].
  apply (Hoff "a.c#g" 2). reflexivity.
Defined.

(** ** Local symbol names *)

Lemma rename_local_symbols_loop hint l : forall st,
  NoDup l ->
  let st' :=
    fold_left
      (fun st sym =>
         if strlen (sym_name (syms st sym)) =? 0 then st
         else if negb (sym_type (syms st sym) =? STT_FUNC) &&
                 negb (sym_type (syms st sym) =? STT_OBJECT) then st
         else if negb (sym_bind (syms st sym) =? STB_LOCAL) then st
         else upd_sym st sym
                (set_sym_name
                   (mangle_local_symbol hint (sym_name (syms st sym)))))
      l st in
  secs st' = secs st /\
  (forall p, In p l ->
     syms st' p
     = if is_renamed_local (syms st p)
       then set_sym_name (mangle_local_symbol hint (sym_name (syms st p)))
                         (syms st p)
       else syms st p) /\
  (forall p, ~ In p l -> syms st' p = syms st p).
Proof.
  induction l as [|a l IH]; intros st Hnd; cbn [fold_left].
  - split; [reflexivity|]. split; [intros p [] | reflexivity].
  - inversion Hnd as [|? ? Ha Hnd']; subst.
    set (st1 := if strlen (sym_name (syms st a)) =? 0 then st
                else if negb (sym_type (syms st a) =? STT_FUNC) &&
                        negb (sym_type (syms st a) =? STT_OBJECT) then st
                else if negb (sym_bind (syms st a) =? STB_LOCAL) then st
                else upd_sym st a
                       (set_sym_name
                          (mangle_local_symbol hint (sym_name (syms st a))))).
    assert (H1 : secs st1 = secs st /\
                 (forall x, x <> a -> syms st1 x = syms st x) /\
                 syms st1 a
                 = if is_renamed_local (syms st a)
                   then set_sym_name
                          (mangle_local_symbol hint (sym_name (syms st a)))
                          (syms st a)
                   else syms st a).
    { unfold st1, is_renamed_local.
      destruct (strlen (sym_name (syms st a)) =? 0); cbn [negb andb];
        [repeat split|].
      rewrite <- negb_orb.
      destruct ((sym_type (syms st a) =? STT_FUNC) ||
                (sym_type (syms st a) =? STT_OBJECT)); cbn [negb andb];
        [|repeat split].
      destruct (sym_bind (syms st a) =? STB_LOCAL); cbn [negb];
        [|repeat split].
      split; [reflexivity|]. split.
      - intros x Hx. cbn [upd_sym syms].
        destruct (Nat.eqb_spec x a); [contradiction | reflexivity].
      - cbn [upd_sym syms]. now rewrite Nat.eqb_refl. }
    destruct H1 as (S1 & S2 & S3).
    pose proof (IH st1 Hnd') as H. lazy zeta in H |- *.
    destruct H as (E1 & E2 & E3).
    split; [congruence|]. split.
    + intros p [<-|Hp].
      * rewrite (E3 a Ha). exact S3.
      * assert (Hne : p <> a) by (intros ->; contradiction).
        rewrite (E2 p Hp), (S2 p Hne). reflexivity.
    + intros p Hp. rewrite E3 by (intros H; apply Hp; now right).
      apply S2. intros ->. apply Hp. now left.
Qed.

(** X10.  [xsplice_rename_local_symbols] on a symbol list without
    repetition renames exactly the [STB_LOCAL] symbols of type
    [STT_FUNC] or [STT_OBJECT] with a non-empty name, to
    [hint#name], and changes nothing else; so the name of a [CHANGED]
    function with a non-empty name is afterwards the name that its entry
    of the patch table refers to. *)
Theorem xsplice_rename_local_symbols_names (kelf : xsplice_elf) (st : store)
  (hint : string) :
  NoDup (symbols kelf) ->
  let st' := xsplice_rename_local_symbols kelf st hint in
  secs st' = secs st /\
  (forall p, In p (symbols kelf) ->
     syms st' p
     = if is_renamed_local (syms st p)
       then set_sym_name (mangle_local_symbol hint (sym_name (syms st p)))
                         (syms st p)
       else syms st p) /\
  (forall p, ~ In p (symbols kelf) -> syms st' p = syms st p) /\
  (forall p, In p (symbols kelf) ->
     is_changed_function (syms st p) = true ->
     sym_name (syms st p) <> "" ->
     sym_name (syms st' p) = funcname_of st hint p).
Proof.
  intros Hnd.
  destruct (rename_local_symbols_loop hint (symbols kelf) st Hnd)
    as (E1 & E2 & E3).
  cbn zeta. unfold xsplice_rename_local_symbols.
  split; [exact E1|]. split; [exact E2|]. split; [exact E3|].
  intros p Hp Hc Hn. rewrite (E2 p Hp).
  unfold is_changed_function in Hc. apply andb_prop in Hc.
  destruct Hc as [_ Ht]. unfold is_renamed_local, funcname_of.
  rewrite Ht. cbn [orb andb].
  assert (Hl : (strlen (sym_name (syms st p)) =? 0) = false).
  { apply Z.eqb_neq. unfold strlen.
    destruct (sym_name (syms st p)); [contradiction | cbn; lia]. }
  rewrite Hl. cbn [negb andb].
  now destruct (sym_bind (syms st p) =? STB_LOCAL).
Qed.

Lemma xsplice_rename_local_symbols_names_witness :
  sym_name (syms (xsplice_rename_local_symbols PatchExample.kelf_out
                    PatchExample.st_out "a.c") 3) = "a.c#g" /\
  sym_name (syms (xsplice_rename_local_symbols PatchExample.kelf_out
                    PatchExample.st_out "a.c") 2) = "f".
Proof.
  destruct (xsplice_rename_local_symbols_names PatchExample.kelf_out
              PatchExample.st_out "a.c" (seq_NoDup 6 0))
    as (_ & _ & _ & H).
  split; apply H; vm_compute; auto 10; discriminate.
Defined.

(** ** The string elements and the patch table *)

Lemma xsplice_create_patches_sections_returns
  (sizeof_funcs offsetof_name : Z) (sizeof_pad : nat) (PATCH_INSN_SIZE : Z)
  (lookup_local_symbol : string -> string -> option (Z * Z))
  (lookup_global_symbol : string -> option (Z * Z))
  (kelf : xsplice_elf) (st : store) (hint : string) (resolve : bool)
  (sec relasec : nat) :
  find_symbol_by_name st (symbols kelf) ".xsplice.strings" <> None ->
  (forall p, In p (symbols kelf) -> is_changed_function (syms st p) = true ->
     patchable PATCH_INSN_SIZE lookup_local_symbol lookup_global_symbol
       st hint p) ->
  is_ok (xsplice_create_patches_sections sizeof_funcs offsetof_name sizeof_pad
           PATCH_INSN_SIZE lookup_local_symbol lookup_global_symbol
           kelf st hint resolve sec relasec) = true.
Proof.
  intros Hfind Hall.
  unfold xsplice_create_patches_sections. rewrite count_changed.
  unfold counted. cbn [Z.add]. unfold create_section_pair.
  set (changed := filter (fun p => is_changed_function (syms st p))
                         (symbols kelf)).
  set (nr := Z.of_nat (List.length changed)).
  match goal with |- context [deref (sec_rela (secs ?s sec))] =>
    set (st1 := s) end.
  assert (Hrela : sec_rela (secs st1 sec) = Some relasec).
  { unfold st1. cbn [upd_sec secs]. rewrite Nat.eqb_refl. reflexivity. }
  assert (Hsyms : syms st1 = syms st) by reflexivity.
  rewrite Hrela. cbn [deref bind symbols strings sections].
  unfold find_symbol_by_name in *. rewrite Hsyms.
  destruct (find _ (symbols kelf)) as [strsym|]; [|now destruct Hfind].
  pose proof (populate_loop sizeof_funcs offsetof_name sizeof_pad
                PATCH_INSN_SIZE lookup_local_symbol lookup_global_symbol
                st hint resolve relasec strsym (symbols kelf) st1
                (strings kelf) [] (repeat None (Z.to_nat nr))) as Hloop.
  pose proof (populate_loop_total sizeof_funcs offsetof_name sizeof_pad
                PATCH_INSN_SIZE lookup_local_symbol lookup_global_symbol
                st hint resolve relasec strsym (symbols kelf) st1
                (strings kelf) [] (repeat None (Z.to_nat nr)) Hsyms) as Htot.
  cbn [map app List.length Z.of_nat] in Hloop, Htot.
  fold changed in Hloop, Htot.
  match goal with |- context [bind (foreach ?l ?f ?s) _] =>
    destruct (foreach l f s) as [[[[st2 strs] funcs] index]|e] end;
    cbn [bind].
  - destruct (Hloop _ _ _ _ Hsyms eq_refl) as (_ & _ & -> & _).
    fold nr. replace (0 + nr =? nr) with true
      by (symmetry; apply Z.eqb_eq; lia).
    reflexivity.
  - apply Htot.
    + intros p Hp. unfold changed in Hp. apply filter_In in Hp.
      now apply Hall.
    + rewrite repeat_length. unfold nr. lia.
Qed.

(** X11.  After [xsplice_create_strings_elements] with a fresh symbol,
    the [.xsplice.strings] section and symbol are found by name, so
    [xsplice_create_patches_sections] returns whenever every [CHANGED]
    function of the symbol list is found by the lookup with a size of at
    least [PATCH_INSN_SIZE]. *)
Theorem xsplice_create_strings_elements_found
  (sizeof_funcs offsetof_name : Z) (sizeof_pad : nat) (PATCH_INSN_SIZE : Z)
  (lookup_local_symbol : string -> string -> option (Z * Z))
  (lookup_global_symbol : string -> option (Z * Z))
  (kelf : xsplice_elf) (st : store) (hint : string) (resolve : bool)
  (strsec strsym sec relasec : nat) :
  ~ In strsym (symbols kelf) ->
  (forall p, In p (symbols kelf) -> is_changed_function (syms st p) = true ->
     patchable PATCH_INSN_SIZE lookup_local_symbol lookup_global_symbol
       st hint p) ->
  let st1 := fst (xsplice_create_strings_elements kelf st strsec strsym) in
  let kelf1 := snd (xsplice_create_strings_elements kelf st strsec strsym) in
  find_section_by_name st1 (sections kelf1) ".xsplice.strings" <> None /\
  find_symbol_by_name st1 (symbols kelf1) ".xsplice.strings" <> None /\
  is_ok (xsplice_create_patches_sections sizeof_funcs offsetof_name sizeof_pad
           PATCH_INSN_SIZE lookup_local_symbol lookup_global_symbol
           kelf1 st1 hint resolve sec relasec) = true.
Proof.
  intros Hfresh Hall st1 kelf1.
  assert (Hs : syms st1 strsym
               = mkSymbol ".xsplice.strings" STT_SECTION STB_LOCAL
                   (Some strsec) None false NEW 3 0 0 0 0 0).
  { unfold st1, xsplice_create_strings_elements. cbn [fst upd_sym syms].
    now rewrite Nat.eqb_refl. }
  assert (Hother : forall p, p <> strsym -> syms st1 p = syms st p).
  { intros p Hp. unfold st1, xsplice_create_strings_elements.
    cbn [fst upd_sym upd_sec syms].
    destruct (Nat.eqb_spec p strsym); [contradiction | reflexivity]. }
  assert (Hc : secs st1 strsec
               = mkSection ".xsplice.strings" SHT_PROGBITS SHF_ALLOC
                   0 1 1 0 [] None None None None [] None
                   false NEW false false 0).
  { unfold st1, xsplice_create_strings_elements.
    cbn [fst upd_sym upd_sec secs]. now rewrite Nat.eqb_refl. }
  assert (Hfs : find_symbol_by_name st1 (symbols kelf1) ".xsplice.strings"
                <> None).
  { unfold find_symbol_by_name. intros Hn.
    assert (Hin : In strsym (symbols kelf1)).
    { unfold kelf1, xsplice_create_strings_elements. cbn [snd symbols].
      apply in_or_app. right. now left. }
    pose proof (find_none _ _ Hn strsym Hin) as Hf. cbn beta in Hf.
    rewrite Hs in Hf. discriminate Hf. }
  split; [|split; [exact Hfs|]].
  - unfold find_section_by_name. intros Hn.
    assert (Hin : In strsec (sections kelf1)).
    { unfold kelf1, xsplice_create_strings_elements. cbn [snd sections].
      apply in_or_app. right. now left. }
    pose proof (find_none _ _ Hn strsec Hin) as Hf. cbn beta in Hf.
    rewrite Hc in Hf. discriminate Hf.
  - apply xsplice_create_patches_sections_returns; [exact Hfs|].
    intros p Hp. unfold kelf1, xsplice_create_strings_elements in Hp.
    cbn [snd symbols] in Hp. apply in_app_or in Hp.
    destruct Hp as [Hp|[<-|[]]].
    + assert (Hne : p <> strsym) by (intros ->; contradiction).
      rewrite (Hother p Hne). intros Hch.
      destruct (Hall p Hp Hch) as (value & size & Hl & Hsz).
      exists value, size. split; [|exact Hsz].
      unfold lookup_of in *. now rewrite (Hother p Hne).
    + rewrite Hs. discriminate.
Qed.

Lemma xsplice_create_strings_elements_found_witness :
  is_ok (xsplice_create_patches_sections 64 32 4 5
           PatchExample.lookup_local PatchExample.lookup_global
           (snd (xsplice_create_strings_elements PatchExample.kelf_out
                   PatchExample.st_out 3 6))
           (fst (xsplice_create_strings_elements PatchExample.kelf_out
                   PatchExample.st_out 3 6))
           "a.c" false 4 5) = true.
Proof.
  apply (xsplice_create_strings_elements_found 64 32 4 5
           PatchExample.lookup_local PatchExample.lookup_global
           PatchExample.kelf_out PatchExample.st_out "a.c" false 3 6 4 5).
  - vm_compute. intuition discriminate.
  - intros p Hp. vm_compute in Hp.
    destruct Hp as [<-|[<-|[<-|[<-|[<-|[<-|[]]]]]]]; intros Hc;
      try discriminate Hc.
    + exists 4096, 32. split; [reflexivity | lia].
    + exists 8192, 64. split; [reflexivity | lia].
Defined.

(** ** Mangled equality *)

Lemma canonical_from_skip s :
  canonical_from true s = canonical_from false (skip_digits s).
Proof.
  induction s as [|c t IH]; [reflexivity|].
  cbn [canonical_from skip_digits andb].
  destruct (isdigit c) eqn:E; [exact IH|].
  cbn [canonical_from andb]. reflexivity.
Qed.

Lemma skip_digits_shorter s :
  (String.length (skip_digits s) <= String.length s)%nat.
Proof.
  induction s as [|c t IH]; [reflexivity|]. cbn [skip_digits].
  destruct (isdigit c); cbn [String.length]; lia.
Qed.

Lemma no_nul_skip_digits s : no_nul s = true -> no_nul (skip_digits s) = true.
Proof.
  induction s as [|c t IH]; [reflexivity|]. cbn [skip_digits no_nul].
  intros H. apply andb_prop in H. destruct H as [Hc Ht].
  destruct (isdigit c); [now apply IH|]. cbn [no_nul]. now rewrite Hc, Ht.
Qed.

Lemma canonical_head c t :
  exists r, canonical_from false (String c t) = String c r /\
            (isdigit (peek t) = false ->
             r = canonical_from false t) /\
            (Ascii.eqb c "." = false -> r = canonical_from false t).
Proof.
  cbn [canonical_from andb].
  destruct (Ascii.eqb_spec c ".") as [->|Hc]; cbn [andb].
  - destruct (isdigit (peek t)) eqn:Ed.
    + eexists. split; [reflexivity|]. split; discriminate.
    + eexists. split; [reflexivity|]. auto.
  - eexists. split; [reflexivity|]. auto.
Qed.

Lemma canonical_peek t :
  peek (canonical_from false t) = peek t.
Proof.
  destruct t as [|c t]; [reflexivity|].
  destruct (canonical_head c t) as (r & -> & _). reflexivity.
Qed.

Lemma isdigit_zero : isdigit "0" = true.
Proof. reflexivity. Qed.

Lemma mangled_strcmp_canonical_bounded n : forall s1 s2,
  (String.length s1 <= n)%nat ->
  no_nul s1 = true -> no_nul s2 = true ->
  (xsplice_mangled_strcmp s1 s2 = 0 <-> canonical s1 = canonical s2).
Proof.
  unfold canonical.
  induction n as [|n IH]; intros s1 s2 Hlen Hn1 Hn2.
  - destruct s1; [|cbn in Hlen; lia].
    rewrite xsplice_mangled_strcmp_unfold. cbn [peek canonical_from].
    destruct s2 as [|c2 t2]; cbn [peek].
    + cbn. tauto.
    + cbn [no_nul] in Hn2. apply andb_prop in Hn2. destruct Hn2 as [Hc2 _].
      apply negb_true_iff in Hc2. unfold is_nul in Hc2.
      rewrite Ascii.eqb_sym, Hc2.
      destruct (canonical_head c2 t2) as (r & -> & _).
      split; [lia | discriminate].
  - rewrite xsplice_mangled_strcmp_unfold.
    destruct s1 as [|c1 t1].
    { cbn [peek canonical_from].
      destruct s2 as [|c2 t2]; cbn [peek]; [cbn; tauto|].
      cbn [no_nul] in Hn2. apply andb_prop in Hn2. destruct Hn2 as [Hc2 _].
      apply negb_true_iff in Hc2. unfold is_nul in Hc2.
      rewrite Ascii.eqb_sym, Hc2.
      destruct (canonical_head c2 t2) as (r & -> & _).
      split; [lia | discriminate]. }
    cbn [no_nul] in Hn1. apply andb_prop in Hn1. destruct Hn1 as [Hc1 Ht1].
    apply negb_true_iff in Hc1. cbn [String.length] in Hlen.
    cbn [peek advance].
    destruct s2 as [|c2 t2]; cbn [peek advance].
    { unfold is_nul in Hc1. rewrite Hc1.
      destruct (canonical_head c1 t1) as (r & -> & _).
      split; [lia | discriminate]. }
    cbn [no_nul] in Hn2. apply andb_prop in Hn2. destruct Hn2 as [Hc2 Ht2].
    destruct (Ascii.eqb_spec c1 c2) as [<-|Hne].
    2:{ destruct (canonical_head c1 t1) as (r1 & E1 & _).
        destruct (canonical_head c2 t2) as (r2 & E2 & _).
        rewrite E1, E2.
        split; [lia | intros [= H _]; contradiction]. }
    rewrite Hc1.
    destruct (Ascii.eqb c1 "." && isdigit (peek t1)) eqn:Edot.
    + apply andb_prop in Edot. destruct Edot as [Ed1 Edig1].
      cbn [canonical_from andb]. rewrite Ed1, Edig1. cbn [andb].
      destruct (isdigit (peek t2)) eqn:Edig2; cbn [negb].
      * rewrite !canonical_from_skip.
        rewrite IH; [| pose proof (skip_digits_shorter t1); lia
                     | now apply no_nul_skip_digits
                     | now apply no_nul_skip_digits].
        split; [now intros -> | now intros [= ->]].
      * split; [lia|]. intros [= _ H]. exfalso.
        assert (Hp : peek (canonical_from false t2) = "0"%char)
          by (now rewrite <- H).
        rewrite canonical_peek in Hp. rewrite Hp in Edig2. discriminate.
    + assert (E1 : canonical_from false (String c1 t1)
                   = String c1 (canonical_from false t1)).
      { cbn [canonical_from andb]. now rewrite Edot. }
      rewrite E1.
      destruct (Ascii.eqb c1 "." && isdigit (peek t2)) eqn:Edot2.
      * (* the second name has digits where the first has none *)
        apply andb_prop in Edot2. destruct Edot2 as [Ed Edig2].
        rewrite Ed in Edot. cbn [andb] in Edot.
        rewrite xsplice_mangled_strcmp_unfold.
        destruct (Ascii.eqb_spec (peek t1) (peek t2)) as [Ep|_].
        { rewrite Ep, Edig2 in Edot. discriminate. }
        cbn [canonical_from andb]. rewrite Ed, Edig2. cbn [andb].
        split; [lia|]. intros [= _ H]. exfalso.
        assert (Hp : peek (canonical_from false t1) = "0"%char)
          by (now rewrite H).
        rewrite canonical_peek in Hp. rewrite Hp in Edot. discriminate.
      * assert (E2 : canonical_from false (String c1 t2)
                     = String c1 (canonical_from false t2)).
        { cbn [canonical_from andb]. now rewrite Edot2. }
        rewrite E2, IH by (assumption || lia).
        split; [now intros -> | now intros [= ->]].
Qed.

(** X12.  Two names without NUL are equal for [xsplice_mangled_strcmp]
    exactly when they are equal after every run of digits that follows a
    ['.'] is replaced by a single [0]; so mangled equality is an
    equivalence relation on names. *)
Theorem xsplice_mangled_strcmp_canonical (s1 s2 : string) :
  no_nul s1 = true -> no_nul s2 = true ->
  (xsplice_mangled_strcmp s1 s2 = 0 <-> canonical s1 = canonical s2).
Proof. apply (mangled_strcmp_canonical_bounded (String.length s1)). lia. Qed.

Lemma xsplice_mangled_strcmp_canonical_witness :
  xsplice_mangled_strcmp "foo.isra.1" "foo.isra.23" = 0.
Proof.
  apply (proj2 (xsplice_mangled_strcmp_canonical "foo.isra.1" "foo.isra.23"
                  eq_refl eq_refl)).
  vm_compute. reflexivity.
Defined.

(** ** Constant labels *)

Lemma all_digits_do_while_spec d :
  all_digits_do_while d = true <->
  d <> "" /\ forall c, In c (list_ascii_of_string d) -> isdigit c = true.
Proof.
  induction d as [|c t IH]; cbn [all_digits_do_while list_ascii_of_string].
  - split; [discriminate | intros [H _]; now destruct H].
  - destruct t as [|c' t'].
    + rewrite andb_true_r. split.
      * intros Hc. split; [discriminate|]. intros x [<-|[]]. exact Hc.
      * intros [_ H]. apply H. now left.
    + rewrite andb_true_iff, IH. split.
      * intros (Hc & _ & Ht). split; [discriminate|].
        intros x [<-|Hx]; [exact Hc | now apply Ht].
      * intros [_ H]. split; [apply H; now left|].
        split; [discriminate|]. intros x Hx. apply H. now right.
Qed.

Lemma has_prefix_LC name :
  has_prefix ".LC" name = true <->
  name = ".LC" ++ advance (advance (advance name)).
Proof.
  unfold has_prefix.
  destruct name as [|a [|b [|c t]]];
    cbn [String.prefix advance append].
  - split; discriminate.
  - destruct (ascii_dec "." a); split; discriminate.
  - destruct (ascii_dec "." a); [|split; discriminate].
    destruct (ascii_dec "L" b); split; discriminate.
  - destruct (ascii_dec "." a) as [<-|Ha].
    2:{ split; [discriminate|]. intros [= H]. now destruct Ha. }
    destruct (ascii_dec "L" b) as [<-|Hb].
    2:{ split; [discriminate|]. intros [= H]. now destruct Hb. }
    destruct (ascii_dec "C" c) as [<-|Hc].
    2:{ split; [discriminate|]. intros [= H]. now destruct Hc. }
    destruct t; split; reflexivity.
Qed.

(** X13.  [is_constant_label] holds exactly of the [STB_LOCAL] symbols
    whose name is [.LC] followed by at least one character, all of them
    digits. *)
Theorem is_constant_label_names (s : symbol) :
  is_constant_label s = true <->
  sym_bind s = STB_LOCAL /\
  exists d, sym_name s = ".LC" ++ d /\ d <> "" /\
            forall c, In c (list_ascii_of_string d) -> isdigit c = true.
Proof.
  unfold is_constant_label.
  destruct (Z.eqb_spec (sym_bind s) STB_LOCAL) as [Hb|Hb]; cbn [negb].
  2:{ split; [discriminate | intros [H _]; contradiction]. }
  destruct (has_prefix ".LC" (sym_name s)) eqn:Ep; cbn [negb].
  - apply has_prefix_LC in Ep. rewrite all_digits_do_while_spec. split.
    + intros [Hd Hall]. split; [exact Hb|]. eauto.
    + intros (_ & d & Hn & Hd & Hall). rewrite Hn. cbn [advance append].
      auto.
  - split; [discriminate|]. intros (_ & d & Hn & _).
    assert (Hp : has_prefix ".LC" (sym_name s) = true).
    { apply has_prefix_LC. rewrite Hn. reflexivity. }
    congruence.
Qed.

(** ** Correlation pairs equal names *)

Lemma link_keys {K : Type} (key : nat -> K) tw a b :
  key a = key b ->
  (forall x y, tw x = Some y -> key x = key y) ->
  forall x y, link tw a b x = Some y -> key x = key y.
Proof.
  intros Hab Ht x y. unfold link.
  destruct (Nat.eqb_spec x b) as [->|_]; [intros [= <-]; congruence|].
  destruct (Nat.eqb_spec x a) as [->|_]; [intros [= <-]; congruence|].
  apply Ht.
Qed.

Lemma correlate_section_names st0 B sec1 : forall st st',
  (forall s, sec_name (secs st s) = sec_name (secs st0 s)) ->
  (forall a b, sec_twins st a = Some b ->
               sec_name (secs st0 a) = sec_name (secs st0 b)) ->
  correlate_section st sec1 B = Ok st' ->
  (forall s, sec_name (secs st' s) = sec_name (secs st0 s)) /\
  (forall a b, sec_twins st' a = Some b ->
               sec_name (secs st0 a) = sec_name (secs st0 b)) /\
  syms st' = syms st.
Proof.
  induction B as [|sec2 B IH]; intros st st' Hn Ht; cbn [correlate_section].
  - intros [= <-]. auto.
  - destruct (sections_correlate st sec1 sec2) as [found|] eqn:Ef;
      cbn [bind]; [|discriminate].
    destruct found; [|now apply IH].
    intros [= <-].
    assert (Hsame : sec_name (secs st0 sec1) = sec_name (secs st0 sec2)).
    { unfold sections_correlate in Ef. rewrite !Hn in Ef.
      destruct (streq (sec_name (secs st0 sec1)) (sec_name (secs st0 sec2)))
        eqn:E; cbn [negb] in Ef; [|discriminate].
      now apply streq_eq in E. }
    split; [|split; [|reflexivity]].
    + intros s.
      destruct (links_only_sec_fields _ _ s (links_only_twin_sections st sec1 sec2))
        as (E & _).
      rewrite E. apply Hn.
    + intros a b. rewrite sec_twins_twin_sections.
      now apply (link_keys (fun s => sec_name (secs st0 s))).
Qed.

Lemma twin_symbols_fields st a b x :
  sym_name (syms (twin_symbols st a b) x) = sym_name (syms st x) /\
  sym_type (syms (twin_symbols st a b) x) = sym_type (syms st x).
Proof.
  unfold twin_symbols. cbn [upd_sym syms].
  destruct (Nat.eqb x a), (Nat.eqb x b); split; reflexivity.
Qed.

Lemma correlate_symbol_names st0 B sym1 : forall st st',
  (forall p, sym_name (syms st p) = sym_name (syms st0 p) /\
             sym_type (syms st p) = sym_type (syms st0 p)) ->
  (forall a b, sym_twins st a = Some b ->
     (sym_name (syms st0 a), sym_type (syms st0 a))
     = (sym_name (syms st0 b), sym_type (syms st0 b))) ->
  correlate_symbol st sym1 B = Ok st' ->
  (forall p, sym_name (syms st' p) = sym_name (syms st0 p) /\
             sym_type (syms st' p) = sym_type (syms st0 p)) /\
  (forall a b, sym_twins st' a = Some b ->
     (sym_name (syms st0 a), sym_type (syms st0 a))
     = (sym_name (syms st0 b), sym_type (syms st0 b))).
Proof.
  induction B as [|sym2 B IH]; intros st st' Hn Ht; cbn [correlate_symbol].
  - intros [= <-]. auto.
  - destruct (symbols_correlate st sym1 sym2) as [found|] eqn:Ef;
      cbn [bind]; [|discriminate].
    destruct found; [|now apply IH].
    intros [= <-].
    assert (Hsame : (sym_name (syms st0 sym1), sym_type (syms st0 sym1))
                    = (sym_name (syms st0 sym2), sym_type (syms st0 sym2))).
    { unfold symbols_correlate in Ef.
      destruct (Hn sym1) as [N1 T1], (Hn sym2) as [N2 T2].
      rewrite N1, N2, T1, T2 in Ef.
      destruct (streq (sym_name (syms st0 sym1)) (sym_name (syms st0 sym2)))
        eqn:E; cbn [negb orb] in Ef; [|discriminate].
      destruct (Z.eqb_spec (sym_type (syms st0 sym1))
                           (sym_type (syms st0 sym2))) as [Et|];
        cbn [negb] in Ef; [|discriminate].
      apply streq_eq in E. congruence. }
    split.
    + intros p. destruct (twin_symbols_fields st sym1 sym2 p) as [-> ->].
      apply Hn.
    + intros a b. rewrite sym_twins_twin_symbols.
      now apply (link_keys
                   (fun p => (sym_name (syms st0 p), sym_type (syms st0 p)))).
Qed.

Lemma correlate_symbol_secs B sym1 : forall st st',
  correlate_symbol st sym1 B = Ok st' -> secs st' = secs st.
Proof.
  induction B as [|sym2 B IH]; intros st st'; cbn [correlate_symbol].
  - intros [= <-]. reflexivity.
  - destruct (symbols_correlate st sym1 sym2) as [[|]|]; cbn [bind];
      [intros [= <-]; reflexivity | apply IH | discriminate].
Qed.

(** X14.  [xsplice_correlate_elfs] pairs equal names only: when every
    twin pair has one name (and, for symbols, one type) before the two
    passes, as in freshly loaded objects without twins, so it is
    afterwards; the passes change no name and no type. *)
Theorem xsplice_correlate_elfs_same_names (st st' : store)
  (kelf1 kelf2 : xsplice_elf) :
  (forall a b, sec_twin (secs st a) = Some b ->
               sec_name (secs st a) = sec_name (secs st b)) ->
  (forall p q, sym_twin (syms st p) = Some q ->
               sym_name (syms st p) = sym_name (syms st q) /\
               sym_type (syms st p) = sym_type (syms st q)) ->
  xsplice_correlate_elfs st kelf1 kelf2 = Ok st' ->
  (forall a b, sec_twin (secs st' a) = Some b ->
               sec_name (secs st' a) = sec_name (secs st' b)) /\
  (forall p q, sym_twin (syms st' p) = Some q ->
               sym_name (syms st' p) = sym_name (syms st' q) /\
               sym_type (syms st' p) = sym_type (syms st' q)) /\
  (forall a, sec_name (secs st' a) = sec_name (secs st a)) /\
  (forall p, sym_name (syms st' p) = sym_name (syms st p) /\
             sym_type (syms st' p) = sym_type (syms st p)).
Proof.
  intros Hsec Hsym. unfold xsplice_correlate_elfs.
  destruct (xsplice_correlate_sections st (sections kelf1) (sections kelf2))
    as [st1|] eqn:E1; cbn [bind]; [|discriminate].
  intros E2.
  (* sections *)
  unfold xsplice_correlate_sections in E1.
  apply (foreach_preserves
           (fun s =>
              (forall x, sec_name (secs s x) = sec_name (secs st x)) /\
              (forall a b, sec_twins s a = Some b ->
                           sec_name (secs st a) = sec_name (secs st b)))
           (fun s s' => syms s' = syms s)) in E1.
  2:{ reflexivity. }
  2:{ intros; congruence. }
  2:{ intros s sec1 s' _ [Hn Ht] E.
      destruct (correlate_section_names st _ _ _ _ Hn Ht E) as (A1 & A2 & A3).
      split; [split; assumption | assumption]. }
  2:{ split; [reflexivity | exact Hsec]. }
  destruct E1 as [[Hn1 Ht1] Hs1].
  (* symbols *)
  unfold xsplice_correlate_symbols in E2.
  apply (foreach_preserves
           (fun s =>
              (forall p, sym_name (syms s p) = sym_name (syms st p) /\
                         sym_type (syms s p) = sym_type (syms st p)) /\
              (forall a b, sym_twins s a = Some b ->
                 (sym_name (syms st a), sym_type (syms st a))
                 = (sym_name (syms st b), sym_type (syms st b))))
           (fun s s' => secs s' = secs s)) in E2.
  2:{ reflexivity. }
  2:{ intros; congruence. }
  2:{ intros s sym1 s' _ [Hn Ht] E. split.
      - apply (correlate_symbol_names st _ _ _ _ Hn Ht E).
      - apply (correlate_symbol_secs _ _ _ _ E). }
  2:{ split.
      - intros p. now rewrite Hs1.
      - intros a b. unfold sym_twins. rewrite Hs1. intros H.
        destruct (Hsym a b H) as [-> ->]. reflexivity. }
  destruct E2 as [[Hn2 Ht2] Hs2].
  split; [|split; [|split]].
  - intros a b. rewrite Hs2, !Hn1. apply Ht1.
  - intros p q H. destruct (Hn2 p) as [-> ->], (Hn2 q) as [-> ->].
    specialize (Ht2 p q H). now injection Ht2 as -> ->.
  - intros a. rewrite Hs2. apply Hn1.
  - exact Hn2.
Qed.

Lemma xsplice_correlate_elfs_same_names_witness :
  exists st',
    xsplice_correlate_elfs CorrelateExamples.st_tick
      CorrelateExamples.base_tick CorrelateExamples.patched_tick = Ok st' /\
    forall a b, sec_twin (secs st' a) = Some b ->
                sec_name (secs st' a) = sec_name (secs st' b).
Proof.
  assert (E : is_ok (xsplice_correlate_elfs CorrelateExamples.st_tick
                       CorrelateExamples.base_tick
                       CorrelateExamples.patched_tick) = true)
    by (vm_compute; reflexivity).
  apply is_ok_Ok in E. destruct E as [st' E]. exists st'.
  split; [exact E|].
  destruct tick_untwinned as [Hs Hc].
  apply (xsplice_correlate_elfs_same_names CorrelateExamples.st_tick st'
           CorrelateExamples.base_tick CorrelateExamples.patched_tick).
  - intros a b H. rewrite Hc in H. discriminate H.
  - intros p q H. rewrite Hs in H. discriminate H.
  - exact E.
Defined.

(** ** The verdict on a section *)

Lemma bytes_eqb_eq a : forall b, bytes_eqb a b = true <-> a = b.
Proof.
  induction a as [|x a IH]; intros [|y b]; cbn [bytes_eqb];
    try (split; [reflexivity || discriminate | reflexivity || discriminate]).
  rewrite andb_true_iff, IH. split.
  - intros [Hx ->]. apply Byte.byte_dec_bl in Hx. now subst.
  - intros [= -> ->]. split; [apply Byte.byte_dec_lb|]; reflexivity.
Qed.

Lemma headers_agree_branch sec1 sec2 :
  compare_branch_of sec1 sec2 = HEADERS_DIFFER <->
  headers_agree sec1 sec2 = false.
Proof.
  unfold compare_branch_of, headers_agree.
  destruct (sh_type sec1 =? sh_type sec2), (sh_flags sec1 =? sh_flags sec2),
    (sh_addr sec1 =? sh_addr sec2),
    (sh_addralign sec1 =? sh_addralign sec2),
    (sh_entsize sec1 =? sh_entsize sec2); cbn [negb orb andb];
    try (split; [reflexivity | reflexivity]).
  split; [|discriminate].
  destruct (_ || _); [discriminate|].
  destruct (is_rela_section sec1); discriminate.
Qed.

(** X15.  [xsplice_compare_correlated_section] on a section with a twin
    that is not a relocation section: it ends with [DIFF_FATAL] exactly
    when one of the header fields type, flags, address, alignment and
    entry size differs; otherwise it sets the status of the section, and
    nothing else, to [SAME] when the sizes agree and the section is
    [SHT_NOBITS] or has the same bytes as its twin, and to [CHANGED]
    when not. *)
Theorem xsplice_compare_correlated_section_verdict (st : store)
  (sec twin : nat) :
  sec_twin (secs st sec) = Some twin ->
  is_rela_section (secs st sec) = false ->
  (headers_agree (secs st sec) (secs st twin) = false /\
   xsplice_compare_correlated_section st sec = Fail EXIT_DIFF_FATAL) \/
  (headers_agree (secs st sec) (secs st twin) = true /\
   exists v,
     xsplice_compare_correlated_section st sec
       = Ok (upd_sec st sec (set_sec_status v)) /\
     (v = SAME \/ v = CHANGED) /\
     (v = SAME <-> contents_agree (secs st sec) (secs st twin))).
Proof.
  intros Ht Hr. unfold xsplice_compare_correlated_section.
  rewrite Ht. cbn [deref bind].
  pose proof (headers_agree_branch (secs st sec) (secs st twin)) as Hh.
  destruct (headers_agree (secs st sec) (secs st twin)) eqn:Eh.
  2:{ left. split; [reflexivity|]. now rewrite (proj2 Hh eq_refl). }
  right. split; [reflexivity|].
  unfold compare_branch_of in *.
  destruct (_ || _ || _ || _ || _) eqn:E5;
    [exfalso; assert (H : HEADERS_DIFFER = HEADERS_DIFFER) by reflexivity;
     apply Hh in H; discriminate H|].
  clear Hh. unfold contents_agree.
  destruct (Z.eqb_spec (sh_size (secs st sec)) (sh_size (secs st twin)))
    as [Es|Es]; cbn [negb orb].
  2:{ exists CHANGED. split; [reflexivity|]. split; [now right|].
      split; [discriminate | intros [H _]; contradiction]. }
  destruct (Z.eqb_spec (d_size (secs st sec)) (d_size (secs st twin)))
    as [Ed|Ed]; cbn [negb].
  2:{ exists CHANGED. split; [reflexivity|]. split; [now right|].
      split; [discriminate|]. intros [_ [[_ H]|H]]; exfalso; [contradiction|].
      apply Ed. unfold d_size. now rewrite H. }
  rewrite Hr. unfold xsplice_compare_correlated_nonrela_section.
  rewrite Ht. cbn [deref bind].
  assert (Hlen : List.length (d_buf (secs st sec))
                 = List.length (d_buf (secs st twin)))
    by (unfold d_size in Ed; lia).
  rewrite Hlen, firstn_all.
  destruct (Z.eqb_spec (sh_type (secs st sec)) SHT_NOBITS) as [En|En];
    cbn [negb andb].
  - exists SAME. split; [reflexivity|]. split; [now left|].
    split; [intros _; auto | reflexivity].
  - destruct (bytes_eqb (d_buf (secs st sec)) (d_buf (secs st twin))) eqn:Eb;
      cbn [negb].
    + apply bytes_eqb_eq in Eb. exists SAME. split; [reflexivity|].
      split; [now left|]. split; [intros _; auto | reflexivity].
    + exists CHANGED. split; [reflexivity|]. split; [now right|].
      split; [discriminate|]. intros [_ [[H _]|H]]; exfalso; [contradiction|].
      apply bytes_eqb_eq in H. congruence.
Qed.

Lemma xsplice_compare_correlated_section_verdict_witness :
  xsplice_compare_correlated_section VerdictExample.st_data 0
  = Ok (upd_sec VerdictExample.st_data 0 (set_sec_status CHANGED)).
Proof.
  destruct (xsplice_compare_correlated_section_verdict
              VerdictExample.st_data 0 1 eq_refl eq_refl)
    as [[H _]|(_ & v & E & [->| ->] & Hv)].
  - discriminate H.
  - exfalso. destruct (proj1 Hv eq_refl) as [_ [[H _]|H]]; discriminate H.
  - exact E.
Defined.

(** ** Section statuses after the comparison *)

Lemma compare_relas_status st relas2 : forall relas1 cursor s final,
  compare_relas st relas1 relas2 cursor = Ok (s, final) ->
  s = SAME \/ s = CHANGED.
Proof.
  induction relas1 as [|r rest IH]; intros cursor s final;
    cbn [compare_relas].
  - intros [= <- _]. now left.
  - destruct (nth_error relas2 cursor); cbn [deref bind]; [|discriminate].
    destruct (rela_equal st r _) as [[|]|]; cbn [bind];
      [apply IH | intros [= <- _]; now right | discriminate].
Qed.

Lemma xsplice_compare_correlated_section_status st sec st' :
  xsplice_compare_correlated_section st sec = Ok st' ->
  exists v, st' = upd_sec st sec (set_sec_status v) /\
            (v = SAME \/ v = CHANGED).
Proof.
  unfold xsplice_compare_correlated_section.
  destruct (sec_twin (secs st sec)) as [twin|] eqn:Et; cbn [deref bind];
    [|discriminate].
  destruct (compare_branch_of _ _).
  - discriminate.
  - intros [= <-]. exists CHANGED. auto.
  - unfold xsplice_compare_correlated_rela_section. rewrite Et.
    cbn [deref bind].
    destruct (compare_relas st _ _ 0) as [[s final]|] eqn:Ec; cbn [bind];
      [|discriminate].
    intros [= <-]. exists s. split; [reflexivity|].
    eapply compare_relas_status; eauto.
  - unfold xsplice_compare_correlated_nonrela_section. rewrite Et.
    cbn [deref bind].
    destruct (_ && _); intros [= <-]; eexists; split; try reflexivity; auto.
Qed.

(** X16.  When [xsplice_compare_sections] returns, every section of the
    list has a status set by the comparison, [NEW] exactly when the
    section has no twin, and nothing else of it has changed. *)
Theorem xsplice_compare_sections_new (st st' : store) (seclist : list nat) :
  xsplice_compare_sections st seclist = Ok st' ->
  forall sec, In sec seclist ->
    exists v, secs st' sec = set_sec_status v (secs st sec) /\
              (v = NEW <-> sec_twin (secs st sec) = None).
Proof.
  unfold xsplice_compare_sections.
  destruct (foreach seclist _ st) as [st1|] eqn:E1; cbn [bind];
    [|discriminate].
  intros E2.
  apply (foreach_establishes
           (fun s => syms s = syms st /\
                     forall x, secs s x = secs st x \/ compared st s x)
           (fun s s' => forall x, compared st s x -> compared st s' x)
           (fun sec s => compared st s sec)) in E1.
  2:{ auto. }
  2:{ auto. }
  2:{ intros s sec s' _ [Hsym Hinv].
      assert (Htw : sec_twin (secs s sec) = sec_twin (secs st sec)).
      { destruct (Hinv sec) as [->|(v & -> & _)]; reflexivity. }
      assert (Hstep : forall v,
                (v = NEW <-> sec_twin (secs st sec) = None) ->
                let s1 := upd_sec s sec (set_sec_status v) in
                (syms s1 = syms st /\
                 forall x, secs s1 x = secs st x \/ compared st s1 x) /\
                (forall x, compared st s x -> compared st s1 x) /\
                compared st s1 sec).
      { intros v Hv s1.
        assert (Hc : compared st s1 sec).
        { exists v. split; [|exact Hv]. unfold s1. cbn [upd_sec secs].
          rewrite Nat.eqb_refl.
          destruct (Hinv sec) as [->|(w & -> & _)]; reflexivity. }
        assert (Ho : forall x, x <> sec -> secs s1 x = secs s x).
        { intros x Hx. unfold s1. cbn [upd_sec secs].
          destruct (Nat.eqb_spec x sec); [contradiction | reflexivity]. }
        split; [split; [exact Hsym|]|split; [|exact Hc]].
        - intros x. destruct (Nat.eq_dec x sec) as [->|Hx]; [now right|].
          destruct (Hinv x) as [E|(w & E & Hw)].
          + left. now rewrite (Ho x Hx).
          + right. exists w. now rewrite (Ho x Hx).
        - intros x (w & E & Hw).
          destruct (Nat.eq_dec x sec) as [->|Hx]; [exact Hc|].
          exists w. now rewrite (Ho x Hx). }
      rewrite Htw.
      destruct (sec_twin (secs st sec)) as [t|] eqn:Et; cbn [is_some].
      - intros E. apply xsplice_compare_correlated_section_status in E.
        destruct E as (v & -> & Hv). apply Hstep.
        split; [intros ->; destruct Hv; discriminate | discriminate].
      - intros [= <-]. apply Hstep. split; reflexivity. }
  2:{ auto. }
  2:{ split; [reflexivity | now left]. }
  destruct E1 as ([Hsym1 _] & _ & Hdone).
  apply (foreach_preserves (fun _ => True) (fun s s' => secs s' = secs s))
    in E2.
  2:{ reflexivity. }
  2:{ intros; congruence. }
  2:{ intros s sec s' _ _ E. split; [exact I|]. revert E.
      destruct (is_rela_section (secs s sec)).
      - destruct (sec_base (secs s sec)) as [base|]; cbn [deref bind];
          [|discriminate].
        destruct (sec_sym (secs s base)); [|intros [= <-]; reflexivity].
        destruct (negb _); intros [= <-]; reflexivity.
      - cbn [bind].
        destruct (sec_sym (secs s sec)); [|intros [= <-]; reflexivity].
        destruct (negb _); intros [= <-]; reflexivity. }
  2:{ exact I. }
  destruct E2 as [_ Hsec2].
  intros sec Hin. rewrite Hsec2. exact (Hdone sec Hin).
Qed.

Lemma xsplice_compare_sections_new_witness :
  exists st' v,
    xsplice_compare_sections VerdictExample.st_data [0%nat] = Ok st' /\
    secs st' 0 = set_sec_status v (secs VerdictExample.st_data 0) /\
    v <> NEW.
Proof.
  assert (E : is_ok (xsplice_compare_sections VerdictExample.st_data [0%nat])
              = true) by (vm_compute; reflexivity).
  apply is_ok_Ok in E. destruct E as [st' E].
  destruct (xsplice_compare_sections_new _ _ _ E 0%nat (or_introl eq_refl))
    as (v & Hv & Hnew).
  exists st', v. split; [exact E|]. split; [exact Hv|].
  intros H. apply Hnew in H. discriminate H.
Defined.

(** ** Constant labels are unchanged *)

(** X17.  [xsplice_mark_constant_labels_same] sets the status of every
    constant label of the symbol list to [SAME] and changes nothing
    else. *)
Theorem xsplice_mark_constant_labels_same_marks (kelf : xsplice_elf)
  (st : store) :
  secs (xsplice_mark_constant_labels_same kelf st) = secs st /\
  forall p,
    syms (xsplice_mark_constant_labels_same kelf st) p
    = if existsb (Nat.eqb p) (symbols kelf) && is_constant_label (syms st p)
      then set_sym_status SAME (syms st p)
      else syms st p.
Proof.
  unfold xsplice_mark_constant_labels_same.
  assert (H : forall l s,
            (forall p, is_constant_label (syms s p)
                       = is_constant_label (syms st p)) ->
            let s' := fold_left
                        (fun st sym =>
                           if is_constant_label (syms st sym)
                           then upd_sym st sym (set_sym_status SAME)
                           else st) l s in
            secs s' = secs s /\
            forall p, syms s' p
                      = if existsb (Nat.eqb p) l && is_constant_label (syms st p)
                        then set_sym_status SAME (syms s p)
                        else syms s p).
  { induction l as [|a l IH]; intros s Hs; cbn [fold_left existsb].
    - split; [reflexivity|]. intros p. reflexivity.
    - set (s1 := if is_constant_label (syms s a)
                 then upd_sym s a (set_sym_status SAME) else s).
      assert (H1 : secs s1 = secs s /\
                   forall p, syms s1 p
                             = if Nat.eqb p a && is_constant_label (syms st p)
                               then set_sym_status SAME (syms s p)
                               else syms s p).
      { unfold s1. rewrite Hs.
        destruct (is_constant_label (syms st a)) eqn:Ea.
        - split; [reflexivity|]. intros p. cbn [upd_sym syms].
          destruct (Nat.eqb_spec p a) as [->|_]; [now rewrite Ea|reflexivity].
        - split; [reflexivity|]. intros p.
          destruct (Nat.eqb_spec p a) as [->|_]; [now rewrite Ea|reflexivity]. }
      destruct H1 as [Hc1 Hp1].
      assert (Hs1 : forall p, is_constant_label (syms s1 p)
                              = is_constant_label (syms st p)).
      { intros p. rewrite Hp1, <- Hs. now destruct (_ && _). }
      destruct (IH s1 Hs1) as [Hc Hp]. split; [congruence|].
      intros p. rewrite Hp, Hp1.
      destruct (Nat.eqb p a), (existsb (Nat.eqb p) l),
        (is_constant_label (syms st p)); reflexivity. }
  apply (H (symbols kelf) st). reflexivity.
Qed.

(** ** Local symbols come first *)

(** X18.  When the symbols without name and the [STT_FILE] symbols of
    the list are [STB_LOCAL], as the NULL symbol and the file symbols of
    an object are, [xsplice_reorder_symbols] leaves the list as the
    [STB_LOCAL] symbols followed by the others: the order that the symbol
    table of an ELF object needs. *)
Theorem xsplice_reorder_symbols_locals_first (st : store) (kelf : xsplice_elf) :
  (forall p, In p (symbols kelf) ->
     sym_name (syms st p) = "" \/ sym_type (syms st p) = STT_FILE ->
     sym_bind (syms st p) = STB_LOCAL) ->
  exists locals others,
    symbols (xsplice_reorder_symbols st kelf) = (locals ++ others)%list /\
    (forall p, In p locals -> sym_bind (syms st p) = STB_LOCAL) /\
    (forall p, In p others -> sym_bind (syms st p) <> STB_LOCAL).
Proof.
  intros Hloc. rewrite xsplice_reorder_symbols_buckets.
  exists (in_bucket st 0 (symbols kelf) ++ in_bucket st 1 (symbols kelf) ++
          in_bucket st 2 (symbols kelf) ++ in_bucket st 3 (symbols kelf))%list,
         (in_bucket st 4 (symbols kelf)).
  split; [now rewrite <- !app_assoc|]. split.
  - intros p Hp.
    assert (Hin : In p (symbols kelf) /\ (bucket (syms st p) < 4)%nat).
    { unfold in_bucket in Hp. rewrite !in_app_iff, !filter_In in Hp.
      destruct Hp as [[? E]|[[? E]|[[? E]|[? E]]]];
        apply Nat.eqb_eq in E; split; auto; lia. }
    destruct Hin as [Hin Hb].
    destruct (bucket_meaning (syms st p)) as (B0 & B1 & B2 & B3 & _).
    destruct (bucket (syms st p)) as [|[|[|[|n]]]] eqn:E; [| | | |lia].
    + apply (Hloc p Hin). left. now apply B0.
    + apply (Hloc p Hin). right. now apply B1.
    + now apply B2.
    + now apply B3.
  - intros p Hp. unfold in_bucket in Hp. apply filter_In in Hp.
    destruct Hp as [_ E]. apply Nat.eqb_eq in E.
    destruct (bucket_meaning (syms st p)) as (_ & _ & _ & _ & B4).
    now apply B4.
Qed.

Lemma xsplice_reorder_symbols_locals_first_witness :
  exists locals others,
    symbols (xsplice_reorder_symbols ReorderExamples.st ReorderExamples.kelf)
      = (locals ++ others)%list /\
    (forall p, In p locals ->
               sym_bind (syms ReorderExamples.st p) = STB_LOCAL) /\
    (forall p, In p others ->
               sym_bind (syms ReorderExamples.st p) <> STB_LOCAL).
Proof.
  apply xsplice_reorder_symbols_locals_first.
  intros p Hp Hc. cbn in Hp.
  repeat (destruct Hp as [<-|Hp];
          [reflexivity || (destruct Hc as [Hc|Hc]; discriminate Hc)|]).
  destruct Hp.
Defined.

(** ** No changed section is left behind *)

Lemma migrated_sections kelf st :
  sections (snd (xsplice_migrate_included_elements kelf st))
  = filter (fun s => sec_include (secs st s)) (sections kelf).
Proof.
  unfold xsplice_migrate_included_elements.
  pose proof (migrate_sections_loop st (sections kelf) st [] [] eq_refl
                (fun x => conj eq_refl eq_refl)
                (fun x (H : In x []) => match H with end)) as H1.
  lazy zeta in H1 |- *.
  match type of H1 with context [fold_left ?f ?l ?s] =>
    destruct (fold_left f l s) as [[st1 rest1] out1] end.
  cbn [fst snd app] in H1. destruct H1 as (E1 & _).
  match goal with |- context [fold_left ?f (symbols kelf) ?s] =>
    destruct (fold_left f (symbols kelf) s) as [[st2 rest2] out2] end.
  exact E1.
Qed.

(** X19.  When [xsplice_verify_patchability] accepts the object, every
    [CHANGED] section of the section list is on the section list of the
    output object that [xsplice_migrate_included_elements] builds. *)
Theorem verified_changes_are_migrated (kelf : xsplice_elf) (st : store) :
  xsplice_verify_patchability kelf st = Ok tt ->
  forall sec, In sec (sections kelf) ->
    sec_status (secs st sec) = CHANGED ->
    In sec (sections (snd (xsplice_migrate_included_elements kelf st))).
Proof.
  unfold xsplice_verify_patchability.
  destruct (verify_patchability_errors st (sections kelf) 0 (Z.le_refl 0))
    as [_ Hiff].
  cbn zeta in Hiff.
  match goal with |- context [fold_left ?f ?l 0] =>
    set (e := fold_left f l 0) in * end.
  destruct (e =? 0) eqn:E; cbn [negb]; [|discriminate].
  apply Z.eqb_eq in E. intros _ sec Hin Hch.
  rewrite migrated_sections. apply filter_In. split; [exact Hin|].
  pose proof (proj1 Hiff E sec Hin) as Hu.
  unfold unsupported_change, changed_not_included in Hu.
  rewrite Hch in Hu. cbn [status_eqb andb] in Hu.
  destruct (sec_include (secs st sec)); [reflexivity | discriminate Hu].
Qed.

Lemma verified_changes_are_migrated_witness :
  In 0%nat (sections (snd (xsplice_migrate_included_elements
                             {| sections := [0%nat]; symbols := [];
                                strings := [] |}
                             (upd_sec VerdictExample.st_data 0
                                (fun s => set_sec_include true
                                            (set_sec_status CHANGED
                                               (set_sec_name ".text.x" s))))))).
Proof.
  apply verified_changes_are_migrated;
    [vm_compute; reflexivity | now left | reflexivity].
Defined.

(** ** Hooks *)

Lemma sections_kept_refl s : sections_kept s s.
Proof. intros x. auto. Qed.

Lemma sections_kept_trans s1 s2 s3 :
  sections_kept s1 s2 -> sections_kept s2 s3 -> sections_kept s1 s3.
Proof.
  intros H1 H2 x. destruct (H1 x) as [N1 I1], (H2 x) as [N2 I2].
  split; [congruence | auto].
Qed.

Lemma sections_kept_grows s s' : grows s s' -> sections_kept s s'.
Proof.
  intros [F [_ G]] x.
  destruct (flags_only_sec_fields _ _ x F) as (_ & _ & _ & _ & En).
  split; [exact En | apply G].
Qed.

Lemma sections_kept_upd_sym s p f : sections_kept s (upd_sym s p f).
Proof. intros x. cbn [upd_sym secs]. auto. Qed.

Lemma sections_kept_upd_sec s a f :
  sec_name (f (secs s a)) = sec_name (secs s a) ->
  (sec_include (secs s a) = true -> sec_include (f (secs s a)) = true) ->
  sections_kept s (upd_sec s a f).
Proof.
  intros Hn Hi x. cbn [upd_sec secs].
  destruct (Nat.eqb_spec x a) as [->|_]; auto.
Qed.



(** ** Ignored sections *)

Lemma marked_same_refl s : marked_same s s.
Proof. split; intros; now left. Qed.

Lemma marked_same_trans s1 s2 s3 :
  marked_same s1 s2 -> marked_same s2 s3 -> marked_same s1 s3.
Proof.
  intros [P1 C1] [P2 C2]. split.
  - intros p. destruct (P1 p) as [E1|E1], (P2 p) as [E2|E2];
      rewrite E2, E1; auto.
  - intros x. destruct (C1 x) as [E1|E1], (C2 x) as [E2|E2];
      rewrite E2, E1; auto.
Qed.

Lemma marked_same_upd_sym s p :
  marked_same s (upd_sym s p (set_sym_status SAME)).
Proof.
  split; [|intros; now left]. intros q. cbn [upd_sym syms].
  destruct (Nat.eqb q p); auto.
Qed.

Lemma marked_same_upd_sec s a :
  marked_same s (upd_sec s a (set_sec_status SAME)).
Proof.
  split; [intros; now left|]. intros x. cbn [upd_sec secs].
  destruct (Nat.eqb x a); auto.
Qed.

Lemma marked_same_sym_status s s' p :
  marked_same s s' -> sym_status (syms s p) = SAME ->
  sym_status (syms s' p) = SAME.
Proof. intros [P _]. destruct (P p) as [-> | ->]; auto. Qed.

Lemma marked_same_sec_status s s' x :
  marked_same s s' -> sec_status (secs s x) = SAME ->
  sec_status (secs s' x) = SAME.
Proof. intros [_ C]. destruct (C x) as [-> | ->]; auto. Qed.

Lemma marked_same_fields s s' :
  marked_same s s' ->
  (forall p, sym_sec (syms s' p) = sym_sec (syms s p)) /\
  (forall x, sec_ignore (secs s' x) = sec_ignore (secs s x) /\
             sec_secsym (secs s' x) = sec_secsym (secs s x) /\
             sec_rela (secs s' x) = sec_rela (secs s x)).
Proof.
  intros [P C]. split.
  - intros p. destruct (P p) as [-> | ->]; reflexivity.
  - intros x. destruct (C x) as [-> | ->]; repeat split.
Qed.

(** X21.  When [xsplice_mark_ignored_sections_same] returns, every
    ignored section of the section list is [SAME], and so are its section
    symbol, its relocation section and every symbol of the symbol list
    that lies in it; the pass changes statuses only, and only to
    [SAME]. *)
Theorem xsplice_mark_ignored_sections_same_marks (kelf : xsplice_elf)
  (st st' : store) :
  xsplice_mark_ignored_sections_same kelf st = Ok st' ->
  marked_same st st' /\
  forall sec, In sec (sections kelf) ->
    sec_ignore (secs st sec) = true ->
    sec_status (secs st' sec) = SAME /\
    (forall q, sec_secsym (secs st sec) = Some q ->
               sym_status (syms st' q) = SAME) /\
    (forall r, sec_rela (secs st sec) = Some r ->
               sec_status (secs st' r) = SAME) /\
    (forall p, In p (symbols kelf) -> sym_sec (syms st p) = Some sec ->
               sym_status (syms st' p) = SAME).
Proof.
  unfold xsplice_mark_ignored_sections_same. intros E.
  apply (foreach_establishes
           (fun s => marked_same st s) marked_same
           (fun sec s =>
              sec_ignore (secs st sec) = true ->
              sec_status (secs s sec) = SAME /\
              (forall q, sec_secsym (secs st sec) = Some q ->
                         sym_status (syms s q) = SAME) /\
              (forall r, sec_rela (secs st sec) = Some r ->
                         sec_status (secs s r) = SAME) /\
              (forall p, In p (symbols kelf) ->
                         sym_sec (syms st p) = Some sec ->
                         sym_status (syms s p) = SAME))) in E.
  - destruct E as (M & _ & H). auto.
  - apply marked_same_refl.
  - apply marked_same_trans.
  - intros s sec s' _ M.
    destruct (marked_same_fields _ _ M) as [Hsec Hfl].
    destruct (Hfl sec) as (Ei & Eq & Er). rewrite Ei.
    destruct (sec_ignore (secs st sec)); cbn [negb];
      [|intros [= <-]; split; [exact M|];
        split; [apply marked_same_refl | discriminate]].
    set (s1 := upd_sec s sec (set_sec_status SAME)).
    assert (M1 : marked_same s s1) by apply marked_same_upd_sec.
    assert (S1 : sec_status (secs s1 sec) = SAME).
    { unfold s1. cbn [upd_sec secs]. now rewrite Nat.eqb_refl. }
    assert (Eq1 : sec_secsym (secs s1 sec) = sec_secsym (secs st sec)).
    { destruct (marked_same_fields _ _ M1) as [_ H].
      destruct (H sec) as (_ & -> & _). exact Eq. }
    rewrite Eq1.
    set (s2 := match sec_secsym (secs st sec) with
               | Some q => upd_sym s1 q (set_sym_status SAME)
               | None => s1
               end).
    assert (M2 : marked_same s1 s2).
    { unfold s2. destruct (sec_secsym (secs st sec));
        [apply marked_same_upd_sym | apply marked_same_refl]. }
    assert (S2 : forall q, sec_secsym (secs st sec) = Some q ->
                           sym_status (syms s2 q) = SAME).
    { intros q Hq. unfold s2. rewrite Hq. cbn [upd_sym syms].
      now rewrite Nat.eqb_refl. }
    assert (Er2 : sec_rela (secs s2 sec) = sec_rela (secs st sec)).
    { destruct (marked_same_fields _ _ (marked_same_trans _ _ _ M1 M2))
        as [_ H].
      destruct (H sec) as (_ & _ & ->). exact Er. }
    rewrite Er2.
    set (s3 := match sec_rela (secs st sec) with
               | Some r => upd_sec s2 r (set_sec_status SAME)
               | None => s2
               end).
    assert (M3 : marked_same s2 s3).
    { unfold s3. destruct (sec_rela (secs st sec));
        [apply marked_same_upd_sec | apply marked_same_refl]. }
    assert (S3 : forall r, sec_rela (secs st sec) = Some r ->
                           sec_status (secs s3 r) = SAME).
    { intros r Hr. unfold s3. rewrite Hr. cbn [upd_sec secs].
      now rewrite Nat.eqb_refl. }
    assert (M03 : marked_same st s3).
    { eapply marked_same_trans; [exact M|].
      eapply marked_same_trans; [exact M1|].
      eapply marked_same_trans; [exact M2 | exact M3]. }
    intros E2.
    apply (foreach_establishes
             (fun t => marked_same st t) marked_same
             (fun p t => sym_sec (syms st p) = Some sec ->
                         sym_status (syms t p) = SAME)) in E2.
    + destruct E2 as (M4 & M34 & Hsyms).
      assert (Ms : marked_same s s').
      { eapply marked_same_trans; [exact M1|].
        eapply marked_same_trans; [exact M2|].
        eapply marked_same_trans; [exact M3 | exact M34]. }
      split; [exact M4|]. split; [exact Ms|]. intros _.
      split; [|split; [|split]].
      * apply (marked_same_sec_status s1 s'); [|exact S1].
        eapply marked_same_trans; [exact M2|].
        eapply marked_same_trans; [exact M3 | exact M34].
      * intros q Hq. apply (marked_same_sym_status s2 s'); [|now apply S2].
        eapply marked_same_trans; [exact M3 | exact M34].
      * intros r Hr. apply (marked_same_sec_status s3 s'); [exact M34|].
        now apply S3.
      * exact Hsyms.
    + apply marked_same_refl.
    + apply marked_same_trans.
    + intros t p t' _ Mt.
      destruct (marked_same_fields _ _ Mt) as [Hs _]. rewrite Hs.
      unfold ptr_is.
      destruct (sym_sec (syms st p)) as [q|] eqn:Eqp.
      * destruct (Nat.eqb_spec q sec) as [->|Hne]; cbn [negb];
          intros [= <-].
        -- split; [eapply marked_same_trans;
                     [exact Mt | apply marked_same_upd_sym]|].
           split; [apply marked_same_upd_sym|].
           intros _. cbn [upd_sym syms]. now rewrite Nat.eqb_refl.
        -- split; [exact Mt|]. split; [apply marked_same_refl|].
           intros [= H]. contradiction.
      * cbn [negb]. intros [= <-]. split; [exact Mt|].
        split; [apply marked_same_refl | discriminate].
    + intros p t t' Mt H Hp. eapply marked_same_sym_status; eauto.
    + exact M03.
  - intros sec s s' M H Hi. destruct (H Hi) as (A & B & C & D).
    split; [eapply marked_same_sec_status; eauto|].
    split; [intros q Hq; eapply marked_same_sym_status; eauto|].
    split; [intros r Hr; eapply marked_same_sec_status; eauto|].
    intros p Hp Hs. eapply marked_same_sym_status; eauto.
  - apply marked_same_refl.
Qed.

Lemma xsplice_mark_ignored_sections_same_marks_witness :
  exists st',
    xsplice_mark_ignored_sections_same IgnoreExample.kelf_ignore
      IgnoreExample.st_ignore = Ok st' /\
    sec_status (secs st' 0) = SAME /\ sec_status (secs st' 1) = SAME /\
    sym_status (syms st' 1) = SAME /\ sym_status (syms st' 2) = SAME.
Proof.
  assert (E : is_ok (xsplice_mark_ignored_sections_same
                       IgnoreExample.kelf_ignore IgnoreExample.st_ignore)
              = true) by (vm_compute; reflexivity).
  apply is_ok_Ok in E. destruct E as [st' E]. exists st'.
  split; [exact E|].
  destruct (xsplice_mark_ignored_sections_same_marks _ _ _ E) as [_ H].
  destruct (H 0%nat) as (A & B & C & D);
    [vm_compute; auto | vm_compute; reflexivity |].
  split; [exact A|]. split; [apply (C 1%nat); vm_compute; reflexivity|].
  split; [apply D; vm_compute; auto | apply (B 2%nat); vm_compute; reflexivity].
Defined.

(** ** Ignored functions *)

Lemma marked_same_sym_type s s' p :
  marked_same s s' -> sym_type (syms s' p) = sym_type (syms s p).
Proof. intros [P _]. destruct (P p) as [-> | ->]; reflexivity. Qed.

Lemma ignored_functions_loop (st : store) (l : list rela) : forall s,
  marked_same st s ->
  let body := fun st rela =>
    let sym := rela_sym rela in
    match sym_sec (syms st sym) with
    | None => Fail EXIT_ERROR
    | Some symsec =>
        if negb (sym_type (syms st sym) =? STT_FUNC)
        then Fail EXIT_ERROR
        else
          let st := upd_sym st sym (set_sym_status SAME) in
          let st := upd_sec st symsec (set_sec_status SAME) in
          let st := match sec_secsym (secs st symsec) with
                    | Some q => upd_sym st q (set_sym_status SAME)
                    | None => st
                    end in
          match sec_rela (secs st symsec) with
          | Some r => Ok (upd_sec st r (set_sec_status SAME))
          | None => Ok st
          end
    end in
  (forallb (ignorable st) l = false -> foreach l body s = Fail EXIT_ERROR) /\
  (forallb (ignorable st) l = true ->
   exists s', foreach l body s = Ok s' /\ marked_same s s' /\
     forall rela symsec, In rela l ->
       sym_sec (syms st (rela_sym rela)) = Some symsec ->
       sym_status (syms s' (rela_sym rela)) = SAME /\
       sec_status (secs s' symsec) = SAME /\
       (forall q, sec_secsym (secs st symsec) = Some q ->
                  sym_status (syms s' q) = SAME) /\
       (forall r, sec_rela (secs st symsec) = Some r ->
                  sec_status (secs s' r) = SAME)).
Proof.
  induction l as [|rela l IH]; intros s M body.
  - cbn [forallb foreach]. split; [discriminate|]. intros _. exists s.
    split; [reflexivity|]. split; [apply marked_same_refl | intros ? ? []].
  - cbn [forallb foreach].
    destruct (marked_same_fields _ _ M) as [Hsec Hfl].
    unfold body at 1 3. cbn zeta. rewrite Hsec, (marked_same_sym_type _ _ _ M).
    unfold ignorable at 1 3.
    destruct (sym_sec (syms st (rela_sym rela))) as [symsec|] eqn:Es;
      cbn [is_some andb bind];
      [|split; [reflexivity | discriminate]].
    destruct (sym_type (syms st (rela_sym rela)) =? STT_FUNC) eqn:Et;
      cbn [negb andb bind]; [|split; [reflexivity | discriminate]].
    set (s1 := upd_sym s (rela_sym rela) (set_sym_status SAME)).
    set (s2 := upd_sec s1 symsec (set_sec_status SAME)).
    assert (M1 : marked_same s s1) by apply marked_same_upd_sym.
    assert (M2 : marked_same s1 s2) by apply marked_same_upd_sec.
    assert (M02 : marked_same st s2).
    { eapply marked_same_trans; [exact M|].
      eapply marked_same_trans; [exact M1 | exact M2]. }
    destruct (marked_same_fields _ _ M02) as [_ Hfl2].
    destruct (Hfl2 symsec) as (_ & Eq2 & _). rewrite Eq2.
    set (s3 := match sec_secsym (secs st symsec) with
               | Some q => upd_sym s2 q (set_sym_status SAME)
               | None => s2
               end).
    assert (M3 : marked_same s2 s3).
    { unfold s3. destruct (sec_secsym (secs st symsec));
        [apply marked_same_upd_sym | apply marked_same_refl]. }
    assert (M03 : marked_same st s3)
      by (eapply marked_same_trans; [exact M02 | exact M3]).
    destruct (marked_same_fields _ _ M03) as [_ Hfl3].
    destruct (Hfl3 symsec) as (_ & _ & Er3). rewrite Er3.
    set (s4 := match sec_rela (secs st symsec) with
               | Some r => upd_sec s3 r (set_sec_status SAME)
               | None => s3
               end).
    assert (M4 : marked_same s3 s4).
    { unfold s4. destruct (sec_rela (secs st symsec));
        [apply marked_same_upd_sec | apply marked_same_refl]. }
    assert (Eb : match sec_rela (secs st symsec) with
                 | Some r => Ok (upd_sec s3 r (set_sec_status SAME))
                 | None => Ok s3
                 end = Ok s4).
    { unfold s4. now destruct (sec_rela (secs st symsec)). }
    rewrite Eb. cbn [bind].
    assert (M04 : marked_same st s4)
      by (eapply marked_same_trans; [exact M03 | exact M4]).
    assert (Ms4 : marked_same s s4).
    { eapply marked_same_trans; [exact M1|].
      eapply marked_same_trans; [exact M2|].
      eapply marked_same_trans; [exact M3 | exact M4]. }
    destruct (IH s4 M04) as [IHf IHt]. fold body.
    split; [exact IHf|]. intros Hall.
    destruct (IHt Hall) as (s' & Erun & Ms' & Hmarks).
    exists s'. split; [exact Erun|].
    split; [eapply marked_same_trans; [exact Ms4 | exact Ms']|].
    intros r0 sec0 [<- | Hin] Hs0; [|now apply Hmarks].
    rewrite Es in Hs0. injection Hs0 as <-.
    split; [|split; [|split]].
    + apply (marked_same_sym_status s1 s').
      * eapply marked_same_trans; [exact M2|].
        eapply marked_same_trans; [exact M3|].
        eapply marked_same_trans; [exact M4 | exact Ms'].
      * unfold s1. cbn [upd_sym syms]. now rewrite Nat.eqb_refl.
    + apply (marked_same_sec_status s2 s').
      * eapply marked_same_trans; [exact M3|].
        eapply marked_same_trans; [exact M4 | exact Ms'].
      * unfold s2. cbn [upd_sec secs]. now rewrite Nat.eqb_refl.
    + intros q Hq. apply (marked_same_sym_status s3 s').
      * eapply marked_same_trans; [exact M4 | exact Ms'].
      * unfold s3. rewrite Hq. cbn [upd_sym syms]. now rewrite Nat.eqb_refl.
    + intros r Hr. apply (marked_same_sec_status s4 s'); [exact Ms'|].
      unfold s4. rewrite Hr. cbn [upd_sec secs]. now rewrite Nat.eqb_refl.
Qed.

(** X22.  With a section [.xsplice.ignore.functions] that has a
    relocation section, [xsplice_mark_ignored_functions_same] stops with
    an error exactly when one of its relocations refers to a symbol that
    has no section or is no function.  Otherwise it returns, and each
    function referred to is [SAME], with its section, with the section
    symbol and with the relocation section of that section; statuses are
    all that changes, and only to [SAME]. *)
Theorem xsplice_mark_ignored_functions_same_marks (kelf : xsplice_elf)
  (st : store) (sec relasec : nat) :
  find_section_by_name st (sections kelf) ".xsplice.ignore.functions"
    = Some sec ->
  sec_rela (secs st sec) = Some relasec ->
  let relas := sec_relas (secs st relasec) in
  (forallb (ignorable st) relas = false ->
   xsplice_mark_ignored_functions_same kelf st = Fail EXIT_ERROR) /\
  (forallb (ignorable st) relas = true ->
   exists st', xsplice_mark_ignored_functions_same kelf st = Ok st' /\
     marked_same st st' /\
     forall rela symsec, In rela relas ->
       sym_sec (syms st (rela_sym rela)) = Some symsec ->
       sym_status (syms st' (rela_sym rela)) = SAME /\
       sec_status (secs st' symsec) = SAME /\
       (forall q, sec_secsym (secs st symsec) = Some q ->
                  sym_status (syms st' q) = SAME) /\
       (forall r, sec_rela (secs st symsec) = Some r ->
                  sec_status (secs st' r) = SAME)).
Proof.
  intros Hf Hr relas. unfold xsplice_mark_ignored_functions_same.
  rewrite Hf, Hr. cbn [deref bind].
  exact (ignored_functions_loop st relas st (marked_same_refl st)).
Qed.

Lemma xsplice_mark_ignored_functions_same_marks_witness :
  exists st',
    xsplice_mark_ignored_functions_same IgnoreExample.kelf_ignore
      IgnoreExample.st_ignore = Ok st' /\
    sym_status (syms st' 3) = SAME /\ sec_status (secs st' 2) = SAME.
Proof.
  destruct (xsplice_mark_ignored_functions_same_marks
              IgnoreExample.kelf_ignore IgnoreExample.st_ignore 3%nat 4%nat
              eq_refl eq_refl) as [_ H].
  destruct (H eq_refl) as (st' & E & _ & Hm). exists st'.
  split; [exact E|].
  destruct (Hm (mkRela R_X86_64_64 0 0 3%nat None) 2%nat
              (or_introl eq_refl) eq_refl) as (A & B & _).
  split; [exact A | exact B].
Defined.

(** ** Special sections *)

Lemma layout_kept_refl st : layout_kept st st.
Proof. split; [apply sym_flags_only_refl | auto]. Qed.

Lemma layout_kept_trans st1 st2 st3 :
  layout_kept st1 st2 -> layout_kept st2 st3 -> layout_kept st1 st3.
Proof.
  intros [S1 L1] [S2 L2]. split; [eapply sym_flags_only_trans; eauto|].
  intros x. destruct (L1 x) as [A1 B1], (L2 x) as [A2 B2].
  rewrite A2, B2. auto.
Qed.

Lemma layout_kept_upd_sec st x f :
  (forall s, sec_name (f s) = sec_name s /\ sec_rela (f s) = sec_rela s) ->
  layout_kept st (upd_sec st x f).
Proof.
  intros Hf. split; [apply sym_flags_only_upd_sec|].
  intros y. cbn [upd_sec secs]. destruct (Nat.eqb y x); auto.
Qed.

Lemma layout_kept_move relas s z d st newrelas st' stay new' :
  move_group_relas st relas s z d newrelas = (st', stay, new') ->
  layout_kept st st'.
Proof.
  intros H. apply move_group_relas_spec in H.
  destruct H as (_ & _ & Hs & Hp). split.
  - intros p. rewrite Hp. destruct (existsb _ relas); [now exists true|].
    exists (sym_include (syms st p)). now destruct (syms st p).
  - intros x. now rewrite Hs.
Qed.

Lemma flags_only_layout st st' : flags_only st st' -> layout_kept st st'.
Proof.
  intros F. split; [exact (proj1 F)|]. intros x.
  destruct (flags_only_sec_fields st st' x F) as (_ & _ & A & _ & B). auto.
Qed.

Lemma regenerate_groups_layout group_size sec base src (fuel : nat) :
  forall st newrelas dest src_offset dest_offset st' n' d' s' e',
    regenerate_groups fuel group_size sec base src st newrelas dest
                      src_offset dest_offset = Ok (st', n', d', s', e') ->
    layout_kept st st'.
Proof.
  induction fuel as [|fuel IH]; intros st newrelas dest so d_o st' n' d' s' e';
    cbn [regenerate_groups]; [discriminate|].
  destruct (negb (to_u64 so <? sh_size (secs st base)));
    [intros [= <- _ _ _ _]; apply layout_kept_refl|].
  destruct (group_size st so) as [size|]; cbn [bind]; [|discriminate].
  destruct (should_keep_rela_group st sec so size) as [[|]|]; cbn [bind negb];
    [| apply IH | discriminate].
  destruct (move_group_relas st (sec_relas (secs st sec)) so size d_o newrelas)
    as [[st1 stay] new1] eqn:Em.
  apply layout_kept_move in Em.
  match goal with |- context [memcpy_group ?a ?b ?c ?d ?e] =>
    destruct (memcpy_group a b c d e) as [bytes|]; cbn [bind];
      [|discriminate] end.
  intros H. apply IH in H.
  eapply layout_kept_trans; [exact Em|].
  eapply layout_kept_trans; [|exact H].
  apply layout_kept_upd_sec. intros s. split; reflexivity.
Qed.

Lemma xsplice_regenerate_special_section_layout fuel group_size st sec st' :
  xsplice_regenerate_special_section fuel group_size st sec = Ok st' ->
  layout_kept st st'.
Proof.
  unfold xsplice_regenerate_special_section.
  destruct (sec_base (secs st sec)) as [base|]; cbn [deref bind];
    [|discriminate].
  match goal with |- context [regenerate_groups ?a ?b ?c ?d ?e ?f ?g ?h ?i ?j] =>
    destruct (regenerate_groups a b c d e f g h i j)
      as [[[[[st1 n1] d1] s1] e1]|] eqn:Er; cbn [bind]; [|discriminate] end.
  apply regenerate_groups_layout in Er.
  destruct (to_u64 (wrap_int (sh_addralign (secs st1 base))) =? 0);
    [discriminate|].
  match goal with |- context [negb ?c] => destruct c end; cbn [negb];
    [|discriminate].
  destruct (e1 =? 0); intros [= <-];
    (eapply layout_kept_trans; [exact Er|]);
    repeat (eapply layout_kept_trans;
            [|apply layout_kept_upd_sec; intros s; split; reflexivity]);
    apply layout_kept_refl.
Qed.

(** X23.  When [xsplice_process_special_sections] returns, every
    [.altinstr_replacement] section of the section list is included
    whole: the section, every symbol of the symbol list that lies in it,
    its relocation section, and every symbol that a relocation of that
    section refers to. *)
Theorem xsplice_process_special_sections_replacement (fuel : nat)
  (kelf : xsplice_elf) (st st' : store) :
  xsplice_process_special_sections fuel kelf st = Ok st' ->
  layout_kept st st' /\
  forall sec, In sec (sections kelf) ->
    sec_name (secs st sec) = ".altinstr_replacement" ->
    sec_include (secs st' sec) = true /\
    (forall p, In p (symbols kelf) -> sym_sec (syms st p) = Some sec ->
               sym_include (syms st' p) = true) /\
    (forall r, sec_rela (secs st sec) = Some r ->
       sec_include (secs st' r) = true /\
       forall rela, In rela (sec_relas (secs st' r)) ->
                    sym_include (syms st' (rela_sym rela)) = true).
Proof.
  unfold xsplice_process_special_sections.
  match goal with |- context [bind (foreach ?l ?f ?s) _] =>
    destruct (foreach l f s) as [s1|] eqn:E1; cbn [bind]; [|discriminate] end.
  apply (foreach_preserves (fun _ => True) layout_kept) in E1;
    [|apply layout_kept_refl | apply layout_kept_trans | | exact I].
  2:{ intros s special s' _ _ H. split; [exact I|].
      destruct (find_section_by_name s (sections kelf) (special_name special))
        as [sec|]; [|injection H as <-; apply layout_kept_refl].
      destruct (sec_rela (secs s sec)) as [r|];
        [|injection H as <-; apply layout_kept_refl].
      eapply xsplice_regenerate_special_section_layout; eassumption. }
  destruct E1 as [_ L1]. intros E2.
  apply (foreach_establishes
           (fun s => grows s1 s) grows
           (fun sec s =>
              sec_name (secs s1 sec) = ".altinstr_replacement" ->
              sec_include (secs s sec) = true /\
              (forall p, In p (symbols kelf) ->
                         sym_sec (syms s1 p) = Some sec ->
                         sym_include (syms s p) = true) /\
              (forall r, sec_rela (secs s1 sec) = Some r ->
                 sec_include (secs s r) = true /\
                 forall rela, In rela (sec_relas (secs s1 r)) ->
                              sym_include (syms s (rela_sym rela)) = true)))
    in E2.
  - destruct E2 as (G & _ & H).
    split; [eapply layout_kept_trans;
              [exact L1 | apply flags_only_layout; exact (proj1 G)]|].
    intros sec Hin Hn. destruct L1 as [S1 C1].
    destruct (C1 sec) as [En Er].
    destruct (H sec Hin) as (A & B & C); [now rewrite En|].
    split; [exact A|]. split.
    + intros p Hp Hs. apply B; [exact Hp|].
      destruct (S1 p) as [b ->]. exact Hs.
    + intros r Hr. rewrite <- Er in Hr. destruct (C r Hr) as [C1' C2].
      split; [exact C1'|]. intros rela Hrela. apply C2.
      destruct (flags_only_sec_fields s1 st' r (proj1 G)) as (<- & _).
      exact Hrela.
  - apply grows_refl.
  - apply grows_trans.
  - intros s sec s' _ G.
    destruct (flags_only_sec_fields s1 s sec (proj1 G)) as (_ & _ & Er & _ & En).
    rewrite En.
    destruct (streq (sec_name (secs s1 sec)) ".altinstr_replacement") eqn:Eq;
      cbn [negb].
    2:{ intros [= <-]. split; [exact G|]. split; [apply grows_refl|].
        intros Hn. apply streq_eq in Hn. congruence. }
    set (sa := upd_sec s sec (set_sec_include true)).
    assert (Ga : grows s sa) by apply grows_include_sec.
    match goal with |- context [bind (foreach ?l ?f ?s0) _] =>
      destruct (foreach l f s0) as [sb|] eqn:Eb; cbn [bind];
        [|discriminate] end.
    apply (foreach_establishes
             (fun t => grows s1 t) grows
             (fun p t => sym_sec (syms s1 p) = Some sec ->
                         sym_include (syms t p) = true)) in Eb.
    + destruct Eb as (G1b & Gab & Hsyms).
      destruct (flags_only_sec_fields s1 sb sec (proj1 G1b))
        as (_ & _ & Erb & _).
      rewrite Erb.
      assert (Sa : sec_include (secs sa sec) = true).
      { unfold sa. cbn [upd_sec secs]. now rewrite Nat.eqb_refl. }
      destruct (sec_rela (secs s1 sec)) as [r|] eqn:Err.
      * set (sc := upd_sec sb r (set_sec_include true)).
        assert (Gc : grows sb sc) by apply grows_include_sec.
        assert (G1c : grows s1 sc) by (eapply grows_trans; eauto).
        assert (Sc : sec_include (secs sc r) = true).
        { unfold sc. cbn [upd_sec secs]. now rewrite Nat.eqb_refl. }
        destruct (flags_only_sec_fields s1 sc r (proj1 G1c)) as (Erl & _).
        rewrite Erl. intros Ed.
        apply (foreach_establishes
                 (fun t => grows s1 t) grows
                 (fun rela t => sym_include (syms t (rela_sym rela)) = true))
          in Ed.
        -- destruct Ed as (G1' & Gc' & Hrel).
           assert (Gs : grows s s').
           { eapply grows_trans; [exact Ga|].
             eapply grows_trans; [exact Gab|].
             eapply grows_trans; [exact Gc | exact Gc']. }
           split; [exact G1'|]. split; [exact Gs|]. intros _.
           split; [|split].
           ++ apply (grows_sec_include sa s'); [|exact Sa].
              eapply grows_trans; [exact Gab|].
              eapply grows_trans; [exact Gc | exact Gc'].
           ++ intros p Hp Hs. apply (grows_sym_include sb s');
                [eapply grows_trans; [exact Gc | exact Gc'] | now apply Hsyms].
           ++ intros r0 [= <-].
              split; [apply (grows_sec_include sc s'); assumption | exact Hrel].
        -- apply grows_refl.
        -- apply grows_trans.
        -- intros t rela t' _ Gt [= <-].
           split; [eapply grows_trans; [exact Gt | apply grows_include_sym]|].
           split; [apply grows_include_sym|].
           cbn [upd_sym syms]. now rewrite Nat.eqb_refl.
        -- intros rela t t' Gt. now apply grows_sym_include.
        -- exact G1c.
      * intros [= <-].
        split; [exact G1b|].
        split; [eapply grows_trans; [exact Ga | exact Gab]|]. intros _.
        split; [apply (grows_sec_include sa sb); assumption|].
        split; [exact Hsyms | discriminate].
    + apply grows_refl.
    + apply grows_trans.
    + intros t p t' _ Gt.
      destruct (flags_only_sym_fields s1 t p (proj1 Gt)) as (Es & _).
      rewrite Es.
      destruct (ptr_is (sym_sec (syms s1 p)) sec) eqn:Ep; intros [= <-].
      * split; [eapply grows_trans; [exact Gt | apply grows_include_sym]|].
        split; [apply grows_include_sym|]. intros _.
        cbn [upd_sym syms]. now rewrite Nat.eqb_refl.
      * split; [exact Gt|]. split; [apply grows_refl|].
        intros Hs. rewrite Hs in Ep. cbn [ptr_is] in Ep.
        now rewrite Nat.eqb_refl in Ep.
    + intros p t t' Gt H Hs. eapply grows_sym_include; eauto.
    + eapply grows_trans; [exact G | exact Ga].
  - intros sec s s' Gs H Hn. destruct (H Hn) as (A & B & C).
    split; [eapply grows_sec_include; eauto|].
    split; [intros p Hp Hs; eapply grows_sym_include; eauto|].
    intros r Hr. destruct (C r Hr) as [C1 C2].
    split; [eapply grows_sec_include; eauto|].
    intros rela Hrela. eapply grows_sym_include; eauto.
  - apply grows_refl.
Qed.

Lemma xsplice_process_special_sections_replacement_witness :
  exists st',
    xsplice_process_special_sections 37 ReplacementExample.kelf_repl
      ReplacementExample.st_repl = Ok st' /\
    sec_include (secs st' 4) = true /\ sym_include (syms st' 3) = true /\
    sec_include (secs st' 5) = true /\ sym_include (syms st' 2) = true.
Proof.
  assert (E : is_ok (xsplice_process_special_sections 37
                       ReplacementExample.kelf_repl
                       ReplacementExample.st_repl) = true)
    by (vm_compute; reflexivity).
  apply is_ok_Ok in E. destruct E as [st' E]. exists st'.
  split; [exact E|].
  destruct (xsplice_process_special_sections_replacement _ _ _ _ E)
    as [_ H].
  destruct (H 4%nat) as (A & B & C);
    [vm_compute; auto 10 | vm_compute; reflexivity |].
  split; [exact A|].
  split; [apply B; [vm_compute; auto 10 | vm_compute; reflexivity]|].
  destruct (C 5%nat) as [C1 C2]; [vm_compute; reflexivity|].
  split; [exact C1|].
  apply (C2 (IncludeExamples.call 2)).
  rewrite (store_after_Ok _ ReplacementExample.st_repl _ E).
  vm_compute. now left.
Defined.

(** ** Comparison of symbols *)

Section CompareSymbols.

Variable st : store.

Lemma visited_fields s p :
  visited st s ->
  sym_twin (syms s p) = sym_twin (syms st p) /\
  st_info (syms s p) = st_info (syms st p) /\
  st_other (syms s p) = st_other (syms st p) /\
  sym_sec (syms s p) = sym_sec (syms st p) /\
  sym_type (syms s p) = sym_type (syms st p) /\
  st_size (syms s p) = st_size (syms st p) /\
  st_shndx (syms s p) = st_shndx (syms st p).
Proof. intros [_ H]. destruct (H p) as [-> | ->]; repeat split. Qed.

Lemma compare_correlated_symbol_step s sym twin :
  visited st s -> sym_twin (syms st sym) = Some twin ->
  (symbol_mismatch st sym = true ->
   xsplice_compare_correlated_symbol s sym = Fail EXIT_DIFF_FATAL) /\
  (symbol_mismatch st sym = false ->
   exists s', xsplice_compare_correlated_symbol s sym = Ok s' /\
     (forall x, secs s' x = secs s x) /\
     (forall q, q <> sym -> syms s' q = syms s q) /\
     syms s' sym = set_sym_status (compared_status st sym) (syms st sym)).
Proof.
  intros V Ht. unfold xsplice_compare_correlated_symbol, symbol_mismatch,
    compared_status.
  destruct (visited_fields s sym V) as (E1 & E2 & E3 & E4 & E5 & E6 & E7).
  destruct (visited_fields s twin V) as (_ & F2 & F3 & F4 & _ & F6 & _).
  rewrite E1, Ht. cbn [deref bind]. cbn zeta.
  rewrite E2, E3, E4, E5, E6, E7, F2, F3, F4, F6.
  unfold symbol_moved, out_of_ignored.
  destruct (st_info (syms st sym) =? st_info (syms st twin)); cbn [negb orb];
    [|split; [reflexivity | discriminate]].
  destruct (st_other (syms st sym) =? st_other (syms st twin));
    cbn [negb orb]; [|split; [reflexivity | discriminate]].
  destruct (sym_sec (syms st sym)) as [sec1|] eqn:Es1,
           (sym_sec (syms st twin)) as [sec2|] eqn:Es2;
    cbn [is_some negb andb orb Bool.eqb bind];
    try (split; [reflexivity | discriminate]).
  - rewrite (proj1 V sec1).
    destruct (negb (ptr_is (sec_twin (secs st sec1)) sec2)) eqn:Emv;
      cbn [andb orb].
    + rewrite (proj1 V sec2).
      destruct (sec_twin (secs st sec2)) as [t|]; cbn [negb orb bind];
        [|split; [reflexivity | discriminate]].
      rewrite (proj1 V t).
      destruct (sec_ignore (secs st t)); cbn [negb orb bind];
        [|split; [reflexivity | discriminate]].
      destruct ((sym_type (syms st sym) =? STT_OBJECT) &&
                negb (st_size (syms st sym) =? st_size (syms st twin)));
        [split; [reflexivity | discriminate]|].
      split; [discriminate|]. intros _.
      destruct ((st_shndx (syms st sym) =? SHN_UNDEF) ||
                (st_shndx (syms st sym) =? SHN_ABS)).
      * eexists. split; [reflexivity|]. split; [reflexivity|].
        split.
        -- intros q Hq. cbn [upd_sym syms].
           apply Nat.eqb_neq in Hq. now rewrite Hq.
        -- cbn [upd_sym syms]. rewrite Nat.eqb_refl.
           destruct (proj2 V sym) as [-> | ->]; reflexivity.
      * eexists. split; [reflexivity|]. split; [reflexivity|].
        split.
        -- intros q Hq. cbn [upd_sym syms].
           apply Nat.eqb_neq in Hq. now rewrite Hq.
        -- cbn [upd_sym syms]. rewrite Nat.eqb_refl.
           destruct (proj2 V sym) as [-> | ->]; reflexivity.
    + destruct ((sym_type (syms st sym) =? STT_OBJECT) &&
                negb (st_size (syms st sym) =? st_size (syms st twin)));
        [split; [reflexivity | discriminate]|].
      split; [discriminate|]. intros _.
      destruct ((st_shndx (syms st sym) =? SHN_UNDEF) ||
                (st_shndx (syms st sym) =? SHN_ABS)) eqn:Eu.
      * eexists. split; [reflexivity|]. split; [reflexivity|].
        split.
        -- intros q Hq. cbn [upd_sym syms].
           apply Nat.eqb_neq in Hq. now rewrite Hq.
        -- cbn [upd_sym syms]. rewrite Nat.eqb_refl.
           destruct (proj2 V sym) as [-> | ->]; reflexivity.
      * exists s. split; [reflexivity|]. split; [reflexivity|].
        split; [reflexivity|].
        destruct (proj2 V sym) as [E | E]; rewrite E.
        -- now destruct (syms st sym).
        -- unfold compared_status, symbol_moved.
           rewrite Ht, Eu, Es1, Es2, Emv. reflexivity.
  - destruct ((sym_type (syms st sym) =? STT_OBJECT) &&
              negb (st_size (syms st sym) =? st_size (syms st twin)));
      [split; [reflexivity | discriminate]|].
    split; [discriminate|]. intros _.
    destruct ((st_shndx (syms st sym) =? SHN_UNDEF) ||
              (st_shndx (syms st sym) =? SHN_ABS)) eqn:Eu.
    + eexists. split; [reflexivity|]. split; [reflexivity|].
      split.
      * intros q Hq. cbn [upd_sym syms].
        apply Nat.eqb_neq in Hq. now rewrite Hq.
      * cbn [upd_sym syms]. rewrite Nat.eqb_refl.
        destruct (proj2 V sym) as [-> | ->]; reflexivity.
    + exists s. split; [reflexivity|]. split; [reflexivity|].
      split; [reflexivity|].
      destruct (proj2 V sym) as [E | E]; rewrite E.
      * now destruct (syms st sym).
      * unfold compared_status, symbol_moved.
        rewrite Ht, Eu, Es1. reflexivity.
Qed.

Lemma compare_symbols_loop (l : list nat) : forall s,
  visited st s ->
  (existsb (symbol_mismatch st) l = true ->
   xsplice_compare_symbols s l = Fail EXIT_DIFF_FATAL) /\
  (existsb (symbol_mismatch st) l = false ->
   exists s', xsplice_compare_symbols s l = Ok s' /\ visited st s' /\
     (forall p, syms s p
                = set_sym_status (compared_status st p) (syms st p) ->
                syms s' p
                = set_sym_status (compared_status st p) (syms st p)) /\
     forall p, In p l ->
       syms s' p = set_sym_status (compared_status st p) (syms st p)).
Proof.
  unfold xsplice_compare_symbols.
  induction l as [|sym l IH]; intros s V; cbn [existsb foreach].
  - split; [discriminate|]. intros _. exists s.
    split; [reflexivity|]. split; [exact V|]. split; [auto | intros p []].
  - destruct (visited_fields s sym V) as (E1 & _). rewrite E1.
    assert (Hstep :
      (symbol_mismatch st sym = true ->
       (if is_some (sym_twin (syms st sym))
        then xsplice_compare_correlated_symbol s sym
        else Ok (upd_sym s sym (set_sym_status NEW)))
       = Fail EXIT_DIFF_FATAL) /\
      (symbol_mismatch st sym = false ->
       exists s1,
         (if is_some (sym_twin (syms st sym))
          then xsplice_compare_correlated_symbol s sym
          else Ok (upd_sym s sym (set_sym_status NEW))) = Ok s1 /\
         (forall x, secs s1 x = secs s x) /\
         (forall q, q <> sym -> syms s1 q = syms s q) /\
         syms s1 sym
         = set_sym_status (compared_status st sym) (syms st sym))).
    { destruct (sym_twin (syms st sym)) as [twin|] eqn:Ht; cbn [is_some].
      - exact (compare_correlated_symbol_step s sym twin V Ht).
      - split; [unfold symbol_mismatch; rewrite Ht; discriminate|].
        intros _. eexists. split; [reflexivity|]. split; [reflexivity|].
        split.
        + intros q Hq. cbn [upd_sym syms].
          apply Nat.eqb_neq in Hq. now rewrite Hq.
        + cbn [upd_sym syms]. rewrite Nat.eqb_refl.
          unfold compared_status. rewrite Ht.
          destruct (proj2 V sym) as [-> | ->]; reflexivity. }
    destruct Hstep as [Hbad Hgood].
    destruct (symbol_mismatch st sym); cbn [orb].
    + split; [|discriminate]. intros _. now rewrite (Hbad eq_refl).
    + destruct (Hgood eq_refl) as (s1 & Es1 & Hsecs & Hoth & Hsym).
      rewrite Es1. cbn [bind].
      assert (V1 : visited st s1).
      { split; [intros x; rewrite Hsecs; apply (proj1 V)|].
        intros p. destruct (Nat.eq_dec p sym) as [->|Hne];
          [now right | rewrite (Hoth p Hne); apply (proj2 V)]. }
      destruct (IH s1 V1) as [IHbad IHgood].
      split; [exact IHbad|]. intros Hall.
      destruct (IHgood Hall) as (s' & Erun & V' & Hstable & Hin).
      exists s'. split; [exact Erun|]. split; [exact V'|]. split.
      * intros p Hp. apply Hstable.
        destruct (Nat.eq_dec p sym) as [->|Hne];
          [exact Hsym | now rewrite (Hoth p Hne)].
      * intros p [<- | Hp]; [now apply Hstable | now apply Hin].
Qed.

End CompareSymbols.

(** X24.  [xsplice_compare_symbols] stops with [DIFF_FATAL] exactly when
    some symbol of the list differs from its twin in [st_info] or
    [st_other], in having a section, in the size of an object, or lies in
    a section that is not the twin of its twin's section without having
    left an ignored section.  Otherwise it returns, sections are as
    before, symbols differ in their status only, and every symbol of the
    list is [NEW] without a twin and else [SAME] when undefined or
    absolute, [CHANGED] when it has moved, and as it was otherwise. *)
Theorem xsplice_compare_symbols_verdict (st : store) (symlist : list nat) :
  (existsb (symbol_mismatch st) symlist = true ->
   xsplice_compare_symbols st symlist = Fail EXIT_DIFF_FATAL) /\
  (existsb (symbol_mismatch st) symlist = false ->
   exists st', xsplice_compare_symbols st symlist = Ok st' /\
     (forall x, secs st' x = secs st x) /\
     (forall p, exists v, syms st' p = set_sym_status v (syms st p)) /\
     forall p, In p symlist ->
       syms st' p = set_sym_status (compared_status st p) (syms st p)).
Proof.
  assert (V : visited st st) by (split; [reflexivity | now left]).
  destruct (compare_symbols_loop st symlist st V) as [Hbad Hgood].
  split; [exact Hbad|]. intros Hall.
  destruct (Hgood Hall) as (st' & Erun & [Hsecs Hsyms] & _ & Hin).
  exists st'. split; [exact Erun|]. split; [exact Hsecs|].
  split; [|exact Hin].
  intros p. destruct (Hsyms p) as [E | E]; rewrite E.
  - exists (sym_status (syms st p)). now destruct (syms st p).
  - eexists. reflexivity.
Qed.
